(** * Radix-4 Q31 complex FFT butterfly engines (riscv_cfft_radix4_q31.c)

    A shallow embedding of the forward and inverse radix-4 butterfly engines
    and of the transform dispatcher, over a flat memory of q31_t cells, and
    the properties of the three processing stages. *)

From Stdlib Require Import ZArith Lia List Bool.
Import ListNotations.
Local Open Scope Z_scope.

(** ** Machine arithmetic

    [q31_t] is a 32-bit two's complement integer, [q63_t] a 64-bit one and
    [uint32_t] a 32-bit unsigned integer.  Values are carried as [Z] and the
    wrap-around of every 32-bit operation is written out. *)

Definition wrap32 (x : Z) : Z := (x + 2 ^ 31) mod 2 ^ 32 - 2 ^ 31.

Definition u32 (x : Z) : Z := x mod 2 ^ 32.

Definition q31_range (x : Z) : Prop := - 2 ^ 31 <= x < 2 ^ 31.

(** [a + b] and [a - b] on [q31_t]. *)
Definition add32 (a b : Z) : Z := wrap32 (a + b).
Definition sub32 (a b : Z) : Z := wrap32 (a - b).

(** [a >> n] on [q31_t]: the shift is arithmetic. *)
Definition asr32 (a n : Z) : Z := Z.shiftr a n.

(** [a << n] on [q31_t]. *)
Definition shl32 (a n : Z) : Z := wrap32 (Z.shiftl a n).

(** [(int32_t) (((q63_t) a * b) >> 32)]: the high word of the signed 64-bit
    product.  The product of two 32-bit operands always fits 64 bits. *)
Definition mulhi32 (a b : Z) : Z := wrap32 (Z.shiftr (a * b) 32).

(** ** Memory

    One flat store of [q31_t] cells addressed in element units; a pointer
    [q31_t *p] is the address of its cell and [p[i]] is the cell [p + i]. *)

Definition mem : Type := Z -> Z.

Definition store (m : mem) (a v : Z) : mem :=
  fun x => if x =? a then v else m x.

Definition q31_mem (m : mem) : Prop := forall a, q31_range (m a).

(** The locals of the butterfly loops that survive one loop iteration. *)
Record loop_state : Type := mkLoop {
  ls_mem : mem;
  ls_pSi0 : Z;
  ls_pSi1 : Z;
  ls_pSi2 : Z;
  ls_pSi3 : Z;
  ls_ia1 : Z
}.

(** [do { body } while (--j)] on a [uint32_t] counter: the body runs, the
    counter is decremented modulo 2^32 and the loop goes on while it is not
    zero.  [trips j] bounds the number of iterations. *)
Definition trips (j : Z) : nat := Z.to_nat (if j =? 0 then 2 ^ 32 else j).

Fixpoint do_while {S : Type} (fuel : nat) (body : S -> S) (j : Z) (s : S) : S :=
  match fuel with
  | O => s
  | Datatypes.S fuel' =>
      let s' := body s in
      let j' := u32 (j - 1) in
      if j' =? 0 then s' else do_while fuel' body j' s'
  end.

(** ** Forward engine: riscv_radix4_butterfly_q31 *)

(** Body of the first-stage loop (lines 208-294). *)
Definition first_stage_body (pCoef twidCoefModifier : Z) (s : loop_state)
  : loop_state :=
  let m := ls_mem s in
  let pSi0 := ls_pSi0 s in
  let pSi1 := ls_pSi1 s in
  let pSi2 := ls_pSi2 s in
  let pSi3 := ls_pSi3 s in
  let ia1 := ls_ia1 s in
  (* xa + xc *)
  let r1 := add32 (asr32 (m pSi0) 4) (asr32 (m pSi2) 4) in
  (* xa - xc *)
  let r2 := sub32 (asr32 (m pSi0) 4) (asr32 (m pSi2) 4) in
  (* xb + xd *)
  let t1 := add32 (asr32 (m pSi1) 4) (asr32 (m pSi3) 4) in
  (* ya + yc *)
  let s1 := add32 (asr32 (m (pSi0 + 1)) 4) (asr32 (m (pSi2 + 1)) 4) in
  (* ya - yc *)
  let s2 := sub32 (asr32 (m (pSi0 + 1)) 4) (asr32 (m (pSi2 + 1)) 4) in
  (* xa' = xa + xb + xc + xd *)
  let m := store m pSi0 (add32 r1 t1) in
  let pSi0 := pSi0 + 1 in
  (* (xa + xc) - (xb + xd) *)
  let r1 := sub32 r1 t1 in
  (* yb + yd *)
  let t2 := add32 (asr32 (m (pSi1 + 1)) 4) (asr32 (m (pSi3 + 1)) 4) in
  (* ya' = ya + yb + yc + yd *)
  let m := store m pSi0 (add32 s1 t2) in
  let pSi0 := pSi0 + 1 in
  (* (ya + yc) - (yb + yd) *)
  let s1 := sub32 s1 t2 in
  (* yb - yd *)
  let t1 := sub32 (asr32 (m (pSi1 + 1)) 4) (asr32 (m (pSi3 + 1)) 4) in
  (* xb - xd *)
  let t2 := sub32 (asr32 (m pSi1) 4) (asr32 (m pSi3) 4) in
  (* index calculation for the coefficients *)
  let ia2 := u32 (2 * ia1) in
  let co2 := m (pCoef + u32 (ia2 * 2)) in
  let si2 := m (pCoef + u32 (u32 (ia2 * 2) + 1)) in
  (* xc' = (xa-xb+xc-xd)co2 + (ya-yb+yc-yd)(si2) *)
  let m := store m pSi1 (shl32 (add32 (mulhi32 r1 co2) (mulhi32 s1 si2)) 1) in
  let pSi1 := pSi1 + 1 in
  (* yc' = (ya-yb+yc-yd)co2 - (xa-xb+xc-xd)(si2) *)
  let m := store m pSi1 (shl32 (sub32 (mulhi32 s1 co2) (mulhi32 r1 si2)) 1) in
  let pSi1 := pSi1 + 1 in
  (* (xa - xc) + (yb - yd) *)
  let r1 := add32 r2 t1 in
  (* (xa - xc) - (yb - yd) *)
  let r2 := sub32 r2 t1 in
  (* (ya - yc) - (xb - xd) *)
  let s1 := sub32 s2 t2 in
  (* (ya - yc) + (xb - xd) *)
  let s2 := add32 s2 t2 in
  let co1 := m (pCoef + u32 (ia1 * 2)) in
  let si1 := m (pCoef + u32 (u32 (ia1 * 2) + 1)) in
  (* xb' = (xa+yb-xc-yd)co1 + (ya-xb-yc+xd)(si1) *)
  let m := store m pSi2 (shl32 (add32 (mulhi32 r1 co1) (mulhi32 s1 si1)) 1) in
  let pSi2 := pSi2 + 1 in
  (* yb' = (ya-xb-yc+xd)co1 - (xa+yb-xc-yd)(si1) *)
  let m := store m pSi2 (shl32 (sub32 (mulhi32 s1 co1) (mulhi32 r1 si1)) 1) in
  let pSi2 := pSi2 + 1 in
  (* index calculation for the coefficients *)
  let ia3 := u32 (3 * ia1) in
  let co3 := m (pCoef + u32 (ia3 * 2)) in
  let si3 := m (pCoef + u32 (u32 (ia3 * 2) + 1)) in
  (* xd' = (xa-yb-xc+yd)co3 + (ya+xb-yc-xd)(si3) *)
  let m := store m pSi3 (shl32 (add32 (mulhi32 r2 co3) (mulhi32 s2 si3)) 1) in
  let pSi3 := pSi3 + 1 in
  (* yd' = (ya+xb-yc-xd)co3 - (xa-yb-xc+yd)(si3) *)
  let m := store m pSi3 (shl32 (sub32 (mulhi32 s2 co3) (mulhi32 r2 si3)) 1) in
  let pSi3 := pSi3 + 1 in
  (* Twiddle coefficients index modifier *)
  let ia1 := u32 (ia1 + twidCoefModifier) in
  mkLoop m pSi0 pSi1 pSi2 pSi3 ia1.

(** Body of the innermost middle-stage loop (lines 336-415); the six
    coefficients were read by the enclosing loop. *)
Definition middle_stage_body (n1 co1 si1 co2 si2 co3 si3 : Z) (s : loop_state)
  : loop_state :=
  let m := ls_mem s in
  let pSi0 := ls_pSi0 s in
  let pSi1 := ls_pSi1 s in
  let pSi2 := ls_pSi2 s in
  let pSi3 := ls_pSi3 s in
  (* xa + xc *)
  let r1 := add32 (m pSi0) (m pSi2) in
  (* xa - xc *)
  let r2 := sub32 (m pSi0) (m pSi2) in
  (* ya + yc *)
  let s1 := add32 (m (pSi0 + 1)) (m (pSi2 + 1)) in
  (* ya - yc *)
  let s2 := sub32 (m (pSi0 + 1)) (m (pSi2 + 1)) in
  (* xb + xd *)
  let t1 := add32 (m pSi1) (m pSi3) in
  (* xa' = xa + xb + xc + xd *)
  let m := store m pSi0 (asr32 (add32 r1 t1) 2) in
  (* xa + xc -(xb + xd) *)
  let r1 := sub32 r1 t1 in
  (* yb + yd *)
  let t2 := add32 (m (pSi1 + 1)) (m (pSi3 + 1)) in
  (* ya' = ya + yb + yc + yd *)
  let m := store m (pSi0 + 1) (asr32 (add32 s1 t2) 2) in
  let pSi0 := pSi0 + u32 (2 * n1) in
  (* (ya + yc) - (yb + yd) *)
  let s1 := sub32 s1 t2 in
  (* (yb - yd) *)
  let t1 := sub32 (m (pSi1 + 1)) (m (pSi3 + 1)) in
  (* (xb - xd) *)
  let t2 := sub32 (m pSi1) (m pSi3) in
  (* xc' = (xa-xb+xc-xd)co2 + (ya-yb+yc-yd)(si2) *)
  let m := store m pSi1 (asr32 (add32 (mulhi32 r1 co2) (mulhi32 s1 si2)) 1) in
  (* yc' = (ya-yb+yc-yd)co2 - (xa-xb+xc-xd)(si2) *)
  let m :=
    store m (pSi1 + 1) (asr32 (sub32 (mulhi32 s1 co2) (mulhi32 r1 si2)) 1) in
  let pSi1 := pSi1 + u32 (2 * n1) in
  (* (xa - xc) + (yb - yd) *)
  let r1 := add32 r2 t1 in
  (* (xa - xc) - (yb - yd) *)
  let r2 := sub32 r2 t1 in
  (* (ya - yc) -  (xb - xd) *)
  let s1 := sub32 s2 t2 in
  (* (ya - yc) +  (xb - xd) *)
  let s2 := add32 s2 t2 in
  (* xb' = (xa+yb-xc-yd)co1 + (ya-xb-yc+xd)(si1) *)
  let m := store m pSi2 (asr32 (add32 (mulhi32 r1 co1) (mulhi32 s1 si1)) 1) in
  (* yb' = (ya-xb-yc+xd)co1 - (xa+yb-xc-yd)(si1) *)
  let m :=
    store m (pSi2 + 1) (asr32 (sub32 (mulhi32 s1 co1) (mulhi32 r1 si1)) 1) in
  let pSi2 := pSi2 + u32 (2 * n1) in
  (* xd' = (xa-yb-xc+yd)co3 + (ya+xb-yc-xd)(si3) *)
  let m := store m pSi3 (asr32 (add32 (mulhi32 r2 co3) (mulhi32 s2 si3)) 1) in
  (* yd' = (ya+xb-yc-xd)co3 - (xa-yb-xc+yd)(si3) *)
  let m :=
    store m (pSi3 + 1) (asr32 (sub32 (mulhi32 s2 co3) (mulhi32 r2 si3)) 1) in
  let pSi3 := pSi3 + u32 (2 * n1) in
  mkLoop m pSi0 pSi1 pSi2 pSi3 (ls_ia1 s).

(** [for (i0 = j; i0 < fftLen; i0 += n1)], lines 336-415. *)
Fixpoint middle_i0_loop (fuel : nat) (body : loop_state -> loop_state)
  (fftLen n1 i0 : Z) (s : loop_state) : loop_state :=
  match fuel with
  | O => s
  | S fuel' =>
      if i0 <? fftLen
      then middle_i0_loop fuel' body fftLen n1 (u32 (i0 + n1)) (body s)
      else s
  end.

(** Body of [for (j = 0u; j <= (n2 - 1u); j++)], lines 317-416: the
    coefficients are read, the index is advanced, the four cursors are set
    and the inner loop runs. *)
Definition middle_j_body
  (butterfly : Z -> Z -> Z -> Z -> Z -> Z -> Z -> loop_state -> loop_state)
  (pSrc fftLen pCoef twidCoefModifier n1 n2 j : Z) (s : loop_state)
  : loop_state :=
  let m := ls_mem s in
  let ia1 := ls_ia1 s in
  (* index calculation for the coefficients *)
  let ia2 := u32 (ia1 + ia1) in
  let ia3 := u32 (ia2 + ia1) in
  let co1 := m (pCoef + u32 (ia1 * 2)) in
  let si1 := m (pCoef + u32 (u32 (ia1 * 2) + 1)) in
  let co2 := m (pCoef + u32 (ia2 * 2)) in
  let si2 := m (pCoef + u32 (u32 (ia2 * 2) + 1)) in
  let co3 := m (pCoef + u32 (ia3 * 2)) in
  let si3 := m (pCoef + u32 (u32 (ia3 * 2) + 1)) in
  (* Twiddle coefficients index modifier *)
  let ia1 := u32 (ia1 + twidCoefModifier) in
  let pSi0 := pSrc + u32 (2 * j) in
  let pSi1 := pSi0 + u32 (2 * n2) in
  let pSi2 := pSi1 + u32 (2 * n2) in
  let pSi3 := pSi2 + u32 (2 * n2) in
  middle_i0_loop (Z.to_nat fftLen)
    (butterfly n1 co1 si1 co2 si2 co3 si3) fftLen n1 j
    (mkLoop m pSi0 pSi1 pSi2 pSi3 ia1).

Fixpoint middle_j_loop (fuel : nat) (body : Z -> loop_state -> loop_state)
  (n2 j : Z) (s : loop_state) : loop_state :=
  match fuel with
  | O => s
  | S fuel' =>
      if j <=? u32 (n2 - 1)
      then middle_j_loop fuel' body n2 (u32 (j + 1)) (body j s)
      else s
  end.

(** One pass of [for (k = fftLen / 4u; k > 4u; k >>= 2u)], lines 311-417;
    the locals [n2] and [twidCoefModifier] travel with the loop state. *)
Definition middle_stage
  (butterfly : Z -> Z -> Z -> Z -> Z -> Z -> Z -> loop_state -> loop_state)
  (pSrc fftLen pCoef : Z) (st : loop_state * Z * Z) : loop_state * Z * Z :=
  let '(s, n2, twidCoefModifier) := st in
  (* Initializations for the first stage *)
  let n1 := n2 in
  let n2 := Z.shiftr n2 2 in
  let ia1 := 0 in
  let s :=
    middle_j_loop (Z.to_nat n2)
      (middle_j_body butterfly pSrc fftLen pCoef twidCoefModifier n1 n2)
      n2 0
      (mkLoop (ls_mem s) (ls_pSi0 s) (ls_pSi1 s) (ls_pSi2 s) (ls_pSi3 s) ia1)
  in
  (s, n2, u32 (Z.shiftl twidCoefModifier 2)).

(** The loop over the middle stages.  A [uint32_t] that is quartered while
    it exceeds 4 does so at most 15 times, so 16 units of fuel never run
    out. *)
Fixpoint middle_stages (fuel : nat)
  (butterfly : Z -> Z -> Z -> Z -> Z -> Z -> Z -> loop_state -> loop_state)
  (pSrc fftLen pCoef k : Z) (st : loop_state * Z * Z) : loop_state * Z * Z :=
  match fuel with
  | O => st
  | S fuel' =>
      if 4 <? k
      then middle_stages fuel' butterfly pSrc fftLen pCoef (Z.shiftr k 2)
             (middle_stage butterfly pSrc fftLen pCoef st)
      else st
  end.

(** Body of the last-stage loop (lines 435-481); [ptr1] is carried in the
    [ls_pSi0] field of the loop state. *)
Definition last_stage_body (s : loop_state) : loop_state :=
  let m := ls_mem s in
  let ptr1 := ls_pSi0 s in
  let xa := m ptr1 in
  let ptr1 := ptr1 + 1 in
  let ya := m ptr1 in
  let ptr1 := ptr1 + 1 in
  let xb := m ptr1 in
  let ptr1 := ptr1 + 1 in
  let yb := m ptr1 in
  let ptr1 := ptr1 + 1 in
  let xc := m ptr1 in
  let ptr1 := ptr1 + 1 in
  let yc := m ptr1 in
  let ptr1 := ptr1 + 1 in
  let xd := m ptr1 in
  let ptr1 := ptr1 + 1 in
  let yd := m ptr1 in
  let ptr1 := ptr1 + 1 in
  (* xa' = xa + xb + xc + xd *)
  let xa_out := add32 (add32 (add32 xa xb) xc) xd in
  (* ya' = ya + yb + yc + yd *)
  let ya_out := add32 (add32 (add32 ya yb) yc) yd in
  (* pointer updation for writing *)
  let ptr1 := ptr1 - 8 in
  (* writing xa' and ya' *)
  let m := store m ptr1 xa_out in
  let ptr1 := ptr1 + 1 in
  let m := store m ptr1 ya_out in
  let ptr1 := ptr1 + 1 in
  let xc_out := sub32 (add32 (sub32 xa xb) xc) xd in
  let yc_out := sub32 (add32 (sub32 ya yb) yc) yd in
  (* writing xc' and yc' *)
  let m := store m ptr1 xc_out in
  let ptr1 := ptr1 + 1 in
  let m := store m ptr1 yc_out in
  let ptr1 := ptr1 + 1 in
  let xb_out := sub32 (sub32 (add32 xa yb) xc) yd in
  let yb_out := add32 (sub32 (sub32 ya xb) yc) xd in
  (* writing xb' and yb' *)
  let m := store m ptr1 xb_out in
  let ptr1 := ptr1 + 1 in
  let m := store m ptr1 yb_out in
  let ptr1 := ptr1 + 1 in
  let xd_out := add32 (sub32 (sub32 xa yb) xc) yd in
  let yd_out := sub32 (sub32 (add32 ya xb) yc) xd in
  (* writing xd' and yd' *)
  let m := store m ptr1 xd_out in
  let ptr1 := ptr1 + 1 in
  let m := store m ptr1 yd_out in
  let ptr1 := ptr1 + 1 in
  mkLoop m ptr1 (ls_pSi1 s) (ls_pSi2 s) (ls_pSi3 s) (ls_ia1 s).

Definition riscv_radix4_butterfly_q31
  (pSrc fftLen pCoef twidCoefModifier : Z) (m : mem) : mem :=
  (* Initializations for the first stage *)
  let n2 := fftLen in
  let n1 := n2 in
  (* n2 = fftLen/4 *)
  let n2 := Z.shiftr n2 2 in
  let ia1 := 0 in
  let j := n2 in
  let pSi0 := pSrc in
  let pSi1 := pSi0 + u32 (2 * n2) in
  let pSi2 := pSi1 + u32 (2 * n2) in
  let pSi3 := pSi2 + u32 (2 * n2) in
  (* Calculation of first stage *)
  let s :=
    do_while (trips j) (first_stage_body pCoef twidCoefModifier) j
      (mkLoop m pSi0 pSi1 pSi2 pSi3 ia1) in
  (* start of Middle stages process *)
  let twidCoefModifier := u32 (Z.shiftl twidCoefModifier 2) in
  let '(s, n2, twidCoefModifier) :=
    middle_stages 16 middle_stage_body pSrc fftLen pCoef (fftLen / 4)
      (s, n2, twidCoefModifier) in
  (* Initializations for the last stage *)
  let j := Z.shiftr fftLen 2 in
  let ptr1 := pSrc in
  (* Calculations of last stage *)
  ls_mem (do_while (trips j) last_stage_body j
            (mkLoop (ls_mem s) ptr1 (ls_pSi1 s) (ls_pSi2 s) (ls_pSi3 s)
               (ls_ia1 s))).

(** ** Inverse engine: riscv_radix4_butterfly_inverse_q31 *)

(** Body of the first-stage loop (lines 584-667). *)
Definition first_stage_body_inverse (pCoef twidCoefModifier : Z)
  (s : loop_state) : loop_state :=
  let m := ls_mem s in
  let pSi0 := ls_pSi0 s in
  let pSi1 := ls_pSi1 s in
  let pSi2 := ls_pSi2 s in
  let pSi3 := ls_pSi3 s in
  let ia1 := ls_ia1 s in
  (* xa + xc *)
  let r1 := add32 (asr32 (m pSi0) 4) (asr32 (m pSi2) 4) in
  (* xa - xc *)
  let r2 := sub32 (asr32 (m pSi0) 4) (asr32 (m pSi2) 4) in
  (* xb + xd *)
  let t1 := add32 (asr32 (m pSi1) 4) (asr32 (m pSi3) 4) in
  (* ya + yc *)
  let s1 := add32 (asr32 (m (pSi0 + 1)) 4) (asr32 (m (pSi2 + 1)) 4) in
  (* ya - yc *)
  let s2 := sub32 (asr32 (m (pSi0 + 1)) 4) (asr32 (m (pSi2 + 1)) 4) in
  (* xa' = xa + xb + xc + xd *)
  let m := store m pSi0 (add32 r1 t1) in
  let pSi0 := pSi0 + 1 in
  (* (xa + xc) - (xb + xd) *)
  let r1 := sub32 r1 t1 in
  (* yb + yd *)
  let t2 := add32 (asr32 (m (pSi1 + 1)) 4) (asr32 (m (pSi3 + 1)) 4) in
  (* ya' = ya + yb + yc + yd *)
  let m := store m pSi0 (add32 s1 t2) in
  let pSi0 := pSi0 + 1 in
  (* (ya + yc) - (yb + yd) *)
  let s1 := sub32 s1 t2 in
  (* yb - yd *)
  let t1 := sub32 (asr32 (m (pSi1 + 1)) 4) (asr32 (m (pSi3 + 1)) 4) in
  (* xb - xd *)
  let t2 := sub32 (asr32 (m pSi1) 4) (asr32 (m pSi3) 4) in
  (* index calculation for the coefficients *)
  let ia2 := u32 (2 * ia1) in
  let co2 := m (pCoef + u32 (ia2 * 2)) in
  let si2 := m (pCoef + u32 (u32 (ia2 * 2) + 1)) in
  (* xc' = (xa-xb+xc-xd)co2 - (ya-yb+yc-yd)(si2) *)
  let m := store m pSi1 (shl32 (sub32 (mulhi32 r1 co2) (mulhi32 s1 si2)) 1) in
  let pSi1 := pSi1 + 1 in
  (* yc' = (ya-yb+yc-yd)co2 + (xa-xb+xc-xd)(si2) *)
  let m := store m pSi1 (shl32 (add32 (mulhi32 s1 co2) (mulhi32 r1 si2)) 1) in
  let pSi1 := pSi1 + 1 in
  (* (xa - xc) - (yb - yd) *)
  let r1 := sub32 r2 t1 in
  (* (xa - xc) + (yb - yd) *)
  let r2 := add32 r2 t1 in
  (* (ya - yc) + (xb - xd) *)
  let s1 := add32 s2 t2 in
  (* (ya - yc) - (xb - xd) *)
  let s2 := sub32 s2 t2 in
  let co1 := m (pCoef + u32 (ia1 * 2)) in
  let si1 := m (pCoef + u32 (u32 (ia1 * 2) + 1)) in
  (* xb' = (xa+yb-xc-yd)co1 - (ya-xb-yc+xd)(si1) *)
  let m := store m pSi2 (shl32 (sub32 (mulhi32 r1 co1) (mulhi32 s1 si1)) 1) in
  let pSi2 := pSi2 + 1 in
  (* yb' = (ya-xb-yc+xd)co1 + (xa+yb-xc-yd)(si1) *)
  let m := store m pSi2 (shl32 (add32 (mulhi32 s1 co1) (mulhi32 r1 si1)) 1) in
  let pSi2 := pSi2 + 1 in
  (* index calculation for the coefficients *)
  let ia3 := u32 (3 * ia1) in
  let co3 := m (pCoef + u32 (ia3 * 2)) in
  let si3 := m (pCoef + u32 (u32 (ia3 * 2) + 1)) in
  (* xd' = (xa-yb-xc+yd)co3 - (ya+xb-yc-xd)(si3) *)
  let m := store m pSi3 (shl32 (sub32 (mulhi32 r2 co3) (mulhi32 s2 si3)) 1) in
  let pSi3 := pSi3 + 1 in
  (* yd' = (ya+xb-yc-xd)co3 + (xa-yb-xc+yd)(si3) *)
  let m := store m pSi3 (shl32 (add32 (mulhi32 s2 co3) (mulhi32 r2 si3)) 1) in
  let pSi3 := pSi3 + 1 in
  (* Twiddle coefficients index modifier *)
  let ia1 := u32 (ia1 + twidCoefModifier) in
  mkLoop m pSi0 pSi1 pSi2 pSi3 ia1.

(** Body of the innermost middle-stage loop (lines 704-784). *)
Definition middle_stage_body_inverse (n1 co1 si1 co2 si2 co3 si3 : Z)
  (s : loop_state) : loop_state :=
  let m := ls_mem s in
  let pSi0 := ls_pSi0 s in
  let pSi1 := ls_pSi1 s in
  let pSi2 := ls_pSi2 s in
  let pSi3 := ls_pSi3 s in
  (* xa + xc *)
  let r1 := add32 (m pSi0) (m pSi2) in
  (* xa - xc *)
  let r2 := sub32 (m pSi0) (m pSi2) in
  (* ya + yc *)
  let s1 := add32 (m (pSi0 + 1)) (m (pSi2 + 1)) in
  (* ya - yc *)
  let s2 := sub32 (m (pSi0 + 1)) (m (pSi2 + 1)) in
  (* xb + xd *)
  let t1 := add32 (m pSi1) (m pSi3) in
  (* xa' = xa + xb + xc + xd *)
  let m := store m pSi0 (asr32 (add32 r1 t1) 2) in
  (* xa + xc -(xb + xd) *)
  let r1 := sub32 r1 t1 in
  (* yb + yd *)
  let t2 := add32 (m (pSi1 + 1)) (m (pSi3 + 1)) in
  (* ya' = ya + yb + yc + yd *)
  let m := store m (pSi0 + 1) (asr32 (add32 s1 t2) 2) in
  let pSi0 := pSi0 + u32 (2 * n1) in
  (* (ya + yc) - (yb + yd) *)
  let s1 := sub32 s1 t2 in
  (* (yb - yd) *)
  let t1 := sub32 (m (pSi1 + 1)) (m (pSi3 + 1)) in
  (* (xb - xd) *)
  let t2 := sub32 (m pSi1) (m pSi3) in
  (* xc' = (xa-xb+xc-xd)co2 - (ya-yb+yc-yd)(si2) *)
  let m := store m pSi1 (asr32 (sub32 (mulhi32 r1 co2) (mulhi32 s1 si2)) 1) in
  (* yc' = (ya-yb+yc-yd)co2 + (xa-xb+xc-xd)(si2) *)
  let m :=
    store m (pSi1 + 1) (asr32 (add32 (mulhi32 s1 co2) (mulhi32 r1 si2)) 1) in
  let pSi1 := pSi1 + u32 (2 * n1) in
  (* (xa - xc) - (yb - yd) *)
  let r1 := sub32 r2 t1 in
  (* (xa - xc) + (yb - yd) *)
  let r2 := add32 r2 t1 in
  (* (ya - yc) +  (xb - xd) *)
  let s1 := add32 s2 t2 in
  (* (ya - yc) -  (xb - xd) *)
  let s2 := sub32 s2 t2 in
  (* xb' = (xa+yb-xc-yd)co1 - (ya-xb-yc+xd)(si1) *)
  let m := store m pSi2 (asr32 (sub32 (mulhi32 r1 co1) (mulhi32 s1 si1)) 1) in
  (* yb' = (ya-xb-yc+xd)co1 + (xa+yb-xc-yd)(si1) *)
  let m :=
    store m (pSi2 + 1) (asr32 (add32 (mulhi32 s1 co1) (mulhi32 r1 si1)) 1) in
  let pSi2 := pSi2 + u32 (2 * n1) in
  (* xd' = (xa-yb-xc+yd)co3 - (ya+xb-yc-xd)(si3) *)
  let m := store m pSi3 (asr32 (sub32 (mulhi32 r2 co3) (mulhi32 s2 si3)) 1) in
  (* yd' = (ya+xb-yc-xd)co3 + (xa-yb-xc+yd)(si3) *)
  let m :=
    store m (pSi3 + 1) (asr32 (add32 (mulhi32 s2 co3) (mulhi32 r2 si3)) 1) in
  let pSi3 := pSi3 + u32 (2 * n1) in
  mkLoop m pSi0 pSi1 pSi2 pSi3 (ls_ia1 s).

(** Body of the last-stage loop (lines 804-849). *)
Definition last_stage_body_inverse (s : loop_state) : loop_state :=
  let m := ls_mem s in
  let ptr1 := ls_pSi0 s in
  let xa := m ptr1 in
  let ptr1 := ptr1 + 1 in
  let ya := m ptr1 in
  let ptr1 := ptr1 + 1 in
  let xb := m ptr1 in
  let ptr1 := ptr1 + 1 in
  let yb := m ptr1 in
  let ptr1 := ptr1 + 1 in
  let xc := m ptr1 in
  let ptr1 := ptr1 + 1 in
  let yc := m ptr1 in
  let ptr1 := ptr1 + 1 in
  let xd := m ptr1 in
  let ptr1 := ptr1 + 1 in
  let yd := m ptr1 in
  let ptr1 := ptr1 + 1 in
  (* xa' = xa + xb + xc + xd *)
  let xa_out := add32 (add32 (add32 xa xb) xc) xd in
  (* ya' = ya + yb + yc + yd *)
  let ya_out := add32 (add32 (add32 ya yb) yc) yd in
  (* pointer updation for writing *)
  let ptr1 := ptr1 - 8 in
  (* writing xa' and ya' *)
  let m := store m ptr1 xa_out in
  let ptr1 := ptr1 + 1 in
  let m := store m ptr1 ya_out in
  let ptr1 := ptr1 + 1 in
  let xc_out := sub32 (add32 (sub32 xa xb) xc) xd in
  let yc_out := sub32 (add32 (sub32 ya yb) yc) yd in
  (* writing xc' and yc' *)
  let m := store m ptr1 xc_out in
  let ptr1 := ptr1 + 1 in
  let m := store m ptr1 yc_out in
  let ptr1 := ptr1 + 1 in
  let xb_out := add32 (sub32 (sub32 xa yb) xc) yd in
  let yb_out := sub32 (sub32 (add32 ya xb) yc) xd in
  (* writing xb' and yb' *)
  let m := store m ptr1 xb_out in
  let ptr1 := ptr1 + 1 in
  let m := store m ptr1 yb_out in
  let ptr1 := ptr1 + 1 in
  let xd_out := sub32 (sub32 (add32 xa yb) xc) yd in
  let yd_out := add32 (sub32 (sub32 ya xb) yc) xd in
  (* writing xd' and yd' *)
  let m := store m ptr1 xd_out in
  let ptr1 := ptr1 + 1 in
  let m := store m ptr1 yd_out in
  let ptr1 := ptr1 + 1 in
  mkLoop m ptr1 (ls_pSi1 s) (ls_pSi2 s) (ls_pSi3 s) (ls_ia1 s).

Definition riscv_radix4_butterfly_inverse_q31
  (pSrc fftLen pCoef twidCoefModifier : Z) (m : mem) : mem :=
  (* Initializations for the first stage *)
  let n2 := fftLen in
  let n1 := n2 in
  (* n2 = fftLen/4 *)
  let n2 := Z.shiftr n2 2 in
  let ia1 := 0 in
  let j := n2 in
  let pSi0 := pSrc in
  let pSi1 := pSi0 + u32 (2 * n2) in
  let pSi2 := pSi1 + u32 (2 * n2) in
  let pSi3 := pSi2 + u32 (2 * n2) in
  let s :=
    do_while (trips j) (first_stage_body_inverse pCoef twidCoefModifier) j
      (mkLoop m pSi0 pSi1 pSi2 pSi3 ia1) in
  (* Start of Middle stages process *)
  let twidCoefModifier := u32 (Z.shiftl twidCoefModifier 2) in
  (* Calculation of second stage to excluding last stage *)
  let '(s, n2, twidCoefModifier) :=
    middle_stages 16 middle_stage_body_inverse pSrc fftLen pCoef (fftLen / 4)
      (s, n2, twidCoefModifier) in
  (* Initializations for the last stage *)
  let j := Z.shiftr fftLen 2 in
  let ptr1 := pSrc in
  (* Calculations of last stage *)
  ls_mem (do_while (trips j) last_stage_body_inverse j
            (mkLoop (ls_mem s) ptr1 (ls_pSi1 s) (ls_pSi2 s) (ls_pSi3 s)
               (ls_ia1 s))).

(** ** One routine for both directions

    The design notes of the specification describe the two engines as one
    routine with a direction parameter.  [radix4_butterfly_dir] is that
    routine: it has the statements, the shift amounts and the loop structure
    of the forward engine, and the direction is consulted at the cross terms
    only, where [cross_plus] and [cross_minus] add and subtract for the
    forward direction and do the opposite for the inverse one. *)

Inductive direction : Type := Forward | Inverse.

Definition cross_plus (d : direction) (a b : Z) : Z :=
  match d with Forward => add32 a b | Inverse => sub32 a b end.

Definition cross_minus (d : direction) (a b : Z) : Z :=
  match d with Forward => sub32 a b | Inverse => add32 a b end.

Definition first_stage_body_dir (d : direction) (pCoef twidCoefModifier : Z) (s : loop_state)
  : loop_state :=
  let m := ls_mem s in
  let pSi0 := ls_pSi0 s in
  let pSi1 := ls_pSi1 s in
  let pSi2 := ls_pSi2 s in
  let pSi3 := ls_pSi3 s in
  let ia1 := ls_ia1 s in
  let r1 := add32 (asr32 (m pSi0) 4) (asr32 (m pSi2) 4) in
  let r2 := sub32 (asr32 (m pSi0) 4) (asr32 (m pSi2) 4) in
  let t1 := add32 (asr32 (m pSi1) 4) (asr32 (m pSi3) 4) in
  let s1 := add32 (asr32 (m (pSi0 + 1)) 4) (asr32 (m (pSi2 + 1)) 4) in
  let s2 := sub32 (asr32 (m (pSi0 + 1)) 4) (asr32 (m (pSi2 + 1)) 4) in
  let m := store m pSi0 (add32 r1 t1) in
  let pSi0 := pSi0 + 1 in
  let r1 := sub32 r1 t1 in
  let t2 := add32 (asr32 (m (pSi1 + 1)) 4) (asr32 (m (pSi3 + 1)) 4) in
  let m := store m pSi0 (add32 s1 t2) in
  let pSi0 := pSi0 + 1 in
  let s1 := sub32 s1 t2 in
  let t1 := sub32 (asr32 (m (pSi1 + 1)) 4) (asr32 (m (pSi3 + 1)) 4) in
  let t2 := sub32 (asr32 (m pSi1) 4) (asr32 (m pSi3) 4) in
  let ia2 := u32 (2 * ia1) in
  let co2 := m (pCoef + u32 (ia2 * 2)) in
  let si2 := m (pCoef + u32 (u32 (ia2 * 2) + 1)) in
  let m := store m pSi1 (shl32 (cross_plus d (mulhi32 r1 co2) (mulhi32 s1 si2)) 1) in
  let pSi1 := pSi1 + 1 in
  let m := store m pSi1 (shl32 (cross_minus d (mulhi32 s1 co2) (mulhi32 r1 si2)) 1) in
  let pSi1 := pSi1 + 1 in
  let r1 := cross_plus d r2 t1 in
  let r2 := cross_minus d r2 t1 in
  let s1 := cross_minus d s2 t2 in
  let s2 := cross_plus d s2 t2 in
  let co1 := m (pCoef + u32 (ia1 * 2)) in
  let si1 := m (pCoef + u32 (u32 (ia1 * 2) + 1)) in
  let m := store m pSi2 (shl32 (cross_plus d (mulhi32 r1 co1) (mulhi32 s1 si1)) 1) in
  let pSi2 := pSi2 + 1 in
  let m := store m pSi2 (shl32 (cross_minus d (mulhi32 s1 co1) (mulhi32 r1 si1)) 1) in
  let pSi2 := pSi2 + 1 in
  let ia3 := u32 (3 * ia1) in
  let co3 := m (pCoef + u32 (ia3 * 2)) in
  let si3 := m (pCoef + u32 (u32 (ia3 * 2) + 1)) in
  let m := store m pSi3 (shl32 (cross_plus d (mulhi32 r2 co3) (mulhi32 s2 si3)) 1) in
  let pSi3 := pSi3 + 1 in
  let m := store m pSi3 (shl32 (cross_minus d (mulhi32 s2 co3) (mulhi32 r2 si3)) 1) in
  let pSi3 := pSi3 + 1 in
  let ia1 := u32 (ia1 + twidCoefModifier) in
  mkLoop m pSi0 pSi1 pSi2 pSi3 ia1.

Definition middle_stage_body_dir (d : direction) (n1 co1 si1 co2 si2 co3 si3 : Z) (s : loop_state)
  : loop_state :=
  let m := ls_mem s in
  let pSi0 := ls_pSi0 s in
  let pSi1 := ls_pSi1 s in
  let pSi2 := ls_pSi2 s in
  let pSi3 := ls_pSi3 s in
  let r1 := add32 (m pSi0) (m pSi2) in
  let r2 := sub32 (m pSi0) (m pSi2) in
  let s1 := add32 (m (pSi0 + 1)) (m (pSi2 + 1)) in
  let s2 := sub32 (m (pSi0 + 1)) (m (pSi2 + 1)) in
  let t1 := add32 (m pSi1) (m pSi3) in
  let m := store m pSi0 (asr32 (add32 r1 t1) 2) in
  let r1 := sub32 r1 t1 in
  let t2 := add32 (m (pSi1 + 1)) (m (pSi3 + 1)) in
  let m := store m (pSi0 + 1) (asr32 (add32 s1 t2) 2) in
  let pSi0 := pSi0 + u32 (2 * n1) in
  let s1 := sub32 s1 t2 in
  let t1 := sub32 (m (pSi1 + 1)) (m (pSi3 + 1)) in
  let t2 := sub32 (m pSi1) (m pSi3) in
  let m := store m pSi1 (asr32 (cross_plus d (mulhi32 r1 co2) (mulhi32 s1 si2)) 1) in
  let m :=
    store m (pSi1 + 1) (asr32 (cross_minus d (mulhi32 s1 co2) (mulhi32 r1 si2)) 1) in
  let pSi1 := pSi1 + u32 (2 * n1) in
  let r1 := cross_plus d r2 t1 in
  let r2 := cross_minus d r2 t1 in
  let s1 := cross_minus d s2 t2 in
  let s2 := cross_plus d s2 t2 in
  let m := store m pSi2 (asr32 (cross_plus d (mulhi32 r1 co1) (mulhi32 s1 si1)) 1) in
  let m :=
    store m (pSi2 + 1) (asr32 (cross_minus d (mulhi32 s1 co1) (mulhi32 r1 si1)) 1) in
  let pSi2 := pSi2 + u32 (2 * n1) in
  let m := store m pSi3 (asr32 (cross_plus d (mulhi32 r2 co3) (mulhi32 s2 si3)) 1) in
  let m :=
    store m (pSi3 + 1) (asr32 (cross_minus d (mulhi32 s2 co3) (mulhi32 r2 si3)) 1) in
  let pSi3 := pSi3 + u32 (2 * n1) in
  mkLoop m pSi0 pSi1 pSi2 pSi3 (ls_ia1 s).

Definition last_stage_body_dir (d : direction) (s : loop_state) : loop_state :=
  let m := ls_mem s in
  let ptr1 := ls_pSi0 s in
  let xa := m ptr1 in
  let ptr1 := ptr1 + 1 in
  let ya := m ptr1 in
  let ptr1 := ptr1 + 1 in
  let xb := m ptr1 in
  let ptr1 := ptr1 + 1 in
  let yb := m ptr1 in
  let ptr1 := ptr1 + 1 in
  let xc := m ptr1 in
  let ptr1 := ptr1 + 1 in
  let yc := m ptr1 in
  let ptr1 := ptr1 + 1 in
  let xd := m ptr1 in
  let ptr1 := ptr1 + 1 in
  let yd := m ptr1 in
  let ptr1 := ptr1 + 1 in
  let xa_out := add32 (add32 (add32 xa xb) xc) xd in
  let ya_out := add32 (add32 (add32 ya yb) yc) yd in
  let ptr1 := ptr1 - 8 in
  let m := store m ptr1 xa_out in
  let ptr1 := ptr1 + 1 in
  let m := store m ptr1 ya_out in
  let ptr1 := ptr1 + 1 in
  let xc_out := sub32 (add32 (sub32 xa xb) xc) xd in
  let yc_out := sub32 (add32 (sub32 ya yb) yc) yd in
  let m := store m ptr1 xc_out in
  let ptr1 := ptr1 + 1 in
  let m := store m ptr1 yc_out in
  let ptr1 := ptr1 + 1 in
  let xb_out := cross_minus d (sub32 (cross_plus d xa yb) xc) yd in
  let yb_out := cross_plus d (sub32 (cross_minus d ya xb) yc) xd in
  let m := store m ptr1 xb_out in
  let ptr1 := ptr1 + 1 in
  let m := store m ptr1 yb_out in
  let ptr1 := ptr1 + 1 in
  let xd_out := cross_plus d (sub32 (cross_minus d xa yb) xc) yd in
  let yd_out := cross_minus d (sub32 (cross_plus d ya xb) yc) xd in
  let m := store m ptr1 xd_out in
  let ptr1 := ptr1 + 1 in
  let m := store m ptr1 yd_out in
  let ptr1 := ptr1 + 1 in
  mkLoop m ptr1 (ls_pSi1 s) (ls_pSi2 s) (ls_pSi3 s) (ls_ia1 s).

Definition radix4_butterfly_dir (d : direction)
  (pSrc fftLen pCoef twidCoefModifier : Z) (m : mem) : mem :=
  let n2 := fftLen in
  let n1 := n2 in
  let n2 := Z.shiftr n2 2 in
  let ia1 := 0 in
  let j := n2 in
  let pSi0 := pSrc in
  let pSi1 := pSi0 + u32 (2 * n2) in
  let pSi2 := pSi1 + u32 (2 * n2) in
  let pSi3 := pSi2 + u32 (2 * n2) in
  let s :=
    do_while (trips j) (first_stage_body_dir d pCoef twidCoefModifier) j
      (mkLoop m pSi0 pSi1 pSi2 pSi3 ia1) in
  let twidCoefModifier := u32 (Z.shiftl twidCoefModifier 2) in
  let '(s, n2, twidCoefModifier) :=
    middle_stages 16 (middle_stage_body_dir d) pSrc fftLen pCoef (fftLen / 4)
      (s, n2, twidCoefModifier) in
  let j := Z.shiftr fftLen 2 in
  let ptr1 := pSrc in
  ls_mem (do_while (trips j) (last_stage_body_dir d) j
            (mkLoop (ls_mem s) ptr1 (ls_pSi1 s) (ls_pSi2 s) (ls_pSi3 s)
               (ls_ia1 s))).

(** ** The inverse engine as the claim C2 words it *)

(** Modelled from the spec: the first-stage loop body of the forward engine
    with the sign of every twiddle cross term flipped, as the claim C2
    describes the inverse engine: where the forward body adds a sine product
    this one subtracts it and the other way round, and nothing else differs;
    the sums and differences that enter the products are those of the
    forward body. *)
Definition first_stage_body_as_stated (pCoef twidCoefModifier : Z) (s : loop_state)
  : loop_state :=
  let m := ls_mem s in
  let pSi0 := ls_pSi0 s in
  let pSi1 := ls_pSi1 s in
  let pSi2 := ls_pSi2 s in
  let pSi3 := ls_pSi3 s in
  let ia1 := ls_ia1 s in
  let r1 := add32 (asr32 (m pSi0) 4) (asr32 (m pSi2) 4) in
  let r2 := sub32 (asr32 (m pSi0) 4) (asr32 (m pSi2) 4) in
  let t1 := add32 (asr32 (m pSi1) 4) (asr32 (m pSi3) 4) in
  let s1 := add32 (asr32 (m (pSi0 + 1)) 4) (asr32 (m (pSi2 + 1)) 4) in
  let s2 := sub32 (asr32 (m (pSi0 + 1)) 4) (asr32 (m (pSi2 + 1)) 4) in
  let m := store m pSi0 (add32 r1 t1) in
  let pSi0 := pSi0 + 1 in
  let r1 := sub32 r1 t1 in
  let t2 := add32 (asr32 (m (pSi1 + 1)) 4) (asr32 (m (pSi3 + 1)) 4) in
  let m := store m pSi0 (add32 s1 t2) in
  let pSi0 := pSi0 + 1 in
  let s1 := sub32 s1 t2 in
  let t1 := sub32 (asr32 (m (pSi1 + 1)) 4) (asr32 (m (pSi3 + 1)) 4) in
  let t2 := sub32 (asr32 (m pSi1) 4) (asr32 (m pSi3) 4) in
  let ia2 := u32 (2 * ia1) in
  let co2 := m (pCoef + u32 (ia2 * 2)) in
  let si2 := m (pCoef + u32 (u32 (ia2 * 2) + 1)) in
  let m := store m pSi1 (shl32 (sub32 (mulhi32 r1 co2) (mulhi32 s1 si2)) 1) in
  let pSi1 := pSi1 + 1 in
  let m := store m pSi1 (shl32 (add32 (mulhi32 s1 co2) (mulhi32 r1 si2)) 1) in
  let pSi1 := pSi1 + 1 in
  let r1 := add32 r2 t1 in
  let r2 := sub32 r2 t1 in
  let s1 := sub32 s2 t2 in
  let s2 := add32 s2 t2 in
  let co1 := m (pCoef + u32 (ia1 * 2)) in
  let si1 := m (pCoef + u32 (u32 (ia1 * 2) + 1)) in
  let m := store m pSi2 (shl32 (sub32 (mulhi32 r1 co1) (mulhi32 s1 si1)) 1) in
  let pSi2 := pSi2 + 1 in
  let m := store m pSi2 (shl32 (add32 (mulhi32 s1 co1) (mulhi32 r1 si1)) 1) in
  let pSi2 := pSi2 + 1 in
  let ia3 := u32 (3 * ia1) in
  let co3 := m (pCoef + u32 (ia3 * 2)) in
  let si3 := m (pCoef + u32 (u32 (ia3 * 2) + 1)) in
  let m := store m pSi3 (shl32 (sub32 (mulhi32 r2 co3) (mulhi32 s2 si3)) 1) in
  let pSi3 := pSi3 + 1 in
  let m := store m pSi3 (shl32 (add32 (mulhi32 s2 co3) (mulhi32 r2 si3)) 1) in
  let pSi3 := pSi3 + 1 in
  let ia1 := u32 (ia1 + twidCoefModifier) in
  mkLoop m pSi0 pSi1 pSi2 pSi3 ia1.

(** Modelled from the spec: the same for the body of the middle stages. *)
Definition middle_stage_body_as_stated (n1 co1 si1 co2 si2 co3 si3 : Z) (s : loop_state)
  : loop_state :=
  let m := ls_mem s in
  let pSi0 := ls_pSi0 s in
  let pSi1 := ls_pSi1 s in
  let pSi2 := ls_pSi2 s in
  let pSi3 := ls_pSi3 s in
  let r1 := add32 (m pSi0) (m pSi2) in
  let r2 := sub32 (m pSi0) (m pSi2) in
  let s1 := add32 (m (pSi0 + 1)) (m (pSi2 + 1)) in
  let s2 := sub32 (m (pSi0 + 1)) (m (pSi2 + 1)) in
  let t1 := add32 (m pSi1) (m pSi3) in
  let m := store m pSi0 (asr32 (add32 r1 t1) 2) in
  let r1 := sub32 r1 t1 in
  let t2 := add32 (m (pSi1 + 1)) (m (pSi3 + 1)) in
  let m := store m (pSi0 + 1) (asr32 (add32 s1 t2) 2) in
  let pSi0 := pSi0 + u32 (2 * n1) in
  let s1 := sub32 s1 t2 in
  let t1 := sub32 (m (pSi1 + 1)) (m (pSi3 + 1)) in
  let t2 := sub32 (m pSi1) (m pSi3) in
  let m := store m pSi1 (asr32 (sub32 (mulhi32 r1 co2) (mulhi32 s1 si2)) 1) in
  let m :=
    store m (pSi1 + 1) (asr32 (add32 (mulhi32 s1 co2) (mulhi32 r1 si2)) 1) in
  let pSi1 := pSi1 + u32 (2 * n1) in
  let r1 := add32 r2 t1 in
  let r2 := sub32 r2 t1 in
  let s1 := sub32 s2 t2 in
  let s2 := add32 s2 t2 in
  let m := store m pSi2 (asr32 (sub32 (mulhi32 r1 co1) (mulhi32 s1 si1)) 1) in
  let m :=
    store m (pSi2 + 1) (asr32 (add32 (mulhi32 s1 co1) (mulhi32 r1 si1)) 1) in
  let pSi2 := pSi2 + u32 (2 * n1) in
  let m := store m pSi3 (asr32 (sub32 (mulhi32 r2 co3) (mulhi32 s2 si3)) 1) in
  let m :=
    store m (pSi3 + 1) (asr32 (add32 (mulhi32 s2 co3) (mulhi32 r2 si3)) 1) in
  let pSi3 := pSi3 + u32 (2 * n1) in
  mkLoop m pSi0 pSi1 pSi2 pSi3 (ls_ia1 s).

(** Modelled from the spec: the engine of these two bodies, with the last
    stage of the inverse engine, in which the outputs b and d are
    exchanged. *)
Definition radix4_butterfly_as_stated
  (pSrc fftLen pCoef twidCoefModifier : Z) (m : mem) : mem :=
  let n2 := Z.shiftr fftLen 2 in
  let j := n2 in
  let pSi0 := pSrc in
  let pSi1 := pSi0 + u32 (2 * n2) in
  let pSi2 := pSi1 + u32 (2 * n2) in
  let pSi3 := pSi2 + u32 (2 * n2) in
  let s :=
    do_while (trips j) (first_stage_body_as_stated pCoef twidCoefModifier) j
      (mkLoop m pSi0 pSi1 pSi2 pSi3 0) in
  let twidCoefModifier := u32 (Z.shiftl twidCoefModifier 2) in
  let '(s, n2, twidCoefModifier) :=
    middle_stages 16 middle_stage_body_as_stated pSrc fftLen pCoef
      (fftLen / 4) (s, n2, twidCoefModifier) in
  let j := Z.shiftr fftLen 2 in
  ls_mem (do_while (trips j) last_stage_body_inverse j
            (mkLoop (ls_mem s) pSrc (ls_pSi1 s) (ls_pSi2 s) (ls_pSi3 s)
               (ls_ia1 s))).

(** ** Buffers in memory *)

(** [write_list m p l] lays the list [l] out from address [p] on. *)
Fixpoint write_list (m : mem) (p : Z) (l : list Z) : mem :=
  match l with
  | [] => m
  | v :: l' => write_list (store m p v) (p + 1) l'
  end.

(** [read_list m p n] is the list of the [n] cells from address [p] on. *)
Fixpoint read_list (m : mem) (p : Z) (n : nat) : list Z :=
  match n with
  | O => []
  | S n' => m p :: read_list m (p + 1) n'
  end.

Definition zero_mem : mem := fun _ => 0.


(** ** Arithmetic facts *)

Lemma wrap32_small x : q31_range x -> wrap32 x = x.
Proof. unfold q31_range, wrap32. intros H. rewrite Z.mod_small; lia. Qed.

Lemma wrap32_range x : q31_range (wrap32 x).
Proof.
  unfold q31_range, wrap32.
  pose proof (Z.mod_pos_bound (x + 2 ^ 31) (2 ^ 32)). lia.
Qed.

Lemma wrap32_congr x y : (x - y) mod 2 ^ 32 = 0 -> wrap32 x = wrap32 y.
Proof.
  unfold wrap32. intros H. f_equal.
  apply Z.mod_divide in H; [|lia]. destruct H as [q Hq].
  replace (x + 2 ^ 31) with (y + 2 ^ 31 + q * 2 ^ 32) by lia.
  apply Z.mod_add. lia.
Qed.

Lemma wrap32_diff x : (wrap32 x - x) mod 2 ^ 32 = 0.
Proof.
  unfold wrap32.
  replace ((x + 2 ^ 31) mod 2 ^ 32 - 2 ^ 31 - x)
    with ((x + 2 ^ 31) mod 2 ^ 32 - (x + 2 ^ 31)) by lia.
  rewrite Zminus_mod, Z.mod_mod, Z.sub_diag by lia. reflexivity.
Qed.

Lemma wrap32_add_l x y : wrap32 (wrap32 x + y) = wrap32 (x + y).
Proof.
  apply wrap32_congr.
  replace (wrap32 x + y - (x + y)) with (wrap32 x - x) by lia.
  apply wrap32_diff.
Qed.

Lemma wrap32_add_r x y : wrap32 (x + wrap32 y) = wrap32 (x + y).
Proof. rewrite Z.add_comm, wrap32_add_l. f_equal. lia. Qed.

Lemma wrap32_sub_l x y : wrap32 (wrap32 x - y) = wrap32 (x - y).
Proof. unfold Z.sub. apply wrap32_add_l. Qed.

Lemma wrap32_sub_r x y : wrap32 (x - wrap32 y) = wrap32 (x - y).
Proof.
  apply wrap32_congr.
  replace (x - wrap32 y - (x - y)) with (- (wrap32 y - y)) by lia.
  pose proof (wrap32_diff y) as H.
  apply Z.mod_divide in H; [|lia]. destruct H as [q Hq]. rewrite Hq.
  replace (- (q * 2 ^ 32)) with ((- q) * 2 ^ 32) by lia.
  apply Z.mod_mul. lia.
Qed.

Lemma u32_range x : 0 <= u32 x < 2 ^ 32.
Proof. unfold u32. apply Z.mod_pos_bound. lia. Qed.

Lemma asr32_div a n : 0 <= n -> asr32 a n = a / 2 ^ n.
Proof. intros. apply Z.shiftr_div_pow2; lia. Qed.

Lemma mulhi32_exact a b :
  q31_range a -> q31_range b ->
  mulhi32 a b = (a * b) / 2 ^ 32 /\ - 2 ^ 30 <= mulhi32 a b <= 2 ^ 30.
Proof.
  unfold q31_range, mulhi32. intros Ha Hb.
  rewrite Z.shiftr_div_pow2 by lia.
  assert (- 2 ^ 62 <= a * b <= 2 ^ 62) by nia.
  assert (- 2 ^ 30 <= a * b / 2 ^ 32 <= 2 ^ 30).
  { split; [apply Z.div_le_lower_bound | apply Z.div_le_upper_bound]; lia. }
  rewrite wrap32_small; [lia | unfold q31_range; lia].
Qed.

(** Nested 32-bit sums and differences collapse to one wrap of the exact
    sum. *)
Ltac wrap_norm :=
  unfold cross_plus, cross_minus, add32, sub32;
  repeat first
    [ rewrite wrap32_add_l | rewrite wrap32_add_r
    | rewrite wrap32_sub_l | rewrite wrap32_sub_r ].

(** ** Memory facts *)

Lemma store_eq m a v : store m a v a = v.
Proof. unfold store. rewrite Z.eqb_refl. reflexivity. Qed.

Lemma store_neq m a v x : x <> a -> store m a v x = m x.
Proof. unfold store. intros H. destruct (Z.eqb_spec x a); congruence. Qed.

(** ** The butterflies as functions of their operands

    The four complex operands of a butterfly, the three twiddle factors and
    the four complex results.  These follow the equations of the header
    comments of the source file (lines 122-154 and 503-541). *)

Record octet : Type := mkOctet {
  xa : Z; ya : Z; xb : Z; yb : Z; xc : Z; yc : Z; xd : Z; yd : Z
}.

Record twiddles : Type := mkTwiddles {
  co1 : Z; si1 : Z; co2 : Z; si2 : Z; co3 : Z; si3 : Z
}.

(** The operands of the butterfly whose four cursors are [p0] .. [p3], and
    the placement of its results: [xa'] goes to the first cursor, [xc'] to
    the second, [xb'] to the third and [xd'] to the fourth. *)
Definition read4 (m : mem) (p0 p1 p2 p3 : Z) : octet :=
  mkOctet (m p0) (m (p0 + 1)) (m p1) (m (p1 + 1))
          (m p2) (m (p2 + 1)) (m p3) (m (p3 + 1)).

Definition write4 (m : mem) (p0 p1 p2 p3 : Z) (o : octet) : mem :=
  store (store (store (store (store (store (store (store m
    p0 (xa o)) (p0 + 1) (ya o))
    p1 (xc o)) (p1 + 1) (yc o))
    p2 (xb o)) (p2 + 1) (yb o))
    p3 (xd o)) (p3 + 1) (yd o).

(** The results of a butterfly read back from its eight cells. *)
Definition read4_out (m : mem) (p0 p1 p2 p3 : Z) : octet :=
  mkOctet (m p0) (m (p0 + 1)) (m p2) (m (p2 + 1))
          (m p1) (m (p1 + 1)) (m p3) (m (p3 + 1)).

(** The twiddle factors at index [ia] of the table at [pCoef]; the index
    arithmetic is the [uint32_t] arithmetic of the source. *)
Definition twiddle_co (m : mem) (pCoef ia : Z) : Z := m (pCoef + u32 (ia * 2)).
Definition twiddle_si (m : mem) (pCoef ia : Z) : Z :=
  m (pCoef + u32 (u32 (ia * 2) + 1)).

Definition twiddles_first (m : mem) (pCoef ia1 : Z) : twiddles :=
  mkTwiddles (twiddle_co m pCoef ia1) (twiddle_si m pCoef ia1)
             (twiddle_co m pCoef (u32 (2 * ia1)))
             (twiddle_si m pCoef (u32 (2 * ia1)))
             (twiddle_co m pCoef (u32 (3 * ia1)))
             (twiddle_si m pCoef (u32 (3 * ia1))).

Definition sgn (d : direction) : Z :=
  match d with Forward => 1 | Inverse => -1 end.

(** The sum/difference tree: the four pairs feeding the outputs a, b, c
    and d.  For the forward direction
      b = (xa+yb-xc-yd, ya-xb-yc+xd)   d = (xa-yb-xc+yd, ya+xb-yc-xd)
    and the inverse direction exchanges the two. *)
Definition sum_a (i : octet) : Z * Z :=
  (wrap32 (xa i + xb i + xc i + xd i), wrap32 (ya i + yb i + yc i + yd i)).
Definition sum_c (i : octet) : Z * Z :=
  (wrap32 (xa i - xb i + xc i - xd i), wrap32 (ya i - yb i + yc i - yd i)).
Definition sum_b (d : direction) (i : octet) : Z * Z :=
  (wrap32 (xa i + sgn d * yb i - xc i - sgn d * yd i),
   wrap32 (ya i - sgn d * xb i - yc i + sgn d * xd i)).
Definition sum_d (d : direction) (i : octet) : Z * Z :=
  (wrap32 (xa i - sgn d * yb i - xc i + sgn d * yd i),
   wrap32 (ya i + sgn d * xb i - yc i - sgn d * xd i)).

(** The twiddle multiplication of the pair [(r, s)] by [(co, si)]: the high
    words of the 64-bit products, combined as
      (r co + s si, s co - r si)   forward,
      (r co - s si, s co + r si)   inverse. *)
Definition twiddle_mul (d : direction) (rs : Z * Z) (co si : Z) : Z * Z :=
  (wrap32 (mulhi32 (fst rs) co + sgn d * mulhi32 (snd rs) si),
   wrap32 (mulhi32 (snd rs) co - sgn d * mulhi32 (fst rs) si)).

Definition pair_map (f : Z -> Z) (p : Z * Z) : Z * Z := (f (fst p), f (snd p)).

Definition assemble (a b c d : Z * Z) : octet :=
  mkOctet (fst a) (snd a) (fst b) (snd b) (fst c) (snd c) (fst d) (snd d).

(** First stage: every operand is shifted right by 4 bits, the sum is
    stored as it is and the three twiddle products are shifted left by 1. *)
Definition guard4 (i : octet) : octet :=
  mkOctet (asr32 (xa i) 4) (asr32 (ya i) 4) (asr32 (xb i) 4) (asr32 (yb i) 4)
          (asr32 (xc i) 4) (asr32 (yc i) 4) (asr32 (xd i) 4) (asr32 (yd i) 4).

Definition first_butterfly (d : direction) (i : octet) (w : twiddles) : octet :=
  let g := guard4 i in
  assemble (sum_a g)
    (pair_map (fun v => shl32 v 1) (twiddle_mul d (sum_b d g) (co1 w) (si1 w)))
    (pair_map (fun v => shl32 v 1) (twiddle_mul d (sum_c g) (co2 w) (si2 w)))
    (pair_map (fun v => shl32 v 1) (twiddle_mul d (sum_d d g) (co3 w) (si3 w))).

(** Middle stages: the sum is shifted right by 2 bits and the three
    twiddle products by 1 bit. *)
Definition middle_butterfly (d : direction) (i : octet) (w : twiddles) : octet :=
  assemble (pair_map (fun v => asr32 v 2) (sum_a i))
    (pair_map (fun v => asr32 v 1) (twiddle_mul d (sum_b d i) (co1 w) (si1 w)))
    (pair_map (fun v => asr32 v 1) (twiddle_mul d (sum_c i) (co2 w) (si2 w)))
    (pair_map (fun v => asr32 v 1) (twiddle_mul d (sum_d d i) (co3 w) (si3 w))).

(** Last stage: the four sums and differences alone. *)
Definition last_butterfly (d : direction) (i : octet) : octet :=
  assemble (sum_a i) (sum_b d i) (sum_c i) (sum_d d i).

(** Two cursors are apart when their two-cell ranges do not meet. *)
Definition apart (p q : Z) : Prop := p + 1 < q \/ q + 1 < p.

Definition separated (p0 p1 p2 p3 : Z) : Prop :=
  apart p0 p1 /\ apart p0 p2 /\ apart p0 p3 /\
  apart p1 p2 /\ apart p1 p3 /\ apart p2 p3.

(** [a] is one of the eight cells of the butterfly at [p0] .. [p3]. *)
Definition in_cells (p0 p1 p2 p3 a : Z) : Prop :=
  a = p0 \/ a = p0 + 1 \/ a = p1 \/ a = p1 + 1 \/
  a = p2 \/ a = p2 + 1 \/ a = p3 \/ a = p3 + 1.

(** [a] is one of the six table cells read for the twiddle index [ia]. *)
Definition twiddle_cells (pCoef ia a : Z) : Prop :=
  a = pCoef + u32 (ia * 2) \/ a = pCoef + u32 (u32 (ia * 2) + 1) \/
  a = pCoef + u32 (u32 (2 * ia) * 2) \/
  a = pCoef + u32 (u32 (u32 (2 * ia) * 2) + 1) \/
  a = pCoef + u32 (u32 (3 * ia) * 2) \/
  a = pCoef + u32 (u32 (u32 (3 * ia) * 2) + 1).

(** ** The loop bodies in closed form *)

Ltac dir_refl :=
  cbv beta iota delta
    [cross_plus cross_minus
     first_stage_body first_stage_body_inverse first_stage_body_dir
     middle_stage_body middle_stage_body_inverse middle_stage_body_dir
     last_stage_body last_stage_body_inverse last_stage_body_dir];
  reflexivity.

Lemma first_stage_body_fwd :
  first_stage_body = first_stage_body_dir Forward.
Proof. dir_refl. Qed.

Lemma first_stage_body_inv :
  first_stage_body_inverse = first_stage_body_dir Inverse.
Proof. dir_refl. Qed.

Lemma middle_stage_body_fwd :
  middle_stage_body = middle_stage_body_dir Forward.
Proof. dir_refl. Qed.

Lemma middle_stage_body_inv :
  middle_stage_body_inverse = middle_stage_body_dir Inverse.
Proof. dir_refl. Qed.

Lemma last_stage_body_fwd : last_stage_body = last_stage_body_dir Forward.
Proof. dir_refl. Qed.

Lemma last_stage_body_inv :
  last_stage_body_inverse = last_stage_body_dir Inverse.
Proof. dir_refl. Qed.

Lemma butterfly_fwd_dir :
  riscv_radix4_butterfly_q31 = radix4_butterfly_dir Forward.
Proof.
  unfold riscv_radix4_butterfly_q31, radix4_butterfly_dir.
  rewrite first_stage_body_fwd, middle_stage_body_fwd, last_stage_body_fwd.
  reflexivity.
Qed.

Lemma butterfly_inv_dir :
  riscv_radix4_butterfly_inverse_q31 = radix4_butterfly_dir Inverse.
Proof.
  unfold riscv_radix4_butterfly_inverse_q31, radix4_butterfly_dir.
  rewrite first_stage_body_inv, middle_stage_body_inv, last_stage_body_inv.
  reflexivity.
Qed.

(** The sum/difference tree of the code and the sums of the header
    comments. *)
Ltac tree_eq :=
  intros;
  match goal with d : direction |- _ => destruct d | _ => idtac end;
  cbn [sgn cross_plus cross_minus]; unfold add32, sub32, wrap32;
  Z.to_euclidean_division_equations; lia.

Lemma tree_a a b c d' :
  add32 (add32 a c) (add32 b d') = wrap32 (a + b + c + d').
Proof. tree_eq. Qed.

Lemma tree_c a b c d' :
  sub32 (add32 a c) (add32 b d') = wrap32 (a - b + c - d').
Proof. tree_eq. Qed.

Lemma tree_b_re d a c yb' yd' :
  cross_plus d (sub32 a c) (sub32 yb' yd') =
  wrap32 (a + sgn d * yb' - c - sgn d * yd').
Proof. tree_eq. Qed.

Lemma tree_b_im d a c xb' xd' :
  cross_minus d (sub32 a c) (sub32 xb' xd') =
  wrap32 (a - sgn d * xb' - c + sgn d * xd').
Proof. tree_eq. Qed.

Lemma tree_d_re d a c yb' yd' :
  cross_minus d (sub32 a c) (sub32 yb' yd') =
  wrap32 (a - sgn d * yb' - c + sgn d * yd').
Proof. tree_eq. Qed.

Lemma tree_d_im d a c xb' xd' :
  cross_plus d (sub32 a c) (sub32 xb' xd') =
  wrap32 (a + sgn d * xb' - c - sgn d * xd').
Proof. tree_eq. Qed.

Lemma cross_plus_wrap d a b : cross_plus d a b = wrap32 (a + sgn d * b).
Proof. tree_eq. Qed.

Lemma cross_minus_wrap d a b : cross_minus d a b = wrap32 (a - sgn d * b).
Proof. tree_eq. Qed.

Lemma last_a a b c d' :
  add32 (add32 (add32 a b) c) d' = wrap32 (a + b + c + d').
Proof. tree_eq. Qed.

Lemma last_c a b c d' :
  sub32 (add32 (sub32 a b) c) d' = wrap32 (a - b + c - d').
Proof. tree_eq. Qed.

Lemma last_b_re d a c yb' yd' :
  cross_minus d (sub32 (cross_plus d a yb') c) yd' =
  wrap32 (a + sgn d * yb' - c - sgn d * yd').
Proof. tree_eq. Qed.

Lemma last_b_im d a c xb' xd' :
  cross_plus d (sub32 (cross_minus d a xb') c) xd' =
  wrap32 (a - sgn d * xb' - c + sgn d * xd').
Proof. tree_eq. Qed.

Lemma last_d_re d a c yb' yd' :
  cross_plus d (sub32 (cross_minus d a yb') c) yd' =
  wrap32 (a - sgn d * yb' - c + sgn d * yd').
Proof. tree_eq. Qed.

Lemma last_d_im d a c xb' xd' :
  cross_minus d (sub32 (cross_plus d a xb') c) xd' =
  wrap32 (a + sgn d * xb' - c - sgn d * xd').
Proof. tree_eq. Qed.

Ltac tree_rewrite :=
  rewrite ?tree_a, ?tree_c, ?tree_b_re, ?tree_b_im, ?tree_d_re, ?tree_d_im,
          ?last_a, ?last_c, ?last_b_re, ?last_b_im, ?last_d_re, ?last_d_im,
          ?cross_plus_wrap, ?cross_minus_wrap.

Ltac unfold_butterfly :=
  unfold first_butterfly, middle_butterfly, last_butterfly, twiddles_first,
         read4, guard4, assemble, pair_map, twiddle_mul,
         sum_a, sum_b, sum_c, sum_d, twiddle_co, twiddle_si;
  cbn [xa ya xb yb xc yc xd yd co1 si1 co2 si2 co3 si3 fst snd].

Ltac unfold_butterfly_in H :=
  unfold first_butterfly, middle_butterfly, last_butterfly, twiddles_first,
         read4, read4_out, guard4, assemble, pair_map, twiddle_mul,
         sum_a, sum_b, sum_c, sum_d, twiddle_co, twiddle_si in H;
  cbn [xa ya xb yb xc yc xd yd co1 si1 co2 si2 co3 si3 fst snd sgn] in H.

(** One iteration of the first-stage loop reads the operands at its four
    cursors and the twiddle factors of index [ia], and writes the results
    of [first_butterfly] over the operands. *)
Lemma first_stage_body_dir_closed d pCoef twid m p0 p1 p2 p3 ia :
  separated p0 p1 p2 p3 ->
  (forall a, twiddle_cells pCoef ia a -> ~ in_cells p0 p1 p2 p3 a) ->
  first_stage_body_dir d pCoef twid (mkLoop m p0 p1 p2 p3 ia) =
  mkLoop (write4 m p0 p1 p2 p3
            (first_butterfly d (read4 m p0 p1 p2 p3)
               (twiddles_first m pCoef ia)))
         (p0 + 2) (p1 + 2) (p2 + 2) (p3 + 2) (u32 (ia + twid)).
Proof.
  intros Hsep Hco.
  assert (Hc : forall i v a (x : mem),
             twiddle_cells pCoef ia (pCoef + u32 i) ->
             in_cells p0 p1 p2 p3 a ->
             store x a v (pCoef + u32 i) = x (pCoef + u32 i)).
  { intros i v a x Hi Ha. apply store_neq. intros E.
    apply (Hco _ Hi). rewrite E. exact Ha. }
  unfold separated, apart in Hsep.
  cbv beta iota zeta delta
    [first_stage_body_dir ls_mem ls_pSi0 ls_pSi1 ls_pSi2 ls_pSi3 ls_ia1].
  unfold write4.
  repeat (rewrite Hc by (unfold twiddle_cells, in_cells; lia)).
  rewrite !store_neq by lia.
  tree_rewrite. unfold_butterfly.
  f_equal; lia.
Qed.

(** One iteration of the innermost middle-stage loop. *)
Lemma middle_stage_body_dir_closed d n1 w m p0 p1 p2 p3 ia :
  separated p0 p1 p2 p3 ->
  middle_stage_body_dir d n1 (co1 w) (si1 w) (co2 w) (si2 w) (co3 w) (si3 w)
    (mkLoop m p0 p1 p2 p3 ia) =
  mkLoop (write4 m p0 p1 p2 p3 (middle_butterfly d (read4 m p0 p1 p2 p3) w))
         (p0 + u32 (2 * n1)) (p1 + u32 (2 * n1))
         (p2 + u32 (2 * n1)) (p3 + u32 (2 * n1)) ia.
Proof.
  intros Hsep.
  unfold separated, apart in Hsep.
  cbv beta iota zeta delta
    [middle_stage_body_dir ls_mem ls_pSi0 ls_pSi1 ls_pSi2 ls_pSi3 ls_ia1].
  unfold write4.
  rewrite !store_neq by lia.
  tree_rewrite. unfold_butterfly.
  reflexivity.
Qed.

(** One iteration of the last-stage loop. *)
Lemma last_stage_body_dir_closed d m p p1 p2 p3 ia :
  last_stage_body_dir d (mkLoop m p p1 p2 p3 ia) =
  mkLoop (write4 m p (p + 2) (p + 4) (p + 6)
            (last_butterfly d (read4 m p (p + 2) (p + 4) (p + 6))))
         (p + 8) p1 p2 p3 ia.
Proof.
  cbv beta iota zeta delta
    [last_stage_body_dir ls_mem ls_pSi0 ls_pSi1 ls_pSi2 ls_pSi3 ls_ia1].
  unfold write4.
  tree_rewrite. unfold_butterfly.
  repeat (f_equal; try lia).
Qed.

Lemma write4_out m p0 p1 p2 p3 o a :
  ~ in_cells p0 p1 p2 p3 a -> write4 m p0 p1 p2 p3 o a = m a.
Proof.
  unfold in_cells, write4. intros H.
  rewrite !store_neq by lia. reflexivity.
Qed.

Lemma read4_out_write4 m p0 p1 p2 p3 o :
  separated p0 p1 p2 p3 ->
  read4_out (write4 m p0 p1 p2 p3 o) p0 p1 p2 p3 = o.
Proof.
  unfold separated, apart, read4_out, write4. intros H. destruct o.
  cbn [xa ya xb yb xc yc xd yd].
  f_equal;
    repeat first [ rewrite store_eq; reflexivity | rewrite store_neq by lia ].
Qed.

Lemma read4_out_ext m m' p0 p1 p2 p3 :
  (forall a, in_cells p0 p1 p2 p3 a -> m a = m' a) ->
  read4_out m p0 p1 p2 p3 = read4_out m' p0 p1 p2 p3.
Proof.
  intros H. unfold read4_out.
  f_equal; apply H; unfold in_cells; lia.
Qed.

Lemma read4_ext m m' p0 p1 p2 p3 :
  (forall a, in_cells p0 p1 p2 p3 a -> m a = m' a) ->
  read4 m p0 p1 p2 p3 = read4 m' p0 p1 p2 p3.
Proof.
  intros H. unfold read4.
  f_equal; apply H; unfold in_cells; lia.
Qed.

(** ** Loops *)

Fixpoint iterate {S : Type} (n : nat) (f : S -> S) (s : S) : S :=
  match n with
  | O => s
  | Datatypes.S n' => iterate n' f (f s)
  end.

Lemma iterate_succ_r {S : Type} n (f : S -> S) s :
  iterate (Datatypes.S n) f s = f (iterate n f s).
Proof.
  revert s. induction n as [|n IH]; intros s; [reflexivity|].
  change (iterate (Datatypes.S (Datatypes.S n)) f s)
    with (iterate (Datatypes.S n) f (f s)).
  rewrite IH. reflexivity.
Qed.

(** A [do ... while (--j)] loop entered with [0 < j < 2^32] runs its body
    exactly [j] times: the fuel [trips j] is what the loop consumes. *)
Lemma do_while_iterate {S : Type} (body : S -> S) (n : nat) (s : S) :
  (0 < n)%nat -> Z.of_nat n < 2 ^ 32 ->
  do_while (trips (Z.of_nat n)) body (Z.of_nat n) s = iterate n body s.
Proof.
  intros Hpos Hlt.
  assert (Htrips : trips (Z.of_nat n) = n).
  { unfold trips. destruct (Z.eqb_spec (Z.of_nat n) 0); lia. }
  rewrite Htrips. clear Htrips.
  revert s. induction n as [|n IH]; intros s; [lia|].
  cbn [do_while iterate].
  replace (u32 (Z.of_nat (Datatypes.S n) - 1)) with (Z.of_nat n).
  2:{ unfold u32. rewrite Z.mod_small; lia. }
  destruct (Z.eqb_spec (Z.of_nat n) 0) as [E|E].
  - assert (n = O) by lia. subst n. reflexivity.
  - apply IH; lia.
Qed.

(** ** In-place passes

    Every stage runs one butterfly after the other over the same buffer.
    When the butterflies of a pass work on pairwise disjoint cells and take
    whatever else they read (the twiddle factors) from outside these cells,
    the pass computes every butterfly from the contents of the buffer at the
    start of the pass. *)

Section InPlace.

Variable bound : nat.
(** The four cursors of butterfly [t]. *)
Variables c0 c1 c2 c3 : nat -> Z.
(** Its results, from the memory (for the twiddle factors) and the
    operands. *)
Variable f : nat -> mem -> octet -> octet.

Definition touched (a : Z) : Prop :=
  exists t, (t < bound)%nat /\ in_cells (c0 t) (c1 t) (c2 t) (c3 t) a.

Hypothesis cells_separated :
  forall t, (t < bound)%nat -> separated (c0 t) (c1 t) (c2 t) (c3 t).
Hypothesis cells_disjoint :
  forall t t' a, (t < bound)%nat -> (t' < bound)%nat ->
    in_cells (c0 t) (c1 t) (c2 t) (c3 t) a ->
    in_cells (c0 t') (c1 t') (c2 t') (c3 t') a -> t = t'.
Hypothesis f_reads_outside :
  forall t m m', (t < bound)%nat ->
    (forall a, ~ touched a -> m a = m' a) -> f t m = f t m'.

Definition step (t : nat) (m : mem) : mem :=
  write4 m (c0 t) (c1 t) (c2 t) (c3 t)
    (f t m (read4 m (c0 t) (c1 t) (c2 t) (c3 t))).

Fixpoint pass (n : nat) (m : mem) : mem :=
  match n with
  | O => m
  | S n' => step n' (pass n' m)
  end.

Lemma pass_out n m a :
  (forall t, (t < n)%nat -> ~ in_cells (c0 t) (c1 t) (c2 t) (c3 t) a) ->
  pass n m a = m a.
Proof.
  induction n as [|n IH]; intros H; [reflexivity|].
  cbn [pass]. unfold step. rewrite write4_out by (apply H; lia).
  apply IH. intros t Ht. apply H. lia.
Qed.

Lemma step_at t m m' a :
  (t < bound)%nat ->
  (forall x, in_cells (c0 t) (c1 t) (c2 t) (c3 t) x -> m x = m' x) ->
  (forall x, ~ touched x -> m x = m' x) ->
  in_cells (c0 t) (c1 t) (c2 t) (c3 t) a ->
  step t m a = step t m' a.
Proof.
  intros Ht Hcells Hout Ha. unfold step.
  rewrite (read4_ext m m') by exact Hcells.
  rewrite (f_reads_outside t m m' Ht Hout).
  unfold write4, store.
  repeat match goal with
         | |- context [a =? ?x] => destruct (Z.eqb_spec a x); [reflexivity|]
         end.
  unfold in_cells in Ha. lia.
Qed.

Lemma pass_in n m t a :
  (n <= bound)%nat -> (t < n)%nat ->
  in_cells (c0 t) (c1 t) (c2 t) (c3 t) a ->
  pass n m a = step t m a.
Proof.
  induction n as [|n IH]; intros Hn Ht Ha; [lia|].
  cbn [pass].
  destruct (Nat.eq_dec t n) as [->|Hne].
  - apply step_at; [lia| | |exact Ha].
    + intros x Hx. apply pass_out. intros t' Ht' Hx'.
      assert (n = t') by (apply (cells_disjoint n t' x); auto; lia). lia.
    + intros x Hx. apply pass_out. intros t' Ht' Hx'.
      apply Hx. exists t'. split; [lia|exact Hx'].
  - unfold step at 1. rewrite write4_out.
    + apply IH; [lia|lia|exact Ha].
    + intros Hin.
      assert (t = n) by (apply (cells_disjoint t n a); auto; lia). lia.
Qed.

(** The results of butterfly [t] after the pass, read back from its
    cells. *)
Lemma pass_read n m t :
  (n <= bound)%nat -> (t < n)%nat ->
  read4_out (pass n m) (c0 t) (c1 t) (c2 t) (c3 t) =
  f t m (read4 m (c0 t) (c1 t) (c2 t) (c3 t)).
Proof.
  intros Hn Ht.
  rewrite (read4_out_ext _ (step t m)).
  - unfold step. apply read4_out_write4. apply cells_separated. lia.
  - intros a Ha. apply pass_in; assumption.
Qed.

End InPlace.

(** ** The three phases of an engine *)

Definition first_stage (d : direction) (pSrc fftLen pCoef twidCoefModifier : Z)
  (m : mem) : loop_state :=
  let n2 := Z.shiftr fftLen 2 in
  do_while (trips n2) (first_stage_body_dir d pCoef twidCoefModifier) n2
    (mkLoop m pSrc (pSrc + u32 (2 * n2))
       (pSrc + u32 (2 * n2) + u32 (2 * n2))
       (pSrc + u32 (2 * n2) + u32 (2 * n2) + u32 (2 * n2)) 0).

Definition middle_phase (d : direction)
  (pSrc fftLen pCoef twidCoefModifier : Z) (s : loop_state)
  : loop_state * Z * Z :=
  middle_stages 16 (middle_stage_body_dir d) pSrc fftLen pCoef (fftLen / 4)
    (s, Z.shiftr fftLen 2, u32 (Z.shiftl twidCoefModifier 2)).

Definition last_stage (d : direction) (pSrc fftLen : Z) (s : loop_state) : mem :=
  ls_mem
    (do_while (trips (Z.shiftr fftLen 2)) (last_stage_body_dir d)
       (Z.shiftr fftLen 2)
       (mkLoop (ls_mem s) pSrc (ls_pSi1 s) (ls_pSi2 s) (ls_pSi3 s) (ls_ia1 s))).

Lemma radix4_butterfly_dir_phases d pSrc fftLen pCoef twid m :
  radix4_butterfly_dir d pSrc fftLen pCoef twid m =
  last_stage d pSrc fftLen
    (fst (fst (middle_phase d pSrc fftLen pCoef twid
                 (first_stage d pSrc fftLen pCoef twid m)))).
Proof.
  unfold radix4_butterfly_dir, last_stage, middle_phase, first_stage.
  cbv zeta.
  destruct (middle_stages _ _ _ _ _ _ _) as [[s n2] tw].
  reflexivity.
Qed.

(** ** First stage *)

Section FirstStage.

Variable d : direction.
Variables pSrc pCoef twid : Z.
(** [q] is the number of butterflies, [fftLen / 4]. *)
Variable q : nat.
Hypothesis q_pos : (0 < q)%nat.
Hypothesis q_small : Z.of_nat q < 2 ^ 30.
(** No twiddle factor that the stage reads is stored inside the sample
    buffer. *)
Hypothesis coef_outside :
  forall t a, (t < q)%nat ->
    twiddle_cells pCoef (u32 (Z.of_nat t * twid)) a ->
    ~ (pSrc <= a < pSrc + 8 * Z.of_nat q).

Definition fs_cursor (k : Z) (t : nat) : Z :=
  pSrc + k * (2 * Z.of_nat q) + 2 * Z.of_nat t.

Definition fs_result (t : nat) (m : mem) (o : octet) : octet :=
  first_butterfly d o (twiddles_first m pCoef (u32 (Z.of_nat t * twid))).

Definition fs_pass : nat -> mem -> mem :=
  pass (fs_cursor 0) (fs_cursor 1) (fs_cursor 2) (fs_cursor 3) fs_result.

Lemma fs_separated t :
  (t < q)%nat ->
  separated (fs_cursor 0 t) (fs_cursor 1 t) (fs_cursor 2 t) (fs_cursor 3 t).
Proof. unfold separated, apart, fs_cursor. lia. Qed.

Lemma fs_in_buffer t a :
  (t < q)%nat ->
  in_cells (fs_cursor 0 t) (fs_cursor 1 t) (fs_cursor 2 t) (fs_cursor 3 t) a ->
  pSrc <= a < pSrc + 8 * Z.of_nat q.
Proof. unfold in_cells, fs_cursor. lia. Qed.

Lemma fs_disjoint t t' a :
  (t < q)%nat -> (t' < q)%nat ->
  in_cells (fs_cursor 0 t) (fs_cursor 1 t) (fs_cursor 2 t) (fs_cursor 3 t) a ->
  in_cells (fs_cursor 0 t') (fs_cursor 1 t') (fs_cursor 2 t')
    (fs_cursor 3 t') a ->
  t = t'.
Proof. unfold in_cells, fs_cursor. lia. Qed.

Lemma fs_coef_outside t :
  (t < q)%nat ->
  forall a, twiddle_cells pCoef (u32 (Z.of_nat t * twid)) a ->
    ~ in_cells (fs_cursor 0 t) (fs_cursor 1 t) (fs_cursor 2 t)
        (fs_cursor 3 t) a.
Proof.
  intros Ht a Ha Hin. apply (coef_outside t a Ht Ha).
  exact (fs_in_buffer t _ Ht Hin).
Qed.

Lemma fs_result_outside t m m' :
  (t < q)%nat ->
  (forall a,
     ~ touched q (fs_cursor 0) (fs_cursor 1) (fs_cursor 2) (fs_cursor 3) a ->
     m a = m' a) ->
  fs_result t m = fs_result t m'.
Proof.
  intros Ht H. unfold fs_result, twiddles_first, twiddle_co, twiddle_si.
  assert (Hc : forall a,
             twiddle_cells pCoef (u32 (Z.of_nat t * twid)) a -> m a = m' a).
  { intros a Ha. apply H. intros [t' [Ht' Hin]].
    apply (coef_outside t a Ht Ha). exact (fs_in_buffer t' a Ht' Hin). }
  rewrite !Hc by (unfold twiddle_cells; auto 7). reflexivity.
Qed.

Lemma first_stage_iterate m t :
  (t <= q)%nat ->
  iterate t (first_stage_body_dir d pCoef twid)
    (mkLoop m (fs_cursor 0 O) (fs_cursor 1 O) (fs_cursor 2 O)
       (fs_cursor 3 O) 0) =
  mkLoop (fs_pass t m) (fs_cursor 0 t) (fs_cursor 1 t) (fs_cursor 2 t)
    (fs_cursor 3 t) (u32 (Z.of_nat t * twid)).
Proof.
  induction t as [|t IH]; intros Ht.
  - reflexivity.
  - rewrite iterate_succ_r, IH by lia.
    rewrite first_stage_body_dir_closed
      by (apply fs_separated || apply fs_coef_outside; lia).
    unfold fs_pass. cbn [pass]. unfold step, fs_result.
    f_equal; unfold fs_cursor; try lia.
    unfold u32. rewrite Zplus_mod_idemp_l. f_equal. lia.
Qed.

Lemma first_stage_pass m :
  first_stage d pSrc (4 * Z.of_nat q) pCoef twid m =
  mkLoop (fs_pass q m) (fs_cursor 0 q) (fs_cursor 1 q) (fs_cursor 2 q)
    (fs_cursor 3 q) (u32 (Z.of_nat q * twid)).
Proof.
  unfold first_stage.
  replace (Z.shiftr (4 * Z.of_nat q) 2) with (Z.of_nat q).
  2:{ rewrite Z.shiftr_div_pow2 by lia. change (2 ^ 2) with 4.
      rewrite Z.mul_comm, Z.div_mul; lia. }
  cbv zeta.
  rewrite do_while_iterate by lia.
  replace (u32 (2 * Z.of_nat q)) with (2 * Z.of_nat q)
    by (unfold u32; rewrite Z.mod_small; lia).
  rewrite <- first_stage_iterate by lia.
  f_equal. f_equal; unfold fs_cursor; lia.
Qed.

(** The results of butterfly [t], read back after the first stage, are
    those of [first_butterfly] on the operands and twiddle factors found
    in the memory the stage started from. *)
Lemma first_stage_read m t :
  (t < q)%nat ->
  read4_out (ls_mem (first_stage d pSrc (4 * Z.of_nat q) pCoef twid m))
    (fs_cursor 0 t) (fs_cursor 1 t) (fs_cursor 2 t) (fs_cursor 3 t) =
  first_butterfly d
    (read4 m (fs_cursor 0 t) (fs_cursor 1 t) (fs_cursor 2 t) (fs_cursor 3 t))
    (twiddles_first m pCoef (u32 (Z.of_nat t * twid))).
Proof.
  intros Ht. rewrite first_stage_pass. cbn [ls_mem]. unfold fs_pass.
  rewrite (pass_read q _ _ _ _ _ fs_separated fs_disjoint fs_result_outside)
    by lia.
  reflexivity.
Qed.

(** The first stage writes inside the buffer only. *)
Lemma first_stage_frame m a :
  ~ (pSrc <= a < pSrc + 8 * Z.of_nat q) ->
  ls_mem (first_stage d pSrc (4 * Z.of_nat q) pCoef twid m) a = m a.
Proof.
  intros Ha. rewrite first_stage_pass. cbn [ls_mem]. unfold fs_pass.
  apply pass_out. intros t Ht Hin. apply Ha.
  exact (fs_in_buffer t a Ht Hin).
Qed.

End FirstStage.

(** ** Last stage *)

Section LastStage.

Variable d : direction.
Variable pSrc : Z.
(** [q] is the number of groups of four samples, [fftLen / 4]. *)
Variable q : nat.
Hypothesis q_pos : (0 < q)%nat.
Hypothesis q_small : Z.of_nat q < 2 ^ 30.

Definition ls_cursor (k : Z) (t : nat) : Z := pSrc + 8 * Z.of_nat t + 2 * k.

Definition ls_result (t : nat) (m : mem) (o : octet) : octet :=
  last_butterfly d o.

Definition ls_pass : nat -> mem -> mem :=
  pass (ls_cursor 0) (ls_cursor 1) (ls_cursor 2) (ls_cursor 3) ls_result.

Lemma ls_separated t :
  separated (ls_cursor 0 t) (ls_cursor 1 t) (ls_cursor 2 t) (ls_cursor 3 t).
Proof. unfold separated, apart, ls_cursor. lia. Qed.

Lemma ls_in_buffer t a :
  (t < q)%nat ->
  in_cells (ls_cursor 0 t) (ls_cursor 1 t) (ls_cursor 2 t) (ls_cursor 3 t) a ->
  pSrc <= a < pSrc + 8 * Z.of_nat q.
Proof. unfold in_cells, ls_cursor. lia. Qed.

Lemma ls_disjoint t t' a :
  in_cells (ls_cursor 0 t) (ls_cursor 1 t) (ls_cursor 2 t) (ls_cursor 3 t) a ->
  in_cells (ls_cursor 0 t') (ls_cursor 1 t') (ls_cursor 2 t')
    (ls_cursor 3 t') a ->
  t = t'.
Proof. unfold in_cells, ls_cursor. lia. Qed.

Lemma last_stage_iterate m p1 p2 p3 ia t :
  iterate t (last_stage_body_dir d) (mkLoop m pSrc p1 p2 p3 ia) =
  mkLoop (ls_pass t m) (pSrc + 8 * Z.of_nat t) p1 p2 p3 ia.
Proof.
  induction t as [|t IH].
  - cbn [iterate]. f_equal. lia.
  - rewrite iterate_succ_r, IH, last_stage_body_dir_closed.
    unfold ls_pass. cbn [pass]. unfold step, ls_result, ls_cursor.
    f_equal; try lia.
    repeat (f_equal; try lia).
Qed.

Lemma last_stage_pass s :
  last_stage d pSrc (4 * Z.of_nat q) s = ls_pass q (ls_mem s).
Proof.
  unfold last_stage.
  replace (Z.shiftr (4 * Z.of_nat q) 2) with (Z.of_nat q).
  2:{ rewrite Z.shiftr_div_pow2 by lia. change (2 ^ 2) with 4.
      rewrite Z.mul_comm, Z.div_mul; lia. }
  rewrite do_while_iterate by lia.
  rewrite last_stage_iterate. reflexivity.
Qed.

(** The results of group [t], read back after the last stage, are those
    of [last_butterfly] on the eight cells of the group as they were when
    the stage started. *)
Lemma last_stage_read s t :
  (t < q)%nat ->
  read4_out (last_stage d pSrc (4 * Z.of_nat q) s)
    (ls_cursor 0 t) (ls_cursor 1 t) (ls_cursor 2 t) (ls_cursor 3 t) =
  last_butterfly d
    (read4 (ls_mem s) (ls_cursor 0 t) (ls_cursor 1 t) (ls_cursor 2 t)
       (ls_cursor 3 t)).
Proof.
  intros Ht. rewrite last_stage_pass. unfold ls_pass.
  rewrite (pass_read q) with (t := t); try lia; try reflexivity.
  - intros; apply ls_separated.
  - intros t1 t2 a _ _. apply ls_disjoint.
Qed.

(** The last stage writes inside the buffer only. *)
Lemma last_stage_frame s a :
  ~ (pSrc <= a < pSrc + 8 * Z.of_nat q) ->
  last_stage d pSrc (4 * Z.of_nat q) s a = ls_mem s a.
Proof.
  intros Ha. rewrite last_stage_pass. unfold ls_pass.
  apply pass_out. intros t Ht Hin. apply Ha.
  exact (ls_in_buffer t a Ht Hin).
Qed.

End LastStage.

(** ** Middle stages *)

Lemma flat_div (B j b : nat) : (b < B)%nat -> ((j * B + b) / B = j)%nat.
Proof.
  intros H. rewrite Nat.div_add_l by lia. rewrite Nat.div_small by lia. lia.
Qed.

Lemma flat_mod (B j b : nat) : (b < B)%nat -> ((j * B + b) mod B = b)%nat.
Proof.
  intros H. rewrite Nat.add_comm, Nat.Div0.mod_add. apply Nat.mod_small. lia.
Qed.

Lemma flat_split (B Q t : nat) :
  (0 < B)%nat -> (t < Q * B)%nat ->
  (t / B < Q)%nat /\ (t mod B < B)%nat /\ (t = (t / B) * B + t mod B)%nat.
Proof.
  intros HB Ht. split; [|split].
  - apply Nat.Div0.div_lt_upper_bound. lia.
  - apply Nat.mod_upper_bound. lia.
  - pose proof (Nat.div_mod_eq t B). lia.
Qed.

(** The twiddle factors as the middle-stage loop reads them (lines
    320-327): the indices are [ia1], [ia1 + ia1] and [ia2 + ia1]. *)
Lemma twiddles_middle_first (m : mem) (pCoef ia : Z) :
  mkTwiddles (m (pCoef + u32 (ia * 2))) (m (pCoef + u32 (u32 (ia * 2) + 1)))
    (m (pCoef + u32 (u32 (ia + ia) * 2)))
    (m (pCoef + u32 (u32 (u32 (ia + ia) * 2) + 1)))
    (m (pCoef + u32 (u32 (u32 (ia + ia) + ia) * 2)))
    (m (pCoef + u32 (u32 (u32 (u32 (ia + ia) + ia) * 2) + 1))) =
  twiddles_first m pCoef ia.
Proof.
  unfold twiddles_first, twiddle_co, twiddle_si.
  replace (u32 (u32 (ia + ia) + ia)) with (u32 (3 * ia)).
  2:{ unfold u32. rewrite Zplus_mod_idemp_l. f_equal. lia. }
  replace (ia + ia) with (2 * ia) by lia. reflexivity.
Qed.

Section MiddleStage.

Variable d : direction.
Variables pSrc pCoef fftLen tw : Z.
(** [Q] is the new quarter size [n2], [4 * Q] the sub-block size [n1] and
    [B] the number of sub-blocks of the buffer. *)
Variables Q B : nat.
Hypothesis Q_pos : (0 < Q)%nat.
Hypothesis B_pos : (0 < B)%nat.
Hypothesis fftLen_eq : fftLen = Z.of_nat B * (4 * Z.of_nat Q).
Hypothesis fftLen_small : fftLen <= 2 ^ 30.
Hypothesis coef_outside :
  forall j a, (j < Q)%nat ->
    twiddle_cells pCoef (u32 (Z.of_nat j * tw)) a ->
    ~ (pSrc <= a < pSrc + 2 * fftLen).

(** The cursor [k] of the butterfly [j] of sub-block [b]. *)
Definition ms_cell (j b : nat) (k : Z) : Z :=
  pSrc + 2 * Z.of_nat j + 2 * (4 * Z.of_nat Q) * Z.of_nat b
  + 2 * Z.of_nat Q * k.

Definition ms_cursor (k : Z) (t : nat) : Z :=
  ms_cell (t / B) (t mod B) k.

(** [m0] is the memory at the start of the stage. *)
Definition ms_result (m0 : mem) (t : nat) (m : mem) (o : octet) : octet :=
  middle_butterfly d o
    (twiddles_first m0 pCoef (u32 (Z.of_nat (t / B) * tw))).

Definition ms_pass (m0 : mem) : nat -> mem -> mem :=
  pass (ms_cursor 0) (ms_cursor 1) (ms_cursor 2) (ms_cursor 3)
    (ms_result m0).

Lemma ms_pass_succ m0 n m :
  ms_pass m0 (S n) m =
  step (ms_cursor 0) (ms_cursor 1) (ms_cursor 2) (ms_cursor 3)
    (ms_result m0) n (ms_pass m0 n m).
Proof. reflexivity. Qed.

Lemma Q_B_bounds :
  0 < Z.of_nat Q /\ 0 < Z.of_nat B /\
  Z.of_nat Q <= Z.of_nat B * Z.of_nat Q /\
  4 * (Z.of_nat B * Z.of_nat Q) <= 2 ^ 30.
Proof. nia. Qed.

Lemma block_step (b b' : nat) :
  (b < b')%nat ->
  Z.of_nat Q * Z.of_nat b + Z.of_nat Q <= Z.of_nat Q * Z.of_nat b'.
Proof. intros H. nia. Qed.

Lemma ms_cell_separated j b :
  separated (ms_cell j b 0) (ms_cell j b 1) (ms_cell j b 2) (ms_cell j b 3).
Proof. unfold separated, apart, ms_cell. lia. Qed.

Lemma ms_cell_in_buffer j b a :
  (j < Q)%nat -> (b < B)%nat ->
  in_cells (ms_cell j b 0) (ms_cell j b 1) (ms_cell j b 2) (ms_cell j b 3) a ->
  pSrc <= a < pSrc + 2 * fftLen.
Proof.
  intros Hj Hb. unfold in_cells, ms_cell. rewrite fftLen_eq.
  pose proof (block_step b B Hb). nia.
Qed.

Lemma ms_cell_disjoint j b j' b' a :
  (j < Q)%nat -> (j' < Q)%nat ->
  in_cells (ms_cell j b 0) (ms_cell j b 1) (ms_cell j b 2) (ms_cell j b 3) a ->
  in_cells (ms_cell j' b' 0) (ms_cell j' b' 1) (ms_cell j' b' 2)
    (ms_cell j' b' 3) a ->
  j = j' /\ b = b'.
Proof.
  intros Hj Hj'. unfold in_cells, ms_cell. intros H H'.
  destruct (lt_eq_lt_dec b b') as [[Hlt|Heq]|Hgt].
  - pose proof (block_step b b' Hlt). lia.
  - subst b'. lia.
  - pose proof (block_step b' b Hgt). lia.
Qed.

Lemma ms_separated t :
  separated (ms_cursor 0 t) (ms_cursor 1 t) (ms_cursor 2 t) (ms_cursor 3 t).
Proof. apply ms_cell_separated. Qed.

Lemma ms_in_buffer t a :
  (t < Q * B)%nat ->
  in_cells (ms_cursor 0 t) (ms_cursor 1 t) (ms_cursor 2 t) (ms_cursor 3 t) a ->
  pSrc <= a < pSrc + 2 * fftLen.
Proof.
  intros Ht. destruct (flat_split B Q t B_pos Ht) as [Hj [Hb _]].
  apply ms_cell_in_buffer; assumption.
Qed.

Lemma ms_disjoint t t' a :
  (t < Q * B)%nat -> (t' < Q * B)%nat ->
  in_cells (ms_cursor 0 t) (ms_cursor 1 t) (ms_cursor 2 t) (ms_cursor 3 t) a ->
  in_cells (ms_cursor 0 t') (ms_cursor 1 t') (ms_cursor 2 t')
    (ms_cursor 3 t') a ->
  t = t'.
Proof.
  intros Ht Ht' H H'.
  destruct (flat_split B Q t B_pos Ht) as [Hj [Hb E]].
  destruct (flat_split B Q t' B_pos Ht') as [Hj' [Hb' E']].
  destruct (ms_cell_disjoint _ _ _ _ a Hj Hj' H H') as [Ej Eb].
  rewrite E, E', Ej, Eb. reflexivity.
Qed.

Lemma ms_result_outside m0 t m m' :
  ms_result m0 t m = ms_result m0 t m'.
Proof. reflexivity. Qed.

Lemma ms_pass_coef m0 n j a :
  (n <= Q * B)%nat -> (j < Q)%nat ->
  twiddle_cells pCoef (u32 (Z.of_nat j * tw)) a ->
  ms_pass m0 n m0 a = m0 a.
Proof.
  intros Hn Hj Ha. apply pass_out. intros t Ht Hin.
  apply (coef_outside j a Hj Ha).
  apply (ms_in_buffer t); [lia|exact Hin].
Qed.

(** The inner loop over the sub-blocks, for the butterfly [j]. *)
Lemma middle_inner_iterate m0 j b r ia :
  (j < Q)%nat -> (b + r <= B)%nat ->
  iterate r
    (let w := twiddles_first m0 pCoef (u32 (Z.of_nat j * tw)) in
     middle_stage_body_dir d (4 * Z.of_nat Q)
       (co1 w) (si1 w) (co2 w) (si2 w) (co3 w) (si3 w))
    (mkLoop (ms_pass m0 (j * B + b) m0)
       (ms_cell j b 0) (ms_cell j b 1) (ms_cell j b 2) (ms_cell j b 3) ia) =
  mkLoop (ms_pass m0 (j * B + (b + r)) m0)
    (ms_cell j (b + r) 0) (ms_cell j (b + r) 1) (ms_cell j (b + r) 2)
    (ms_cell j (b + r) 3) ia.
Proof.
  intros Hj. induction r as [|r IH]; intros Hr.
  - cbn [iterate]. rewrite Nat.add_0_r. reflexivity.
  - rewrite iterate_succ_r, IH by lia. cbv zeta.
    rewrite middle_stage_body_dir_closed by apply ms_cell_separated.
    replace (j * B + (b + S r))%nat with (S (j * B + (b + r))) by lia.
    rewrite ms_pass_succ.
    unfold step, ms_result, ms_cursor.
    rewrite flat_div, flat_mod by lia.
    pose proof Q_B_bounds as HB.
    replace (u32 (2 * (4 * Z.of_nat Q))) with (2 * (4 * Z.of_nat Q))
      by (unfold u32; rewrite Z.mod_small; nia).
    f_equal; unfold ms_cell; lia.
Qed.

Lemma middle_i0_loop_iterate body j b r fuel s :
  (j < Q)%nat -> (b + r = B)%nat -> (r <= fuel)%nat ->
  middle_i0_loop fuel body fftLen (4 * Z.of_nat Q)
    (Z.of_nat j + Z.of_nat b * (4 * Z.of_nat Q)) s =
  iterate r body s.
Proof.
  intros Hj. revert b fuel s.
  induction r as [|r IH]; intros b fuel s Hb Hf.
  - destruct fuel as [|fuel]; [reflexivity|]. cbn [middle_i0_loop iterate].
    destruct (Z.ltb_spec (Z.of_nat j + Z.of_nat b * (4 * Z.of_nat Q)) fftLen)
      as [H|H]; [|reflexivity].
    exfalso. rewrite fftLen_eq in H.
    replace b with B in H by lia. lia.
  - destruct fuel as [|fuel]; [lia|]. cbn [middle_i0_loop iterate].
    pose proof Q_B_bounds as HB.
    assert (Hb' : (b < B)%nat) by lia.
    pose proof (block_step b B Hb') as Hstep.
    destruct (Z.ltb_spec (Z.of_nat j + Z.of_nat b * (4 * Z.of_nat Q)) fftLen)
      as [H|H].
    2:{ exfalso. rewrite fftLen_eq in H. lia. }
    replace (u32 (Z.of_nat j + Z.of_nat b * (4 * Z.of_nat Q)
                  + 4 * Z.of_nat Q))
      with (Z.of_nat j + Z.of_nat (S b) * (4 * Z.of_nat Q)).
    2:{ unfold u32. rewrite Z.mod_small; [lia|].
        rewrite fftLen_eq in H. lia. }
    apply IH; lia.
Qed.

(** One iteration of the loop over [j]. *)
Lemma middle_j_body_pass m0 j p0 p1 p2 p3 :
  (j < Q)%nat ->
  middle_j_body (middle_stage_body_dir d) pSrc fftLen pCoef tw
    (4 * Z.of_nat Q) (Z.of_nat Q) (Z.of_nat j)
    (mkLoop (ms_pass m0 (j * B) m0) p0 p1 p2 p3 (u32 (Z.of_nat j * tw))) =
  mkLoop (ms_pass m0 (S j * B) m0)
    (ms_cell j B 0) (ms_cell j B 1) (ms_cell j B 2) (ms_cell j B 3)
    (u32 (Z.of_nat (S j) * tw)).
Proof.
  intros Hj. unfold middle_j_body.
  cbn [ls_mem ls_ia1]. cbv zeta.
  pose proof Q_B_bounds as HB.
  assert (HjB : (j * B <= Q * B)%nat) by nia.
  set (ia := u32 (Z.of_nat j * tw)).
  replace (u32 (u32 (ia + ia) + ia)) with (u32 (3 * ia))
    by (unfold u32; rewrite Zplus_mod_idemp_l; f_equal; lia).
  replace (ia + ia) with (2 * ia) by lia.
  rewrite !(ms_pass_coef m0 (j * B) j)
    by (first [exact HjB | exact Hj | unfold twiddle_cells; fold ia; auto 7]).
  replace (2 * ia) with (ia + ia) by lia.
  replace (u32 (3 * ia)) with (u32 (u32 (ia + ia) + ia))
    by (unfold u32; rewrite Zplus_mod_idemp_l; f_equal; lia).
  subst ia.
  replace (u32 (2 * Z.of_nat j)) with (2 * Z.of_nat j)
    by (unfold u32; rewrite Z.mod_small; lia).
  replace (u32 (2 * Z.of_nat Q)) with (2 * Z.of_nat Q)
    by (unfold u32; rewrite Z.mod_small; lia).
  pose proof (middle_i0_loop_iterate
    (let w := twiddles_first m0 pCoef (u32 (Z.of_nat j * tw)) in
     middle_stage_body_dir d (4 * Z.of_nat Q)
       (co1 w) (si1 w) (co2 w) (si2 w) (co3 w) (si3 w))
    j O B (Z.to_nat fftLen)) as Hloop.
  cbn [Z.of_nat] in Hloop. rewrite Z.mul_0_l, Z.add_0_r in Hloop.
  rewrite <- (twiddles_middle_first m0 pCoef (u32 (Z.of_nat j * tw)))
    in Hloop.
  cbn [co1 si1 co2 si2 co3 si3] in Hloop. cbv zeta in Hloop.
  rewrite Hloop; [|exact Hj|lia|rewrite fftLen_eq; nia].
  pose proof (middle_inner_iterate m0 j O B
                (u32 (u32 (Z.of_nat j * tw) + tw)) Hj) as Hin.
  rewrite <- (twiddles_middle_first m0 pCoef (u32 (Z.of_nat j * tw)))
    in Hin.
  cbn [co1 si1 co2 si2 co3 si3] in Hin. cbv zeta in Hin.
  rewrite Nat.add_0_r in Hin. cbn [Nat.add] in Hin.
  replace (S j * B)%nat with (j * B + B)%nat by lia.
  replace (u32 (Z.of_nat (S j) * tw))
    with (u32 (u32 (Z.of_nat j * tw) + tw)).
  2:{ unfold u32. rewrite Zplus_mod_idemp_l. f_equal. lia. }
  rewrite <- Hin by lia.
  f_equal. f_equal; unfold ms_cell; lia.
Qed.

Lemma middle_j_loop_pass m0 j r fuel p0 p1 p2 p3 :
  (j + r = Q)%nat -> (r <= fuel)%nat ->
  exists p0' p1' p2' p3',
    middle_j_loop fuel
      (middle_j_body (middle_stage_body_dir d) pSrc fftLen pCoef tw
         (4 * Z.of_nat Q) (Z.of_nat Q))
      (Z.of_nat Q) (Z.of_nat j)
      (mkLoop (ms_pass m0 (j * B) m0) p0 p1 p2 p3 (u32 (Z.of_nat j * tw))) =
    mkLoop (ms_pass m0 (Q * B) m0) p0' p1' p2' p3' (u32 (Z.of_nat Q * tw)).
Proof.
  revert j fuel p0 p1 p2 p3.
  pose proof Q_B_bounds as HB.
  assert (Hu : u32 (Z.of_nat Q - 1) = Z.of_nat Q - 1)
    by (unfold u32; rewrite Z.mod_small; lia).
  induction r as [|r IH]; intros j fuel p0 p1 p2 p3 Hj Hf.
  - assert (j = Q) by lia. subst j.
    exists p0, p1, p2, p3.
    destruct fuel as [|fuel]; [reflexivity|]. cbn [middle_j_loop].
    rewrite Hu.
    destruct (Z.leb_spec (Z.of_nat Q) (Z.of_nat Q - 1)); [lia|reflexivity].
  - destruct fuel as [|fuel]; [lia|]. cbn [middle_j_loop].
    rewrite Hu.
    destruct (Z.leb_spec (Z.of_nat j) (Z.of_nat Q - 1)); [|lia].
    rewrite middle_j_body_pass by lia.
    replace (u32 (Z.of_nat j + 1)) with (Z.of_nat (S j))
      by (unfold u32; rewrite Z.mod_small; lia).
    apply IH; lia.
Qed.

(** One middle stage, entered with [n2 = 4 * Q]: the memory is that of
    the pass, [n2] is quartered and the modifier is multiplied by 4. *)
Lemma middle_stage_pass s :
  let r := middle_stage (middle_stage_body_dir d) pSrc fftLen pCoef
             (s, 4 * Z.of_nat Q, tw) in
  ls_mem (fst (fst r)) = ms_pass (ls_mem s) (Q * B) (ls_mem s) /\
  snd (fst r) = Z.of_nat Q /\
  snd r = u32 (Z.shiftl tw 2).
Proof.
  unfold middle_stage. cbv zeta.
  replace (Z.shiftr (4 * Z.of_nat Q) 2) with (Z.of_nat Q).
  2:{ rewrite Z.shiftr_div_pow2 by lia. change (2 ^ 2) with 4.
      rewrite Z.mul_comm, Z.div_mul; lia. }
  rewrite Nat2Z.id.
  destruct (middle_j_loop_pass (ls_mem s) O Q Q (ls_pSi0 s) (ls_pSi1 s)
              (ls_pSi2 s) (ls_pSi3 s)) as [p0 [p1 [p2 [p3 E]]]]; [lia|lia|].
  cbn [Nat.mul Z.of_nat pass ms_pass] in E. rewrite Z.mul_0_l in E.
  change (u32 0) with 0 in E.
  unfold ms_pass. rewrite E. cbn [fst snd ls_mem]. auto.
Qed.

Lemma middle_stage_read s j b :
  (j < Q)%nat -> (b < B)%nat ->
  read4_out
    (ls_mem (fst (fst (middle_stage (middle_stage_body_dir d) pSrc fftLen
                         pCoef (s, 4 * Z.of_nat Q, tw)))))
    (ms_cell j b 0) (ms_cell j b 1) (ms_cell j b 2) (ms_cell j b 3) =
  middle_butterfly d
    (read4 (ls_mem s) (ms_cell j b 0) (ms_cell j b 1) (ms_cell j b 2)
       (ms_cell j b 3))
    (twiddles_first (ls_mem s) pCoef (u32 (Z.of_nat j * tw))).
Proof.
  intros Hj Hb.
  destruct (middle_stage_pass s) as [E _]. rewrite E. clear E.
  assert (Ht : (j * B + b < Q * B)%nat) by nia.
  pose proof (pass_read (Q * B) (ms_cursor 0) (ms_cursor 1) (ms_cursor 2)
                (ms_cursor 3) (ms_result (ls_mem s))
                (fun t _ => ms_separated t) ms_disjoint
                (fun t m m' _ _ => ms_result_outside (ls_mem s) t m m')
                (Q * B) (ls_mem s) (j * B + b) (Nat.le_refl _) Ht) as H.
  unfold ms_cursor, ms_result in H.
  rewrite flat_div, flat_mod in H by exact Hb.
  exact H.
Qed.

Lemma middle_stage_frame s a :
  ~ (pSrc <= a < pSrc + 2 * fftLen) ->
  ls_mem (fst (fst (middle_stage (middle_stage_body_dir d) pSrc fftLen
                      pCoef (s, 4 * Z.of_nat Q, tw)))) a = ls_mem s a.
Proof.
  intros Ha. destruct (middle_stage_pass s) as [E _]. rewrite E.
  apply pass_out. intros t Ht Hin. apply Ha.
  exact (ms_in_buffer t a Ht Hin).
Qed.

End MiddleStage.

(** ** The loop over the middle stages *)

Lemma pow4_shiftr (i : nat) :
  Z.shiftr (4 ^ Z.of_nat (S i)) 2 = 4 ^ Z.of_nat i.
Proof.
  rewrite Z.shiftr_div_pow2 by lia. change (2 ^ 2) with 4.
  rewrite Nat2Z.inj_succ, Z.pow_succ_r by lia.
  rewrite Z.mul_comm, Z.div_mul; lia.
Qed.

Lemma pow4_pos (i : nat) : 0 < 4 ^ Z.of_nat i.
Proof. apply Z.pow_pos_nonneg; lia. Qed.

Lemma pow4_succ (i : nat) : 4 ^ Z.of_nat (S i) = 4 * 4 ^ Z.of_nat i.
Proof. rewrite Nat2Z.inj_succ, Z.pow_succ_r by lia. reflexivity. Qed.

(** Entered with [k = 4^(i+1)], the loop runs [i] stages: the fuel is not
    what stops it. *)
Lemma middle_stages_iterate butterfly pSrc fftLen pCoef (i fuel : nat) st :
  (i <= fuel)%nat ->
  middle_stages fuel butterfly pSrc fftLen pCoef (4 ^ Z.of_nat (S i)) st =
  iterate i (middle_stage butterfly pSrc fftLen pCoef) st.
Proof.
  revert fuel st. induction i as [|i IH]; intros fuel st Hf.
  - destruct fuel; reflexivity.
  - destruct fuel as [|fuel]; [lia|]. cbn [middle_stages iterate].
    pose proof (pow4_pos i). rewrite (pow4_succ (S i)), (pow4_succ i).
    destruct (Z.ltb_spec 4 (4 * (4 * 4 ^ Z.of_nat i))); [|lia].
    rewrite <- (pow4_succ i), <- (pow4_succ (S i)), pow4_shiftr.
    apply IH. lia.
Qed.

(** With [fftLen = 4] the loop is entered with [k = 1] and does not run. *)
Lemma middle_stages_none butterfly pSrc fftLen pCoef fuel k st :
  k <= 4 -> middle_stages fuel butterfly pSrc fftLen pCoef k st = st.
Proof.
  intros Hk. destruct fuel; [reflexivity|]. cbn [middle_stages].
  destruct (Z.ltb_spec 4 k); [lia|reflexivity].
Qed.

(** The number of middle stages of a transform of length [4^k]. *)
Lemma middle_phase_iterate d pSrc pCoef twid (k : nat) s :
  (1 <= k <= 15)%nat ->
  middle_phase d pSrc (4 ^ Z.of_nat k) pCoef twid s =
  iterate (k - 2) (middle_stage (middle_stage_body_dir d) pSrc
                     (4 ^ Z.of_nat k) pCoef)
    (s, 4 ^ Z.of_nat (k - 1), u32 (Z.shiftl twid 2)).
Proof.
  intros Hk. unfold middle_phase.
  destruct k as [|k]; [lia|].
  replace (S k - 1)%nat with k by lia.
  rewrite pow4_shiftr.
  replace (4 ^ Z.of_nat (S k) / 4) with (4 ^ Z.of_nat k).
  2:{ rewrite pow4_succ, Z.mul_comm, Z.div_mul; lia. }
  destruct k as [|k].
  - cbn [Nat.sub iterate]. apply middle_stages_none. cbn. lia.
  - replace (S (S k) - 2)%nat with k by lia.
    apply middle_stages_iterate. lia.
Qed.

(** ** What the engines write

    Whatever the twiddle table is and wherever it is stored, an iteration
    of a butterfly loop writes the eight cells at its cursors and nothing
    else. *)

Lemma first_stage_body_dir_frame d pCoef twid s :
  let s' := first_stage_body_dir d pCoef twid s in
  ls_pSi0 s' = ls_pSi0 s + 2 /\ ls_pSi1 s' = ls_pSi1 s + 2 /\
  ls_pSi2 s' = ls_pSi2 s + 2 /\ ls_pSi3 s' = ls_pSi3 s + 2 /\
  forall a, ~ in_cells (ls_pSi0 s) (ls_pSi1 s) (ls_pSi2 s) (ls_pSi3 s) a ->
            ls_mem s' a = ls_mem s a.
Proof.
  destruct s as [m p0 p1 p2 p3 ia].
  cbv beta iota zeta delta
    [first_stage_body_dir ls_mem ls_pSi0 ls_pSi1 ls_pSi2 ls_pSi3 ls_ia1].
  repeat split; try lia.
  unfold in_cells. intros a Ha.
  repeat (rewrite store_neq; [|lia]). reflexivity.
Qed.

Lemma middle_stage_body_dir_frame d n1 c1 s1 c2 s2 c3 s3 s :
  let s' := middle_stage_body_dir d n1 c1 s1 c2 s2 c3 s3 s in
  ls_pSi0 s' = ls_pSi0 s + u32 (2 * n1) /\
  ls_pSi1 s' = ls_pSi1 s + u32 (2 * n1) /\
  ls_pSi2 s' = ls_pSi2 s + u32 (2 * n1) /\
  ls_pSi3 s' = ls_pSi3 s + u32 (2 * n1) /\
  forall a, ~ in_cells (ls_pSi0 s) (ls_pSi1 s) (ls_pSi2 s) (ls_pSi3 s) a ->
            ls_mem s' a = ls_mem s a.
Proof.
  destruct s as [m p0 p1 p2 p3 ia].
  cbv beta iota zeta delta
    [middle_stage_body_dir ls_mem ls_pSi0 ls_pSi1 ls_pSi2 ls_pSi3 ls_ia1].
  repeat split.
  unfold in_cells. intros a Ha.
  repeat (rewrite store_neq; [|lia]). reflexivity.
Qed.

Lemma last_stage_body_dir_frame d s :
  let s' := last_stage_body_dir d s in
  ls_pSi0 s' = ls_pSi0 s + 8 /\
  forall a, ~ (ls_pSi0 s <= a < ls_pSi0 s + 8) -> ls_mem s' a = ls_mem s a.
Proof.
  rewrite (last_stage_body_dir_closed d (ls_mem s) (ls_pSi0 s) (ls_pSi1 s)
             (ls_pSi2 s) (ls_pSi3 s) (ls_ia1 s)
           : last_stage_body_dir d s = _) by (destruct s; reflexivity).
  cbn [ls_pSi0 ls_mem]. split; [reflexivity|].
  intros a Ha. apply write4_out. unfold in_cells. lia.
Qed.

Section Frames.

Variable d : direction.
Variables pSrc pCoef : Z.

Definition outside (len a : Z) : Prop := ~ (pSrc <= a < pSrc + 2 * len).

(** First stage, [q = fftLen / 4] butterflies. *)
Lemma first_stage_iterate_frame twid (q t : nat) m0 :
  (t <= q)%nat ->
  let s := iterate t (first_stage_body_dir d pCoef twid)
             (mkLoop m0 pSrc (pSrc + 2 * Z.of_nat q)
                (pSrc + 4 * Z.of_nat q) (pSrc + 6 * Z.of_nat q) 0) in
  ls_pSi0 s = pSrc + 2 * Z.of_nat t /\
  ls_pSi1 s = pSrc + 2 * Z.of_nat q + 2 * Z.of_nat t /\
  ls_pSi2 s = pSrc + 4 * Z.of_nat q + 2 * Z.of_nat t /\
  ls_pSi3 s = pSrc + 6 * Z.of_nat q + 2 * Z.of_nat t /\
  forall a, outside (4 * Z.of_nat q) a -> ls_mem s a = m0 a.
Proof.
  induction t as [|t IH]; intros Ht.
  - cbn [iterate ls_pSi0 ls_pSi1 ls_pSi2 ls_pSi3 ls_mem].
    repeat split; lia.
  - cbv zeta. rewrite iterate_succ_r.
    destruct (IH ltac:(lia)) as (E0 & E1 & E2 & E3 & Hm).
    destruct (first_stage_body_dir_frame d pCoef twid
                (iterate t (first_stage_body_dir d pCoef twid)
                   (mkLoop m0 pSrc (pSrc + 2 * Z.of_nat q)
                      (pSrc + 4 * Z.of_nat q) (pSrc + 6 * Z.of_nat q) 0)))
      as (F0 & F1 & F2 & F3 & Fm).
    rewrite F0, F1, F2, F3, E0, E1, E2, E3.
    repeat split; try lia.
    intros a Ha. rewrite Fm; [apply Hm; exact Ha|].
    rewrite E0, E1, E2, E3. unfold outside, in_cells in *. lia.
Qed.

Lemma first_stage_writes twid (q : nat) m a :
  (0 < q)%nat -> Z.of_nat q < 2 ^ 30 ->
  outside (4 * Z.of_nat q) a ->
  ls_mem (first_stage d pSrc (4 * Z.of_nat q) pCoef twid m) a = m a.
Proof.
  intros Hq Hs Ha. unfold first_stage.
  replace (Z.shiftr (4 * Z.of_nat q) 2) with (Z.of_nat q).
  2:{ rewrite Z.shiftr_div_pow2 by lia. change (2 ^ 2) with 4.
      rewrite Z.mul_comm, Z.div_mul; lia. }
  cbv zeta. rewrite do_while_iterate by lia.
  replace (u32 (2 * Z.of_nat q)) with (2 * Z.of_nat q)
    by (unfold u32; rewrite Z.mod_small; lia).
  replace (pSrc + 2 * Z.of_nat q + 2 * Z.of_nat q)
    with (pSrc + 4 * Z.of_nat q) by lia.
  replace (pSrc + 4 * Z.of_nat q + 2 * Z.of_nat q)
    with (pSrc + 6 * Z.of_nat q) by lia.
  apply (first_stage_iterate_frame twid q q m); [lia|exact Ha].
Qed.

(** Last stage, [q = fftLen / 4] groups. *)
Lemma last_stage_iterate_frame (q t : nat) s0 :
  (t <= q)%nat -> ls_pSi0 s0 = pSrc ->
  let s := iterate t (last_stage_body_dir d) s0 in
  ls_pSi0 s = pSrc + 8 * Z.of_nat t /\
  forall a, outside (4 * Z.of_nat q) a -> ls_mem s a = ls_mem s0 a.
Proof.
  intros Ht H0. induction t as [|t IH].
  - cbn [iterate]. split; [lia|reflexivity].
  - cbv zeta. rewrite iterate_succ_r.
    destruct (IH ltac:(lia)) as (E0 & Hm).
    destruct (last_stage_body_dir_frame d
                (iterate t (last_stage_body_dir d) s0)) as (F0 & Fm).
    rewrite F0, E0. split; [lia|].
    intros a Ha. rewrite Fm; [apply Hm; exact Ha|].
    rewrite E0. unfold outside in Ha. lia.
Qed.

Lemma last_stage_writes (q : nat) s a :
  (0 < q)%nat -> Z.of_nat q < 2 ^ 30 ->
  outside (4 * Z.of_nat q) a ->
  last_stage d pSrc (4 * Z.of_nat q) s a = ls_mem s a.
Proof.
  intros Hq Hs Ha. unfold last_stage.
  replace (Z.shiftr (4 * Z.of_nat q) 2) with (Z.of_nat q).
  2:{ rewrite Z.shiftr_div_pow2 by lia. change (2 ^ 2) with 4.
      rewrite Z.mul_comm, Z.div_mul; lia. }
  rewrite do_while_iterate by lia.
  destruct (last_stage_iterate_frame q q
              (mkLoop (ls_mem s) pSrc (ls_pSi1 s) (ls_pSi2 s) (ls_pSi3 s)
                 (ls_ia1 s)) (Nat.le_refl q) eq_refl) as (_ & Hm).
  apply Hm. exact Ha.
Qed.

End Frames.

Section MiddleFrame.

Variable d : direction.
Variables pSrc pCoef fftLen tw : Z.
Variables Q B : nat.
Hypothesis Q_pos : (0 < Q)%nat.
Hypothesis B_pos : (0 < B)%nat.
Hypothesis fftLen_eq : fftLen = Z.of_nat B * (4 * Z.of_nat Q).
Hypothesis fftLen_small : fftLen <= 2 ^ 30.

Let cell := ms_cell pSrc Q.

Lemma middle_inner_frame w j b r s :
  (j < Q)%nat -> (b + r <= B)%nat ->
  ls_pSi0 s = cell j b 0 -> ls_pSi1 s = cell j b 1 ->
  ls_pSi2 s = cell j b 2 -> ls_pSi3 s = cell j b 3 ->
  let s' :=
    iterate r
      (middle_stage_body_dir d (4 * Z.of_nat Q)
         (co1 w) (si1 w) (co2 w) (si2 w) (co3 w) (si3 w)) s in
  ls_pSi0 s' = cell j (b + r) 0 /\ ls_pSi1 s' = cell j (b + r) 1 /\
  ls_pSi2 s' = cell j (b + r) 2 /\ ls_pSi3 s' = cell j (b + r) 3 /\
  forall a, outside pSrc fftLen a -> ls_mem s' a = ls_mem s a.
Proof.
  intros Hj Hr H0 H1 H2 H3. induction r as [|r IH].
  - cbn [iterate]. rewrite Nat.add_0_r. auto.
  - cbv zeta. rewrite iterate_succ_r.
    destruct (IH ltac:(lia)) as (E0 & E1 & E2 & E3 & Hm).
    match goal with
    | |- context [middle_stage_body_dir ?d' ?n ?a1 ?a2 ?a3 ?a4 ?a5 ?a6
                    (iterate r ?f s)] =>
        destruct (middle_stage_body_dir_frame d' n a1 a2 a3 a4 a5 a6
                    (iterate r f s)) as (F0 & F1 & F2 & F3 & Fm)
    end.
    pose proof (Q_B_bounds fftLen Q B Q_pos B_pos fftLen_eq fftLen_small)
      as HB.
    assert (Hu : u32 (2 * (4 * Z.of_nat Q)) = 2 * (4 * Z.of_nat Q))
      by (unfold u32; rewrite Z.mod_small; nia).
    rewrite F0, F1, F2, F3, E0, E1, E2, E3, Hu.
    unfold cell, ms_cell.
    repeat split; try lia.
    intros a Ha. rewrite Fm; [apply Hm; exact Ha|].
    rewrite E0, E1, E2, E3. intros Hin. apply Ha.
    apply (ms_cell_in_buffer pSrc fftLen Q B Q_pos B_pos fftLen_eq
             j (b + r)%nat a);
      [exact Hj|lia|exact Hin].
Qed.

Lemma middle_j_body_frame j s a :
  (j < Q)%nat -> outside pSrc fftLen a ->
  ls_mem (middle_j_body (middle_stage_body_dir d) pSrc fftLen pCoef tw
            (4 * Z.of_nat Q) (Z.of_nat Q) (Z.of_nat j) s) a = ls_mem s a.
Proof.
  intros Hj Ha. unfold middle_j_body. cbv zeta.
  pose proof (Q_B_bounds fftLen Q B Q_pos B_pos fftLen_eq fftLen_small)
    as HB.
  replace (u32 (2 * Z.of_nat j)) with (2 * Z.of_nat j)
    by (unfold u32; rewrite Z.mod_small; lia).
  replace (u32 (2 * Z.of_nat Q)) with (2 * Z.of_nat Q)
    by (unfold u32; rewrite Z.mod_small; lia).
  match goal with
  | |- context [middle_i0_loop ?fuel ?body _ _ _ ?s0] =>
      pose proof (middle_i0_loop_iterate fftLen Q B Q_pos B_pos fftLen_eq
                    fftLen_small body j O B fuel s0) as Hloop
  end.
  cbn [Z.of_nat] in Hloop. rewrite Z.mul_0_l, Z.add_0_r in Hloop.
  rewrite Hloop; [|exact Hj|lia|rewrite fftLen_eq; nia].
  match goal with
  | |- context [middle_stage_body_dir _ _ ?a1 ?a2 ?a3 ?a4 ?a5 ?a6] =>
      pose proof (middle_inner_frame (mkTwiddles a1 a2 a3 a4 a5 a6)
                    j O B) as Hin
  end.
  cbn [co1 si1 co2 si2 co3 si3] in Hin.
  match goal with
  | |- ls_mem (iterate _ _ ?s0) _ = _ =>
      destruct (Hin s0) as (_ & _ & _ & _ & Hm)
  end; try (cbn [ls_pSi0 ls_pSi1 ls_pSi2 ls_pSi3];
            unfold cell, ms_cell; lia).
  rewrite Hm by exact Ha. reflexivity.
Qed.

Lemma middle_j_loop_frame fuel j s a :
  (Z.of_nat j <= Z.of_nat Q) -> outside pSrc fftLen a ->
  ls_mem (middle_j_loop fuel
            (middle_j_body (middle_stage_body_dir d) pSrc fftLen pCoef tw
               (4 * Z.of_nat Q) (Z.of_nat Q))
            (Z.of_nat Q) (Z.of_nat j) s) a = ls_mem s a.
Proof.
  intros Hj Ha. revert j s Hj.
  pose proof (Q_B_bounds fftLen Q B Q_pos B_pos fftLen_eq fftLen_small)
    as HB.
  assert (Hu : u32 (Z.of_nat Q - 1) = Z.of_nat Q - 1)
    by (unfold u32; rewrite Z.mod_small; lia).
  induction fuel as [|fuel IH]; intros j s Hj; [reflexivity|].
  cbn [middle_j_loop]. rewrite Hu.
  destruct (Z.leb_spec (Z.of_nat j) (Z.of_nat Q - 1)); [|reflexivity].
  replace (u32 (Z.of_nat j + 1)) with (Z.of_nat (S j))
    by (unfold u32; rewrite Z.mod_small; lia).
  rewrite IH by lia.
  apply middle_j_body_frame; [lia|exact Ha].
Qed.

(** One middle stage writes inside the buffer only, quarters [n2] and
    multiplies the modifier by 4. *)
Lemma middle_stage_writes s :
  let r := middle_stage (middle_stage_body_dir d) pSrc fftLen pCoef
             (s, 4 * Z.of_nat Q, tw) in
  (forall a, outside pSrc fftLen a -> ls_mem (fst (fst r)) a = ls_mem s a) /\
  snd (fst r) = Z.of_nat Q /\
  snd r = u32 (Z.shiftl tw 2).
Proof.
  unfold middle_stage. cbv zeta.
  replace (Z.shiftr (4 * Z.of_nat Q) 2) with (Z.of_nat Q).
  2:{ rewrite Z.shiftr_div_pow2 by lia. change (2 ^ 2) with 4.
      rewrite Z.mul_comm, Z.div_mul; lia. }
  cbn [fst snd]. repeat split.
  intros a Ha.
  rewrite (middle_j_loop_frame _ O) by (cbn; lia || exact Ha).
  reflexivity.
Qed.

End MiddleFrame.

(** ** Transforms of length [4^k] *)

Lemma pow4_nat (n : nat) : Z.of_nat (4 ^ n) = 4 ^ Z.of_nat n.
Proof. rewrite Nat2Z.inj_pow. reflexivity. Qed.

Lemma pow4_nat_pos (n : nat) : (0 < 4 ^ n)%nat.
Proof. pose proof (pow4_pos n). rewrite <- pow4_nat in H. lia. Qed.

Lemma pow4_le (k : nat) : (k <= 15)%nat -> 4 ^ Z.of_nat k <= 2 ^ 30.
Proof.
  intros H. change (2 ^ 30) with (4 ^ 15).
  apply Z.pow_le_mono_r; lia.
Qed.

(** At middle stage [i] of a transform of length [4^k] the buffer is made
    of [4^(i+1)] sub-blocks of [4 * 4^(k-2-i)] samples. *)
Lemma stage_dims (k i : nat) :
  (i + 2 < k + 1)%nat ->
  4 ^ Z.of_nat k = Z.of_nat (4 ^ (i + 1)) * (4 * Z.of_nat (4 ^ (k - 2 - i))).
Proof.
  intros H. rewrite !pow4_nat.
  replace (Z.of_nat k)
    with (Z.of_nat (i + 1) + (1 + Z.of_nat (k - 2 - i))) by lia.
  rewrite Z.pow_add_r, Z.pow_add_r by lia. reflexivity.
Qed.

Lemma stage_quarter (k i : nat) :
  (i + 2 < k + 1)%nat ->
  4 ^ Z.of_nat (k - 1 - i) = 4 * Z.of_nat (4 ^ (k - 2 - i)).
Proof.
  intros H. rewrite pow4_nat.
  replace (k - 1 - i)%nat with (S (k - 2 - i)) by lia.
  apply pow4_succ.
Qed.

Lemma modifier_step (twid : Z) (i : nat) :
  u32 (Z.shiftl (u32 (twid * 4 ^ Z.of_nat (S i))) 2) =
  u32 (twid * 4 ^ Z.of_nat (S (S i))).
Proof.
  rewrite Z.shiftl_mul_pow2 by lia. change (2 ^ 2) with 4.
  unfold u32. rewrite Zmult_mod_idemp_l. f_equal.
  rewrite (pow4_succ (S i)). lia.
Qed.

Lemma modifier_first (twid : Z) :
  u32 (Z.shiftl twid 2) = u32 (twid * 4 ^ Z.of_nat 1).
Proof. rewrite Z.shiftl_mul_pow2 by lia. reflexivity. Qed.

Section PowerOfFour.

Variable d : direction.
Variables pSrc pCoef twid : Z.
Variable k : nat.
Hypothesis k_range : (1 <= k <= 15)%nat.

Let N : Z := 4 ^ Z.of_nat k.

(** The state of the middle-stage loop after [i] stages. *)
Definition stage_state (s : loop_state) (i : nat) : loop_state * Z * Z :=
  iterate i (middle_stage (middle_stage_body_dir d) pSrc N pCoef)
    (s, 4 ^ Z.of_nat (k - 1), u32 (Z.shiftl twid 2)).

Lemma stage_state_succ s i :
  stage_state s (S i) =
  middle_stage (middle_stage_body_dir d) pSrc N pCoef (stage_state s i).
Proof. apply iterate_succ_r. Qed.

(** The locals [n2] and [twidCoefModifier] at the start of stage [i], and
    the cells the stages before it left alone. *)
Lemma stage_state_inv s i :
  (i + 2 <= k)%nat \/ i = O ->
  snd (fst (stage_state s i)) = 4 ^ Z.of_nat (k - 1 - i) /\
  snd (stage_state s i) = u32 (twid * 4 ^ Z.of_nat (S i)) /\
  forall a, outside pSrc N a ->
            ls_mem (fst (fst (stage_state s i))) a = ls_mem s a.
Proof.
  induction i as [|i IH]; intros Hi.
  - unfold stage_state. cbn [iterate fst snd].
    rewrite Nat.sub_0_r, modifier_first. auto.
  - assert (Hi' : (i + 2 < k + 1)%nat) by lia.
    destruct IH as (En & Et & Hm); [lia|].
    rewrite stage_state_succ.
    destruct (stage_state s i) as [[si ni] ti]. cbn [fst snd] in *.
    subst ni ti. rewrite (stage_quarter k i Hi').
    destruct (middle_stage_writes d pSrc pCoef N
                (u32 (twid * 4 ^ Z.of_nat (S i)))
                (4 ^ (k - 2 - i)) (4 ^ (i + 1))
                (pow4_nat_pos _) (pow4_nat_pos _)
                (stage_dims k i Hi') (pow4_le k ltac:(lia)) si)
      as (Fm & Fn & Ft).
    split; [|split].
    + rewrite Fn, pow4_nat. f_equal. lia.
    + rewrite Ft. apply modifier_step.
    + intros a Ha. rewrite Fm by exact Ha. apply Hm. exact Ha.
Qed.

Lemma N_quarter : N = 4 * Z.of_nat (4 ^ (k - 1)).
Proof.
  unfold N. rewrite pow4_nat.
  replace k with (S (k - 1)) at 1 by lia. apply pow4_succ.
Qed.

Lemma quarter_small : Z.of_nat (4 ^ (k - 1)) < 2 ^ 30.
Proof. pose proof (pow4_le k ltac:(lia)). fold N in H. rewrite N_quarter in H. lia. Qed.

(** The engine is its first stage, [k - 2] middle stages and its last
    stage. *)
Lemma radix4_butterfly_dir_stages m :
  radix4_butterfly_dir d pSrc N pCoef twid m =
  last_stage d pSrc N
    (fst (fst (stage_state (first_stage d pSrc N pCoef twid m) (k - 2)))).
Proof.
  rewrite radix4_butterfly_dir_phases. unfold N.
  rewrite middle_phase_iterate by exact k_range. reflexivity.
Qed.

(** The engine writes inside the buffer only. *)
Lemma radix4_butterfly_dir_writes m a :
  outside pSrc N a -> radix4_butterfly_dir d pSrc N pCoef twid m a = m a.
Proof.
  intros Ha. rewrite radix4_butterfly_dir_stages.
  pose proof quarter_small as Hq.
  rewrite N_quarter in *.
  rewrite last_stage_writes by (auto using pow4_nat_pos).
  rewrite <- N_quarter in *.
  destruct (stage_state_inv (first_stage d pSrc N pCoef twid m) (k - 2))
    as (_ & _ & Hm); [lia|].
  rewrite Hm by exact Ha.
  rewrite N_quarter in *.
  apply first_stage_writes; auto using pow4_nat_pos.
Qed.

End PowerOfFour.

(** ** The transform dispatcher: riscv_cfft_radix4_q31 *)

(** The fields of [riscv_cfft_radix4_instance_q31] that the source reads. *)
Record riscv_cfft_radix4_instance_q31 : Type := mkInstance {
  fftLen : Z;
  ifftFlag : Z;
  bitReverseFlag : Z;
  pTwiddle : Z;
  pBitRevTable : Z;
  twidCoefModifier : Z;
  bitRevFactor : Z
}.

(** [riscv_bitreversal_q31] is declared in the source file (lines 58-62)
    and defined elsewhere; the dispatcher is parametrised by it.  Its
    arguments are [pSrc], [fftLen], [bitRevFactor] and [pBitRevTab]. *)
Definition riscv_cfft_radix4_q31
  (riscv_bitreversal_q31 : Z -> Z -> Z -> Z -> mem -> mem)
  (S : riscv_cfft_radix4_instance_q31) (pSrc : Z) (m : mem) : mem :=
  let m :=
    if ifftFlag S =? 1
    then
      (* Complex IFFT radix-4 *)
      riscv_radix4_butterfly_inverse_q31 pSrc (fftLen S) (pTwiddle S)
        (twidCoefModifier S) m
    else
      (* Complex FFT radix-4 *)
      riscv_radix4_butterfly_q31 pSrc (fftLen S) (pTwiddle S)
        (twidCoefModifier S) m in
  if bitReverseFlag S =? 1
  then
    (* Bit Reversal *)
    riscv_bitreversal_q31 pSrc (fftLen S) (bitRevFactor S) (pBitRevTable S) m
  else m.

(** Modelled from the spec: the bit-reversal pass, whose code is not part
    of the source file.  Section 4.3 of the specification describes it as the
    in-place permutation that takes the buffer from bit-reversed order to
    natural order: the complex sample of index [i] and the one whose index
    has the bits of [i] reversed change places.  [bits] is the number of index
    bits, [log2 fftLen]. *)
Fixpoint reverse_bits (bits : nat) (i acc : Z) : Z :=
  match bits with
  | O => acc
  | S b => reverse_bits b (i / 2) (2 * acc + i mod 2)
  end.

Definition bit_reversal_pass (bits : nat) (pSrc : Z) (m : mem) : mem :=
  fun a =>
    let off := a - pSrc in
    if (0 <=? off) && (off <? 2 * 2 ^ Z.of_nat bits)
    then m (pSrc + 2 * reverse_bits bits (off / 2) 0 + off mod 2)
    else m a.

(** ** Matrix multiplication: riscv_mat_mult_q31

    The status codes and the matrix instance are declared in a header that
    is not part of the sources; they are modelled by what the function uses
    of them. *)

Inductive riscv_status : Type :=
  | RISCV_MATH_SUCCESS
  | RISCV_MATH_SIZE_MISMATCH.

Record riscv_matrix_instance_q31 : Type := mkMatrix {
  numRows : Z;
  numCols : Z;
  pData : Z
}.

Definition u16 (x : Z) : Z := x mod 2 ^ 16.
Definition wrap64 (x : Z) : Z := (x + 2 ^ 63) mod 2 ^ 64 - 2 ^ 63.

(** [while (colCnt > 0u)] of lines 136-145; the state is the accumulator
    and the two input cursors. *)
Fixpoint mac_loop (fuel : nat) (m : mem) (numColsB colCnt : Z)
  (st : Z * Z * Z) : Z * Z * Z :=
  match fuel with
  | O => st
  | S fuel' =>
      if 0 <? colCnt
      then
        let '(sum, pIn1, pIn2) := st in
        (* sum += (q63_t) * pIn1++ * *pIn2 *)
        let sum := wrap64 (sum + m pIn1 * m pIn2) in
        let pIn1 := pIn1 + 1 in
        let pIn2 := pIn2 + numColsB in
        mac_loop fuel' m numColsB (u16 (colCnt - 1)) (sum, pIn1, pIn2)
      else st
  end.

(** [do ... while (col > 0u)] of lines 123-156 on a [uint16_t] counter. *)
Fixpoint column_loop (fuel : nat) (clip_q63_to_q31 : Z -> Z)
  (pInA pInB numColsA numColsB col : Z) (st : mem * Z * Z) : mem * Z * Z :=
  match fuel with
  | O => st
  | S fuel' =>
      let '(m, px, pIn2) := st in
      let '(sum, _, _) :=
        mac_loop (Z.to_nat numColsA) m numColsB numColsA (0, pInA, pIn2) in
      (* *px++ = (q31_t) clip_q63_to_q31(sum >> 31) *)
      let m := store m px (wrap32 (clip_q63_to_q31 (Z.shiftr sum 31))) in
      let px := px + 1 in
      let col := u16 (col - 1) in
      let pIn2 := pInB + (numColsB - col) in
      if 0 <? col
      then column_loop fuel' clip_q63_to_q31 pInA pInB numColsA numColsB col
             (m, px, pIn2)
      else (m, px, pIn2)
  end.

(** [do ... while (row > 0u)] of lines 110-166. *)
Fixpoint row_loop (fuel : nat) (clip_q63_to_q31 : Z -> Z)
  (pInB pOut numColsA numColsB row : Z) (st : mem * Z * Z) : mem * Z * Z :=
  match fuel with
  | O => st
  | S fuel' =>
      let '(m, i, pInA) := st in
      let px := pOut + i in
      let col := numColsB in
      let pIn2 := pInB in
      let '(m, _, _) :=
        column_loop (Z.to_nat (if col =? 0 then 2 ^ 16 else col))
          clip_q63_to_q31 pInA pInB numColsA numColsB col (m, px, pIn2) in
      let i := u16 (i + numColsB) in
      let pInA := pInA + numColsA in
      let row := u16 (row - 1) in
      if 0 <? row
      then row_loop fuel' clip_q63_to_q31 pInB pOut numColsA numColsB row
             (m, i, pInA)
      else (m, i, pInA)
  end.

(** [RISCV_MATH_MATRIX_CHECK] tells whether the source was compiled with
    the macro of that name defined; [clip_q63_to_q31] is a macro of the
    missing header. *)
Definition riscv_mat_mult_q31 (RISCV_MATH_MATRIX_CHECK : bool)
  (clip_q63_to_q31 : Z -> Z)
  (pSrcA pSrcB pDst : riscv_matrix_instance_q31) (m : mem)
  : riscv_status * mem :=
  let pInA := pData pSrcA in
  let pOut := pData pDst in
  let numRowsA := numRows pSrcA in
  let numColsB := numCols pSrcB in
  let numColsA := numCols pSrcA in
  let pInB := pData pSrcB in
  let row := numRowsA in
  if RISCV_MATH_MATRIX_CHECK &&
     (negb (numCols pSrcA =? numRows pSrcB) ||
      negb (numRows pSrcA =? numRows pDst) ||
      negb (numCols pSrcB =? numCols pDst))
  then (RISCV_MATH_SIZE_MISMATCH, m)
  else
    let '(m, _, _) :=
      row_loop (Z.to_nat (if row =? 0 then 2 ^ 16 else row))
        clip_q63_to_q31 pInB pOut numColsA numColsB row (m, 0, pInA) in
    (RISCV_MATH_SUCCESS, m).

(** ** The twiddle table

    The table at [pCoef] holds the [6 * (fftLen / 4) * twidCoefModifier]
    scalars that a transform of length [fftLen] reads, and none of them is
    stored inside the sample buffer. *)
Definition table_outside (pSrc fftLen pCoef twid : Z) : Prop :=
  1 <= twid /\ 6 * (fftLen / 4) * twid <= 2 ^ 32 /\
  forall i, 0 <= i < 6 * (fftLen / 4) * twid ->
            ~ (pSrc <= pCoef + i < pSrc + 2 * fftLen).

Lemma u32_small x : 0 <= x < 2 ^ 32 -> u32 x = x.
Proof. intros H. unfold u32. apply Z.mod_small. exact H. Qed.

(** The six cells read for the index [ia] lie in the first [6 * ia + 2]
    cells of the table. *)
Lemma twiddle_cells_bound pCoef ia a :
  0 <= ia -> 6 * ia + 2 <= 2 ^ 32 ->
  twiddle_cells pCoef ia a -> exists i, 0 <= i < 6 * ia + 2 /\ a = pCoef + i.
Proof.
  intros H0 H1. unfold twiddle_cells.
  rewrite (u32_small (2 * ia)), (u32_small (3 * ia)) by lia.
  rewrite !(u32_small (ia * 2)), !(u32_small (2 * ia * 2)),
          !(u32_small (3 * ia * 2)) by lia.
  rewrite !u32_small by lia.
  intros [H|[H|[H|[H|[H|H]]]]]; subst a; eexists; (split; [|reflexivity]); lia.
Qed.

Lemma table_outside_cells pSrc len pCoef twid n tw (j : nat) a :
  (forall i, 0 <= i < 6 * n * twid -> ~ (pSrc <= pCoef + i < pSrc + 2 * len)) ->
  1 <= twid -> 6 * n * twid <= 2 ^ 32 ->
  0 <= tw -> (Z.of_nat j + 1) * tw <= n * twid -> 1 <= tw ->
  twiddle_cells pCoef (u32 (Z.of_nat j * tw)) a ->
  ~ (pSrc <= a < pSrc + 2 * len).
Proof.
  intros Hout Htw Hn Htw0 Hj Htw1 Ha.
  assert (Hia : 0 <= Z.of_nat j * tw) by nia.
  assert (Hia' : 6 * (Z.of_nat j * tw) + 2 <= 6 * n * twid) by nia.
  rewrite u32_small in Ha by lia.
  destruct (twiddle_cells_bound pCoef _ a Hia ltac:(lia) Ha) as [i [Hi ->]].
  apply Hout. lia.
Qed.

(** ** The stages cell by cell *)

Lemma octet_fields (o o' : octet) :
  o = o' ->
  xa o = xa o' /\ ya o = ya o' /\ xb o = xb o' /\ yb o = yb o' /\
  xc o = xc o' /\ yc o = yc o' /\ xd o = xd o' /\ yd o = yd o'.
Proof. intros ->. repeat split. Qed.

(** The eight cells of group [g] after the last stage. *)
Lemma last_stage_cells d (k : nat) pSrc s g :
  (1 <= k <= 15)%nat ->
  0 <= g < 4 ^ Z.of_nat k / 4 ->
  let m := ls_mem s in
  let p := pSrc + 8 * g in
  read4_out (last_stage d pSrc (4 ^ Z.of_nat k) s) p (p + 2) (p + 4) (p + 6) =
  last_butterfly d (read4 m p (p + 2) (p + 4) (p + 6)).
Proof.
  intros Hk Hg m p.
  pose proof (N_quarter k Hk) as HN. cbv zeta in HN.
  pose proof (quarter_small k Hk) as Hq.
  rewrite HN in Hg |- *.
  rewrite Z.mul_comm, Z.div_mul in Hg by lia.
  pose proof (last_stage_read d pSrc (4 ^ (k - 1)) (pow4_nat_pos _) Hq s
                (Z.to_nat g) ltac:(lia)) as H.
  unfold ls_cursor in H. rewrite Z2Nat.id in H by lia.
  replace (pSrc + 8 * g + 2 * 0) with p in H by (unfold p; lia).
  replace (pSrc + 8 * g + 2 * 1) with (p + 2) in H by (unfold p; lia).
  replace (pSrc + 8 * g + 2 * 2) with (p + 4) in H by (unfold p; lia).
  replace (pSrc + 8 * g + 2 * 3) with (p + 6) in H by (unfold p; lia).
  exact H.
Qed.

(** C5.  Last stage of the forward engine, for a transform of length
    [N = 4^k]: the engine ends with the last stage; the stage works on the
    [N / 4] consecutive groups of eight cells; in group [g] it stores the
    four sums and differences
      xa' = xa + xb + xc + xd,  xc' = xa - xb + xc - xd,
      xb' = xa + yb - xc - yd,  xd' = xa - yb - xc + yd
    and their imaginary counterparts in the eight cells the operands came
    from, with no shift, only the wrap-around of 32-bit addition; it leaves
    every cell outside the buffer alone; and what it stores depends on the
    buffer alone, so no twiddle factor enters it. *)
Theorem last_stage_forward_groups (k : nat) (pSrc : Z) (s : loop_state) :
  (1 <= k <= 15)%nat ->
  let N := 4 ^ Z.of_nat k in
  (forall pCoef twid m0,
     riscv_radix4_butterfly_q31 pSrc N pCoef twid m0 =
     last_stage Forward pSrc N
       (fst (fst (middle_phase Forward pSrc N pCoef twid
                    (first_stage Forward pSrc N pCoef twid m0))))) /\
  (forall g, 0 <= g < N / 4 ->
     let m := ls_mem s in
     let m' := last_stage Forward pSrc N s in
     let p := pSrc + 8 * g in
     let xa := m p in let ya := m (p + 1) in
     let xb := m (p + 2) in let yb := m (p + 3) in
     let xc := m (p + 4) in let yc := m (p + 5) in
     let xd := m (p + 6) in let yd := m (p + 7) in
     m' p = wrap32 (xa + xb + xc + xd) /\
     m' (p + 1) = wrap32 (ya + yb + yc + yd) /\
     m' (p + 2) = wrap32 (xa - xb + xc - xd) /\
     m' (p + 3) = wrap32 (ya - yb + yc - yd) /\
     m' (p + 4) = wrap32 (xa + yb - xc - yd) /\
     m' (p + 5) = wrap32 (ya - xb - yc + xd) /\
     m' (p + 6) = wrap32 (xa - yb - xc + yd) /\
     m' (p + 7) = wrap32 (ya + xb - yc - xd)) /\
  (forall a, ~ (pSrc <= a < pSrc + 2 * N) ->
     last_stage Forward pSrc N s a = ls_mem s a) /\
  (forall s' a,
     (forall x, pSrc <= x < pSrc + 2 * N -> ls_mem s' x = ls_mem s x) ->
     pSrc <= a < pSrc + 2 * N ->
     last_stage Forward pSrc N s' a = last_stage Forward pSrc N s a).
Proof.
  intros Hk N.
  assert (Hcells : forall s0 g, 0 <= g < N / 4 ->
     let m := ls_mem s0 in
     let m' := last_stage Forward pSrc N s0 in
     let p := pSrc + 8 * g in
     m' p = wrap32 (m p + m (p + 2) + m (p + 4) + m (p + 6)) /\
     m' (p + 1) = wrap32 (m (p + 1) + m (p + 3) + m (p + 5) + m (p + 7)) /\
     m' (p + 2) = wrap32 (m p - m (p + 2) + m (p + 4) - m (p + 6)) /\
     m' (p + 3) = wrap32 (m (p + 1) - m (p + 3) + m (p + 5) - m (p + 7)) /\
     m' (p + 4) = wrap32 (m p + m (p + 3) - m (p + 4) - m (p + 7)) /\
     m' (p + 5) = wrap32 (m (p + 1) - m (p + 2) - m (p + 5) + m (p + 6)) /\
     m' (p + 6) = wrap32 (m p - m (p + 3) - m (p + 4) + m (p + 7)) /\
     m' (p + 7) = wrap32 (m (p + 1) + m (p + 2) - m (p + 5) - m (p + 6))).
  { intros s0 g Hg m m' p.
    pose proof (last_stage_cells Forward k pSrc s0 g Hk Hg) as H.
    cbv zeta in H. fold p m' in H.
    apply octet_fields in H. unfold_butterfly_in H.
    replace (p + 2 + 1) with (p + 3) in H by lia.
    replace (p + 4 + 1) with (p + 5) in H by lia.
    replace (p + 6 + 1) with (p + 7) in H by lia.
    rewrite !Z.mul_1_l in H. fold m in H.
    destruct H as (Ha & Ha' & Hb & Hb' & Hc & Hc' & Hd & Hd').
    repeat split; assumption. }
  split; [|split; [|split]].
  - intros pCoef twid m0. rewrite butterfly_fwd_dir.
    apply radix4_butterfly_dir_phases.
  - intros g Hg. exact (Hcells s g Hg).
  - intros a Ha. unfold N. rewrite (N_quarter k Hk).
    apply last_stage_writes;
      [apply pow4_nat_pos | apply (quarter_small k Hk) |].
    unfold outside. rewrite <- (N_quarter k Hk). exact Ha.
  - intros s' a Heq Ha.
    assert (HN : N = 4 * (N / 4)).
    { pose proof (N_quarter k Hk) as HQ. cbv zeta in HQ. fold N in HQ.
      assert (Hq4 : N / 4 = Z.of_nat (4 ^ (k - 1))).
      { rewrite HQ, Z.mul_comm. apply Z.div_mul. lia. }
      lia. }
    set (g := (a - pSrc) / 8).
    assert (Hg : 0 <= g < N / 4).
    { unfold g. split.
      - apply Z.div_pos; lia.
      - apply Z.div_lt_upper_bound; lia. }
    assert (Hc : a = pSrc + 8 * g + (a - pSrc) mod 8).
    { unfold g. pose proof (Z.div_mod (a - pSrc) 8). lia. }
    pose proof (Z.mod_pos_bound (a - pSrc) 8 ltac:(lia)) as Hr.
    pose proof (Hcells s g Hg) as H. pose proof (Hcells s' g Hg) as H'.
    cbv zeta in H, H'.
    assert (Hm : forall c, 0 <= c < 8 ->
                ls_mem s' (pSrc + 8 * g + c) = ls_mem s (pSrc + 8 * g + c)).
    { intros c Hc'. apply Heq. lia. }
    pose proof (Hm 0) as Hm0. rewrite Z.add_0_r in Hm0.
    rewrite Hm0, !Hm in H' by lia.
    destruct H as (A0 & A1 & A2 & A3 & A4 & A5 & A6 & A7).
    destruct H' as (B0 & B1 & B2 & B3 & B4 & B5 & B6 & B7).
    rewrite Hc.
    assert (Hcase : (a - pSrc) mod 8 = 0 \/ (a - pSrc) mod 8 = 1 \/
                    (a - pSrc) mod 8 = 2 \/ (a - pSrc) mod 8 = 3 \/
                    (a - pSrc) mod 8 = 4 \/ (a - pSrc) mod 8 = 5 \/
                    (a - pSrc) mod 8 = 6 \/ (a - pSrc) mod 8 = 7) by lia.
    destruct Hcase as [E|[E|[E|[E|[E|[E|[E|E]]]]]]]; rewrite E;
      rewrite ?Z.add_0_r; congruence.
Qed.

Lemma twiddles_first_plain m pCoef ia :
  0 <= ia -> 6 * ia + 2 <= 2 ^ 32 ->
  twiddles_first m pCoef ia =
  mkTwiddles (m (pCoef + 2 * ia)) (m (pCoef + 2 * ia + 1))
             (m (pCoef + 4 * ia)) (m (pCoef + 4 * ia + 1))
             (m (pCoef + 6 * ia)) (m (pCoef + 6 * ia + 1)).
Proof.
  intros H0 H1. unfold twiddles_first, twiddle_co, twiddle_si.
  rewrite (u32_small (2 * ia)), (u32_small (3 * ia)) by lia.
  rewrite !(u32_small (ia * 2)), !(u32_small (2 * ia * 2)),
          !(u32_small (3 * ia * 2)) by lia.
  rewrite !u32_small by lia.
  f_equal; f_equal; lia.
Qed.

Lemma quarter_div (k : nat) :
  (1 <= k <= 15)%nat -> 4 ^ Z.of_nat k / 4 = Z.of_nat (4 ^ (k - 1)).
Proof.
  intros Hk. pose proof (N_quarter k Hk) as HQ. cbv zeta in HQ.
  rewrite HQ, Z.mul_comm. apply Z.div_mul. lia.
Qed.

(** The eight cells of butterfly [j] after the first stage. *)
Lemma first_stage_cells d (k : nat) pSrc pCoef twid m j :
  (1 <= k <= 15)%nat ->
  table_outside pSrc (4 ^ Z.of_nat k) pCoef twid ->
  0 <= j < 4 ^ Z.of_nat k / 4 ->
  let n2 := 4 ^ Z.of_nat k / 4 in
  let p0 := pSrc + 2 * j in
  let p1 := p0 + 2 * n2 in
  let p2 := p1 + 2 * n2 in
  let p3 := p2 + 2 * n2 in
  read4_out (ls_mem (first_stage d pSrc (4 ^ Z.of_nat k) pCoef twid m))
    p0 p1 p2 p3 =
  first_butterfly d (read4 m p0 p1 p2 p3) (twiddles_first m pCoef (j * twid)).
Proof.
  intros Hk (Htw & Hlen & Hout) Hj n2 p0 p1 p2 p3.
  pose proof (quarter_div k Hk) as Hq4.
  subst p3 p2 p1 p0 n2.
  rewrite Hq4 in Hj, Hlen, Hout |- *.
  pose proof (N_quarter k Hk) as HN. cbv zeta in HN.
  pose proof (quarter_small k Hk) as Hq.
  set (q := (4 ^ (k - 1))%nat) in *.
  assert (Hco : forall (t : nat) a, (t < q)%nat ->
            twiddle_cells pCoef (u32 (Z.of_nat t * twid)) a ->
            ~ (pSrc <= a < pSrc + 8 * Z.of_nat q)).
  { intros t a Ht Ha.
    replace (8 * Z.of_nat q) with (2 * 4 ^ Z.of_nat k) by lia.
    apply (table_outside_cells pSrc _ pCoef twid (Z.of_nat q) twid t a);
      try assumption; try lia; nia. }
  pose proof (first_stage_read d pSrc pCoef twid q (pow4_nat_pos _) Hq Hco m
                (Z.to_nat j) ltac:(lia)) as H.
  rewrite <- HN in H. unfold fs_cursor in H.
  rewrite Z2Nat.id in H by lia.
  rewrite (u32_small (j * twid)) in H by nia.
  replace (pSrc + 0 * (2 * Z.of_nat q) + 2 * j) with (pSrc + 2 * j) in H
    by lia.
  replace (pSrc + 1 * (2 * Z.of_nat q) + 2 * j)
    with (pSrc + 2 * j + 2 * Z.of_nat q) in H by lia.
  replace (pSrc + 2 * (2 * Z.of_nat q) + 2 * j)
    with (pSrc + 2 * j + 2 * Z.of_nat q + 2 * Z.of_nat q) in H by lia.
  replace (pSrc + 3 * (2 * Z.of_nat q) + 2 * j)
    with (pSrc + 2 * j + 2 * Z.of_nat q + 2 * Z.of_nat q + 2 * Z.of_nat q)
    in H by lia.
  exact H.
Qed.

(** The butterflies of the forward direction, field by field. *)
Lemma twiddle_mul_forward rs co si :
  twiddle_mul Forward rs co si =
  (wrap32 (mulhi32 (fst rs) co + mulhi32 (snd rs) si),
   wrap32 (mulhi32 (snd rs) co - mulhi32 (fst rs) si)).
Proof. unfold twiddle_mul. cbn [sgn]. rewrite !Z.mul_1_l. reflexivity. Qed.

Lemma sum_b_forward i :
  sum_b Forward i =
  (wrap32 (xa i + yb i - xc i - yd i), wrap32 (ya i - xb i - yc i + xd i)).
Proof. unfold sum_b. cbn [sgn]. rewrite !Z.mul_1_l. reflexivity. Qed.

Lemma sum_d_forward i :
  sum_d Forward i =
  (wrap32 (xa i - yb i - xc i + yd i), wrap32 (ya i + xb i - yc i - xd i)).
Proof. unfold sum_d. cbn [sgn]. rewrite !Z.mul_1_l. reflexivity. Qed.

Lemma read4_out_eq m p0 p1 p2 p3 :
  read4_out m p0 p1 p2 p3 =
  mkOctet (m p0) (m (p0 + 1)) (m p2) (m (p2 + 1))
          (m p1) (m (p1 + 1)) (m p3) (m (p3 + 1)).
Proof. reflexivity. Qed.

Lemma first_butterfly_forward_cells m p0 p1 p2 p3 w :
  let xa := asr32 (m p0) 4 in let ya := asr32 (m (p0 + 1)) 4 in
  let xb := asr32 (m p1) 4 in let yb := asr32 (m (p1 + 1)) 4 in
  let xc := asr32 (m p2) 4 in let yc := asr32 (m (p2 + 1)) 4 in
  let xd := asr32 (m p3) 4 in let yd := asr32 (m (p3 + 1)) 4 in
  let rb := wrap32 (xa + yb - xc - yd) in
  let sb := wrap32 (ya - xb - yc + xd) in
  let rc := wrap32 (xa - xb + xc - xd) in
  let sc := wrap32 (ya - yb + yc - yd) in
  let rd := wrap32 (xa - yb - xc + yd) in
  let sd := wrap32 (ya + xb - yc - xd) in
  first_butterfly Forward (read4 m p0 p1 p2 p3) w =
  mkOctet (wrap32 (xa + xb + xc + xd))
          (wrap32 (ya + yb + yc + yd))
          (shl32 (wrap32 (mulhi32 rb (co1 w) + mulhi32 sb (si1 w))) 1)
          (shl32 (wrap32 (mulhi32 sb (co1 w) - mulhi32 rb (si1 w))) 1)
          (shl32 (wrap32 (mulhi32 rc (co2 w) + mulhi32 sc (si2 w))) 1)
          (shl32 (wrap32 (mulhi32 sc (co2 w) - mulhi32 rc (si2 w))) 1)
          (shl32 (wrap32 (mulhi32 rd (co3 w) + mulhi32 sd (si3 w))) 1)
          (shl32 (wrap32 (mulhi32 sd (co3 w) - mulhi32 rd (si3 w))) 1).
Proof.
  intros. unfold first_butterfly.
  rewrite !twiddle_mul_forward, sum_b_forward, sum_d_forward.
  reflexivity.
Qed.

Lemma middle_butterfly_forward_cells m p0 p1 p2 p3 w :
  let xa := m p0 in let ya := m (p0 + 1) in
  let xb := m p1 in let yb := m (p1 + 1) in
  let xc := m p2 in let yc := m (p2 + 1) in
  let xd := m p3 in let yd := m (p3 + 1) in
  let rb := wrap32 (xa + yb - xc - yd) in
  let sb := wrap32 (ya - xb - yc + xd) in
  let rc := wrap32 (xa - xb + xc - xd) in
  let sc := wrap32 (ya - yb + yc - yd) in
  let rd := wrap32 (xa - yb - xc + yd) in
  let sd := wrap32 (ya + xb - yc - xd) in
  middle_butterfly Forward (read4 m p0 p1 p2 p3) w =
  mkOctet (asr32 (wrap32 (xa + xb + xc + xd)) 2)
          (asr32 (wrap32 (ya + yb + yc + yd)) 2)
          (asr32 (wrap32 (mulhi32 rb (co1 w) + mulhi32 sb (si1 w))) 1)
          (asr32 (wrap32 (mulhi32 sb (co1 w) - mulhi32 rb (si1 w))) 1)
          (asr32 (wrap32 (mulhi32 rc (co2 w) + mulhi32 sc (si2 w))) 1)
          (asr32 (wrap32 (mulhi32 sc (co2 w) - mulhi32 rc (si2 w))) 1)
          (asr32 (wrap32 (mulhi32 rd (co3 w) + mulhi32 sd (si3 w))) 1)
          (asr32 (wrap32 (mulhi32 sd (co3 w) - mulhi32 rd (si3 w))) 1).
Proof.
  intros. unfold middle_butterfly.
  rewrite !twiddle_mul_forward, sum_b_forward, sum_d_forward.
  reflexivity.
Qed.

(** C3.  First stage of the forward engine, for a transform of length
    [N = 4^k] whose twiddle table lies outside the buffer: the engine starts
    with the first stage; butterfly [j] has its four cursors at the offsets
    [0], [2 (N/4)], [4 (N/4)] and [6 (N/4)] of the buffer, advanced by [2 j];
    each of the eight samples read is shifted right by 4 bits
    (arithmetically: it is the floor of the sample over 16) before it
    enters a sum; the first cursor receives the sum of the four shifted
    samples; and each of the three other cursors receives the sum or
    difference of two high words of a 64-bit product of a combined term and
    a cosine or sine coefficient, shifted left by 1 bit. *)
Theorem first_stage_forward_butterflies
  (k : nat) (pSrc pCoef twid : Z) (m : mem) :
  (1 <= k <= 15)%nat ->
  let N := 4 ^ Z.of_nat k in
  table_outside pSrc N pCoef twid ->
  (riscv_radix4_butterfly_q31 pSrc N pCoef twid m =
   last_stage Forward pSrc N
     (fst (fst (middle_phase Forward pSrc N pCoef twid
                  (first_stage Forward pSrc N pCoef twid m))))) /\
  (forall j, 0 <= j < N / 4 ->
     let m' := ls_mem (first_stage Forward pSrc N pCoef twid m) in
     let p0 := pSrc + 2 * j in
     let p1 := pSrc + 2 * (N / 4) + 2 * j in
     let p2 := pSrc + 4 * (N / 4) + 2 * j in
     let p3 := pSrc + 6 * (N / 4) + 2 * j in
     let xa := asr32 (m p0) 4 in let ya := asr32 (m (p0 + 1)) 4 in
     let xb := asr32 (m p1) 4 in let yb := asr32 (m (p1 + 1)) 4 in
     let xc := asr32 (m p2) 4 in let yc := asr32 (m (p2 + 1)) 4 in
     let xd := asr32 (m p3) 4 in let yd := asr32 (m (p3 + 1)) 4 in
     let ia := j * twid in
     let co1 := m (pCoef + 2 * ia) in let si1 := m (pCoef + 2 * ia + 1) in
     let co2 := m (pCoef + 4 * ia) in let si2 := m (pCoef + 4 * ia + 1) in
     let co3 := m (pCoef + 6 * ia) in let si3 := m (pCoef + 6 * ia + 1) in
     let rb := wrap32 (xa + yb - xc - yd) in
     let sb := wrap32 (ya - xb - yc + xd) in
     let rc := wrap32 (xa - xb + xc - xd) in
     let sc := wrap32 (ya - yb + yc - yd) in
     let rd := wrap32 (xa - yb - xc + yd) in
     let sd := wrap32 (ya + xb - yc - xd) in
     m' p0 = wrap32 (xa + xb + xc + xd) /\
     m' (p0 + 1) = wrap32 (ya + yb + yc + yd) /\
     m' p1 = shl32 (wrap32 (mulhi32 rc co2 + mulhi32 sc si2)) 1 /\
     m' (p1 + 1) = shl32 (wrap32 (mulhi32 sc co2 - mulhi32 rc si2)) 1 /\
     m' p2 = shl32 (wrap32 (mulhi32 rb co1 + mulhi32 sb si1)) 1 /\
     m' (p2 + 1) = shl32 (wrap32 (mulhi32 sb co1 - mulhi32 rb si1)) 1 /\
     m' p3 = shl32 (wrap32 (mulhi32 rd co3 + mulhi32 sd si3)) 1 /\
     m' (p3 + 1) = shl32 (wrap32 (mulhi32 sd co3 - mulhi32 rd si3)) 1) /\
  (forall v, asr32 v 4 = v / 16) /\
  (forall a b, q31_range a -> q31_range b -> mulhi32 a b = (a * b) / 2 ^ 32) /\
  (forall v, shl32 v 1 = wrap32 (2 * v)).
Proof.
  intros Hk N Htab.
  split; [|split; [|split; [|split]]].
  - rewrite butterfly_fwd_dir. apply radix4_butterfly_dir_phases.
  - intros j Hj. cbv zeta.
    pose proof (first_stage_cells Forward k pSrc pCoef twid m j Hk Htab Hj)
      as H.
    cbv zeta in H.
    destruct Htab as (Htw & Hlen & _).
    rewrite twiddles_first_plain in H by nia.
    rewrite first_butterfly_forward_cells, read4_out_eq in H.
    replace (pSrc + 2 * j + 2 * (4 ^ Z.of_nat k / 4))
      with (pSrc + 2 * (N / 4) + 2 * j) in H by (unfold N; lia).
    replace (pSrc + 2 * (N / 4) + 2 * j + 2 * (4 ^ Z.of_nat k / 4))
      with (pSrc + 4 * (N / 4) + 2 * j) in H by (unfold N; lia).
    replace (pSrc + 4 * (N / 4) + 2 * j + 2 * (4 ^ Z.of_nat k / 4))
      with (pSrc + 6 * (N / 4) + 2 * j) in H by (unfold N; lia).
    apply octet_fields in H. cbn [xa ya xb yb xc yc xd yd] in H.
    destruct H as (Ha & Ha' & Hb & Hb' & Hc & Hc' & Hd & Hd').
    repeat split; assumption.
  - intros v. apply asr32_div. lia.
  - intros a b Ha Hb. apply mulhi32_exact; assumption.
  - intros v. unfold shl32. rewrite Z.shiftl_mul_pow2 by lia.
    f_equal. lia.
Qed.

(** The eight cells of the butterfly [j] of sub-block [b] after middle stage
    [i], from the memory before that stage. *)
Lemma middle_stage_cells d (k : nat) pSrc pCoef twid s (i : nat) j b :
  (1 <= k <= 15)%nat ->
  table_outside pSrc (4 ^ Z.of_nat k) pCoef twid ->
  (i + 2 < k)%nat ->
  let n1 := 4 ^ Z.of_nat (k - 1 - i) in
  let n2 := 4 ^ Z.of_nat (k - 2 - i) in
  0 <= j < n2 -> 0 <= b < 4 ^ Z.of_nat (i + 1) ->
  let before := ls_mem (fst (fst (stage_state d pSrc pCoef twid k s i))) in
  let after := ls_mem (fst (fst (stage_state d pSrc pCoef twid k s (S i)))) in
  let p0 := pSrc + 2 * j + 2 * n1 * b in
  let p1 := p0 + 2 * n2 in
  let p2 := p1 + 2 * n2 in
  let p3 := p2 + 2 * n2 in
  read4_out after p0 p1 p2 p3 =
  middle_butterfly d (read4 before p0 p1 p2 p3)
    (twiddles_first before pCoef (j * (twid * 4 ^ Z.of_nat (i + 1)))).
Proof.
  intros Hk (Htw & Hlen & Hout) Hi n1 n2 Hj Hb.
  subst n1 n2. cbv zeta.
  assert (Hi' : (i + 2 < k + 1)%nat) by lia.
  rewrite stage_state_succ.
  destruct (stage_state_inv d pSrc pCoef twid k Hk s i ltac:(lia))
    as (En & Et & _).
  destruct (stage_state d pSrc pCoef twid k s i) as [[si ni] ti].
  cbn [fst snd] in En, Et |- *. subst ni ti.
  rewrite (stage_quarter k i Hi').
  pose proof (stage_dims k i Hi') as Hdims.
  pose proof (pow4_le k ltac:(lia)) as Hsmall.
  pose proof (quarter_div k Hk) as Hq4. rewrite Hq4 in Hlen, Hout.
  pose proof (N_quarter k Hk) as HN. cbv zeta in HN.
  set (Q := (4 ^ (k - 2 - i))%nat) in *.
  set (B := (4 ^ (i + 1))%nat) in *.
  assert (HQ : 0 < Z.of_nat Q) by (pose proof (pow4_nat_pos (k - 2 - i)); lia).
  assert (HB : 0 < Z.of_nat B) by (pose proof (pow4_nat_pos (i + 1)); lia).
  assert (HQB : Z.of_nat (4 ^ (k - 1)) = Z.of_nat B * Z.of_nat Q) by lia.
  assert (Hn2 : 4 ^ Z.of_nat (k - 2 - i) = Z.of_nat Q) by (symmetry; apply pow4_nat).
  assert (HBz : 4 ^ Z.of_nat (i + 1) = Z.of_nat B) by (symmetry; apply pow4_nat).
  rewrite Hn2 in Hj |- *. rewrite HBz in Hb |- *.
  replace (Z.of_nat (S i)) with (Z.of_nat (i + 1)) by lia. rewrite HBz.
  assert (Htwi : u32 (twid * Z.of_nat B) = twid * Z.of_nat B).
  { apply u32_small. nia. }
  rewrite Htwi.
  assert (Hco : forall (j0 : nat) a, (j0 < Q)%nat ->
            twiddle_cells pCoef (u32 (Z.of_nat j0 * (twid * Z.of_nat B))) a ->
            ~ (pSrc <= a < pSrc + 2 * 4 ^ Z.of_nat k)).
  { intros j0 a Hj0 Ha.
    apply (table_outside_cells pSrc _ pCoef twid (Z.of_nat (4 ^ (k - 1)))
             (twid * Z.of_nat B) j0 a); try assumption; try lia; nia. }
  pose proof (middle_stage_read d pSrc pCoef (4 ^ Z.of_nat k)
                (twid * Z.of_nat B) Q B ltac:(lia) ltac:(lia) Hdims Hsmall
                Hco si (Z.to_nat j) (Z.to_nat b) ltac:(lia) ltac:(lia)) as H.
  unfold ms_cell in H. rewrite !Z2Nat.id in H by lia.
  rewrite (u32_small (j * (twid * Z.of_nat B))) in H by nia.
  replace (pSrc + 2 * j + 2 * (4 * Z.of_nat Q) * b + 2 * Z.of_nat Q * 0)
    with (pSrc + 2 * j + 2 * (4 * Z.of_nat Q) * b) in H by lia.
  replace (pSrc + 2 * j + 2 * (4 * Z.of_nat Q) * b + 2 * Z.of_nat Q * 1)
    with (pSrc + 2 * j + 2 * (4 * Z.of_nat Q) * b + 2 * Z.of_nat Q)
    in H by lia.
  replace (pSrc + 2 * j + 2 * (4 * Z.of_nat Q) * b + 2 * Z.of_nat Q * 2)
    with (pSrc + 2 * j + 2 * (4 * Z.of_nat Q) * b + 2 * Z.of_nat Q
          + 2 * Z.of_nat Q) in H by lia.
  replace (pSrc + 2 * j + 2 * (4 * Z.of_nat Q) * b + 2 * Z.of_nat Q * 3)
    with (pSrc + 2 * j + 2 * (4 * Z.of_nat Q) * b + 2 * Z.of_nat Q
          + 2 * Z.of_nat Q + 2 * Z.of_nat Q) in H by lia.
  exact H.
Qed.

(** C4, as amended.  Middle stages of the forward engine, for a transform of
    length [N = 4^k] whose twiddle table lies outside the buffer.  The loop
    tests its counter against 4 and quarters it after every stage; entered
    with [N / 4] it runs exactly [k - 2] stages (none for [N = 16], and none
    for [N = 4]), after which the engine goes on with the last stage.  Stage
    [i] starts with [n2 = 4^(k-1-i)] and the modifier
    [4^(i+1) twidCoefModifier] (modulo 2^32), quarters the first and
    multiplies the second by 4.  In each of its butterflies the sum output
    alone is shifted right by 2 bits; each of the three twiddle outputs is
    the sum or difference of the high words of two 64-bit products, shifted
    right by 1 bit and by no more.  The shifts are arithmetic (floors of the
    quotients by 4 and by 2) and the high word is the floor of the product
    over 2^32. *)
Theorem middle_stages_forward (k : nat) (pSrc pCoef twid : Z) (m : mem) :
  (1 <= k <= 15)%nat ->
  let N := 4 ^ Z.of_nat k in
  table_outside pSrc N pCoef twid ->
  let s1 := first_stage Forward pSrc N pCoef twid m in
  let stage := middle_stage middle_stage_body pSrc N pCoef in
  let st := fun i : nat => iterate i stage (s1, N / 4, u32 (Z.shiftl twid 2)) in
  (forall fuel c x,
     middle_stages (S fuel) middle_stage_body pSrc N pCoef c x =
     if 4 <? c
     then middle_stages fuel middle_stage_body pSrc N pCoef (Z.shiftr c 2)
            (stage x)
     else x) /\
  middle_stages 16 middle_stage_body pSrc N pCoef (N / 4)
    (s1, Z.shiftr N 2, u32 (Z.shiftl twid 2)) = st (k - 2)%nat /\
  riscv_radix4_butterfly_q31 pSrc N pCoef twid m =
    last_stage Forward pSrc N (fst (fst (st (k - 2)%nat))) /\
  (forall i : nat, (i + 2 < k)%nat ->
     let n1 := 4 ^ Z.of_nat (k - 1 - i) in
     let n2 := 4 ^ Z.of_nat (k - 2 - i) in
     let before := ls_mem (fst (fst (st i))) in
     let after := ls_mem (fst (fst (st (S i)))) in
     snd (fst (st i)) = n1 /\ snd (fst (st (S i))) = n2 /\ n1 = 4 * n2 /\
     snd (st i) = u32 (twid * 4 ^ Z.of_nat (i + 1)) /\
     snd (st (S i)) = u32 (4 * snd (st i)) /\
     forall j b, 0 <= j < n2 -> 0 <= b < 4 ^ Z.of_nat (i + 1) ->
       let p0 := pSrc + 2 * j + 2 * n1 * b in
       let p1 := p0 + 2 * n2 in
       let p2 := p1 + 2 * n2 in
       let p3 := p2 + 2 * n2 in
       let xa := before p0 in let ya := before (p0 + 1) in
       let xb := before p1 in let yb := before (p1 + 1) in
       let xc := before p2 in let yc := before (p2 + 1) in
       let xd := before p3 in let yd := before (p3 + 1) in
       let ia := j * (twid * 4 ^ Z.of_nat (i + 1)) in
       let co1 := before (pCoef + 2 * ia) in
       let si1 := before (pCoef + 2 * ia + 1) in
       let co2 := before (pCoef + 4 * ia) in
       let si2 := before (pCoef + 4 * ia + 1) in
       let co3 := before (pCoef + 6 * ia) in
       let si3 := before (pCoef + 6 * ia + 1) in
       let rb := wrap32 (xa + yb - xc - yd) in
       let sb := wrap32 (ya - xb - yc + xd) in
       let rc := wrap32 (xa - xb + xc - xd) in
       let sc := wrap32 (ya - yb + yc - yd) in
       let rd := wrap32 (xa - yb - xc + yd) in
       let sd := wrap32 (ya + xb - yc - xd) in
       after p0 = asr32 (wrap32 (xa + xb + xc + xd)) 2 /\
       after (p0 + 1) = asr32 (wrap32 (ya + yb + yc + yd)) 2 /\
       after p1 = asr32 (wrap32 (mulhi32 rc co2 + mulhi32 sc si2)) 1 /\
       after (p1 + 1) = asr32 (wrap32 (mulhi32 sc co2 - mulhi32 rc si2)) 1 /\
       after p2 = asr32 (wrap32 (mulhi32 rb co1 + mulhi32 sb si1)) 1 /\
       after (p2 + 1) = asr32 (wrap32 (mulhi32 sb co1 - mulhi32 rb si1)) 1 /\
       after p3 = asr32 (wrap32 (mulhi32 rd co3 + mulhi32 sd si3)) 1 /\
       after (p3 + 1) = asr32 (wrap32 (mulhi32 sd co3 - mulhi32 rd si3)) 1) /\
  (forall v, asr32 v 2 = v / 4) /\
  (forall v, asr32 v 1 = v / 2) /\
  (forall a b, q31_range a -> q31_range b -> mulhi32 a b = (a * b) / 2 ^ 32).
Proof.
  intros Hk N Htab s1 stage st.
  assert (Hst : forall i, st i = stage_state Forward pSrc pCoef twid k s1 i).
  { intros i. unfold st, stage, stage_state. fold N.
    rewrite middle_stage_body_fwd.
    unfold N. rewrite (quarter_div k Hk), pow4_nat. reflexivity. }
  split; [|split; [|split; [|split; [|split; [|split]]]]].
  - intros fuel c x. reflexivity.
  - rewrite Hst. unfold stage_state. fold N.
    rewrite middle_stage_body_fwd.
    pose proof (middle_phase_iterate Forward pSrc pCoef twid k s1 Hk) as H.
    unfold middle_phase in H. fold N in H. exact H.
  - rewrite Hst, butterfly_fwd_dir.
    apply (radix4_butterfly_dir_stages Forward pSrc pCoef twid k Hk).
  - intros i Hi. cbv zeta. rewrite !Hst.
    destruct (stage_state_inv Forward pSrc pCoef twid k Hk s1 i ltac:(lia))
      as (En & Et & _).
    destruct (stage_state_inv Forward pSrc pCoef twid k Hk s1 (S i)
                ltac:(lia)) as (En' & Et' & _).
    rewrite En, En', Et, Et'.
    replace (k - 1 - S i)%nat with (k - 2 - i)%nat by lia.
    replace (Z.of_nat (S i)) with (Z.of_nat (i + 1)) by lia.
    split; [reflexivity|]. split; [reflexivity|].
    split.
    { replace (k - 1 - i)%nat with (S (k - 2 - i)) by lia. apply pow4_succ. }
    split; [reflexivity|].
    split.
    { replace (Z.of_nat (S (S i))) with (Z.succ (Z.of_nat (i + 1))) by lia.
      rewrite Z.pow_succ_r by lia.
      unfold u32. rewrite Zmult_mod_idemp_r. f_equal. lia. }
    intros j b Hj Hb.
    assert (Hia : 0 <= j * (twid * 4 ^ Z.of_nat (i + 1)) /\
                  6 * (j * (twid * 4 ^ Z.of_nat (i + 1))) + 2 <= 2 ^ 32).
    { destruct Htab as (Htw & Hlen & _).
      unfold N in Hlen. rewrite (quarter_div k Hk) in Hlen.
      assert (HQB : Z.of_nat (4 ^ (k - 1)) =
                    4 ^ Z.of_nat (i + 1) * 4 ^ Z.of_nat (k - 2 - i)).
      { rewrite pow4_nat, <- Z.pow_add_r by lia. f_equal. lia. }
      pose proof (pow4_pos (i + 1)) as HB.
      pose proof (pow4_pos (k - 2 - i)) as HQ.
      clear - Hj Htw Hlen HQB HB HQ.
      set (B := 4 ^ Z.of_nat (i + 1)) in *.
      set (Q := 4 ^ Z.of_nat (k - 2 - i)) in *.
      rewrite HQB in Hlen.
      assert (H1 : j * B <= B * Q - 1) by nia.
      assert (H2 : twid * (j * B) <= twid * (B * Q - 1))
        by (apply Z.mul_le_mono_nonneg_l; lia).
      assert (H3 : 0 <= twid * (j * B)) by nia.
      lia. }
    pose proof (middle_stage_cells Forward k pSrc pCoef twid s1 i j b Hk Htab
                  Hi Hj Hb) as H.
    cbv zeta in H.
    rewrite twiddles_first_plain in H by lia.
    rewrite middle_butterfly_forward_cells, read4_out_eq in H.
    apply octet_fields in H. cbn [xa ya xb yb xc yc xd yd] in H.
    destruct H as (Ha & Ha' & Hb0 & Hb' & Hc & Hc' & Hd & Hd').
    repeat split; assumption.
  - intros v. apply asr32_div. lia.
  - intros v. apply asr32_div. lia.
  - intros a b Ha Hb. apply mulhi32_exact; assumption.
Qed.

(** ** The two engines and the dispatcher *)

(** The butterflies of the direction [d], field by field, with the sign
    [sgn d] at the cross terms. *)
Lemma first_butterfly_signed_cells d m p0 p1 p2 p3 w :
  let sg := sgn d in
  let xa := asr32 (m p0) 4 in let ya := asr32 (m (p0 + 1)) 4 in
  let xb := asr32 (m p1) 4 in let yb := asr32 (m (p1 + 1)) 4 in
  let xc := asr32 (m p2) 4 in let yc := asr32 (m (p2 + 1)) 4 in
  let xd := asr32 (m p3) 4 in let yd := asr32 (m (p3 + 1)) 4 in
  let rb := wrap32 (xa + sg * yb - xc - sg * yd) in
  let sb := wrap32 (ya - sg * xb - yc + sg * xd) in
  let rc := wrap32 (xa - xb + xc - xd) in
  let sc := wrap32 (ya - yb + yc - yd) in
  let rd := wrap32 (xa - sg * yb - xc + sg * yd) in
  let sd := wrap32 (ya + sg * xb - yc - sg * xd) in
  first_butterfly d (read4 m p0 p1 p2 p3) w =
  mkOctet (wrap32 (xa + xb + xc + xd))
          (wrap32 (ya + yb + yc + yd))
          (shl32 (wrap32 (mulhi32 rb (co1 w) + sg * mulhi32 sb (si1 w))) 1)
          (shl32 (wrap32 (mulhi32 sb (co1 w) - sg * mulhi32 rb (si1 w))) 1)
          (shl32 (wrap32 (mulhi32 rc (co2 w) + sg * mulhi32 sc (si2 w))) 1)
          (shl32 (wrap32 (mulhi32 sc (co2 w) - sg * mulhi32 rc (si2 w))) 1)
          (shl32 (wrap32 (mulhi32 rd (co3 w) + sg * mulhi32 sd (si3 w))) 1)
          (shl32 (wrap32 (mulhi32 sd (co3 w) - sg * mulhi32 rd (si3 w))) 1).
Proof. intros. reflexivity. Qed.

Lemma middle_butterfly_signed_cells d m p0 p1 p2 p3 w :
  let sg := sgn d in
  let xa := m p0 in let ya := m (p0 + 1) in
  let xb := m p1 in let yb := m (p1 + 1) in
  let xc := m p2 in let yc := m (p2 + 1) in
  let xd := m p3 in let yd := m (p3 + 1) in
  let rb := wrap32 (xa + sg * yb - xc - sg * yd) in
  let sb := wrap32 (ya - sg * xb - yc + sg * xd) in
  let rc := wrap32 (xa - xb + xc - xd) in
  let sc := wrap32 (ya - yb + yc - yd) in
  let rd := wrap32 (xa - sg * yb - xc + sg * yd) in
  let sd := wrap32 (ya + sg * xb - yc - sg * xd) in
  middle_butterfly d (read4 m p0 p1 p2 p3) w =
  mkOctet (asr32 (wrap32 (xa + xb + xc + xd)) 2)
          (asr32 (wrap32 (ya + yb + yc + yd)) 2)
          (asr32 (wrap32 (mulhi32 rb (co1 w) + sg * mulhi32 sb (si1 w))) 1)
          (asr32 (wrap32 (mulhi32 sb (co1 w) - sg * mulhi32 rb (si1 w))) 1)
          (asr32 (wrap32 (mulhi32 rc (co2 w) + sg * mulhi32 sc (si2 w))) 1)
          (asr32 (wrap32 (mulhi32 sc (co2 w) - sg * mulhi32 rc (si2 w))) 1)
          (asr32 (wrap32 (mulhi32 rd (co3 w) + sg * mulhi32 sd (si3 w))) 1)
          (asr32 (wrap32 (mulhi32 sd (co3 w) - sg * mulhi32 rd (si3 w))) 1).
Proof. intros. reflexivity. Qed.

Lemma last_butterfly_signed_cells d m p0 p1 p2 p3 :
  let sg := sgn d in
  let xa := m p0 in let ya := m (p0 + 1) in
  let xb := m p1 in let yb := m (p1 + 1) in
  let xc := m p2 in let yc := m (p2 + 1) in
  let xd := m p3 in let yd := m (p3 + 1) in
  last_butterfly d (read4 m p0 p1 p2 p3) =
  mkOctet (wrap32 (xa + xb + xc + xd)) (wrap32 (ya + yb + yc + yd))
          (wrap32 (xa + sg * yb - xc - sg * yd))
          (wrap32 (ya - sg * xb - yc + sg * xd))
          (wrap32 (xa - xb + xc - xd)) (wrap32 (ya - yb + yc - yd))
          (wrap32 (xa - sg * yb - xc + sg * yd))
          (wrap32 (ya + sg * xb - yc - sg * xd)).
Proof. intros. reflexivity. Qed.

(** C2, as amended.  For a transform of length [N = 4^k] whose twiddle
    table lies outside the buffer, the two engines are one computation with
    a sign [sg], [+1] for [riscv_radix4_butterfly_q31] and [-1] for
    [riscv_radix4_butterfly_inverse_q31].  Each runs the first stage,
    [k - 2] middle stages and the last stage, on the same cursors and the
    same coefficients.  The sign multiplies every cross term: the sine
    products of the twiddle multiplications, and also the quadrature terms
    [yb - yd] and [xb - xd] of the sums that feed the outputs b and d, in
    the first and the middle stages as well as in the last one.  Nothing
    else depends on the engine: the operands of the first stage are shifted
    right by 4 bits and its products left by 1 bit, the sum output of a
    middle stage is shifted right by 2 bits and its products by 1 bit, and
    the last stage shifts nothing. *)
Theorem inverse_engine_flips_cross_terms
  (k : nat) (pSrc pCoef twid : Z) (m : mem) (d : direction) :
  (1 <= k <= 15)%nat ->
  let N := 4 ^ Z.of_nat k in
  table_outside pSrc N pCoef twid ->
  let engine := match d with
                | Forward => riscv_radix4_butterfly_q31
                | Inverse => riscv_radix4_butterfly_inverse_q31
                end in
  let body1 := match d with
               | Forward => first_stage_body
               | Inverse => first_stage_body_inverse
               end in
  let body2 := match d with
               | Forward => middle_stage_body
               | Inverse => middle_stage_body_inverse
               end in
  let body3 := match d with
               | Forward => last_stage_body
               | Inverse => last_stage_body_inverse
               end in
  let sg := match d with Forward => 1 | Inverse => -1 end in
  let q := N / 4 in
  let s1 :=
    do_while (trips q) (body1 pCoef twid) q
      (mkLoop m pSrc (pSrc + 2 * q) (pSrc + 4 * q) (pSrc + 6 * q) 0) in
  let st := fun i : nat =>
    iterate i (middle_stage body2 pSrc N pCoef)
      (s1, q, u32 (Z.shiftl twid 2)) in
  let last := fun s : loop_state =>
    ls_mem (do_while (trips q) body3 q
              (mkLoop (ls_mem s) pSrc (ls_pSi1 s) (ls_pSi2 s) (ls_pSi3 s)
                 (ls_ia1 s))) in
  engine pSrc N pCoef twid m = last (fst (fst (st (k - 2)%nat))) /\
  (forall j, 0 <= j < q ->
     let m' := ls_mem s1 in
     let p0 := pSrc + 2 * j in
     let p1 := pSrc + 2 * q + 2 * j in
     let p2 := pSrc + 4 * q + 2 * j in
     let p3 := pSrc + 6 * q + 2 * j in
     let xa := asr32 (m p0) 4 in let ya := asr32 (m (p0 + 1)) 4 in
     let xb := asr32 (m p1) 4 in let yb := asr32 (m (p1 + 1)) 4 in
     let xc := asr32 (m p2) 4 in let yc := asr32 (m (p2 + 1)) 4 in
     let xd := asr32 (m p3) 4 in let yd := asr32 (m (p3 + 1)) 4 in
     let ia := j * twid in
     let co1 := m (pCoef + 2 * ia) in let si1 := m (pCoef + 2 * ia + 1) in
     let co2 := m (pCoef + 4 * ia) in let si2 := m (pCoef + 4 * ia + 1) in
     let co3 := m (pCoef + 6 * ia) in let si3 := m (pCoef + 6 * ia + 1) in
     let rb := wrap32 (xa + sg * yb - xc - sg * yd) in
     let sb := wrap32 (ya - sg * xb - yc + sg * xd) in
     let rc := wrap32 (xa - xb + xc - xd) in
     let sc := wrap32 (ya - yb + yc - yd) in
     let rd := wrap32 (xa - sg * yb - xc + sg * yd) in
     let sd := wrap32 (ya + sg * xb - yc - sg * xd) in
     m' p0 = wrap32 (xa + xb + xc + xd) /\
     m' (p0 + 1) = wrap32 (ya + yb + yc + yd) /\
     m' p1 = shl32 (wrap32 (mulhi32 rc co2 + sg * mulhi32 sc si2)) 1 /\
     m' (p1 + 1) = shl32 (wrap32 (mulhi32 sc co2 - sg * mulhi32 rc si2)) 1 /\
     m' p2 = shl32 (wrap32 (mulhi32 rb co1 + sg * mulhi32 sb si1)) 1 /\
     m' (p2 + 1) = shl32 (wrap32 (mulhi32 sb co1 - sg * mulhi32 rb si1)) 1 /\
     m' p3 = shl32 (wrap32 (mulhi32 rd co3 + sg * mulhi32 sd si3)) 1 /\
     m' (p3 + 1) = shl32 (wrap32 (mulhi32 sd co3 - sg * mulhi32 rd si3)) 1) /\
  (forall i : nat, (i + 2 < k)%nat ->
     let n1 := 4 ^ Z.of_nat (k - 1 - i) in
     let n2 := 4 ^ Z.of_nat (k - 2 - i) in
     let before := ls_mem (fst (fst (st i))) in
     let after := ls_mem (fst (fst (st (S i)))) in
     forall j b, 0 <= j < n2 -> 0 <= b < 4 ^ Z.of_nat (i + 1) ->
       let p0 := pSrc + 2 * j + 2 * n1 * b in
       let p1 := p0 + 2 * n2 in
       let p2 := p1 + 2 * n2 in
       let p3 := p2 + 2 * n2 in
       let xa := before p0 in let ya := before (p0 + 1) in
       let xb := before p1 in let yb := before (p1 + 1) in
       let xc := before p2 in let yc := before (p2 + 1) in
       let xd := before p3 in let yd := before (p3 + 1) in
       let ia := j * (twid * 4 ^ Z.of_nat (i + 1)) in
       let co1 := before (pCoef + 2 * ia) in
       let si1 := before (pCoef + 2 * ia + 1) in
       let co2 := before (pCoef + 4 * ia) in
       let si2 := before (pCoef + 4 * ia + 1) in
       let co3 := before (pCoef + 6 * ia) in
       let si3 := before (pCoef + 6 * ia + 1) in
       let rb := wrap32 (xa + sg * yb - xc - sg * yd) in
       let sb := wrap32 (ya - sg * xb - yc + sg * xd) in
       let rc := wrap32 (xa - xb + xc - xd) in
       let sc := wrap32 (ya - yb + yc - yd) in
       let rd := wrap32 (xa - sg * yb - xc + sg * yd) in
       let sd := wrap32 (ya + sg * xb - yc - sg * xd) in
       after p0 = asr32 (wrap32 (xa + xb + xc + xd)) 2 /\
       after (p0 + 1) = asr32 (wrap32 (ya + yb + yc + yd)) 2 /\
       after p1 = asr32 (wrap32 (mulhi32 rc co2 + sg * mulhi32 sc si2)) 1 /\
       after (p1 + 1) =
         asr32 (wrap32 (mulhi32 sc co2 - sg * mulhi32 rc si2)) 1 /\
       after p2 = asr32 (wrap32 (mulhi32 rb co1 + sg * mulhi32 sb si1)) 1 /\
       after (p2 + 1) =
         asr32 (wrap32 (mulhi32 sb co1 - sg * mulhi32 rb si1)) 1 /\
       after p3 = asr32 (wrap32 (mulhi32 rd co3 + sg * mulhi32 sd si3)) 1 /\
       after (p3 + 1) =
         asr32 (wrap32 (mulhi32 sd co3 - sg * mulhi32 rd si3)) 1) /\
  (forall g, 0 <= g < q ->
     let before := ls_mem (fst (fst (st (k - 2)%nat))) in
     let after := last (fst (fst (st (k - 2)%nat))) in
     let p := pSrc + 8 * g in
     let xa := before p in let ya := before (p + 1) in
     let xb := before (p + 2) in let yb := before (p + 3) in
     let xc := before (p + 4) in let yc := before (p + 5) in
     let xd := before (p + 6) in let yd := before (p + 7) in
     after p = wrap32 (xa + xb + xc + xd) /\
     after (p + 1) = wrap32 (ya + yb + yc + yd) /\
     after (p + 2) = wrap32 (xa - xb + xc - xd) /\
     after (p + 3) = wrap32 (ya - yb + yc - yd) /\
     after (p + 4) = wrap32 (xa + sg * yb - xc - sg * yd) /\
     after (p + 5) = wrap32 (ya - sg * xb - yc + sg * xd) /\
     after (p + 6) = wrap32 (xa - sg * yb - xc + sg * yd) /\
     after (p + 7) = wrap32 (ya + sg * xb - yc - sg * xd)) /\
  (forall v, asr32 v 4 = v / 16) /\
  (forall v, asr32 v 2 = v / 4) /\
  (forall v, asr32 v 1 = v / 2) /\
  (forall v, shl32 v 1 = wrap32 (2 * v)) /\
  (forall a b, q31_range a -> q31_range b -> mulhi32 a b = (a * b) / 2 ^ 32).
Proof.
  intros Hk N Htab engine body1 body2 body3 sg q s1 st last.
  pose proof (quarter_div k Hk) as Hq4. fold N in Hq4. fold q in Hq4.
  pose proof (quarter_small k Hk) as Hqs. rewrite <- Hq4 in Hqs.
  pose proof (pow4_nat_pos (k - 1)) as Hqp.
  assert (Hq0 : 0 < q) by lia.
  assert (Hsh : Z.shiftr N 2 = q).
  { rewrite Z.shiftr_div_pow2 by lia. reflexivity. }
  assert (Hsg : sg = sgn d) by (destruct d; reflexivity).
  assert (Hb1 : body1 = first_stage_body_dir d).
  { destruct d; [exact first_stage_body_fwd|exact first_stage_body_inv]. }
  assert (Hb2 : body2 = middle_stage_body_dir d).
  { destruct d; [exact middle_stage_body_fwd|exact middle_stage_body_inv]. }
  assert (Hb3 : body3 = last_stage_body_dir d).
  { destruct d; [exact last_stage_body_fwd|exact last_stage_body_inv]. }
  assert (He : engine = radix4_butterfly_dir d).
  { destruct d; [exact butterfly_fwd_dir|exact butterfly_inv_dir]. }
  assert (Hs1 : s1 = first_stage d pSrc N pCoef twid m).
  { unfold s1, first_stage. rewrite Hb1, Hsh.
    rewrite (u32_small (2 * q)) by lia.
    replace (pSrc + 2 * q + 2 * q) with (pSrc + 4 * q) by lia.
    replace (pSrc + 4 * q + 2 * q) with (pSrc + 6 * q) by lia.
    reflexivity. }
  assert (Hst : forall i,
            st i = stage_state d pSrc pCoef twid k
                     (first_stage d pSrc N pCoef twid m) i).
  { intros i. unfold st, stage_state. fold N. rewrite Hb2, Hs1.
    rewrite <- pow4_nat, <- Hq4. reflexivity. }
  assert (Hlast : forall s, last s = last_stage d pSrc N s).
  { intros s. unfold last, last_stage. rewrite Hb3, Hsh. reflexivity. }
  split; [|split; [|split; [|split; [|split; [|split; [|split; [|split]]]]]]].
  - rewrite He, Hlast, Hst.
    apply (radix4_butterfly_dir_stages d pSrc pCoef twid k Hk).
  - intros j Hj. cbv zeta. rewrite Hs1, Hsg.
    pose proof (first_stage_cells d k pSrc pCoef twid m j Hk Htab Hj) as H.
    cbv zeta in H. fold N in H. fold q in H.
    destruct Htab as (Htw & Hlen & _). fold q in Hlen.
    rewrite twiddles_first_plain in H by nia.
    rewrite first_butterfly_signed_cells, read4_out_eq in H.
    replace (pSrc + 2 * j + 2 * q) with (pSrc + 2 * q + 2 * j) in H by lia.
    replace (pSrc + 2 * q + 2 * j + 2 * q)
      with (pSrc + 4 * q + 2 * j) in H by lia.
    replace (pSrc + 4 * q + 2 * j + 2 * q)
      with (pSrc + 6 * q + 2 * j) in H by lia.
    apply octet_fields in H. cbn [xa ya xb yb xc yc xd yd] in H.
    destruct H as (Ha & Ha' & Hb & Hb' & Hc & Hc' & Hd & Hd').
    repeat split; assumption.
  - intros i Hi. cbv zeta. intros j b Hj Hb. rewrite !Hst, Hsg.
    assert (Hia : 0 <= j * (twid * 4 ^ Z.of_nat (i + 1)) /\
                  6 * (j * (twid * 4 ^ Z.of_nat (i + 1))) + 2 <= 2 ^ 32).
    { destruct Htab as (Htw & Hlen & _).
      fold q in Hlen. rewrite Hq4 in Hlen.
      assert (HQB : Z.of_nat (4 ^ (k - 1)) =
                    4 ^ Z.of_nat (i + 1) * 4 ^ Z.of_nat (k - 2 - i)).
      { rewrite pow4_nat, <- Z.pow_add_r by lia. f_equal. lia. }
      pose proof (pow4_pos (i + 1)) as HB.
      pose proof (pow4_pos (k - 2 - i)) as HQ.
      clear - Hj Htw Hlen HQB HB HQ.
      set (B := 4 ^ Z.of_nat (i + 1)) in *.
      set (Q := 4 ^ Z.of_nat (k - 2 - i)) in *.
      rewrite HQB in Hlen.
      assert (H1 : j * B <= B * Q - 1) by nia.
      assert (H2 : twid * (j * B) <= twid * (B * Q - 1))
        by (apply Z.mul_le_mono_nonneg_l; lia).
      assert (H3 : 0 <= twid * (j * B)) by nia.
      lia. }
    pose proof (middle_stage_cells d k pSrc pCoef twid
                  (first_stage d pSrc N pCoef twid m) i j b Hk Htab
                  Hi Hj Hb) as H.
    cbv zeta in H.
    rewrite twiddles_first_plain in H by lia.
    rewrite middle_butterfly_signed_cells, read4_out_eq in H.
    apply octet_fields in H. cbn [xa ya xb yb xc yc xd yd] in H.
    destruct H as (Ha & Ha' & Hb0 & Hb' & Hc & Hc' & Hd & Hd').
    repeat split; assumption.
  - intros g Hg. cbv zeta. rewrite Hlast, Hst, Hsg.
    pose proof (last_stage_cells d k pSrc
                  (fst (fst (stage_state d pSrc pCoef twid k
                               (first_stage d pSrc N pCoef twid m) (k - 2))))
                  g Hk Hg) as H.
    cbv zeta in H. fold N in H.
    rewrite last_butterfly_signed_cells, read4_out_eq in H.
    apply octet_fields in H. cbn [xa ya xb yb xc yc xd yd] in H.
    destruct H as (Ha & Ha' & Hb & Hb' & Hc & Hc' & Hd & Hd').
    replace (pSrc + 8 * g + 2 + 1) with (pSrc + 8 * g + 3) in * by lia.
    replace (pSrc + 8 * g + 4 + 1) with (pSrc + 8 * g + 5) in * by lia.
    replace (pSrc + 8 * g + 6 + 1) with (pSrc + 8 * g + 7) in * by lia.
    repeat split; assumption.
  - intros v. apply asr32_div. lia.
  - intros v. apply asr32_div. lia.
  - intros v. apply asr32_div. lia.
  - intros v. unfold shl32. rewrite Z.shiftl_mul_pow2 by lia.
    f_equal. lia.
  - intros a b Ha Hb. apply mulhi32_exact; assumption.
Qed.

(** ** A table and buffers to run the engines on *)

(** Modelled from the spec: the twiddle table of the 16-point transform,
    which is not part of the sources.  Section 6 of the specification gives
    its format, alternating cosine and sine scalars in Q31, one pair per
    angle increment; these are the pairs of the angles [2 pi i / 16],
    [i = 0 .. 11], truncated to Q31 and saturated at [2^31 - 1]. *)
Definition twiddleCoef_16_q31 : list Z :=
  [2147483647; 0; 1984016188; 821806413; 1518500249; 1518500249;
   821806413; 1984016188; 0; 2147483647; -821806413; 1984016188;
   -1518500249; 1518500249; -1984016188; 821806413; -2147483648; 0;
   -1984016188; -821806413; -1518500249; -1518500249; -821806413;
   -1984016188].

(** The impulse of the specification's scenario: the first complex sample
    is [(1 << 28, 0)], the other [n - 1] are zero. *)
Definition impulse (n : nat) : list Z :=
  Z.shiftl 1 28 :: repeat 0 (2 * n - 1).

(** The buffer at address 0 and the table at address 100. *)
Definition memory_with (buffer : list Z) : mem :=
  write_list (write_list zero_mem 100 twiddleCoef_16_q31) 0 buffer.

(** Modelled from the spec: the twiddle table of the 64-point transform,
    which is not part of the sources either; the pairs of the angles
    [2 pi i / 64], [i = 0 .. 47], in the same format. *)
Definition twiddleCoef_64_q31 : list Z :=
  [2147483647; 0; 2137142927; 210490206; 2106220351; 418953276; 2055013723;
   623381597; 1984016188; 821806413; 1893911494; 1012316784; 1785567396;
   1193077990; 1660027308; 1362349204; 1518500249; 1518500249; 1362349204;
   1660027308; 1193077990; 1785567396; 1012316784; 1893911494; 821806413;
   1984016188; 623381597; 2055013723; 418953276; 2106220351; 210490206;
   2137142927; 0; 2147483647; -210490206; 2137142927; -418953276;
   2106220351; -623381597; 2055013723; -821806413; 1984016188; -1012316784;
   1893911494; -1193077990; 1785567396; -1362349204; 1660027308;
   -1518500249; 1518500249; -1660027308; 1362349204; -1785567396;
   1193077990; -1893911494; 1012316784; -1984016188; 821806413;
   -2055013723; 623381597; -2106220351; 418953276; -2137142927; 210490206;
   -2147483648; 0; -2137142927; -210490206; -2106220351; -418953276;
   -2055013723; -623381597; -1984016188; -821806413; -1893911494;
   -1012316784; -1785567396; -1193077990; -1660027308; -1362349204;
   -1518500249; -1518500249; -1362349204; -1660027308; -1193077990;
   -1785567396; -1012316784; -1893911494; -821806413; -1984016188;
   -623381597; -2055013723; -418953276; -2106220351; -210490206;
   -2137142927].

(** A buffer of [n] scalars between [-2^30] and [2^30]. *)
Definition sample_buffer (n : nat) : list Z :=
  map (fun c => (Z.of_nat c * Z.of_nat c * 7919 + Z.of_nat c * 104729 + 12345)
                  mod 2 ^ 31 - 2 ^ 30) (seq 0 n).

(** The buffer at address 0 and the 64-point table at address 200. *)
Definition memory_64 (buffer : list Z) : mem :=
  write_list (write_list zero_mem 200 twiddleCoef_64_q31) 0 buffer.

(** Modelled from the spec: a twiddle output of a middle stage as the claim
    C4 words it, the combination of the two products shifted right by 2 bits
    like every output and by 1 further bit. *)
Definition twiddle_output_as_stated (r s co si : Z) : Z :=
  asr32 (asr32 (wrap32 (mulhi32 r co + mulhi32 s si)) 2) 1.

(** Modelled from the spec: the other reading of the same words, the
    combined terms shifted right by 2 bits before the products and the
    combination of the products by 1 further bit. *)
Definition twiddle_output_as_stated' (r s co si : Z) : Z :=
  asr32 (wrap32 (mulhi32 (asr32 r 2) co + mulhi32 (asr32 s 2) si)) 1.

(** C6.  Whatever the bit-reversal pass is, the dispatcher runs the inverse
    engine when [ifftFlag] is 1 and the forward engine for every other
    value, each on [fftLen], [pTwiddle] and [twidCoefModifier] of the
    descriptor; then it runs the bit-reversal pass on the result when
    [bitReverseFlag] is 1 and nothing for every other value.  Its result is
    the memory these calls leave: there is no other effect and no value is
    returned. *)
Theorem dispatcher_selects_engine_and_bit_reversal
  (riscv_bitreversal_q31 : Z -> Z -> Z -> Z -> mem -> mem)
  (S : riscv_cfft_radix4_instance_q31) (pSrc : Z) (m : mem) :
  let result := riscv_cfft_radix4_q31 riscv_bitreversal_q31 S pSrc m in
  let inverse :=
    riscv_radix4_butterfly_inverse_q31 pSrc (fftLen S) (pTwiddle S)
      (twidCoefModifier S) m in
  let forward :=
    riscv_radix4_butterfly_q31 pSrc (fftLen S) (pTwiddle S)
      (twidCoefModifier S) m in
  let reversed :=
    riscv_bitreversal_q31 pSrc (fftLen S) (bitRevFactor S) (pBitRevTable S) in
  (ifftFlag S = 1 -> bitReverseFlag S = 1 -> result = reversed inverse) /\
  (ifftFlag S = 1 -> bitReverseFlag S <> 1 -> result = inverse) /\
  (ifftFlag S <> 1 -> bitReverseFlag S = 1 -> result = reversed forward) /\
  (ifftFlag S <> 1 -> bitReverseFlag S <> 1 -> result = forward).
Proof.
  cbv zeta. unfold riscv_cfft_radix4_q31.
  destruct (Z.eqb_spec (ifftFlag S) 1) as [Hi|Hi];
    destruct (Z.eqb_spec (bitReverseFlag S) 1) as [Hb|Hb];
    repeat split; intros; try reflexivity; contradiction.
Qed.

(** C9.  A transform of length [N = 4^k] leaves every cell outside the
    [2 N] cells [pSrc[0] .. pSrc[2N-1]] as it was: the forward engine, the
    inverse engine and, when the bit-reversal pass writes inside the buffer
    only, the dispatcher.  The cells that hold the twiddle table and any
    descriptor stored outside the buffer are among them; in the embedding
    the descriptor is a value that the dispatcher receives and does not
    return. *)
Theorem transform_writes_buffer_only
  (riscv_bitreversal_q31 : Z -> Z -> Z -> Z -> mem -> mem)
  (k : nat) (S : riscv_cfft_radix4_instance_q31) (pSrc : Z) (m : mem) :
  (1 <= k <= 15)%nat ->
  fftLen S = 4 ^ Z.of_nat k ->
  (forall m0 a,
     ~ (pSrc <= a < pSrc + 2 * fftLen S) ->
     riscv_bitreversal_q31 pSrc (fftLen S) (bitRevFactor S) (pBitRevTable S)
       m0 a = m0 a) ->
  forall a, ~ (pSrc <= a < pSrc + 2 * fftLen S) ->
    riscv_radix4_butterfly_q31 pSrc (fftLen S) (pTwiddle S)
      (twidCoefModifier S) m a = m a /\
    riscv_radix4_butterfly_inverse_q31 pSrc (fftLen S) (pTwiddle S)
      (twidCoefModifier S) m a = m a /\
    riscv_cfft_radix4_q31 riscv_bitreversal_q31 S pSrc m a = m a.
Proof.
  intros Hk HN Hrev a Ha.
  assert (Hf : riscv_radix4_butterfly_q31 pSrc (fftLen S) (pTwiddle S)
                 (twidCoefModifier S) m a = m a).
  { rewrite butterfly_fwd_dir, HN.
    apply radix4_butterfly_dir_writes; [exact Hk|].
    unfold outside. rewrite <- HN. exact Ha. }
  assert (Hi : riscv_radix4_butterfly_inverse_q31 pSrc (fftLen S) (pTwiddle S)
                 (twidCoefModifier S) m a = m a).
  { rewrite butterfly_inv_dir, HN.
    apply radix4_butterfly_dir_writes; [exact Hk|].
    unfold outside. rewrite <- HN. exact Ha. }
  split; [exact Hf|]. split; [exact Hi|].
  unfold riscv_cfft_radix4_q31.
  destruct (ifftFlag S =? 1); destruct (bitReverseFlag S =? 1);
    rewrite ?Hrev by exact Ha; assumption.
Qed.


(** ** The theorems at concrete transforms *)

Lemma table_outside_16 : table_outside 0 (4 ^ Z.of_nat 2) 100 1.
Proof.
  unfold table_outside. change (4 ^ Z.of_nat 2) with 16.
  change (16 / 4) with 4.
  split; [lia|]. split; [lia|]. intros i Hi. lia.
Defined.

Lemma table_outside_64 : table_outside 0 (4 ^ Z.of_nat 3) 200 1.
Proof.
  unfold table_outside. change (4 ^ Z.of_nat 3) with 64.
  change (64 / 4) with 16.
  split; [lia|]. split; [lia|]. intros i Hi. lia.
Defined.

Lemma range_2 : (1 <= 2 <= 15)%nat.
Proof. split; repeat constructor. Defined.

Lemma range_3 : (1 <= 3 <= 15)%nat.
Proof. split; repeat constructor. Defined.

(** The first stage of the 16-point forward transform of the impulse: the
    sum output of butterfly 0 is the impulse shifted right by 4 bits. *)
Lemma first_stage_forward_butterflies_witness :
  (1 <= 2 <= 15)%nat /\ table_outside 0 (4 ^ Z.of_nat 2) 100 1 /\
  ls_mem (first_stage Forward 0 (4 ^ Z.of_nat 2) 100 1
            (memory_with (impulse 16))) 0 = 16777216.
Proof.
  split; [exact range_2|]. split; [exact table_outside_16|].
  destruct (first_stage_forward_butterflies 2 0 100 1
              (memory_with (impulse 16)) range_2 table_outside_16)
    as (_ & H & _).
  destruct (H 0 ltac:(vm_compute; split; [discriminate|reflexivity]))
    as (H0 & _).
  change (0 + 2 * 0) with 0 in H0.
  rewrite H0. vm_compute. reflexivity.
Defined.

(** The 64-point forward transform has one middle stage. *)
Lemma middle_stages_forward_witness :
  (1 <= 3 <= 15)%nat /\ table_outside 0 (4 ^ Z.of_nat 3) 200 1 /\
  let N := 4 ^ Z.of_nat 3 in
  let s1 := first_stage Forward 0 N 200 1 zero_mem in
  middle_stages 16 middle_stage_body 0 N 200 (N / 4)
    (s1, Z.shiftr N 2, u32 (Z.shiftl 1 2)) =
  middle_stage middle_stage_body 0 N 200 (s1, N / 4, u32 (Z.shiftl 1 2)).
Proof.
  split; [exact range_3|]. split; [exact table_outside_64|].
  destruct (middle_stages_forward 3 0 200 1 zero_mem range_3
              table_outside_64) as (_ & H & _).
  exact H.
Defined.

(** C4, as stated, fails.  On a 64-point buffer the one middle stage of the
    forward engine leaves [-1548005] in the cell 10, the real part of the
    output [xc'] of the butterfly 1 of the block 0: this is the combination
    [-3096009] of the two products shifted right by 1 bit.  Shifted by 2
    bits and by 1 further bit, in either reading of the claim, it would be
    [-387002]. *)
Lemma middle_stage_twiddle_output_shifted_once :
  let m := memory_64 (sample_buffer 128) in
  let s1 := first_stage Forward 0 64 200 1 m in
  let before := ls_mem s1 in
  let after :=
    ls_mem (fst (fst (middle_stage middle_stage_body 0 64 200
                        (s1, 64 / 4, u32 (Z.shiftl 1 2))))) in
  let rc := wrap32 (before 2 - before 10 + before 18 - before 26) in
  let sc := wrap32 (before 3 - before 11 + before 19 - before 27) in
  let co2 := before (200 + 4 * 4) in
  let si2 := before (200 + 4 * 4 + 1) in
  wrap32 (mulhi32 rc co2 + mulhi32 sc si2) = -3096009 /\
  after 10 = -1548005 /\
  twiddle_output_as_stated rc sc co2 si2 = -387002 /\
  twiddle_output_as_stated' rc sc co2 si2 = -387002 /\
  after 10 <> twiddle_output_as_stated rc sc co2 si2 /\
  after 10 <> twiddle_output_as_stated' rc sc co2 si2.
Proof. vm_compute. repeat split; discriminate. Qed.

(** The first stage of the 16-point inverse transform of a sample buffer:
    the sum output of butterfly 0. *)
Lemma inverse_engine_flips_cross_terms_witness :
  (1 <= 2 <= 15)%nat /\ table_outside 0 (4 ^ Z.of_nat 2) 100 1 /\
  let q := 4 ^ Z.of_nat 2 / 4 in
  ls_mem
    (do_while (trips q) (first_stage_body_inverse 100 1) q
       (mkLoop (memory_with (sample_buffer 32)) 0 (0 + 2 * q) (0 + 4 * q)
          (0 + 6 * q) 0)) 0 = -267674720.
Proof.
  split; [exact range_2|]. split; [exact table_outside_16|].
  destruct (inverse_engine_flips_cross_terms 2 0 100 1
              (memory_with (sample_buffer 32)) Inverse range_2
              table_outside_16) as (_ & H & _).
  destruct (H 0 ltac:(vm_compute; split; [discriminate|reflexivity]))
    as (H0 & _).
  cbv zeta. change (0 + 2 * 0) with 0 in H0.
  rewrite H0. vm_compute. reflexivity.
Defined.

(** C2, as stated, fails.  The forward engine with the sign of every sine
    product flipped and the outputs b and d of the last stage exchanged is
    not the inverse engine: on a 16-point buffer it leaves [-2268602] in the
    cell 16, where the inverse engine leaves [1938090].  The inverse engine
    also flips the quadrature terms of the sums of its first stage. *)
Lemma inverse_engine_not_sine_flips_alone :
  let m := memory_with (sample_buffer 32) in
  riscv_radix4_butterfly_inverse_q31 0 16 100 1 m 16 = 1938090 /\
  radix4_butterfly_as_stated 0 16 100 1 m 16 = -2268602 /\
  riscv_radix4_butterfly_inverse_q31 0 16 100 1 m 16 <>
  radix4_butterfly_as_stated 0 16 100 1 m 16.
Proof. vm_compute. repeat split; discriminate. Qed.

(** The last stage of a 16-point forward transform, first group. *)
Lemma last_stage_forward_groups_witness :
  (1 <= 2 <= 15)%nat /\
  let s := mkLoop (memory_with (impulse 16)) 0 0 0 0 0 in
  last_stage Forward 0 (4 ^ Z.of_nat 2) s 0 = 268435456.
Proof.
  split; [exact range_2|].
  destruct (last_stage_forward_groups 2 0
              (mkLoop (memory_with (impulse 16)) 0 0 0 0 0) range_2)
    as (_ & H & _).
  destruct (H 0 ltac:(vm_compute; split; [discriminate|reflexivity]))
    as (H0 & _).
  change (0 + 8 * 0) with 0 in H0.
  cbv zeta. rewrite H0. vm_compute. reflexivity.
Defined.

(** A 16-point transform with bit reversal leaves the first scalar of the
    twiddle table, at address 100, as it was. *)
Lemma transform_writes_buffer_only_witness :
  let rev := fun pSrc fftLen (_ _ : Z) m => bit_reversal_pass 4 pSrc m in
  let S := mkInstance 16 0 1 100 0 1 0 in
  (1 <= 2 <= 15)%nat /\ fftLen S = 4 ^ Z.of_nat 2 /\
  riscv_cfft_radix4_q31 rev S 0 (memory_with (impulse 16)) 100 =
  memory_with (impulse 16) 100.
Proof.
  cbv zeta.
  split; [exact range_2|]. split; [reflexivity|].
  refine (proj2 (proj2
    (transform_writes_buffer_only
       (fun pSrc fftLen (_ _ : Z) m => bit_reversal_pass 4 pSrc m)
       2 (mkInstance 16 0 1 100 0 1 0) 0 (memory_with (impulse 16))
       range_2 eq_refl _ 100 _))).
  - intros m0 a Ha. unfold bit_reversal_pass.
    cbn [fftLen] in Ha.
    destruct (Z.leb_spec 0 (a - 0)); destruct (Z.ltb_spec (a - 0) (2 * 2 ^ Z.of_nat 4));
      cbn [andb]; try reflexivity.
    exfalso. apply Ha. change (2 ^ Z.of_nat 4) with 16 in *. lia.
  - cbn [fftLen]. lia.
Defined.

(** ** The 16-point transform as a function of the buffer

    For [fftLen = 16] there is no middle stage.  [transform16] computes the
    32 scalars an engine leaves in the buffer from the 32 scalars of the
    buffer and the 24 scalars of the table, by index. *)

(** A list seen as a memory that starts at address 0. *)
Definition list_mem (l : list Z) : mem := fun a => nth (Z.to_nat a) l 0.

Definition first_stage16 (d : direction) (xs tab : list Z) : list Z :=
  let f := fun j =>
    first_butterfly d
      (read4 (list_mem xs) (2 * j) (8 + 2 * j) (16 + 2 * j) (24 + 2 * j))
      (twiddles_first (list_mem tab) 0 j) in
  [xa (f 0); ya (f 0); xa (f 1); ya (f 1);
   xa (f 2); ya (f 2); xa (f 3); ya (f 3);
   xc (f 0); yc (f 0); xc (f 1); yc (f 1);
   xc (f 2); yc (f 2); xc (f 3); yc (f 3);
   xb (f 0); yb (f 0); xb (f 1); yb (f 1);
   xb (f 2); yb (f 2); xb (f 3); yb (f 3);
   xd (f 0); yd (f 0); xd (f 1); yd (f 1);
   xd (f 2); yd (f 2); xd (f 3); yd (f 3)].

Definition last_stage16 (d : direction) (ys : list Z) : list Z :=
  let g := fun t =>
    last_butterfly d
      (read4 (list_mem ys) (8 * t) (8 * t + 2) (8 * t + 4) (8 * t + 6)) in
  [xa (g 0); ya (g 0); xc (g 0); yc (g 0);
   xb (g 0); yb (g 0); xd (g 0); yd (g 0);
   xa (g 1); ya (g 1); xc (g 1); yc (g 1);
   xb (g 1); yb (g 1); xd (g 1); yd (g 1);
   xa (g 2); ya (g 2); xc (g 2); yc (g 2);
   xb (g 2); yb (g 2); xd (g 2); yd (g 2);
   xa (g 3); ya (g 3); xc (g 3); yc (g 3);
   xb (g 3); yb (g 3); xd (g 3); yd (g 3)].

Definition transform16 (d : direction) (xs tab : list Z) : list Z :=
  last_stage16 d (first_stage16 d xs tab).

Lemma read_list_length m p n : length (read_list m p n) = n.
Proof.
  revert p. induction n as [|n IH]; intros p; [reflexivity|].
  cbn [read_list length]. rewrite IH. reflexivity.
Qed.

Lemma list_mem_read_list m p n c :
  0 <= c < Z.of_nat n -> list_mem (read_list m p n) c = m (p + c).
Proof.
  unfold list_mem. intros Hc.
  rewrite <- (Z2Nat.id c) at 2 by lia.
  assert (Hn : (Z.to_nat c < n)%nat) by lia.
  clear Hc. revert p n Hn.
  induction (Z.to_nat c) as [|i IH]; intros p n Hn.
  - destruct n; [lia|]. cbn [read_list nth]. f_equal. lia.
  - destruct n; [lia|]. cbn [read_list nth].
    rewrite IH by lia. f_equal. lia.
Qed.

(** Two memories that agree on a list of cells read the same list. *)
Lemma read_list_ext m m' p n :
  (forall c, 0 <= c < Z.of_nat n -> m (p + c) = m' (p + c)) ->
  read_list m p n = read_list m' p n.
Proof.
  revert p. induction n as [|n IH]; intros p H; [reflexivity|].
  cbn [read_list]. f_equal.
  - specialize (H 0 ltac:(lia)). rewrite Z.add_0_r in H. exact H.
  - apply IH. intros c Hc.
    replace (p + 1 + c) with (p + (1 + c)) by lia. apply H. lia.
Qed.

(** The list read from the cells [p], [p + 1], ... is determined by its
    elements. *)
Lemma read_list_eq m p (l : list Z) :
  (forall i, (i < length l)%nat -> m (p + Z.of_nat i) = nth i l 0) ->
  read_list m p (length l) = l.
Proof.
  revert p. induction l as [|v l IH]; intros p H; [reflexivity|].
  cbn [read_list length]. f_equal.
  - specialize (H O ltac:(cbn; lia)). cbn in H. rewrite Z.add_0_r in H.
    exact H.
  - apply IH. intros i Hi.
    specialize (H (S i) ltac:(cbn [length]; lia)). cbn [nth] in H.
    rewrite <- H. f_equal. lia.
Qed.

Lemma first_stage16_cells d pSrc pCoef m j :
  table_outside pSrc 16 pCoef 1 -> 0 <= j < 4 ->
  read4_out (ls_mem (first_stage d pSrc 16 pCoef 1 m))
    (pSrc + 2 * j) (pSrc + 2 * j + 8) (pSrc + 2 * j + 16) (pSrc + 2 * j + 24) =
  first_butterfly d
    (read4 (list_mem (read_list m pSrc 32))
       (2 * j) (8 + 2 * j) (16 + 2 * j) (24 + 2 * j))
    (twiddles_first (list_mem (read_list m pCoef 24)) 0 j).
Proof.
  intros Htab Hj.
  pose proof (first_stage_cells d 2 pSrc pCoef 1 m j range_2 Htab Hj) as H.
  change (4 ^ Z.of_nat 2) with 16 in H. change (16 / 4) with 4 in H.
  cbv zeta in H. rewrite Z.mul_1_r in H.
  replace (pSrc + 2 * j + 2 * 4) with (pSrc + 2 * j + 8) in H by lia.
  replace (pSrc + 2 * j + 8 + 2 * 4) with (pSrc + 2 * j + 16) in H by lia.
  replace (pSrc + 2 * j + 16 + 2 * 4) with (pSrc + 2 * j + 24) in H by lia.
  rewrite H. f_equal.
  - unfold read4.
    rewrite !list_mem_read_list by (change (Z.of_nat 32) with 32; lia).
    f_equal; f_equal; lia.
  - rewrite !twiddles_first_plain by lia.
    rewrite !list_mem_read_list by (change (Z.of_nat 24) with 24; lia).
    f_equal; f_equal; lia.
Qed.

Lemma last_stage16_cells d pSrc s t :
  0 <= t < 4 ->
  read4_out (last_stage d pSrc 16 s)
    (pSrc + 8 * t) (pSrc + 8 * t + 2) (pSrc + 8 * t + 4) (pSrc + 8 * t + 6) =
  last_butterfly d
    (read4 (list_mem (read_list (ls_mem s) pSrc 32))
       (8 * t) (8 * t + 2) (8 * t + 4) (8 * t + 6)).
Proof.
  intros Ht.
  pose proof (last_stage_cells d 2 pSrc s t range_2 Ht) as H.
  change (4 ^ Z.of_nat 2) with 16 in H. cbv zeta in H.
  rewrite H. f_equal. unfold read4.
  rewrite !list_mem_read_list by (change (Z.of_nat 32) with 32; lia).
  f_equal; f_equal; lia.
Qed.

(** The elements of a list of 32 cells, one by one. *)
Lemma read_list_32 m p (l : list Z) :
  length l = 32%nat ->
  (forall c, 0 <= c < 32 -> m (p + c) = nth (Z.to_nat c) l 0) ->
  read_list m p 32 = l.
Proof.
  intros Hlen H. rewrite <- Hlen. apply read_list_eq.
  intros i Hi. rewrite H by lia. rewrite Nat2Z.id. reflexivity.
Qed.

Ltac case_offsets c Hc :=
  let E := fresh "E" in
  assert (E : c = 0 \/ c = 1 \/ c = 2 \/ c = 3 \/ c = 4 \/ c = 5 \/ c = 6 \/
              c = 7 \/ c = 8 \/ c = 9 \/ c = 10 \/ c = 11 \/ c = 12 \/
              c = 13 \/ c = 14 \/ c = 15 \/ c = 16 \/ c = 17 \/ c = 18 \/
              c = 19 \/ c = 20 \/ c = 21 \/ c = 22 \/ c = 23 \/ c = 24 \/
              c = 25 \/ c = 26 \/ c = 27 \/ c = 28 \/ c = 29 \/ c = 30 \/
              c = 31) by lia;
  clear Hc;
  repeat (destruct E as [E|E]; [subst c|]); [..|subst c].

Lemma first_stage16_refines d pSrc pCoef m :
  table_outside pSrc 16 pCoef 1 ->
  read_list (ls_mem (first_stage d pSrc 16 pCoef 1 m)) pSrc 32 =
  first_stage16 d (read_list m pSrc 32) (read_list m pCoef 24).
Proof.
  intros Htab.
  pose proof (first_stage16_cells d pSrc pCoef m 0 Htab ltac:(lia)) as H0.
  pose proof (first_stage16_cells d pSrc pCoef m 1 Htab ltac:(lia)) as H1.
  pose proof (first_stage16_cells d pSrc pCoef m 2 Htab ltac:(lia)) as H2.
  pose proof (first_stage16_cells d pSrc pCoef m 3 Htab ltac:(lia)) as H3.
  apply octet_fields in H0, H1, H2, H3.
  rewrite read4_out_eq in H0, H1, H2, H3.
  cbn [xa ya xb yb xc yc xd yd] in H0, H1, H2, H3.
  destruct H0 as (A0 & A0' & B0 & B0' & C0 & C0' & D0 & D0').
  destruct H1 as (A1 & A1' & B1 & B1' & C1 & C1' & D1 & D1').
  destruct H2 as (A2 & A2' & B2 & B2' & C2 & C2' & D2 & D2').
  destruct H3 as (A3 & A3' & B3 & B3' & C3 & C3' & D3 & D3').
  apply read_list_32; [reflexivity|].
  intros c Hc. unfold first_stage16.
  case_offsets c Hc;
    match goal with
    | |- _ = nth (Z.to_nat ?n) _ _ =>
        let k := eval vm_compute in (Z.to_nat n) in
        change (Z.to_nat n) with k
    end;
    cbn [nth];
    match goal with
    | H : ?l = ?r |- _ = ?r => rewrite <- H; f_equal; lia
    end.
Qed.

Lemma last_stage16_refines d pSrc s :
  read_list (last_stage d pSrc 16 s) pSrc 32 =
  last_stage16 d (read_list (ls_mem s) pSrc 32).
Proof.
  pose proof (last_stage16_cells d pSrc s 0 ltac:(lia)) as H0.
  pose proof (last_stage16_cells d pSrc s 1 ltac:(lia)) as H1.
  pose proof (last_stage16_cells d pSrc s 2 ltac:(lia)) as H2.
  pose proof (last_stage16_cells d pSrc s 3 ltac:(lia)) as H3.
  apply octet_fields in H0, H1, H2, H3.
  rewrite read4_out_eq in H0, H1, H2, H3.
  cbn [xa ya xb yb xc yc xd yd] in H0, H1, H2, H3.
  destruct H0 as (A0 & A0' & B0 & B0' & C0 & C0' & D0 & D0').
  destruct H1 as (A1 & A1' & B1 & B1' & C1 & C1' & D1 & D1').
  destruct H2 as (A2 & A2' & B2 & B2' & C2 & C2' & D2 & D2').
  destruct H3 as (A3 & A3' & B3 & B3' & C3 & C3' & D3 & D3').
  apply read_list_32; [reflexivity|].
  intros c Hc. unfold last_stage16.
  case_offsets c Hc;
    match goal with
    | |- _ = nth (Z.to_nat ?n) _ _ =>
        let k := eval vm_compute in (Z.to_nat n) in
        change (Z.to_nat n) with k
    end;
    cbn [nth];
    match goal with
    | H : ?l = ?r |- _ = ?r => rewrite <- H; f_equal; lia
    end.
Qed.

(** A 16-point engine computes [transform16] of the buffer and the table it
    finds in memory. *)
Lemma radix4_butterfly_16 d pSrc pCoef m :
  table_outside pSrc 16 pCoef 1 ->
  read_list (radix4_butterfly_dir d pSrc 16 pCoef 1 m) pSrc 32 =
  transform16 d (read_list m pSrc 32) (read_list m pCoef 24).
Proof.
  intros Htab.
  pose proof (radix4_butterfly_dir_stages d pSrc pCoef 1 2 range_2 m) as H.
  change (4 ^ Z.of_nat 2) with 16 in H. cbv zeta in H.
  rewrite H. unfold stage_state. cbn [Nat.sub iterate fst].
  rewrite last_stage16_refines, first_stage16_refines by exact Htab.
  reflexivity.
Qed.

(** The squared magnitude of a complex bin. *)
Definition magnitude_sq (re im : Z) : Z := re * re + im * im.

(** C7.  The 16-point forward transform of the impulse [(1 << 28, 0)],
    with the modifier 1 and a table that starts with the pair of the angle
    0, [(0x7FFFFFFF, 0)], as the standard table does: the engine leaves 16
    bins whose imaginary part is zero and whose real part is the impulse
    amplitude shifted right by the 4 guard bits of the first stage (there
    is no middle stage and the last stage does not scale), [2^24], less a
    rounding error of at most 2: four bins are [2^24] and twelve are
    [2^24 - 2]. *)
Theorem impulse_16_forward_flat (pSrc pCoef : Z) (m : mem) :
  table_outside pSrc 16 pCoef 1 ->
  read_list m pSrc 32 = impulse 16 ->
  m pCoef = 2147483647 ->
  m (pCoef + 1) = 0 ->
  let out := read_list (riscv_radix4_butterfly_q31 pSrc 16 pCoef 1 m) pSrc 32 in
  let amplitude := Z.shiftr (Z.shiftl 1 28) 4 in
  out =
  [16777216; 0; 16777216; 0; 16777216; 0; 16777216; 0;
   16777214; 0; 16777214; 0; 16777214; 0; 16777214; 0;
   16777214; 0; 16777214; 0; 16777214; 0; 16777214; 0;
   16777214; 0; 16777214; 0; 16777214; 0; 16777214; 0] /\
  forall n, (n < 16)%nat ->
    let re := nth (2 * n) out 0 in
    let im := nth (2 * n + 1) out 0 in
    im = 0 /\ amplitude - 2 <= re <= amplitude /\
    (amplitude - 2) * (amplitude - 2) <= magnitude_sq re im
      <= amplitude * amplitude.
Proof.
  intros Htab Hbuf Hco Hsi out amplitude.
  assert (Hout : out =
    [16777216; 0; 16777216; 0; 16777216; 0; 16777216; 0;
     16777214; 0; 16777214; 0; 16777214; 0; 16777214; 0;
     16777214; 0; 16777214; 0; 16777214; 0; 16777214; 0;
     16777214; 0; 16777214; 0; 16777214; 0; 16777214; 0]).
  { unfold out. rewrite butterfly_fwd_dir.
    rewrite (radix4_butterfly_16 Forward pSrc pCoef m Htab), Hbuf.
    change (read_list m pCoef 24)
      with (m pCoef :: m (pCoef + 1) :: read_list m (pCoef + 1 + 1) 22).
    rewrite Hco, Hsi.
    generalize (read_list m (pCoef + 1 + 1) 22). intros rest.
    vm_compute. reflexivity. }
  split; [exact Hout|].
  intros n Hn. rewrite Hout. unfold amplitude, magnitude_sq.
  do 16 (destruct n as [|n]; [vm_compute; repeat split; discriminate|]).
  lia.
Qed.

Lemma table_outside_16_at_100 : table_outside 0 16 100 1.
Proof. exact table_outside_16. Defined.

Lemma impulse_16_forward_flat_witness :
  table_outside 0 16 100 1 /\
  read_list (memory_with (impulse 16)) 0 32 = impulse 16 /\
  memory_with (impulse 16) 100 = 2147483647 /\
  memory_with (impulse 16) (100 + 1) = 0 /\
  nth 8 (read_list (riscv_radix4_butterfly_q31 0 16 100 1
                      (memory_with (impulse 16))) 0 32) 0 = 16777214.
Proof.
  split; [exact table_outside_16_at_100|].
  split; [vm_compute; reflexivity|].
  split; [vm_compute; reflexivity|].
  split; [vm_compute; reflexivity|].
  rewrite (proj1 (impulse_16_forward_flat 0 100 (memory_with (impulse 16))
                    table_outside_16_at_100 eq_refl eq_refl eq_refl)).
  reflexivity.
Defined.

(** ** Wrap-around in the first stage

    The first-stage body once more, this time returning, next to the loop
    state, the exact integer result of every data operation it performs on
    [q31_t] values, in program order: each addition and subtraction, each
    high word of a 64-bit product before its cast to [int32_t], and each
    left shift.  The operands are the values the code holds at that point.
    An operation wraps around exactly when its entry leaves the range of
    [q31_t]. *)

Definition exact_plus (d : direction) (a b : Z) : Z :=
  match d with Forward => a + b | Inverse => a - b end.

Definition exact_minus (d : direction) (a b : Z) : Z :=
  match d with Forward => a - b | Inverse => a + b end.

Definition first_stage_body_traced (d : direction) (pCoef twidCoefModifier : Z)
  (s : loop_state) : loop_state * list Z :=
  let m := ls_mem s in
  let pSi0 := ls_pSi0 s in
  let pSi1 := ls_pSi1 s in
  let pSi2 := ls_pSi2 s in
  let pSi3 := ls_pSi3 s in
  let ia1 := ls_ia1 s in
  let r1 := add32 (asr32 (m pSi0) 4) (asr32 (m pSi2) 4) in
  let e1 := asr32 (m pSi0) 4 + asr32 (m pSi2) 4 in
  let r2 := sub32 (asr32 (m pSi0) 4) (asr32 (m pSi2) 4) in
  let e2 := asr32 (m pSi0) 4 - asr32 (m pSi2) 4 in
  let t1 := add32 (asr32 (m pSi1) 4) (asr32 (m pSi3) 4) in
  let e3 := asr32 (m pSi1) 4 + asr32 (m pSi3) 4 in
  let s1 := add32 (asr32 (m (pSi0 + 1)) 4) (asr32 (m (pSi2 + 1)) 4) in
  let e4 := asr32 (m (pSi0 + 1)) 4 + asr32 (m (pSi2 + 1)) 4 in
  let s2 := sub32 (asr32 (m (pSi0 + 1)) 4) (asr32 (m (pSi2 + 1)) 4) in
  let e5 := asr32 (m (pSi0 + 1)) 4 - asr32 (m (pSi2 + 1)) 4 in
  let e6 := r1 + t1 in
  let m := store m pSi0 (add32 r1 t1) in
  let pSi0 := pSi0 + 1 in
  let e7 := r1 - t1 in
  let r1 := sub32 r1 t1 in
  let t2 := add32 (asr32 (m (pSi1 + 1)) 4) (asr32 (m (pSi3 + 1)) 4) in
  let e8 := asr32 (m (pSi1 + 1)) 4 + asr32 (m (pSi3 + 1)) 4 in
  let e9 := s1 + t2 in
  let m := store m pSi0 (add32 s1 t2) in
  let pSi0 := pSi0 + 1 in
  let e10 := s1 - t2 in
  let s1 := sub32 s1 t2 in
  let t1 := sub32 (asr32 (m (pSi1 + 1)) 4) (asr32 (m (pSi3 + 1)) 4) in
  let e11 := asr32 (m (pSi1 + 1)) 4 - asr32 (m (pSi3 + 1)) 4 in
  let t2 := sub32 (asr32 (m pSi1) 4) (asr32 (m pSi3) 4) in
  let e12 := asr32 (m pSi1) 4 - asr32 (m pSi3) 4 in
  let ia2 := u32 (2 * ia1) in
  let co2 := m (pCoef + u32 (ia2 * 2)) in
  let si2 := m (pCoef + u32 (u32 (ia2 * 2) + 1)) in
  let xc :=
    [Z.shiftr (r1 * co2) 32; Z.shiftr (s1 * si2) 32;
     exact_plus d (mulhi32 r1 co2) (mulhi32 s1 si2);
     Z.shiftl (cross_plus d (mulhi32 r1 co2) (mulhi32 s1 si2)) 1] in
  let m := store m pSi1 (shl32 (cross_plus d (mulhi32 r1 co2) (mulhi32 s1 si2)) 1) in
  let pSi1 := pSi1 + 1 in
  let yc :=
    [Z.shiftr (s1 * co2) 32; Z.shiftr (r1 * si2) 32;
     exact_minus d (mulhi32 s1 co2) (mulhi32 r1 si2);
     Z.shiftl (cross_minus d (mulhi32 s1 co2) (mulhi32 r1 si2)) 1] in
  let m := store m pSi1 (shl32 (cross_minus d (mulhi32 s1 co2) (mulhi32 r1 si2)) 1) in
  let pSi1 := pSi1 + 1 in
  let e13 := exact_plus d r2 t1 in
  let r1 := cross_plus d r2 t1 in
  let e14 := exact_minus d r2 t1 in
  let r2 := cross_minus d r2 t1 in
  let e15 := exact_minus d s2 t2 in
  let s1 := cross_minus d s2 t2 in
  let e16 := exact_plus d s2 t2 in
  let s2 := cross_plus d s2 t2 in
  let co1 := m (pCoef + u32 (ia1 * 2)) in
  let si1 := m (pCoef + u32 (u32 (ia1 * 2) + 1)) in
  let xb :=
    [Z.shiftr (r1 * co1) 32; Z.shiftr (s1 * si1) 32;
     exact_plus d (mulhi32 r1 co1) (mulhi32 s1 si1);
     Z.shiftl (cross_plus d (mulhi32 r1 co1) (mulhi32 s1 si1)) 1] in
  let m := store m pSi2 (shl32 (cross_plus d (mulhi32 r1 co1) (mulhi32 s1 si1)) 1) in
  let pSi2 := pSi2 + 1 in
  let yb :=
    [Z.shiftr (s1 * co1) 32; Z.shiftr (r1 * si1) 32;
     exact_minus d (mulhi32 s1 co1) (mulhi32 r1 si1);
     Z.shiftl (cross_minus d (mulhi32 s1 co1) (mulhi32 r1 si1)) 1] in
  let m := store m pSi2 (shl32 (cross_minus d (mulhi32 s1 co1) (mulhi32 r1 si1)) 1) in
  let pSi2 := pSi2 + 1 in
  let ia3 := u32 (3 * ia1) in
  let co3 := m (pCoef + u32 (ia3 * 2)) in
  let si3 := m (pCoef + u32 (u32 (ia3 * 2) + 1)) in
  let xd :=
    [Z.shiftr (r2 * co3) 32; Z.shiftr (s2 * si3) 32;
     exact_plus d (mulhi32 r2 co3) (mulhi32 s2 si3);
     Z.shiftl (cross_plus d (mulhi32 r2 co3) (mulhi32 s2 si3)) 1] in
  let m := store m pSi3 (shl32 (cross_plus d (mulhi32 r2 co3) (mulhi32 s2 si3)) 1) in
  let pSi3 := pSi3 + 1 in
  let yd :=
    [Z.shiftr (s2 * co3) 32; Z.shiftr (r2 * si3) 32;
     exact_minus d (mulhi32 s2 co3) (mulhi32 r2 si3);
     Z.shiftl (cross_minus d (mulhi32 s2 co3) (mulhi32 r2 si3)) 1] in
  let m := store m pSi3 (shl32 (cross_minus d (mulhi32 s2 co3) (mulhi32 r2 si3)) 1) in
  let pSi3 := pSi3 + 1 in
  let ia1 := u32 (ia1 + twidCoefModifier) in
  (mkLoop m pSi0 pSi1 pSi2 pSi3 ia1,
   [e1; e2; e3; e4; e5; e6; e7; e8; e9; e10; e11; e12] ++ xc ++ yc ++
   [e13; e14; e15; e16] ++ xb ++ yb ++ xd ++ yd).

(** [do { body } while (--j)] for a body that also returns a trace. *)
Fixpoint do_while_traced {S : Type} (fuel : nat) (body : S -> S * list Z)
  (j : Z) (s : S) : S * list Z :=
  match fuel with
  | O => (s, [])
  | Datatypes.S fuel' =>
      let s' := fst (body s) in
      let j' := u32 (j - 1) in
      if j' =? 0 then (s', snd (body s))
      else
        let r := do_while_traced fuel' body j' s' in
        (fst r, snd (body s) ++ snd r)
  end.

(** The first-stage loop of an engine with its trace (lines 196-294 and
    575-667). *)
Definition first_stage_traced (d : direction)
  (pSrc fftLen pCoef twidCoefModifier : Z) (m : mem) : loop_state * list Z :=
  let n2 := Z.shiftr fftLen 2 in
  do_while_traced (trips n2) (first_stage_body_traced d pCoef twidCoefModifier) n2
    (mkLoop m pSrc (pSrc + u32 (2 * n2))
       (pSrc + u32 (2 * n2) + u32 (2 * n2))
       (pSrc + u32 (2 * n2) + u32 (2 * n2) + u32 (2 * n2)) 0).

Lemma first_stage_body_traced_state d pCoef twid s :
  fst (first_stage_body_traced d pCoef twid s) =
  first_stage_body_dir d pCoef twid s.
Proof.
  cbv beta iota zeta delta [first_stage_body_traced first_stage_body_dir fst].
  reflexivity.
Qed.

Lemma do_while_traced_state {S : Type} (body : S -> S * list Z) (body0 : S -> S) :
  (forall s, fst (body s) = body0 s) ->
  forall fuel j s,
    fst (do_while_traced fuel body j s) = do_while fuel body0 j s.
Proof.
  intros Hb fuel. induction fuel as [|fuel IH]; intros j s; cbn; [reflexivity|].
  rewrite Hb. destruct (u32 (j - 1) =? 0); cbn; [reflexivity|apply IH].
Qed.

Lemma first_stage_traced_state d pSrc fftLen pCoef twid m :
  fst (first_stage_traced d pSrc fftLen pCoef twid m) =
  first_stage d pSrc fftLen pCoef twid m.
Proof.
  unfold first_stage_traced, first_stage. cbv zeta.
  apply do_while_traced_state. intros s. apply first_stage_body_traced_state.
Qed.

Lemma do_while_traced_invariant {S : Type} (body : S -> S * list Z)
  (I : S -> Prop) (P : Z -> Prop) :
  (forall s, I s -> I (fst (body s)) /\ Forall P (snd (body s))) ->
  forall fuel j s, I s ->
    I (fst (do_while_traced fuel body j s)) /\
    Forall P (snd (do_while_traced fuel body j s)).
Proof.
  intros Hb fuel. induction fuel as [|fuel IH]; intros j s Hs; cbn.
  - split; [exact Hs|constructor].
  - destruct (Hb s Hs) as [Hs' Ht].
    destruct (u32 (j - 1) =? 0); cbn; [split; assumption|].
    destruct (IH (u32 (j - 1)) _ Hs') as [Hi Hf].
    split; [exact Hi|]. apply Forall_app. split; assumption.
Qed.

(** [fits k x]: the magnitude of [x] is at most [2^k]. *)
Definition fits (k : nat) (x : Z) : Prop :=
  - 2 ^ Z.of_nat k <= x <= 2 ^ Z.of_nat k.

Lemma pow2_succ k : 2 ^ Z.of_nat (S k) = 2 * 2 ^ Z.of_nat k.
Proof. rewrite Nat2Z.inj_succ, Z.pow_succ_r; lia. Qed.

Lemma pow2_le_30 k : (k <= 30)%nat -> 0 < 2 ^ Z.of_nat k <= 2 ^ 30.
Proof.
  intros H. split; [apply Z.pow_pos_nonneg; lia|].
  apply Z.pow_le_mono_r; lia.
Qed.

Lemma fits_q31 k x : fits k x -> (k <= 30)%nat -> q31_range x.
Proof.
  unfold fits, q31_range. intros H Hk. pose proof (pow2_le_30 k Hk). lia.
Qed.

Lemma fits_asr4 x : q31_range x -> fits 27 (asr32 x 4).
Proof.
  unfold fits, q31_range. intros H. rewrite asr32_div by lia.
  change (2 ^ Z.of_nat 27) with 134217728. change (2 ^ 4) with 16.
  Z.to_euclidean_division_equations. lia.
Qed.

Lemma fits_q31_sum k a b :
  fits k a -> fits k b -> (k < 30)%nat -> q31_range (a + b).
Proof.
  intros Ha Hb Hk. apply (fits_q31 (S k)); [|lia].
  unfold fits in *. rewrite pow2_succ. lia.
Qed.

Lemma fits_q31_diff k a b :
  fits k a -> fits k b -> (k < 30)%nat -> q31_range (a - b).
Proof.
  intros Ha Hb Hk. apply (fits_q31 (S k)); [|lia].
  unfold fits in *. rewrite pow2_succ. lia.
Qed.

Lemma fits_add32 k a b :
  fits k a -> fits k b -> (k < 30)%nat -> fits (S k) (add32 a b).
Proof.
  intros Ha Hb Hk. unfold add32.
  rewrite wrap32_small by (apply (fits_q31_sum k); assumption).
  unfold fits in *. rewrite pow2_succ. lia.
Qed.

Lemma fits_sub32 k a b :
  fits k a -> fits k b -> (k < 30)%nat -> fits (S k) (sub32 a b).
Proof.
  intros Ha Hb Hk. unfold sub32.
  rewrite wrap32_small by (apply (fits_q31_diff k); assumption).
  unfold fits in *. rewrite pow2_succ. lia.
Qed.

Lemma fits_high_word a b :
  fits 29 a -> q31_range b -> fits 28 (Z.shiftr (a * b) 32).
Proof.
  unfold fits, q31_range.
  change (2 ^ Z.of_nat 29) with 536870912.
  change (2 ^ Z.of_nat 28) with 268435456.
  change (2 ^ 31) with 2147483648.
  intros Ha Hb. rewrite Z.shiftr_div_pow2 by lia.
  change (2 ^ 32) with 4294967296.
  assert (- (536870912 * 2147483648) <= a * b <= 536870912 * 2147483648) by nia.
  Z.to_euclidean_division_equations. lia.
Qed.

Lemma q31_high_word a b :
  fits 29 a -> q31_range b -> q31_range (Z.shiftr (a * b) 32).
Proof.
  intros Ha Hb. apply (fits_q31 28); [apply fits_high_word; assumption|lia].
Qed.

Lemma fits_mulhi32 a b :
  fits 29 a -> q31_range b -> fits 28 (mulhi32 a b).
Proof.
  intros Ha Hb. unfold mulhi32.
  rewrite wrap32_small by (apply q31_high_word; assumption).
  apply fits_high_word; assumption.
Qed.

Lemma q31_shift_left x : fits 29 x -> q31_range (Z.shiftl x 1).
Proof.
  unfold fits, q31_range. change (2 ^ Z.of_nat 29) with 536870912.
  rewrite Z.shiftl_mul_pow2 by lia. change (2 ^ 1) with 2. lia.
Qed.

Lemma q31_add32 a b : q31_range (add32 a b).
Proof. apply wrap32_range. Qed.

Lemma q31_sub32 a b : q31_range (sub32 a b).
Proof. apply wrap32_range. Qed.

Lemma q31_shl32 a n : q31_range (shl32 a n).
Proof. apply wrap32_range. Qed.

Lemma q31_store_at m p v x :
  q31_range (m x) -> q31_range v -> q31_range (store m p v x).
Proof. unfold store. intros Hm Hv. destruct (x =? p); assumption. Qed.

Lemma q31_mem_store m p v : q31_mem m -> q31_range v -> q31_mem (store m p v).
Proof. intros Hm Hv x. apply q31_store_at; [apply Hm|exact Hv]. Qed.

Ltac q31_tac :=
  lazymatch goal with
  | |- q31_range (store _ _ _ _) => apply q31_store_at; [q31_tac | q31_tac]
  | |- q31_range (add32 _ _) => apply q31_add32
  | |- q31_range (sub32 _ _) => apply q31_sub32
  | |- q31_range (shl32 _ _) => apply q31_shl32
  | H : q31_mem ?m |- q31_range (?m _) => apply H
  end.

Ltac fits_tac :=
  lazymatch goal with
  | |- fits _ (asr32 _ 4) => apply fits_asr4; q31_tac
  | |- fits _ (add32 _ _) => apply fits_add32; [fits_tac | fits_tac | lia]
  | |- fits _ (sub32 _ _) => apply fits_sub32; [fits_tac | fits_tac | lia]
  | |- fits _ (mulhi32 _ _) => apply fits_mulhi32; [fits_tac | q31_tac]
  end.

Ltac exact_tac :=
  lazymatch goal with
  | |- q31_range (Z.shiftr (_ * _) 32) => apply q31_high_word; [fits_tac | q31_tac]
  | |- q31_range (Z.shiftl _ 1) => apply q31_shift_left; fits_tac
  | |- q31_range (_ + _) => eapply fits_q31_sum; [fits_tac | fits_tac | lia]
  | |- q31_range (_ - _) => eapply fits_q31_diff; [fits_tac | fits_tac | lia]
  end.

Lemma first_stage_body_traced_exact d pCoef twid s :
  q31_mem (ls_mem s) ->
  q31_mem (ls_mem (fst (first_stage_body_traced d pCoef twid s))) /\
  Forall q31_range (snd (first_stage_body_traced d pCoef twid s)).
Proof.
  intros Hm. split.
  - rewrite first_stage_body_traced_state.
    cbv beta iota zeta delta [first_stage_body_dir ls_mem].
    fold (ls_mem s).
    repeat (apply q31_mem_store; [|first [apply q31_add32|apply q31_shl32]]).
    exact Hm.
  - cbv beta iota zeta delta [first_stage_body_traced snd app].
    destruct d; cbv beta iota delta [exact_plus exact_minus cross_plus cross_minus];
      repeat (apply Forall_cons; [exact_tac|]); apply Forall_nil.
Qed.

Lemma first_stage_body_traced_length d pCoef twid s :
  length (snd (first_stage_body_traced d pCoef twid s)) = 40%nat.
Proof.
  cbv beta iota zeta delta [first_stage_body_traced snd app length].
  reflexivity.
Qed.

Lemma trips_pos j : 0 <= j -> exists n, trips j = S n.
Proof.
  intros Hj. unfold trips.
  destruct (Z.eqb_spec j 0) as [->|Hne].
  - exists (Nat.pred (Z.to_nat (2 ^ 32))).
    assert (0 < Z.to_nat (2 ^ 32))%nat by (apply (Z2Nat.inj_lt 0); lia). lia.
  - exists (Nat.pred (Z.to_nat j)).
    assert (0 < Z.to_nat j)%nat by (apply (Z2Nat.inj_lt 0); lia). lia.
Qed.

Lemma do_while_traced_first {S : Type} (body : S -> S * list Z) fuel j s :
  (length (snd (body s))
   <= length (snd (do_while_traced (Datatypes.S fuel) body j s)))%nat.
Proof.
  cbn. destruct (u32 (j - 1) =? 0); cbn; [lia|].
  rewrite length_app. lia.
Qed.

Lemma engine_first_stage_traced d pSrc fftLen pCoef twid m :
  radix4_butterfly_dir d pSrc fftLen pCoef twid m =
  last_stage d pSrc fftLen
    (fst (fst (middle_phase d pSrc fftLen pCoef twid
                 (fst (first_stage_traced d pSrc fftLen pCoef twid m))))).
Proof.
  rewrite first_stage_traced_state. apply radix4_butterfly_dir_phases.
Qed.

Lemma first_stage_traced_exact d pSrc fftLen pCoef twid m :
  q31_mem m ->
  Forall q31_range (snd (first_stage_traced d pSrc fftLen pCoef twid m)).
Proof.
  intros Hm. unfold first_stage_traced. cbv zeta.
  apply (do_while_traced_invariant
           (first_stage_body_traced d pCoef twid)
           (fun s => q31_mem (ls_mem s)) q31_range).
  - intros s Hs. apply first_stage_body_traced_exact. exact Hs.
  - exact Hm.
Qed.

Lemma first_stage_traced_length d pSrc fftLen pCoef twid m :
  0 <= fftLen ->
  (40 <= length (snd (first_stage_traced d pSrc fftLen pCoef twid m)))%nat.
Proof.
  intros HN. unfold first_stage_traced. cbv zeta.
  destruct (trips_pos (Z.shiftr fftLen 2)) as [n ->].
  { apply Z.shiftr_nonneg. exact HN. }
  eapply Nat.le_trans; [|apply do_while_traced_first].
  rewrite first_stage_body_traced_length. lia.
Qed.

(** C10.  On a memory whose cells hold arbitrary 32-bit values, and for any
    buffer address, length, table address and modifier, the first-stage
    loop of the forward engine and that of the inverse engine perform no
    operation that wraps around: the exact result of every addition and
    subtraction made after the 4-bit right shifts (the sums [r1 + t1] and
    [s1 + t2] that are stored, the cross terms [r2 +- t1] and [s2 +- t2],
    the sums and differences of the products), of every high word of a
    product and of every left shift lies in [-2^31, 2^31).  The traced loop
    is the first-stage loop of the engine, and it lists 40 operations for
    each butterfly. *)
Theorem first_stage_free_of_wraparound (pSrc fftLen pCoef twidCoefModifier : Z)
  (m : mem) :
  q31_mem m ->
  (riscv_radix4_butterfly_q31 pSrc fftLen pCoef twidCoefModifier m =
   last_stage Forward pSrc fftLen
     (fst (fst (middle_phase Forward pSrc fftLen pCoef twidCoefModifier
        (fst (first_stage_traced Forward pSrc fftLen pCoef twidCoefModifier m)))))
   /\
   Forall q31_range
     (snd (first_stage_traced Forward pSrc fftLen pCoef twidCoefModifier m)))
  /\
  (riscv_radix4_butterfly_inverse_q31 pSrc fftLen pCoef twidCoefModifier m =
   last_stage Inverse pSrc fftLen
     (fst (fst (middle_phase Inverse pSrc fftLen pCoef twidCoefModifier
        (fst (first_stage_traced Inverse pSrc fftLen pCoef twidCoefModifier m)))))
   /\
   Forall q31_range
     (snd (first_stage_traced Inverse pSrc fftLen pCoef twidCoefModifier m)))
  /\
  (0 <= fftLen ->
   forall d,
     (40 <= length
        (snd (first_stage_traced d pSrc fftLen pCoef twidCoefModifier m)))%nat).
Proof.
  intros Hm. repeat split.
  - rewrite butterfly_fwd_dir. apply engine_first_stage_traced.
  - apply first_stage_traced_exact. exact Hm.
  - rewrite butterfly_inv_dir. apply engine_first_stage_traced.
  - apply first_stage_traced_exact. exact Hm.
  - intros HN d. apply first_stage_traced_length. exact HN.
Qed.

Definition q31_rangeb (x : Z) : bool := (- 2 ^ 31 <=? x) && (x <? 2 ^ 31).

Lemma q31_rangeb_sound l : forallb q31_rangeb l = true -> Forall q31_range l.
Proof.
  intros H. apply Forall_forall. intros x Hx.
  rewrite forallb_forall in H. specialize (H x Hx).
  unfold q31_rangeb in H. apply andb_true_iff in H. destruct H as [H1 H2].
  unfold q31_range. apply Z.leb_le in H1. apply Z.ltb_lt in H2. lia.
Defined.

Lemma q31_mem_write_list l : forall m p,
  q31_mem m -> Forall q31_range l -> q31_mem (write_list m p l).
Proof.
  induction l as [|v l IH]; intros m p Hm Hl; cbn; [exact Hm|].
  inversion Hl; subst. apply IH; [|assumption].
  apply q31_mem_store; assumption.
Defined.

Lemma q31_zero_mem : q31_mem zero_mem.
Proof. intros a. unfold zero_mem, q31_range. lia. Defined.

Lemma q31_memory_with l :
  forallb q31_rangeb l = true -> q31_mem (memory_with l).
Proof.
  intros H. unfold memory_with.
  apply q31_mem_write_list; [|apply q31_rangeb_sound; exact H].
  apply q31_mem_write_list; [apply q31_zero_mem|].
  apply q31_rangeb_sound. vm_compute. reflexivity.
Defined.

Lemma first_stage_free_of_wraparound_witness :
  q31_mem (memory_with (impulse 16)) /\
  Forall q31_range
    (snd (first_stage_traced Forward 0 16 100 1 (memory_with (impulse 16)))) /\
  Forall q31_range
    (snd (first_stage_traced Inverse 0 16 100 1 (memory_with (impulse 16)))).
Proof.
  assert (H : q31_mem (memory_with (impulse 16))).
  { apply q31_memory_with. vm_compute. reflexivity. }
  split; [exact H|].
  pose proof (first_stage_free_of_wraparound 0 16 100 1
                (memory_with (impulse 16)) H) as [[_ Hf] [[_ Hi] _]].
  split; assumption.
Defined.

(** ** Error analysis of the 16-point round trip

    The scalars an engine computes are expressions over the scalars of the
    buffer and of the table.  Each expression is followed by an affine form
    of the original buffer [x]: a value [v] is described by integer
    coefficients [lin], a positive denominator [den] and an error interval
    [[lo, hi]] when [den * v - lin . x] lies in the interval. *)

Inductive expr : Type :=
  | Var (j : nat)
  | Scale (c : Z) (e : expr)
  | Table (e : expr) (k : nat)
  | Plus (a b : expr)
  | Minus (a b : expr)
  | Wrap (e : expr)
  | ShiftR (e : expr) (n : Z)
  | ShiftL (e : expr) (n : Z).

Fixpoint eval (env tab : list Z) (e : expr) : Z :=
  match e with
  | Var j => nth j env 0
  | Scale c e => c * eval env tab e
  | Table e k => eval env tab e * nth k tab 0
  | Plus a b => eval env tab a + eval env tab b
  | Minus a b => eval env tab a - eval env tab b
  | Wrap e => wrap32 (eval env tab e)
  | ShiftR e n => Z.shiftr (eval env tab e) n
  | ShiftL e n => Z.shiftl (eval env tab e) n
  end.

Fixpoint dot (l x : list Z) : Z :=
  match l, x with
  | a :: l', v :: x' => a * v + dot l' x'
  | _, _ => 0
  end.

Fixpoint ladd (l1 l2 : list Z) : list Z :=
  match l1, l2 with
  | [], _ => l2
  | _, [] => l1
  | a :: l1', b :: l2' => (a + b) :: ladd l1' l2'
  end.

Definition lscale (c : Z) (l : list Z) : list Z := map (Z.mul c) l.

Fixpoint norm1 (l : list Z) : Z :=
  match l with
  | [] => 0
  | a :: l' => Z.abs a + norm1 l'
  end.

Fixpoint unit_vector (j : nat) : list Z :=
  match j with
  | O => [1]
  | S j' => 0 :: unit_vector j'
  end.

Record aval : Type := mkA { lin : list Z; den : Z; lo : Z; hi : Z }.

Definition bottom : aval := mkA [] 1 0 0.

Definition ascale (c : Z) (a : aval) : aval :=
  mkA (lscale c (lin a)) (den a)
      (Z.min (c * lo a) (c * hi a)) (Z.max (c * lo a) (c * hi a)).

Definition arescale (f : Z) (a : aval) : aval :=
  mkA (lscale f (lin a)) (f * den a) (f * lo a) (f * hi a).

Definition aplus (a b : aval) : aval :=
  mkA (ladd (lin a) (lin b)) (den a) (lo a + lo b) (hi a + hi b).

(** The two values on a common denominator, when one divides the other. *)
Definition unify (a b : aval) : option (aval * aval) :=
  if (0 <? den a) && (0 <? den b) then
    if den a =? den b then Some (a, b)
    else if den b mod den a =? 0 then Some (arescale (den b / den a) a, b)
    else if den a mod den b =? 0 then Some (a, arescale (den a / den b) b)
    else None
  else None.

Definition ashr (n : Z) (a : aval) : aval :=
  mkA (lin a) (den a * 2 ^ n) (lo a - den a * (2 ^ n - 1)) (hi a).

Section Analysis.

Variable M : Z.
Variable tol : Z.
Variable nominal : list Z.

(** A bound on [|den * v|]. *)
Definition magnitude (a : aval) : Z :=
  M * norm1 (lin a) + Z.max (Z.abs (lo a)) (Z.abs (hi a)).

Definition atable (a : aval) (k : nat) : aval :=
  let c := nth k nominal 0 in
  let s := ascale c a in
  mkA (lin s) (den s) (lo s - tol * magnitude a) (hi s + tol * magnitude a).

Definition in_q31 (a : aval) : bool :=
  (- 2 ^ 31 * den a <=? - (M * norm1 (lin a)) + lo a) &&
  (M * norm1 (lin a) + hi a <? 2 ^ 31 * den a).

Fixpoint aeval (aenv : list aval) (e : expr) : option aval :=
  match e with
  | Var j => Some (nth j aenv bottom)
  | Scale c e =>
      match aeval aenv e with
      | Some a => Some (ascale c a)
      | None => None
      end
  | Table e k =>
      match aeval aenv e with
      | Some a => Some (atable a k)
      | None => None
      end
  | Plus e1 e2 =>
      match aeval aenv e1, aeval aenv e2 with
      | Some a, Some b =>
          match unify a b with
          | Some (a', b') => Some (aplus a' b')
          | None => None
          end
      | _, _ => None
      end
  | Minus e1 e2 =>
      match aeval aenv e1, aeval aenv e2 with
      | Some a, Some b =>
          match unify a (ascale (-1) b) with
          | Some (a', b') => Some (aplus a' b')
          | None => None
          end
      | _, _ => None
      end
  | Wrap e =>
      match aeval aenv e with
      | Some a => if in_q31 a then Some a else None
      | None => None
      end
  | ShiftR e n =>
      match aeval aenv e with
      | Some a => if 0 <=? n then Some (ashr n a) else None
      | None => None
      end
  | ShiftL e n =>
      match aeval aenv e with
      | Some a => if 0 <=? n then Some (ascale (2 ^ n) a) else None
      | None => None
      end
  end.

Fixpoint aeval_list (aenv : list aval) (es : list expr) : option (list aval) :=
  match es with
  | [] => Some []
  | e :: es' =>
      match aeval aenv e, aeval_list aenv es' with
      | Some a, Some l => Some (a :: l)
      | _, _ => None
      end
  end.

End Analysis.

Lemma dot_ladd l1 : forall l2 x, dot (ladd l1 l2) x = dot l1 x + dot l2 x.
Proof.
  induction l1 as [|a l1 IH]; intros l2 x; [reflexivity|].
  destruct l2 as [|b l2]; [cbn [ladd dot]; destruct x; lia|].
  destruct x as [|v x]; [reflexivity|].
  cbn [ladd dot]. rewrite IH. ring.
Qed.

Lemma dot_lscale c l : forall x, dot (lscale c l) x = c * dot l x.
Proof.
  induction l as [|a l IH]; intros x; [cbn; lia|].
  destruct x as [|v x]; [cbn; lia|].
  cbn [lscale map dot]. fold (lscale c l). rewrite IH. ring.
Qed.

Lemma dot_unit_vector j : forall x, dot (unit_vector j) x = nth j x 0.
Proof.
  induction j as [|j IH]; intros [|v x]; cbn [unit_vector dot nth];
    try reflexivity.
  - destruct x; lia.
  - rewrite IH. lia.
Qed.

Lemma norm1_nonneg l : 0 <= norm1 l.
Proof. induction l as [|a l IH]; cbn [norm1]; lia. Qed.

Lemma abs_mul_le a v m : Z.abs v <= m -> Z.abs (a * v) <= m * Z.abs a.
Proof.
  intros H. rewrite Z.abs_mul, Z.mul_comm.
  apply Z.mul_le_mono_nonneg_r; [apply Z.abs_nonneg|exact H].
Qed.

Lemma dot_bound (m : Z) (x : list Z) :
  0 <= m ->
  Forall (fun v => - m <= v <= m) x ->
  forall l, Z.abs (dot l x) <= m * norm1 l.
Proof.
  intros Hm Hx. induction Hx as [|v x Hv Hx IH]; intros l.
  - pose proof (norm1_nonneg l).
    assert (0 <= m * norm1 l) by (apply Z.mul_nonneg_nonneg; lia).
    destruct l; cbn [dot]; lia.
  - destruct l as [|a l]; [cbn [dot norm1]; lia|].
    cbn [dot norm1]. specialize (IH l).
    assert (Z.abs (a * v) <= m * Z.abs a) by (apply abs_mul_le; lia).
    lia.
Qed.

Section Soundness.

Variable M : Z.
Variable tol : Z.
Variable nominal : list Z.
Variable x : list Z.
Variable tab : list Z.
Hypothesis M_nonneg : 0 <= M.
Hypothesis x_bound : Forall (fun v => - M <= v <= M) x.
Hypothesis tab_close : forall k, Z.abs (nth k tab 0 - nth k nominal 0) <= tol.

(** The value [v] is described by [a]. *)
Definition gamma (a : aval) (v : Z) : Prop :=
  0 < den a /\ lo a <= den a * v - dot (lin a) x <= hi a.

Lemma gamma_bottom : gamma bottom 0.
Proof. unfold gamma, bottom. cbn. lia. Qed.

Lemma gamma_unit j : gamma (mkA (unit_vector j) 1 0 0) (nth j x 0).
Proof.
  unfold gamma. cbn [den lo hi lin]. rewrite dot_unit_vector. lia.
Qed.

Lemma gamma_magnitude a v : gamma a v -> Z.abs (den a * v) <= magnitude M a.
Proof.
  intros [Hd He]. unfold magnitude.
  pose proof (dot_bound M x M_nonneg x_bound (lin a)). lia.
Qed.

Lemma gamma_scale c a v : gamma a v -> gamma (ascale c a) (c * v).
Proof.
  intros [Hd He]. unfold gamma, ascale. cbn [den lo hi lin].
  split; [exact Hd|]. rewrite dot_lscale.
  set (e := den a * v - dot (lin a) x) in *.
  replace (den a * (c * v) - c * dot (lin a) x) with (c * e)
    by (unfold e; ring).
  destruct (Z.le_gt_cases 0 c) as [Hc|Hc].
  - assert (c * lo a <= c * e) by (apply Z.mul_le_mono_nonneg_l; lia).
    assert (c * e <= c * hi a) by (apply Z.mul_le_mono_nonneg_l; lia).
    lia.
  - assert (c * e <= c * lo a) by (apply Z.mul_le_mono_nonpos_l; lia).
    assert (c * hi a <= c * e) by (apply Z.mul_le_mono_nonpos_l; lia).
    lia.
Qed.

Lemma gamma_rescale f a v : 0 < f -> gamma a v -> gamma (arescale f a) v.
Proof.
  intros Hf [Hd He]. unfold gamma, arescale. cbn [den lo hi lin].
  split; [lia|]. rewrite dot_lscale.
  set (e := den a * v - dot (lin a) x) in *.
  replace (f * den a * v - f * dot (lin a) x) with (f * e)
    by (unfold e; ring).
  assert (f * lo a <= f * e) by (apply Z.mul_le_mono_nonneg_l; lia).
  assert (f * e <= f * hi a) by (apply Z.mul_le_mono_nonneg_l; lia).
  lia.
Qed.

Lemma gamma_plus a b v w :
  den a = den b -> gamma a v -> gamma b w -> gamma (aplus a b) (v + w).
Proof.
  intros Hden [Hd He] [Hd' He']. unfold gamma, aplus. cbn [den lo hi lin].
  split; [exact Hd|]. rewrite dot_ladd.
  replace (den a * (v + w)) with (den a * v + den b * w)
    by (rewrite Hden; ring).
  lia.
Qed.

Lemma exact_quotient p q : 0 < p -> q mod p = 0 -> 0 < q -> 
  0 < q / p /\ q / p * p = q.
Proof.
  intros Hp Hm Hq.
  pose proof (Z.div_mod q p ltac:(lia)) as H. rewrite Hm in H.
  split; [|lia].
  destruct (Z.le_gt_cases (q / p) 0) as [Hn|Hn]; [|exact Hn].
  assert (p * (q / p) <= p * 0) by (apply Z.mul_le_mono_nonneg_l; lia).
  lia.
Qed.

Lemma gamma_unify a b a' b' v w :
  unify a b = Some (a', b') -> gamma a v -> gamma b w ->
  den a' = den b' /\ gamma a' v /\ gamma b' w.
Proof.
  unfold unify. intros H Ha Hb.
  destruct ((0 <? den a) && (0 <? den b)) eqn:Hpos; [|discriminate].
  apply andb_true_iff in Hpos. destruct Hpos as [Hpa Hpb].
  apply Z.ltb_lt in Hpa. apply Z.ltb_lt in Hpb.
  destruct (Z.eqb_spec (den a) (den b)) as [E|E].
  - injection H as <- <-. auto.
  - destruct (Z.eqb_spec (den b mod den a) 0) as [E1|E1].
    + injection H as <- <-.
      destruct (exact_quotient (den a) (den b) Hpa E1 Hpb) as [Hq Hq'].
      split; [cbn [arescale den]; lia|].
      split; [apply gamma_rescale; assumption|exact Hb].
    + destruct (Z.eqb_spec (den a mod den b) 0) as [E2|E2]; [|discriminate].
      injection H as <- <-.
      destruct (exact_quotient (den b) (den a) Hpb E2 Hpa) as [Hq Hq'].
      split; [cbn [arescale den]; lia|].
      split; [exact Ha|apply gamma_rescale; assumption].
Qed.

Lemma gamma_table a v k : gamma a v -> gamma (atable M tol nominal a k) (v * nth k tab 0).
Proof.
  intros Ha. pose proof (gamma_magnitude a v Ha) as Hmag.
  pose proof (gamma_scale (nth k nominal 0) a v Ha) as [Hd He].
  unfold gamma, atable. cbn zeta. cbn [den lo hi lin].
  split; [exact Hd|].
  pose proof (tab_close k) as Hk.
  set (t := nth k tab 0) in *. set (c := nth k nominal 0) in *.
  change (den (ascale c a)) with (den a) in *.
  assert (Hr : Z.abs ((t - c) * (den a * v)) <= tol * magnitude M a).
  { rewrite Z.abs_mul.
    apply Z.mul_le_mono_nonneg; try apply Z.abs_nonneg; assumption. }
  replace (den a * (v * t)) with (den a * (c * v) + (t - c) * (den a * v))
    by ring.
  lia.
Qed.

Lemma gamma_shr n a v : 0 <= n -> gamma a v -> gamma (ashr n a) (Z.shiftr v n).
Proof.
  intros Hn [Hd He]. unfold gamma, ashr. cbn [den lo hi lin].
  assert (Hp : 0 < 2 ^ n) by (apply Z.pow_pos_nonneg; lia).
  split; [apply Z.mul_pos_pos; assumption|].
  rewrite Z.shiftr_div_pow2 by exact Hn.
  pose proof (Z.div_mod v (2 ^ n) ltac:(lia)) as Hdm.
  pose proof (Z.mod_pos_bound v (2 ^ n) Hp) as Hr.
  set (q := v / 2 ^ n) in *. set (r := v mod 2 ^ n) in *.
  replace (den a * 2 ^ n * q) with (den a * v - den a * r)
    by (rewrite Hdm; ring).
  assert (0 <= den a * r) by (apply Z.mul_nonneg_nonneg; lia).
  assert (den a * r <= den a * (2 ^ n - 1))
    by (apply Z.mul_le_mono_nonneg_l; lia).
  lia.
Qed.

Lemma gamma_wrap a v : in_q31 M a = true -> gamma a v -> wrap32 v = v.
Proof.
  unfold in_q31. intros H [Hd He].
  apply andb_true_iff in H. destruct H as [H1 H2].
  apply Z.leb_le in H1. apply Z.ltb_lt in H2.
  pose proof (dot_bound M x M_nonneg x_bound (lin a)) as Hdot.
  apply wrap32_small. unfold q31_range.
  split.
  - apply (Z.mul_le_mono_pos_l _ _ (den a) Hd). lia.
  - apply (Z.mul_lt_mono_pos_l (den a) _ _ Hd). lia.
Qed.

Lemma gamma_nth aenv env :
  Forall2 gamma aenv env -> forall j, gamma (nth j aenv bottom) (nth j env 0).
Proof.
  intros H. induction H as [|a v aenv env Hav H IH]; intros j.
  - destruct j; apply gamma_bottom.
  - destruct j; [exact Hav|apply IH].
Qed.

Lemma aeval_sound aenv env :
  Forall2 gamma aenv env ->
  forall e a, aeval M tol nominal aenv e = Some a -> gamma a (eval env tab e).
Proof.
  intros Henv e. induction e as [j|c e IH|e IH k|e1 IH1 e2 IH2|e1 IH1 e2 IH2
                                 |e IH|e IH n|e IH n]; intros a H; cbn [aeval eval] in *.
  - inversion H; subst. apply gamma_nth. exact Henv.
  - destruct (aeval M tol nominal aenv e) as [a0|]; [|discriminate].
    inversion H; subst. apply gamma_scale. apply IH. reflexivity.
  - destruct (aeval M tol nominal aenv e) as [a0|]; [|discriminate].
    inversion H; subst. apply gamma_table. apply IH. reflexivity.
  - destruct (aeval M tol nominal aenv e1) as [a1|]; [|discriminate].
    destruct (aeval M tol nominal aenv e2) as [a2|]; [|discriminate].
    destruct (unify a1 a2) as [[a1' a2']|] eqn:Hu; [|discriminate].
    inversion H; subst.
    destruct (gamma_unify _ _ _ _ _ _ Hu (IH1 _ eq_refl) (IH2 _ eq_refl))
      as (Hd & G1 & G2).
    apply gamma_plus; assumption.
  - destruct (aeval M tol nominal aenv e1) as [a1|]; [|discriminate].
    destruct (aeval M tol nominal aenv e2) as [a2|]; [|discriminate].
    destruct (unify a1 (ascale (-1) a2)) as [[a1' a2']|] eqn:Hu; [|discriminate].
    inversion H; subst.
    pose proof (gamma_scale (-1) _ _ (IH2 _ eq_refl)) as G.
    destruct (gamma_unify _ _ _ _ _ _ Hu (IH1 _ eq_refl) G) as (Hd & G1 & G2).
    replace (eval env tab e1 - eval env tab e2)
      with (eval env tab e1 + -1 * eval env tab e2) by ring.
    apply gamma_plus; assumption.
  - destruct (aeval M tol nominal aenv e) as [a0|]; [|discriminate].
    destruct (in_q31 M a0) eqn:Hq; [|discriminate].
    inversion H; subst.
    rewrite (gamma_wrap a _ Hq (IH _ eq_refl)). apply IH. reflexivity.
  - destruct (aeval M tol nominal aenv e) as [a0|]; [|discriminate].
    destruct (Z.leb_spec 0 n) as [Hn|Hn]; [|discriminate].
    inversion H; subst. apply gamma_shr; [exact Hn|]. apply IH. reflexivity.
  - destruct (aeval M tol nominal aenv e) as [a0|]; [|discriminate].
    destruct (Z.leb_spec 0 n) as [Hn|Hn]; [|discriminate].
    inversion H; subst.
    rewrite Z.shiftl_mul_pow2 by exact Hn. rewrite Z.mul_comm.
    apply gamma_scale. apply IH. reflexivity.
Qed.

Lemma aeval_list_sound aenv env :
  Forall2 gamma aenv env ->
  forall es l, aeval_list M tol nominal aenv es = Some l ->
    Forall2 gamma l (map (eval env tab) es).
Proof.
  intros Henv es. induction es as [|e es IH]; intros l H; cbn [aeval_list map] in *.
  - inversion H; subst. constructor.
  - destruct (aeval M tol nominal aenv e) as [a|] eqn:Ha; [|discriminate].
    destruct (aeval_list M tol nominal aenv es) as [l'|]; [|discriminate].
    inversion H; subst. constructor.
    + apply (aeval_sound aenv env Henv). exact Ha.
    + apply IH. reflexivity.
Qed.

End Soundness.

(** *** The two stages of a 16-point engine as expressions

    The expressions are written after [first_butterfly] and
    [last_butterfly]: [Var j] stands for the scalar [j] of the stage's
    input and [Table e k] for the product of [e] by the scalar [k] of the
    table. *)

Record eoctet : Type := mkEOctet {
  exa : expr; eya : expr; exb : expr; eyb : expr;
  exc : expr; eyc : expr; exd : expr; eyd : expr
}.

Definition eval_octet (env tab : list Z) (i : eoctet) : octet :=
  mkOctet (eval env tab (exa i)) (eval env tab (eya i))
          (eval env tab (exb i)) (eval env tab (eyb i))
          (eval env tab (exc i)) (eval env tab (eyc i))
          (eval env tab (exd i)) (eval env tab (eyd i)).

Definition sym_sum_a (i : eoctet) : expr * expr :=
  (Wrap (Plus (Plus (Plus (exa i) (exb i)) (exc i)) (exd i)),
   Wrap (Plus (Plus (Plus (eya i) (eyb i)) (eyc i)) (eyd i))).

Definition sym_sum_c (i : eoctet) : expr * expr :=
  (Wrap (Minus (Plus (Minus (exa i) (exb i)) (exc i)) (exd i)),
   Wrap (Minus (Plus (Minus (eya i) (eyb i)) (eyc i)) (eyd i))).

Definition sym_sum_b (d : direction) (i : eoctet) : expr * expr :=
  (Wrap (Minus (Minus (Plus (exa i) (Scale (sgn d) (eyb i))) (exc i))
           (Scale (sgn d) (eyd i))),
   Wrap (Plus (Minus (Minus (eya i) (Scale (sgn d) (exb i))) (eyc i))
           (Scale (sgn d) (exd i)))).

Definition sym_sum_d (d : direction) (i : eoctet) : expr * expr :=
  (Wrap (Plus (Minus (Minus (exa i) (Scale (sgn d) (eyb i))) (exc i))
           (Scale (sgn d) (eyd i))),
   Wrap (Minus (Minus (Plus (eya i) (Scale (sgn d) (exb i))) (eyc i))
           (Scale (sgn d) (exd i)))).

Definition sym_mulhi32 (e : expr) (k : Z) : expr :=
  Wrap (ShiftR (Table e (Z.to_nat k)) 32).

Definition sym_twiddle_mul (d : direction) (rs : expr * expr) (co si : Z)
  : expr * expr :=
  (Wrap (Plus (sym_mulhi32 (fst rs) co)
           (Scale (sgn d) (sym_mulhi32 (snd rs) si))),
   Wrap (Minus (sym_mulhi32 (snd rs) co)
           (Scale (sgn d) (sym_mulhi32 (fst rs) si)))).

Definition sym_pair_map (f : expr -> expr) (p : expr * expr) : expr * expr :=
  (f (fst p), f (snd p)).

Definition sym_assemble (a b c d : expr * expr) : eoctet :=
  mkEOctet (fst a) (snd a) (fst b) (snd b) (fst c) (snd c) (fst d) (snd d).

Definition sym_guard4 (i : eoctet) : eoctet :=
  mkEOctet (ShiftR (exa i) 4) (ShiftR (eya i) 4) (ShiftR (exb i) 4)
           (ShiftR (eyb i) 4) (ShiftR (exc i) 4) (ShiftR (eyc i) 4)
           (ShiftR (exd i) 4) (ShiftR (eyd i) 4).

(** [w] holds the offsets of the six twiddle scalars in the table. *)
Definition sym_first_butterfly (d : direction) (i : eoctet) (w : twiddles)
  : eoctet :=
  let g := sym_guard4 i in
  sym_assemble (sym_sum_a g)
    (sym_pair_map (fun v => Wrap (ShiftL v 1))
       (sym_twiddle_mul d (sym_sum_b d g) (co1 w) (si1 w)))
    (sym_pair_map (fun v => Wrap (ShiftL v 1))
       (sym_twiddle_mul d (sym_sum_c g) (co2 w) (si2 w)))
    (sym_pair_map (fun v => Wrap (ShiftL v 1))
       (sym_twiddle_mul d (sym_sum_d d g) (co3 w) (si3 w))).

Definition sym_last_butterfly (d : direction) (i : eoctet) : eoctet :=
  sym_assemble (sym_sum_a i) (sym_sum_b d i) (sym_sum_c i) (sym_sum_d d i).

Definition var_mem (a : Z) : expr := Var (Z.to_nat a).

Definition sym_read4 (p0 p1 p2 p3 : Z) : eoctet :=
  mkEOctet (var_mem p0) (var_mem (p0 + 1)) (var_mem p1) (var_mem (p1 + 1))
           (var_mem p2) (var_mem (p2 + 1)) (var_mem p3) (var_mem (p3 + 1)).

Definition sym_first_stage16 (d : direction) : list expr :=
  let f := fun j =>
    sym_first_butterfly d
      (sym_read4 (2 * j) (8 + 2 * j) (16 + 2 * j) (24 + 2 * j))
      (twiddles_first (fun a => a) 0 j) in
  [exa (f 0); eya (f 0); exa (f 1); eya (f 1);
   exa (f 2); eya (f 2); exa (f 3); eya (f 3);
   exc (f 0); eyc (f 0); exc (f 1); eyc (f 1);
   exc (f 2); eyc (f 2); exc (f 3); eyc (f 3);
   exb (f 0); eyb (f 0); exb (f 1); eyb (f 1);
   exb (f 2); eyb (f 2); exb (f 3); eyb (f 3);
   exd (f 0); eyd (f 0); exd (f 1); eyd (f 1);
   exd (f 2); eyd (f 2); exd (f 3); eyd (f 3)].

Definition sym_last_stage16 (d : direction) : list expr :=
  let g := fun t =>
    sym_last_butterfly d
      (sym_read4 (8 * t) (8 * t + 2) (8 * t + 4) (8 * t + 6)) in
  [exa (g 0); eya (g 0); exc (g 0); eyc (g 0);
   exb (g 0); eyb (g 0); exd (g 0); eyd (g 0);
   exa (g 1); eya (g 1); exc (g 1); eyc (g 1);
   exb (g 1); eyb (g 1); exd (g 1); eyd (g 1);
   exa (g 2); eya (g 2); exc (g 2); eyc (g 2);
   exb (g 2); eyb (g 2); exd (g 2); eyd (g 2);
   exa (g 3); eya (g 3); exc (g 3); eyc (g 3);
   exb (g 3); eyb (g 3); exd (g 3); eyd (g 3)].

Ltac sym_refl :=
  cbv beta iota zeta delta
    [map eval eval_octet var_mem list_mem
     sym_first_stage16 first_stage16 sym_last_stage16 last_stage16
     sym_read4 read4 twiddles_first twiddle_co twiddle_si
     sym_first_butterfly first_butterfly sym_last_butterfly last_butterfly
     sym_assemble assemble sym_pair_map pair_map
     sym_twiddle_mul twiddle_mul sym_mulhi32 mulhi32 shl32 asr32
     sym_sum_a sym_sum_b sym_sum_c sym_sum_d sum_a sum_b sum_c sum_d
     sym_guard4 guard4 fst snd
     exa eya exb eyb exc eyc exd eyd xa ya xb yb xc yc xd yd
     co1 si1 co2 si2 co3 si3];
  reflexivity.

Lemma sym_first_stage16_eval d env tab :
  map (eval env tab) (sym_first_stage16 d) = first_stage16 d env tab.
Proof. sym_refl. Qed.

Lemma sym_last_stage16_eval d env tab :
  map (eval env tab) (sym_last_stage16 d) = last_stage16 d env.
Proof. sym_refl. Qed.

Lemma transform16_eval d env tab :
  transform16 d env tab =
  map (eval (map (eval env tab) (sym_first_stage16 d)) tab)
    (sym_last_stage16 d).
Proof.
  unfold transform16.
  rewrite sym_last_stage16_eval, sym_first_stage16_eval. reflexivity.
Qed.

(** *** The round trip on lists *)

(** The scalar at offset [c] of a reordered 16-point buffer comes from
    this offset: the complex sample whose index has the 4 bits of [c / 2]
    reversed, same component. *)
Definition bit_reversed_offset (c : Z) : Z :=
  2 * reverse_bits 4 (c / 2) 0 + c mod 2.

Definition reorder16 {A : Type} (d : A) (l : list A) : list A :=
  map (fun c => nth (Z.to_nat (bit_reversed_offset (Z.of_nat c))) l d)
      (seq 0 32).


Definition unit_aval (j : nat) : aval := mkA (unit_vector j) 1 0 0.


(** [16 v] is within [T] of the input scalar [j]. *)
Definition close_enough (M T : Z) (j : nat) (a : aval) : bool :=
  M * norm1 (ladd (lscale 16 (lin a)) (lscale (- den a) (unit_vector j))) +
  16 * Z.max (Z.abs (lo a)) (Z.abs (hi a)) <=? T * den a.


Lemma Forall2_map_seq {A B : Type} (P : A -> B -> Prop) (f : nat -> A)
  (d : B) (x : list B) : forall s,
  (forall j, (j < length x)%nat -> P (f (s + j)%nat) (nth j x d)) ->
  Forall2 P (map f (seq s (length x))) x.
Proof.
  induction x as [|v x IH]; intros s H; cbn [length seq map]; constructor.
  - specialize (H O ltac:(cbn; lia)). rewrite Nat.add_0_r in H. exact H.
  - apply IH. intros j Hj.
    specialize (H (S j) ltac:(cbn [length]; lia)).
    rewrite Nat.add_succ_r in H. exact H.
Qed.

Lemma Forall2_map_map {A B C : Type} (P : A -> B -> Prop)
  (f : C -> A) (g : C -> B) (l : list C) :
  (forall c, P (f c) (g c)) -> Forall2 P (map f l) (map g l).
Proof.
  intros H. induction l as [|c l IH]; cbn [map]; constructor; auto.
Qed.

Section RoundTrip.

Variable M : Z.
Variable tol : Z.
Variable nominal : list Z.
Variable x : list Z.
Variable tab : list Z.
Hypothesis M_nonneg : 0 <= M.
Hypothesis x_bound : Forall (fun v => - M <= v <= M) x.
Hypothesis x_length : length x = 32%nat.
Hypothesis tab_close : forall k, Z.abs (nth k tab 0 - nth k nominal 0) <= tol.

Lemma gamma_init : Forall2 (gamma x) (map unit_aval (seq 0 32)) x.
Proof.
  rewrite <- x_length. apply (Forall2_map_seq _ _ 0).
  intros j _. apply gamma_unit.
Qed.

Lemma gamma_reorder16 avs vs :
  Forall2 (gamma x) avs vs ->
  Forall2 (gamma x) (reorder16 bottom avs) (reorder16 0 vs).
Proof.
  intros H. unfold reorder16. apply Forall2_map_map.
  intros c. apply gamma_nth. exact H.
Qed.

Lemma gamma_transform16 d avs vs a1 a2 :
  Forall2 (gamma x) avs vs ->
  aeval_list M tol nominal avs (sym_first_stage16 d) = Some a1 ->
  aeval_list M tol nominal a1 (sym_last_stage16 d) = Some a2 ->
  Forall2 (gamma x) a2 (transform16 d vs tab).
Proof.
  intros H H1 H2. rewrite transform16_eval.
  apply (aeval_list_sound M tol nominal x tab M_nonneg x_bound tab_close a1);
    [|exact H2].
  apply (aeval_list_sound M tol nominal x tab M_nonneg x_bound tab_close avs);
    assumption.
Qed.


Lemma close_enough_sound T j a v :
  gamma x a v -> close_enough M T j a = true ->
  Z.abs (16 * v - nth j x 0) <= T.
Proof.
  intros [Hd He] H. unfold close_enough in H. apply Z.leb_le in H.
  set (l := ladd (lscale 16 (lin a)) (lscale (- den a) (unit_vector j))) in *.
  pose proof (dot_bound M x M_nonneg x_bound l) as Hl.
  assert (El : dot l x = 16 * dot (lin a) x - den a * nth j x 0).
  { unfold l. rewrite dot_ladd, !dot_lscale, dot_unit_vector. ring. }
  set (w := 16 * v - nth j x 0).
  assert (Hw : den a * w = dot l x + 16 * (den a * v - dot (lin a) x)).
  { rewrite El. unfold w. ring. }
  assert (Ha : Z.abs (den a * w) <= T * den a) by lia.
  rewrite Z.abs_mul, (Z.abs_eq (den a)), (Z.mul_comm T) in Ha by lia.
  apply (Z.mul_le_mono_pos_l _ _ (den a) Hd). exact Ha.
Qed.


End RoundTrip.

(** *** The round trip in memory *)

Lemma bit_reversed_offset_range c :
  0 <= c < 32 -> 0 <= bit_reversed_offset c < 32.
Proof. intros Hc. case_offsets c Hc; vm_compute; split; congruence. Qed.

Lemma bit_reversal_pass_cell pSrc m c :
  0 <= c < 32 ->
  bit_reversal_pass 4 pSrc m (pSrc + c) = m (pSrc + bit_reversed_offset c).
Proof.
  intros Hc. unfold bit_reversal_pass. cbv zeta.
  replace (pSrc + c - pSrc) with c by lia.
  change (2 * 2 ^ Z.of_nat 4) with 32.
  destruct (Z.leb_spec 0 c); [|lia]. destruct (Z.ltb_spec c 32); [|lia].
  cbn [andb]. unfold bit_reversed_offset. f_equal. ring.
Qed.

Lemma bit_reversal_pass_outside pSrc m a :
  ~ (pSrc <= a < pSrc + 32) -> bit_reversal_pass 4 pSrc m a = m a.
Proof.
  intros Ha. unfold bit_reversal_pass. cbv zeta.
  change (2 * 2 ^ Z.of_nat 4) with 32.
  destruct (Z.leb_spec 0 (a - pSrc)); destruct (Z.ltb_spec (a - pSrc) 32);
    cbn [andb]; try reflexivity.
  lia.
Qed.

Lemma reorder16_nth {A : Type} (d : A) (l : list A) c :
  0 <= c < 32 ->
  nth (Z.to_nat c) (reorder16 d l) d =
  nth (Z.to_nat (bit_reversed_offset c)) l d.
Proof. intros Hc. case_offsets c Hc; reflexivity. Qed.

Lemma nth_read_list m p n c :
  0 <= c < Z.of_nat n -> nth (Z.to_nat c) (read_list m p n) 0 = m (p + c).
Proof. apply list_mem_read_list. Qed.

Lemma bit_reversal_pass_16 pSrc m :
  read_list (bit_reversal_pass 4 pSrc m) pSrc 32 =
  reorder16 0 (read_list m pSrc 32).
Proof.
  apply read_list_32; [reflexivity|].
  intros c Hc. rewrite bit_reversal_pass_cell by exact Hc.
  rewrite reorder16_nth by exact Hc.
  pose proof (bit_reversed_offset_range c Hc).
  rewrite nth_read_list by (change (Z.of_nat 32) with 32; lia).
  reflexivity.
Qed.

Lemma Forall_read_list (P : Z -> Prop) m p n :
  (forall c, 0 <= c < Z.of_nat n -> P (m (p + c))) ->
  Forall P (read_list m p n).
Proof.
  revert p. induction n as [|n IH]; intros p H; cbn [read_list]; constructor.
  - specialize (H 0 ltac:(lia)). rewrite Z.add_0_r in H. exact H.
  - apply IH. intros c Hc.
    replace (p + 1 + c) with (p + (1 + c)) by lia. apply H. lia.
Qed.

(** The scalars of the table are within one unit of
    [twiddleCoef_16_q31]. *)
Definition table_within_1 (m : mem) (pCoef : Z) : Prop :=
  forall k, 0 <= k < 24 ->
    Z.abs (m (pCoef + k) - nth (Z.to_nat k) twiddleCoef_16_q31 0) <= 1.

Lemma table_within_1_nth m pCoef :
  table_within_1 m pCoef ->
  forall k,
    Z.abs (nth k (read_list m pCoef 24) 0 - nth k twiddleCoef_16_q31 0) <= 1.
Proof.
  intros H k. destruct (Nat.lt_ge_cases k 24) as [Hk|Hk].
  - specialize (H (Z.of_nat k) ltac:(lia)).
    rewrite Nat2Z.id in H.
    rewrite <- (nth_read_list m pCoef 24 (Z.of_nat k)) in H by lia.
    rewrite Nat2Z.id in H. exact H.
  - rewrite !nth_overflow; [cbn; lia| |].
    + change (length twiddleCoef_16_q31) with 24%nat. exact Hk.
    + rewrite read_list_length. exact Hk.
Qed.


Lemma engine_16_table d pSrc pCoef m :
  table_outside pSrc 16 pCoef 1 ->
  read_list (bit_reversal_pass 4 pSrc
               (radix4_butterfly_dir d pSrc 16 pCoef 1 m)) pCoef 24 =
  read_list m pCoef 24.
Proof.
  intros (_ & _ & Hout). apply read_list_ext. intros c Hc.
  change (Z.of_nat 24) with 24 in Hc.
  specialize (Hout c). change (6 * (16 / 4) * 1) with 24 in Hout.
  change (2 * 16) with 32 in Hout. specialize (Hout Hc).
  rewrite bit_reversal_pass_outside by exact Hout.
  apply (radix4_butterfly_dir_writes d pSrc pCoef 1 2 range_2).
  unfold outside. change (2 * 4 ^ Z.of_nat 2) with 32. exact Hout.
Qed.







(** The impulse moved to the second complex sample. *)
Definition shifted_impulse : list Z :=
  0 :: 0 :: Z.shiftl 1 28 :: repeat 0 29.

Lemma table_exact_within_1 m pCoef :
  read_list m pCoef 24 = twiddleCoef_16_q31 -> table_within_1 m pCoef.
Proof.
  intros H k Hk.
  rewrite <- (nth_read_list m pCoef 24 k) by (change (Z.of_nat 24) with 24; lia).
  rewrite H, Z.sub_diag. cbn. lia.
Defined.

Lemma buffer_within m p (l : list Z) (b : Z) :
  read_list m p 32 = l ->
  forallb (fun v => (- b <=? v) && (v <=? b)) l = true ->
  forall c, 0 <= c < 32 -> - b <= m (p + c) <= b.
Proof.
  intros H Hl c Hc.
  rewrite <- (nth_read_list m p 32 c) by (change (Z.of_nat 32) with 32; lia).
  rewrite H. rewrite forallb_forall in Hl.
  assert (Hin : In (nth (Z.to_nat c) l 0) l).
  { apply nth_In. rewrite <- H, read_list_length. lia. }
  specialize (Hl _ Hin). apply andb_true_iff in Hl. destruct Hl as [H1 H2].
  apply Z.leb_le in H1. apply Z.leb_le in H2. lia.
Defined.


(** A full-scale buffer: every scalar is the largest or the smallest 32-bit
    value, or zero, with the signs of the cosine and of the sine of
    [2 pi n / 16]. *)
Definition full_scale_tone : list Z :=
  [2147483647; 0; 2147483647; 2147483647; 2147483647; 2147483647;
   2147483647; 2147483647; 0; 2147483647; -2147483648; 2147483647;
   -2147483648; 2147483647; -2147483648; 2147483647; -2147483648; 0;
   -2147483648; -2147483648; -2147483648; -2147483648; -2147483648;
   -2147483648; 0; -2147483648; 2147483647; -2147483648; 2147483647;
   -2147483648; 2147483647; -2147483648].


(** ** The stages of the inverse engine *)

Lemma twiddle_mul_inverse rs co si :
  twiddle_mul Inverse rs co si =
  (wrap32 (mulhi32 (fst rs) co - mulhi32 (snd rs) si),
   wrap32 (mulhi32 (snd rs) co + mulhi32 (fst rs) si)).
Proof.
  unfold twiddle_mul. cbn [sgn]. f_equal; f_equal; ring.
Qed.

Lemma sum_b_inverse i :
  sum_b Inverse i =
  (wrap32 (xa i - yb i - xc i + yd i), wrap32 (ya i + xb i - yc i - xd i)).
Proof. unfold sum_b. cbn [sgn]. f_equal; f_equal; ring. Qed.

Lemma sum_d_inverse i :
  sum_d Inverse i =
  (wrap32 (xa i + yb i - xc i - yd i), wrap32 (ya i - xb i - yc i + xd i)).
Proof. unfold sum_d. cbn [sgn]. f_equal; f_equal; ring. Qed.

Lemma first_butterfly_inverse_cells m p0 p1 p2 p3 w :
  let xa := asr32 (m p0) 4 in let ya := asr32 (m (p0 + 1)) 4 in
  let xb := asr32 (m p1) 4 in let yb := asr32 (m (p1 + 1)) 4 in
  let xc := asr32 (m p2) 4 in let yc := asr32 (m (p2 + 1)) 4 in
  let xd := asr32 (m p3) 4 in let yd := asr32 (m (p3 + 1)) 4 in
  let rb := wrap32 (xa - yb - xc + yd) in
  let sb := wrap32 (ya + xb - yc - xd) in
  let rc := wrap32 (xa - xb + xc - xd) in
  let sc := wrap32 (ya - yb + yc - yd) in
  let rd := wrap32 (xa + yb - xc - yd) in
  let sd := wrap32 (ya - xb - yc + xd) in
  first_butterfly Inverse (read4 m p0 p1 p2 p3) w =
  mkOctet (wrap32 (xa + xb + xc + xd))
          (wrap32 (ya + yb + yc + yd))
          (shl32 (wrap32 (mulhi32 rb (co1 w) - mulhi32 sb (si1 w))) 1)
          (shl32 (wrap32 (mulhi32 sb (co1 w) + mulhi32 rb (si1 w))) 1)
          (shl32 (wrap32 (mulhi32 rc (co2 w) - mulhi32 sc (si2 w))) 1)
          (shl32 (wrap32 (mulhi32 sc (co2 w) + mulhi32 rc (si2 w))) 1)
          (shl32 (wrap32 (mulhi32 rd (co3 w) - mulhi32 sd (si3 w))) 1)
          (shl32 (wrap32 (mulhi32 sd (co3 w) + mulhi32 rd (si3 w))) 1).
Proof.
  intros. unfold first_butterfly.
  rewrite !twiddle_mul_inverse, sum_b_inverse, sum_d_inverse.
  reflexivity.
Qed.

Lemma middle_butterfly_inverse_cells m p0 p1 p2 p3 w :
  let xa := m p0 in let ya := m (p0 + 1) in
  let xb := m p1 in let yb := m (p1 + 1) in
  let xc := m p2 in let yc := m (p2 + 1) in
  let xd := m p3 in let yd := m (p3 + 1) in
  let rb := wrap32 (xa - yb - xc + yd) in
  let sb := wrap32 (ya + xb - yc - xd) in
  let rc := wrap32 (xa - xb + xc - xd) in
  let sc := wrap32 (ya - yb + yc - yd) in
  let rd := wrap32 (xa + yb - xc - yd) in
  let sd := wrap32 (ya - xb - yc + xd) in
  middle_butterfly Inverse (read4 m p0 p1 p2 p3) w =
  mkOctet (asr32 (wrap32 (xa + xb + xc + xd)) 2)
          (asr32 (wrap32 (ya + yb + yc + yd)) 2)
          (asr32 (wrap32 (mulhi32 rb (co1 w) - mulhi32 sb (si1 w))) 1)
          (asr32 (wrap32 (mulhi32 sb (co1 w) + mulhi32 rb (si1 w))) 1)
          (asr32 (wrap32 (mulhi32 rc (co2 w) - mulhi32 sc (si2 w))) 1)
          (asr32 (wrap32 (mulhi32 sc (co2 w) + mulhi32 rc (si2 w))) 1)
          (asr32 (wrap32 (mulhi32 rd (co3 w) - mulhi32 sd (si3 w))) 1)
          (asr32 (wrap32 (mulhi32 sd (co3 w) + mulhi32 rd (si3 w))) 1).
Proof.
  intros. unfold middle_butterfly.
  rewrite !twiddle_mul_inverse, sum_b_inverse, sum_d_inverse.
  reflexivity.
Qed.

Lemma last_butterfly_inverse_cells m p0 p1 p2 p3 :
  let xa := m p0 in let ya := m (p0 + 1) in
  let xb := m p1 in let yb := m (p1 + 1) in
  let xc := m p2 in let yc := m (p2 + 1) in
  let xd := m p3 in let yd := m (p3 + 1) in
  last_butterfly Inverse (read4 m p0 p1 p2 p3) =
  mkOctet (wrap32 (xa + xb + xc + xd)) (wrap32 (ya + yb + yc + yd))
          (wrap32 (xa - yb - xc + yd)) (wrap32 (ya + xb - yc - xd))
          (wrap32 (xa - xb + xc - xd)) (wrap32 (ya - yb + yc - yd))
          (wrap32 (xa + yb - xc - yd)) (wrap32 (ya - xb - yc + xd)).
Proof.
  intros. unfold last_butterfly. rewrite sum_b_inverse, sum_d_inverse.
  reflexivity.
Qed.

(** X1.  First stage of the inverse engine, for a transform of length
    [N = 4^k] whose twiddle table lies outside the buffer: the engine starts
    with the first stage; butterfly [j] has its cursors at the offsets [0],
    [2 (N/4)], [4 (N/4)] and [6 (N/4)] of the buffer, advanced by [2 j], and
    reads the coefficients of the indices [j], [2 j] and [3 j] times the
    modifier; each sample is shifted right by 4 bits; the first cursor
    receives the sum of the four shifted samples; the second receives
    [xc'], the third [xb'] and the fourth [xd'], where
      xb' = (xa-yb-xc+yd) co1 - (ya+xb-yc-xd) si1,
      yb' = (ya+xb-yc-xd) co1 + (xa-yb-xc+yd) si1,
    [xc'] and [xd'] alike, each product being the high word of a 64-bit
    product and each result being shifted left by 1 bit. *)
Theorem first_stage_inverse_butterflies
  (k : nat) (pSrc pCoef twid : Z) (m : mem) :
  (1 <= k <= 15)%nat ->
  let N := 4 ^ Z.of_nat k in
  table_outside pSrc N pCoef twid ->
  (riscv_radix4_butterfly_inverse_q31 pSrc N pCoef twid m =
   last_stage Inverse pSrc N
     (fst (fst (middle_phase Inverse pSrc N pCoef twid
                  (first_stage Inverse pSrc N pCoef twid m))))) /\
  (forall j, 0 <= j < N / 4 ->
     let m' := ls_mem (first_stage Inverse pSrc N pCoef twid m) in
     let p0 := pSrc + 2 * j in
     let p1 := pSrc + 2 * (N / 4) + 2 * j in
     let p2 := pSrc + 4 * (N / 4) + 2 * j in
     let p3 := pSrc + 6 * (N / 4) + 2 * j in
     let xa := asr32 (m p0) 4 in let ya := asr32 (m (p0 + 1)) 4 in
     let xb := asr32 (m p1) 4 in let yb := asr32 (m (p1 + 1)) 4 in
     let xc := asr32 (m p2) 4 in let yc := asr32 (m (p2 + 1)) 4 in
     let xd := asr32 (m p3) 4 in let yd := asr32 (m (p3 + 1)) 4 in
     let ia := j * twid in
     let co1 := m (pCoef + 2 * ia) in let si1 := m (pCoef + 2 * ia + 1) in
     let co2 := m (pCoef + 4 * ia) in let si2 := m (pCoef + 4 * ia + 1) in
     let co3 := m (pCoef + 6 * ia) in let si3 := m (pCoef + 6 * ia + 1) in
     let rb := wrap32 (xa - yb - xc + yd) in
     let sb := wrap32 (ya + xb - yc - xd) in
     let rc := wrap32 (xa - xb + xc - xd) in
     let sc := wrap32 (ya - yb + yc - yd) in
     let rd := wrap32 (xa + yb - xc - yd) in
     let sd := wrap32 (ya - xb - yc + xd) in
     m' p0 = wrap32 (xa + xb + xc + xd) /\
     m' (p0 + 1) = wrap32 (ya + yb + yc + yd) /\
     m' p1 = shl32 (wrap32 (mulhi32 rc co2 - mulhi32 sc si2)) 1 /\
     m' (p1 + 1) = shl32 (wrap32 (mulhi32 sc co2 + mulhi32 rc si2)) 1 /\
     m' p2 = shl32 (wrap32 (mulhi32 rb co1 - mulhi32 sb si1)) 1 /\
     m' (p2 + 1) = shl32 (wrap32 (mulhi32 sb co1 + mulhi32 rb si1)) 1 /\
     m' p3 = shl32 (wrap32 (mulhi32 rd co3 - mulhi32 sd si3)) 1 /\
     m' (p3 + 1) = shl32 (wrap32 (mulhi32 sd co3 + mulhi32 rd si3)) 1).
Proof.
  intros Hk N Htab.
  split.
  - rewrite butterfly_inv_dir. apply radix4_butterfly_dir_phases.
  - intros j Hj. cbv zeta.
    pose proof (first_stage_cells Inverse k pSrc pCoef twid m j Hk Htab Hj)
      as H.
    cbv zeta in H.
    destruct Htab as (Htw & Hlen & _).
    rewrite twiddles_first_plain in H by nia.
    rewrite first_butterfly_inverse_cells, read4_out_eq in H.
    replace (pSrc + 2 * j + 2 * (4 ^ Z.of_nat k / 4))
      with (pSrc + 2 * (N / 4) + 2 * j) in H by (unfold N; lia).
    replace (pSrc + 2 * (N / 4) + 2 * j + 2 * (4 ^ Z.of_nat k / 4))
      with (pSrc + 4 * (N / 4) + 2 * j) in H by (unfold N; lia).
    replace (pSrc + 4 * (N / 4) + 2 * j + 2 * (4 ^ Z.of_nat k / 4))
      with (pSrc + 6 * (N / 4) + 2 * j) in H by (unfold N; lia).
    apply octet_fields in H. cbn [xa ya xb yb xc yc xd yd] in H.
    destruct H as (Ha & Ha' & Hb & Hb' & Hc & Hc' & Hd & Hd').
    repeat split; assumption.
Qed.

(** The first stage of the 16-point inverse transform of the impulse. *)
Lemma first_stage_inverse_butterflies_witness :
  (1 <= 2 <= 15)%nat /\ table_outside 0 (4 ^ Z.of_nat 2) 100 1 /\
  ls_mem (first_stage Inverse 0 (4 ^ Z.of_nat 2) 100 1
            (memory_with (impulse 16))) 0 = 16777216.
Proof.
  split; [exact range_2|]. split; [exact table_outside_16|].
  destruct (first_stage_inverse_butterflies 2 0 100 1
              (memory_with (impulse 16)) range_2 table_outside_16)
    as (_ & H).
  destruct (H 0 ltac:(vm_compute; split; [discriminate|reflexivity]))
    as (H0 & _).
  change (0 + 2 * 0) with 0 in H0.
  rewrite H0. vm_compute. reflexivity.
Defined.

(** X2.  Middle stages of the inverse engine, for a transform of length
    [N = 4^k] whose twiddle table lies outside the buffer.  The loop tests
    its counter against 4 and quarters it after every stage; entered with
    [N / 4] it runs exactly [k - 2] stages, after which the engine goes on
    with the last stage.  Stage [i] starts with [n2 = 4^(k-1-i)] and the
    modifier [4^(i+1) twidCoefModifier] (modulo 2^32), quarters the first
    and multiplies the second by 4.  In the butterfly [j] of the sub-block
    [b] the sum output is shifted right by 2 bits and the three twiddle
    products, with the signs of the inverse direction,
      xb' = (xa-yb-xc+yd) co1 - (ya+xb-yc-xd) si1,
      yb' = (ya+xb-yc-xd) co1 + (xa-yb-xc+yd) si1,
    [xc'] and [xd'] alike, are shifted right by 1 bit. *)
Theorem middle_stages_inverse (k : nat) (pSrc pCoef twid : Z) (m : mem) :
  (1 <= k <= 15)%nat ->
  let N := 4 ^ Z.of_nat k in
  table_outside pSrc N pCoef twid ->
  let s1 := first_stage Inverse pSrc N pCoef twid m in
  let stage := middle_stage middle_stage_body_inverse pSrc N pCoef in
  let st := fun i : nat => iterate i stage (s1, N / 4, u32 (Z.shiftl twid 2)) in
  middle_stages 16 middle_stage_body_inverse pSrc N pCoef (N / 4)
    (s1, Z.shiftr N 2, u32 (Z.shiftl twid 2)) = st (k - 2)%nat /\
  riscv_radix4_butterfly_inverse_q31 pSrc N pCoef twid m =
    last_stage Inverse pSrc N (fst (fst (st (k - 2)%nat))) /\
  (forall i : nat, (i + 2 < k)%nat ->
     let n1 := 4 ^ Z.of_nat (k - 1 - i) in
     let n2 := 4 ^ Z.of_nat (k - 2 - i) in
     let before := ls_mem (fst (fst (st i))) in
     let after := ls_mem (fst (fst (st (S i)))) in
     snd (fst (st i)) = n1 /\ snd (fst (st (S i))) = n2 /\ n1 = 4 * n2 /\
     snd (st i) = u32 (twid * 4 ^ Z.of_nat (i + 1)) /\
     snd (st (S i)) = u32 (4 * snd (st i)) /\
     forall j b, 0 <= j < n2 -> 0 <= b < 4 ^ Z.of_nat (i + 1) ->
       let p0 := pSrc + 2 * j + 2 * n1 * b in
       let p1 := p0 + 2 * n2 in
       let p2 := p1 + 2 * n2 in
       let p3 := p2 + 2 * n2 in
       let xa := before p0 in let ya := before (p0 + 1) in
       let xb := before p1 in let yb := before (p1 + 1) in
       let xc := before p2 in let yc := before (p2 + 1) in
       let xd := before p3 in let yd := before (p3 + 1) in
       let ia := j * (twid * 4 ^ Z.of_nat (i + 1)) in
       let co1 := before (pCoef + 2 * ia) in
       let si1 := before (pCoef + 2 * ia + 1) in
       let co2 := before (pCoef + 4 * ia) in
       let si2 := before (pCoef + 4 * ia + 1) in
       let co3 := before (pCoef + 6 * ia) in
       let si3 := before (pCoef + 6 * ia + 1) in
       let rb := wrap32 (xa - yb - xc + yd) in
       let sb := wrap32 (ya + xb - yc - xd) in
       let rc := wrap32 (xa - xb + xc - xd) in
       let sc := wrap32 (ya - yb + yc - yd) in
       let rd := wrap32 (xa + yb - xc - yd) in
       let sd := wrap32 (ya - xb - yc + xd) in
       after p0 = asr32 (wrap32 (xa + xb + xc + xd)) 2 /\
       after (p0 + 1) = asr32 (wrap32 (ya + yb + yc + yd)) 2 /\
       after p1 = asr32 (wrap32 (mulhi32 rc co2 - mulhi32 sc si2)) 1 /\
       after (p1 + 1) = asr32 (wrap32 (mulhi32 sc co2 + mulhi32 rc si2)) 1 /\
       after p2 = asr32 (wrap32 (mulhi32 rb co1 - mulhi32 sb si1)) 1 /\
       after (p2 + 1) = asr32 (wrap32 (mulhi32 sb co1 + mulhi32 rb si1)) 1 /\
       after p3 = asr32 (wrap32 (mulhi32 rd co3 - mulhi32 sd si3)) 1 /\
       after (p3 + 1) = asr32 (wrap32 (mulhi32 sd co3 + mulhi32 rd si3)) 1).
Proof.
  intros Hk N Htab s1 stage st.
  assert (Hst : forall i, st i = stage_state Inverse pSrc pCoef twid k s1 i).
  { intros i. unfold st, stage, stage_state. fold N.
    rewrite middle_stage_body_inv.
    unfold N. rewrite (quarter_div k Hk), pow4_nat. reflexivity. }
  split; [|split].
  - rewrite Hst. unfold stage_state. fold N.
    rewrite middle_stage_body_inv.
    pose proof (middle_phase_iterate Inverse pSrc pCoef twid k s1 Hk) as H.
    unfold middle_phase in H. fold N in H. exact H.
  - rewrite Hst, butterfly_inv_dir.
    apply (radix4_butterfly_dir_stages Inverse pSrc pCoef twid k Hk).
  - intros i Hi. cbv zeta. rewrite !Hst.
    destruct (stage_state_inv Inverse pSrc pCoef twid k Hk s1 i ltac:(lia))
      as (En & Et & _).
    destruct (stage_state_inv Inverse pSrc pCoef twid k Hk s1 (S i)
                ltac:(lia)) as (En' & Et' & _).
    rewrite En, En', Et, Et'.
    replace (k - 1 - S i)%nat with (k - 2 - i)%nat by lia.
    replace (Z.of_nat (S i)) with (Z.of_nat (i + 1)) by lia.
    split; [reflexivity|]. split; [reflexivity|].
    split.
    { replace (k - 1 - i)%nat with (S (k - 2 - i)) by lia. apply pow4_succ. }
    split; [reflexivity|].
    split.
    { replace (Z.of_nat (S (S i))) with (Z.succ (Z.of_nat (i + 1))) by lia.
      rewrite Z.pow_succ_r by lia.
      unfold u32. rewrite Zmult_mod_idemp_r. f_equal. lia. }
    intros j b Hj Hb.
    assert (Hia : 0 <= j * (twid * 4 ^ Z.of_nat (i + 1)) /\
                  6 * (j * (twid * 4 ^ Z.of_nat (i + 1))) + 2 <= 2 ^ 32).
    { destruct Htab as (Htw & Hlen & _).
      unfold N in Hlen. rewrite (quarter_div k Hk) in Hlen.
      assert (HQB : Z.of_nat (4 ^ (k - 1)) =
                    4 ^ Z.of_nat (i + 1) * 4 ^ Z.of_nat (k - 2 - i)).
      { rewrite pow4_nat, <- Z.pow_add_r by lia. f_equal. lia. }
      pose proof (pow4_pos (i + 1)) as HB.
      pose proof (pow4_pos (k - 2 - i)) as HQ.
      clear - Hj Htw Hlen HQB HB HQ.
      set (B := 4 ^ Z.of_nat (i + 1)) in *.
      set (Q := 4 ^ Z.of_nat (k - 2 - i)) in *.
      rewrite HQB in Hlen.
      assert (H1 : j * B <= B * Q - 1) by nia.
      assert (H2 : twid * (j * B) <= twid * (B * Q - 1))
        by (apply Z.mul_le_mono_nonneg_l; lia).
      assert (H3 : 0 <= twid * (j * B)) by nia.
      lia. }
    pose proof (middle_stage_cells Inverse k pSrc pCoef twid s1 i j b Hk Htab
                  Hi Hj Hb) as H.
    cbv zeta in H.
    rewrite twiddles_first_plain in H by lia.
    rewrite middle_butterfly_inverse_cells, read4_out_eq in H.
    apply octet_fields in H. cbn [xa ya xb yb xc yc xd yd] in H.
    destruct H as (Ha & Ha' & Hb0 & Hb' & Hc & Hc' & Hd & Hd').
    repeat split; assumption.
Qed.

(** The 64-point inverse transform has one middle stage. *)
Lemma middle_stages_inverse_witness :
  (1 <= 3 <= 15)%nat /\ table_outside 0 (4 ^ Z.of_nat 3) 200 1 /\
  let N := 4 ^ Z.of_nat 3 in
  let s1 := first_stage Inverse 0 N 200 1 zero_mem in
  middle_stages 16 middle_stage_body_inverse 0 N 200 (N / 4)
    (s1, Z.shiftr N 2, u32 (Z.shiftl 1 2)) =
  middle_stage middle_stage_body_inverse 0 N 200
    (s1, N / 4, u32 (Z.shiftl 1 2)).
Proof.
  split; [exact range_3|]. split; [exact table_outside_64|].
  destruct (middle_stages_inverse 3 0 200 1 zero_mem range_3
              table_outside_64) as (H & _).
  exact H.
Defined.

(** X3.  Last stage of the inverse engine, for a transform of length
    [N = 4^k]: the engine ends with the last stage; in the group [g] of
    eight consecutive cells it stores the sums and differences of the
    inverse direction,
      xa' = xa + xb + xc + xd,  xc' = xa - xb + xc - xd,
      xb' = xa - yb - xc + yd,  xd' = xa + yb - xc - yd
    and their imaginary counterparts, in the order a, c, b, d, with no
    shift and no twiddle factor; it leaves every cell outside the buffer
    alone. *)
Theorem last_stage_inverse_groups (k : nat) (pSrc : Z) (s : loop_state) :
  (1 <= k <= 15)%nat ->
  let N := 4 ^ Z.of_nat k in
  (forall pCoef twid m0,
     riscv_radix4_butterfly_inverse_q31 pSrc N pCoef twid m0 =
     last_stage Inverse pSrc N
       (fst (fst (middle_phase Inverse pSrc N pCoef twid
                    (first_stage Inverse pSrc N pCoef twid m0))))) /\
  (forall g, 0 <= g < N / 4 ->
     let m := ls_mem s in
     let m' := last_stage Inverse pSrc N s in
     let p := pSrc + 8 * g in
     let xa := m p in let ya := m (p + 1) in
     let xb := m (p + 2) in let yb := m (p + 3) in
     let xc := m (p + 4) in let yc := m (p + 5) in
     let xd := m (p + 6) in let yd := m (p + 7) in
     m' p = wrap32 (xa + xb + xc + xd) /\
     m' (p + 1) = wrap32 (ya + yb + yc + yd) /\
     m' (p + 2) = wrap32 (xa - xb + xc - xd) /\
     m' (p + 3) = wrap32 (ya - yb + yc - yd) /\
     m' (p + 4) = wrap32 (xa - yb - xc + yd) /\
     m' (p + 5) = wrap32 (ya + xb - yc - xd) /\
     m' (p + 6) = wrap32 (xa + yb - xc - yd) /\
     m' (p + 7) = wrap32 (ya - xb - yc + xd)) /\
  (forall a, ~ (pSrc <= a < pSrc + 2 * N) ->
     last_stage Inverse pSrc N s a = ls_mem s a).
Proof.
  intros Hk N.
  split; [|split].
  - intros pCoef twid m0. rewrite butterfly_inv_dir.
    apply radix4_butterfly_dir_phases.
  - intros g Hg. cbv zeta.
    pose proof (last_stage_cells Inverse k pSrc s g Hk Hg) as H.
    cbv zeta in H.
    rewrite last_butterfly_inverse_cells, read4_out_eq in H.
    replace (pSrc + 8 * g + 2 + 1) with (pSrc + 8 * g + 3) in H by lia.
    replace (pSrc + 8 * g + 4 + 1) with (pSrc + 8 * g + 5) in H by lia.
    replace (pSrc + 8 * g + 6 + 1) with (pSrc + 8 * g + 7) in H by lia.
    apply octet_fields in H. cbn [xa ya xb yb xc yc xd yd] in H.
    destruct H as (Ha & Ha' & Hb & Hb' & Hc & Hc' & Hd & Hd').
    repeat split; assumption.
  - intros a Ha. unfold N. rewrite (N_quarter k Hk).
    apply last_stage_writes;
      [apply pow4_nat_pos | apply (quarter_small k Hk) |].
    unfold outside. rewrite <- (N_quarter k Hk). exact Ha.
Qed.

(** The last stage of a 16-point inverse transform, first group. *)
Lemma last_stage_inverse_groups_witness :
  (1 <= 2 <= 15)%nat /\
  let s := mkLoop (memory_with (impulse 16)) 0 0 0 0 0 in
  last_stage Inverse 0 (4 ^ Z.of_nat 2) s 0 = 268435456.
Proof.
  split; [exact range_2|].
  destruct (last_stage_inverse_groups 2 0
              (mkLoop (memory_with (impulse 16)) 0 0 0 0 0) range_2)
    as (_ & H & _).
  destruct (H 0 ltac:(vm_compute; split; [discriminate|reflexivity]))
    as (H0 & _).
  change (0 + 8 * 0) with 0 in H0.
  cbv zeta. rewrite H0. vm_compute. reflexivity.
Defined.

(** ** The product computed by riscv_mat_mult_q31 *)

(** The sum of the [n] products of the scalars at [p1], [p1 + 1], ... by
    the scalars at [p2], [p2 + c], ...: a row of the first matrix by a
    column of the second. *)
Fixpoint mac_sum (m : mem) (p1 p2 c : Z) (n : nat) : Z :=
  match n with
  | O => 0
  | S n' => m p1 * m p2 + mac_sum m (p1 + 1) (p2 + c) c n'
  end.

(** The scalar that the function stores for the row [i] and the column [j]:
    the sum, kept modulo 2^64, shifted right by 31 bits, clipped and cast
    to [q31_t]. *)
Definition mat_entry (clip_q63_to_q31 : Z -> Z) (m : mem)
  (pA pB n c i j : Z) : Z :=
  wrap32 (clip_q63_to_q31
            (Z.shiftr
               (wrap64 (mac_sum m (pA + i * n) (pB + j) c (Z.to_nat n))) 31)).

Lemma wrap64_add_l a b : wrap64 (wrap64 a + b) = wrap64 (a + b).
Proof. unfold wrap64. Z.to_euclidean_division_equations. lia. Qed.

Lemma wrap64_idem a : wrap64 (wrap64 a) = wrap64 a.
Proof. unfold wrap64. Z.to_euclidean_division_equations. lia. Qed.

Lemma wrap64_small x : - 2 ^ 63 <= x < 2 ^ 63 -> wrap64 x = x.
Proof. intros H. unfold wrap64. rewrite Z.mod_small; lia. Qed.

Lemma mac_sum_ext m m' c : forall n p1 p2,
  (forall k, 0 <= k < Z.of_nat n ->
     m (p1 + k) = m' (p1 + k) /\ m (p2 + k * c) = m' (p2 + k * c)) ->
  mac_sum m p1 p2 c n = mac_sum m' p1 p2 c n.
Proof.
  induction n as [|n IH]; intros p1 p2 H; [reflexivity|].
  cbn [mac_sum].
  destruct (H 0 ltac:(lia)) as [H1 H2].
  rewrite Z.add_0_r in H1. rewrite Z.mul_0_l, Z.add_0_r in H2.
  rewrite H1, H2. f_equal. apply IH. intros k Hk.
  destruct (H (k + 1) ltac:(lia)) as [H3 H4].
  replace (p1 + 1 + k) with (p1 + (k + 1)) by ring.
  replace (p2 + c + k * c) with (p2 + (k + 1) * c) by ring.
  split; assumption.
Qed.

(** The multiply-accumulate loop adds the [n] products to the
    accumulator, modulo 2^64. *)
Lemma mac_loop_sum m c : forall (n fuel : nat) sum p1 p2,
  (n <= fuel)%nat -> Z.of_nat n < 2 ^ 16 -> wrap64 sum = sum ->
  mac_loop fuel m c (Z.of_nat n) (sum, p1, p2) =
  (wrap64 (sum + mac_sum m p1 p2 c n), p1 + Z.of_nat n, p2 + Z.of_nat n * c).
Proof.
  induction n as [|n IH]; intros fuel sum p1 p2 Hf Hn Hs.
  - replace (wrap64 (sum + mac_sum m p1 p2 c 0)) with sum
      by (cbn [mac_sum]; rewrite Z.add_0_r; symmetry; exact Hs).
    replace (p1 + Z.of_nat 0) with p1 by lia.
    replace (p2 + Z.of_nat 0 * c) with p2 by lia.
    destruct fuel; reflexivity.
  - destruct fuel as [|fuel]; [lia|].
    cbn [mac_loop mac_sum].
    destruct (Z.ltb_spec 0 (Z.of_nat (S n))) as [_|Hc]; [|lia].
    replace (u16 (Z.of_nat (S n) - 1)) with (Z.of_nat n)
      by (unfold u16; rewrite Z.mod_small; lia).
    rewrite IH; [|lia|lia|].
    + rewrite wrap64_add_l. f_equal; [f_equal|]; [f_equal; ring|lia|lia].
    + apply wrap64_idem.
Qed.

Lemma mac_loop_row m c n p1 p2 :
  0 <= n < 2 ^ 16 ->
  mac_loop (Z.to_nat n) m c n (0, p1, p2) =
  (wrap64 (mac_sum m p1 p2 c (Z.to_nat n)), p1 + n, p2 + n * c).
Proof.
  intros Hn.
  pose proof (mac_loop_sum m c (Z.to_nat n) (Z.to_nat n) 0 p1 p2
                ltac:(lia) ltac:(lia) eq_refl) as H.
  rewrite Z2Nat.id in H by lia. rewrite H. reflexivity.
Qed.

Section MatMult.

Variable clip : Z -> Z.
Variable m0 : mem.
Variable pA : Z.
Variable pB : Z.
Variable pD : Z.
Variable r : Z.
Variable n : Z.
Variable c : Z.
Hypothesis r_range : 1 <= r < 2 ^ 16.
Hypothesis c_range : 1 <= c < 2 ^ 16.
Hypothesis n_range : 0 <= n < 2 ^ 16.
Hypothesis A_apart :
  forall a, pD <= a < pD + r * c -> ~ (pA <= a < pA + r * n).
Hypothesis B_apart :
  forall a, pD <= a < pD + r * c -> ~ (pB <= a < pB + n * c).

(** The cells outside the destination are those of [m0]. *)
Definition inputs_kept (m : mem) : Prop :=
  forall a, ~ (pD <= a < pD + r * c) -> m a = m0 a.

Lemma row_sum_kept m rho j :
  inputs_kept m -> 0 <= rho < r -> 0 <= j < c ->
  mac_sum m (pA + rho * n) (pB + j) c (Z.to_nat n) =
  mac_sum m0 (pA + rho * n) (pB + j) c (Z.to_nat n).
Proof.
  intros Hm Hrho Hj. apply mac_sum_ext. intros k Hk.
  rewrite Z2Nat.id in Hk by lia.
  assert (H1 : rho * n + k < r * n) by nia.
  assert (H2 : j + k * c < n * c) by nia.
  assert (H3 : 0 <= rho * n) by nia.
  assert (H4 : 0 <= k * c) by nia.
  split; apply Hm; intros HD.
  - apply (A_apart _ HD). lia.
  - apply (B_apart _ HD). lia.
Qed.

Lemma column_loop_row rho :
  0 <= rho < r ->
  forall (rem fuel : nat) m,
    (1 <= rem <= fuel)%nat -> Z.of_nat rem <= c ->
    inputs_kept m ->
    let j0 := c - Z.of_nat rem in
    let px := pD + rho * c + j0 in
    exists m' px' p',
      column_loop fuel clip (pA + rho * n) pB n c (Z.of_nat rem)
        (m, px, pB + j0) = (m', px', p') /\
      (forall a, ~ (px <= a < px + Z.of_nat rem) -> m' a = m a) /\
      (forall t, 0 <= t < Z.of_nat rem ->
         m' (px + t) = mat_entry clip m0 pA pB n c rho (j0 + t)).
Proof.
  intros Hrho rem. induction rem as [|rem IH]; intros fuel m Hf Hc Hm j0 px;
    [lia|].
  destruct fuel as [|fuel]; [lia|].
  cbn [column_loop].
  rewrite mac_loop_row by exact n_range. cbv beta iota zeta.
  replace (u16 (Z.of_nat (S rem) - 1)) with (Z.of_nat rem)
    by (unfold u16; rewrite Z.mod_small; lia).
  assert (Hv : wrap32 (clip (Z.shiftr
                 (wrap64 (mac_sum m (pA + rho * n) (pB + j0) c (Z.to_nat n)))
                 31)) = mat_entry clip m0 pA pB n c rho j0).
  { unfold mat_entry. rewrite (row_sum_kept m rho j0 Hm Hrho) by (unfold j0; lia).
    reflexivity. }
  rewrite Hv.
  destruct rem as [|rem'].
  - cbn [Z.of_nat]. cbn [Z.ltb Z.compare].
    eexists _, _, _. split; [reflexivity|]. split.
    + intros a Ha. unfold store.
      destruct (Z.eqb_spec a px); [lia|reflexivity].
    + intros t Ht. replace t with 0 by lia.
      rewrite !Z.add_0_r. apply store_eq.
  - destruct (Z.ltb_spec 0 (Z.of_nat (S rem'))) as [_|Hlt]; [|lia].
    set (m1 := store m px (mat_entry clip m0 pA pB n c rho j0)).
    assert (Hm1 : inputs_kept m1).
    { intros a Ha. unfold m1, store.
      destruct (Z.eqb_spec a px) as [->|_]; [|apply Hm; exact Ha].
      exfalso. apply Ha. unfold px, j0.
      assert (rho * c + c <= r * c) by nia.
      assert (0 <= rho * c) by nia. lia. }
    destruct (IH fuel m1 ltac:(lia) ltac:(lia) Hm1) as (m' & px' & p' & E & Hout & Hin).
    cbv zeta in E.
    replace (pD + rho * c + (c - Z.of_nat (S rem'))) with (px + 1) in E, Hout, Hin
      by (unfold px, j0; lia).
    replace (pB + (c - Z.of_nat (S rem'))) with (pB + (c - Z.of_nat (S rem')))
      in E by reflexivity.
    rewrite E.
    exists m', px', p'. split; [reflexivity|]. split.
    + intros a Ha. rewrite Hout by lia. unfold m1, store.
      destruct (Z.eqb_spec a px); [lia|reflexivity].
    + intros t Ht. destruct (Z.eq_dec t 0) as [->|Hne].
      * rewrite !Z.add_0_r. rewrite Hout by lia. unfold m1. apply store_eq.
      * specialize (Hin (t - 1) ltac:(lia)).
        replace (px + 1 + (t - 1)) with (px + t) in Hin by lia.
        rewrite Hin. f_equal. unfold j0. lia.
Qed.

Hypothesis offsets : (r - 1) * c < 2 ^ 16.

Lemma row_loop_rows :
  forall (rem fuel : nat) m,
    (1 <= rem <= fuel)%nat -> Z.of_nat rem <= r ->
    inputs_kept m ->
    let rho := r - Z.of_nat rem in
    exists m' i' p',
      row_loop fuel clip pB pD n c (Z.of_nat rem)
        (m, rho * c, pA + rho * n) = (m', i', p') /\
      (forall a, ~ (pD + rho * c <= a < pD + r * c) -> m' a = m a) /\
      (forall i j, rho <= i < r -> 0 <= j < c ->
         m' (pD + i * c + j) = mat_entry clip m0 pA pB n c i j).
Proof.
  intros rem. induction rem as [|rem IH]; intros fuel m Hf Hr Hm rho; [lia|].
  destruct fuel as [|fuel]; [lia|].
  assert (Hrho : 0 <= rho < r) by (unfold rho; lia).
  cbn [row_loop].
  destruct (Z.eqb_spec c 0) as [Hc0|_]; [lia|].
  destruct (column_loop_row rho Hrho (Z.to_nat c) (Z.to_nat c) m
              ltac:(lia) ltac:(lia) Hm) as (m1 & px1 & p1 & E & Hout & Hin).
  cbv zeta in E, Hout, Hin.
  rewrite Z2Nat.id in E, Hout, Hin by lia.
  replace (c - c) with 0 in E, Hout, Hin by lia.
  replace (pD + rho * c + 0) with (pD + rho * c) in E, Hout, Hin by lia.
  replace (pB + 0) with pB in E by lia.
  rewrite E. cbv beta iota zeta.
  replace (u16 (Z.of_nat (S rem) - 1)) with (Z.of_nat rem)
    by (unfold u16; rewrite Z.mod_small; lia).
  assert (Hm1 : inputs_kept m1).
  { intros a Ha. rewrite Hout; [apply Hm; exact Ha|].
    intros Hx. apply Ha.
    assert (rho * c + c <= r * c) by nia.
    assert (0 <= rho * c) by nia. lia. }
  destruct rem as [|rem'].
  - cbn [Z.of_nat]. cbn [Z.ltb Z.compare].
    eexists _, _, _. split; [reflexivity|]. split.
    + intros a Ha. apply Hout. intros Hx. apply Ha.
      assert (rho = r - 1) by (unfold rho; lia). subst rho. nia.
    + intros i j Hi Hj.
      assert (i = rho) by (unfold rho in *; lia). subst i.
      apply (Hin j). lia.
  - destruct (Z.ltb_spec 0 (Z.of_nat (S rem'))) as [_|Hlt]; [|lia].
    assert (Hi1 : u16 (rho * c + c) = (r - Z.of_nat (S rem')) * c).
    { unfold u16. rewrite Z.mod_small.
      - unfold rho. lia.
      - assert (rho * c + c <= (r - 1) * c) by (unfold rho; nia).
        assert (0 <= rho * c) by nia. lia. }
    rewrite Hi1.
    replace (pA + rho * n + n) with (pA + (r - Z.of_nat (S rem')) * n)
      by (unfold rho; lia).
    destruct (IH fuel m1 ltac:(lia) ltac:(lia) Hm1)
      as (m' & i' & p' & E' & Hout' & Hin').
    cbv zeta in E', Hout', Hin'.
    rewrite E'.
    exists m', i', p'. split; [reflexivity|]. split.
    + intros a Ha. rewrite Hout'.
      * apply Hout. intros Hx. apply Ha.
        assert (rho * c + c <= r * c) by nia. lia.
      * intros Hx. apply Ha.
        assert ((r - Z.of_nat (S rem')) * c = rho * c + c) by (unfold rho; lia).
        lia.
    + intros i j Hi Hj.
      destruct (Z.eq_dec i rho) as [->|Hne].
      * rewrite Hout'.
        -- apply (Hin j). lia.
        -- assert ((r - Z.of_nat (S rem')) * c = rho * c + c)
             by (unfold rho; lia).
           lia.
      * apply Hin'; [|exact Hj]. unfold rho in *. lia.
Qed.

End MatMult.

(** X4.  The product computed by [riscv_mat_mult_q31].  Let the first
    matrix have [r >= 1] rows and [n >= 0] columns and the second [c >= 1]
    columns, all below 2^16, with [(r - 1) c < 2^16] (the offset of an
    output row is kept in a [uint16_t]), and let the [r c] cells of the
    destination overlap neither the [r n] cells of the first matrix nor the
    [n c] cells of the second.  When the size check is compiled out or the
    dimensions agree, the function returns [RISCV_MATH_SUCCESS]; the cell
    [i c + j] of the destination holds, for the row [i] of the first matrix
    and the column [j] of the second, the sum of the [n] products kept
    modulo 2^64, shifted right by 31 bits, clipped and cast to [q31_t]
    (for [n = 0] the clipped zero); and every cell outside the destination
    is unchanged. *)
Theorem mat_mult_product (RISCV_MATH_MATRIX_CHECK : bool)
  (clip_q63_to_q31 : Z -> Z)
  (pSrcA pSrcB pDst : riscv_matrix_instance_q31) (m : mem) :
  let r := numRows pSrcA in
  let n := numCols pSrcA in
  let c := numCols pSrcB in
  1 <= r < 2 ^ 16 -> 1 <= c < 2 ^ 16 -> 0 <= n < 2 ^ 16 ->
  (r - 1) * c < 2 ^ 16 ->
  RISCV_MATH_MATRIX_CHECK = false \/
  (numCols pSrcA = numRows pSrcB /\ numRows pSrcA = numRows pDst /\
   numCols pSrcB = numCols pDst) ->
  (forall a, pData pDst <= a < pData pDst + r * c ->
             ~ (pData pSrcA <= a < pData pSrcA + r * n)) ->
  (forall a, pData pDst <= a < pData pDst + r * c ->
             ~ (pData pSrcB <= a < pData pSrcB + n * c)) ->
  let result :=
    riscv_mat_mult_q31 RISCV_MATH_MATRIX_CHECK clip_q63_to_q31
      pSrcA pSrcB pDst m in
  fst result = RISCV_MATH_SUCCESS /\
  (forall i j, 0 <= i < r -> 0 <= j < c ->
     snd result (pData pDst + i * c + j) =
     wrap32 (clip_q63_to_q31
               (Z.shiftr
                  (wrap64 (mac_sum m (pData pSrcA + i * n)
                             (pData pSrcB + j) c (Z.to_nat n))) 31))) /\
  (forall a, ~ (pData pDst <= a < pData pDst + r * c) -> snd result a = m a).
Proof.
  intros r n c Hr Hc Hn Hoff Hchk HA HB result.
  assert (Hcond : RISCV_MATH_MATRIX_CHECK &&
            (negb (numCols pSrcA =? numRows pSrcB) ||
             negb (numRows pSrcA =? numRows pDst) ||
             negb (numCols pSrcB =? numCols pDst)) = false).
  { destruct Hchk as [->|(H1 & H2 & H3)]; [reflexivity|].
    rewrite H1, H2, H3, !Z.eqb_refl. cbn [negb orb].
    apply andb_false_r. }
  subst result. unfold riscv_mat_mult_q31. cbv zeta. rewrite Hcond.
  fold r n c.
  destruct (Z.eqb_spec r 0) as [Hr0|_]; [lia|].
  assert (Hkept : inputs_kept m (pData pDst) r c m) by (intros a _; reflexivity).
  destruct (row_loop_rows clip_q63_to_q31 m (pData pSrcA) (pData pSrcB)
              (pData pDst) r n c Hr Hc Hn HA HB Hoff
              (Z.to_nat r) (Z.to_nat r) m ltac:(lia) ltac:(lia) Hkept)
    as (m' & i' & p' & E & Hout & Hin).
  cbv zeta in E, Hout, Hin.
  rewrite Z2Nat.id in E, Hout, Hin by lia.
  replace (r - r) with 0 in E, Hout, Hin by lia.
  replace (0 * c) with 0 in E, Hout by reflexivity.
  replace (0 * n) with 0 in E by reflexivity.
  replace (pData pSrcA + 0) with (pData pSrcA) in E by lia.
  rewrite E. cbn [fst snd].
  split; [reflexivity|]. split.
  - intros i j Hi Hj. rewrite Hin by lia. reflexivity.
  - intros a Ha. apply Hout.
    replace (pData pDst + 0) with (pData pDst) by lia. exact Ha.
Qed.

(** Two 2 x 2 matrices at the addresses 0 and 10 and a destination at 20:
    one half times the matrix with the rows (1/2, 1/4) and (0, 1/2). *)
Definition matrices_2x2 : mem :=
  write_list
    (write_list zero_mem 0 [1073741824; 0; 0; 1073741824])
    10 [1073741824; 536870912; 0; 1073741824].

Lemma mat_mult_product_witness :
  let A := mkMatrix 2 2 0 in
  let B := mkMatrix 2 2 10 in
  let D := mkMatrix 2 2 20 in
  let clip := fun x => Z.max (- 2 ^ 31) (Z.min (2 ^ 31 - 1) x) in
  1 <= numRows A < 2 ^ 16 /\ 1 <= numCols B < 2 ^ 16 /\
  0 <= numCols A < 2 ^ 16 /\ (numRows A - 1) * numCols B < 2 ^ 16 /\
  snd (riscv_mat_mult_q31 true clip A B D matrices_2x2) (20 + 0 * 2 + 1) =
  268435456.
Proof.
  cbv zeta.
  assert (H1 : 1 <= 2 < 2 ^ 16) by lia.
  assert (H0 : 0 <= 2 < 2 ^ 16) by lia.
  assert (H2 : (2 - 1) * 2 < 2 ^ 16) by lia.
  split; [exact H1|]. split; [exact H1|]. split; [exact H0|].
  split; [exact H2|].
  destruct (mat_mult_product true
              (fun x => Z.max (- 2 ^ 31) (Z.min (2 ^ 31 - 1) x))
              (mkMatrix 2 2 0) (mkMatrix 2 2 10) (mkMatrix 2 2 20)
              matrices_2x2 H1 H1 H0 H2
              (or_intror (conj eq_refl (conj eq_refl eq_refl))))
    as (_ & H & _).
  - cbn [pData numRows numCols]. intros a Ha. lia.
  - cbn [pData numRows numCols]. intros a Ha. lia.
  - cbn [pData numRows numCols] in H.
    rewrite (H 0 1) by lia. vm_compute. reflexivity.
Defined.

(** ** The 16-point engines and the discrete Fourier transform *)

(** The cosine and the sine of the angle [2 pi e / 16] in Q31, for [e]
    from 0 to 15: the pair [e] of [twiddleCoef_16_q31] for the first
    twelve, the opposite of the pair [e - 8] for the last four. *)
Definition twiddle16 (e : Z) : Z * Z :=
  if e <? 12
  then (nth (Z.to_nat (2 * e)) twiddleCoef_16_q31 0,
        nth (Z.to_nat (2 * e + 1)) twiddleCoef_16_q31 0)
  else (- nth (Z.to_nat (2 * (e - 8))) twiddleCoef_16_q31 0,
        - nth (Z.to_nat (2 * (e - 8) + 1)) twiddleCoef_16_q31 0).

(** The coefficients of the 32 scalars [xr 0, xi 0, xr 1, ...] of a buffer
    in the real and in the imaginary part of
      sum over n of (xr n + i xi n) (cos - i sgn sin) (2 pi n k / 16),
    the bin [k] of the discrete Fourier transform ([sgn = 1], forward) or
    of the inverse sum ([sgn = -1]), scaled by 2^31. *)
Definition dft16_re (d : direction) (k : Z) : list Z :=
  flat_map (fun n => let w := twiddle16 ((Z.of_nat n * k) mod 16) in
                     [fst w; sgn d * snd w]) (seq 0 16).

Definition dft16_im (d : direction) (k : Z) : list Z :=
  flat_map (fun n => let w := twiddle16 ((Z.of_nat n * k) mod 16) in
                     [- (sgn d * snd w); fst w]) (seq 0 16).

(** [Dt v] is within [E Dt] of the linear form [T]. *)
Definition form_close (M E Dt : Z) (T : list Z) (a : aval) : bool :=
  M * norm1 (ladd (lscale Dt (lin a)) (lscale (- den a) T)) +
  Dt * Z.max (Z.abs (lo a)) (Z.abs (hi a)) <=? E * (den a * Dt).

Definition dft16_check (M tol : Z) (nominal : list Z) (d : direction) (E : Z)
  : bool :=
  match aeval_list M tol nominal (map unit_aval (seq 0 32))
          (sym_first_stage16 d) with
  | None => false
  | Some a1 =>
  match aeval_list M tol nominal a1 (sym_last_stage16 d) with
  | None => false
  | Some a2 =>
      forallb
        (fun k =>
           let p := reverse_bits 4 (Z.of_nat k) 0 in
           form_close M E (2 ^ 35) (dft16_re d (Z.of_nat k))
             (nth (Z.to_nat (2 * p)) a2 bottom) &&
           form_close M E (2 ^ 35) (dft16_im d (Z.of_nat k))
             (nth (Z.to_nat (2 * p + 1)) a2 bottom))
        (seq 0 16)
  end end.

Section Dft16.

Variable M : Z.
Variable tol : Z.
Variable nominal : list Z.
Variable x : list Z.
Variable tab : list Z.
Hypothesis M_nonneg : 0 <= M.
Hypothesis x_bound : Forall (fun v => - M <= v <= M) x.
Hypothesis x_length : length x = 32%nat.
Hypothesis tab_close : forall k, Z.abs (nth k tab 0 - nth k nominal 0) <= tol.

Lemma form_close_sound E Dt T a v :
  0 < Dt -> gamma x a v -> form_close M E Dt T a = true ->
  Z.abs (Dt * v - dot T x) <= E * Dt.
Proof.
  intros HDt [Hd He] H. unfold form_close in H. apply Z.leb_le in H.
  set (l := ladd (lscale Dt (lin a)) (lscale (- den a) T)) in *.
  pose proof (dot_bound M x M_nonneg x_bound l) as Hl.
  assert (El : dot l x = Dt * dot (lin a) x - den a * dot T x).
  { unfold l. rewrite dot_ladd, !dot_lscale. ring. }
  set (w := Dt * v - dot T x).
  assert (Hw : den a * w = dot l x + Dt * (den a * v - dot (lin a) x)).
  { rewrite El. unfold w. ring. }
  assert (Hb : Z.abs (Dt * (den a * v - dot (lin a) x))
               <= Dt * Z.max (Z.abs (lo a)) (Z.abs (hi a))).
  { rewrite Z.abs_mul, (Z.abs_eq Dt) by lia.
    apply Z.mul_le_mono_nonneg_l; lia. }
  assert (Ha : Z.abs (den a * w) <= den a * (E * Dt)) by lia.
  rewrite Z.abs_mul, (Z.abs_eq (den a)) in Ha by lia.
  apply (Z.mul_le_mono_pos_l _ _ (den a) Hd). exact Ha.
Qed.

Lemma dft16_close d E :
  dft16_check M tol nominal d E = true ->
  forall k, (k < 16)%nat ->
    let p := reverse_bits 4 (Z.of_nat k) 0 in
    let out := transform16 d x tab in
    Z.abs (2 ^ 35 * nth (Z.to_nat (2 * p)) out 0
           - dot (dft16_re d (Z.of_nat k)) x) <= E * 2 ^ 35 /\
    Z.abs (2 ^ 35 * nth (Z.to_nat (2 * p + 1)) out 0
           - dot (dft16_im d (Z.of_nat k)) x) <= E * 2 ^ 35.
Proof.
  unfold dft16_check.
  destruct (aeval_list M tol nominal (map unit_aval (seq 0 32))
              (sym_first_stage16 d)) as [a1|] eqn:H1; [|discriminate].
  destruct (aeval_list M tol nominal a1 (sym_last_stage16 d))
    as [a2|] eqn:H2; [|discriminate].
  intros H k Hk. rewrite forallb_forall in H.
  specialize (H k ltac:(apply in_seq; lia)). cbv zeta in H.
  apply andb_true_iff in H. destruct H as [Hre Him].
  set (p := reverse_bits 4 (Z.of_nat k) 0) in *.
  set (out := transform16 d x tab).
  assert (G : Forall2 (gamma x) a2 out).
  { unfold out.
    eapply (gamma_transform16 M tol nominal x tab M_nonneg x_bound tab_close d);
      [|exact H1|exact H2].
    apply gamma_init. exact x_length. }
  split.
  - apply (form_close_sound E (2 ^ 35) _ (nth (Z.to_nat (2 * p)) a2 bottom));
      [lia| |exact Hre].
    apply gamma_nth. exact G.
  - apply (form_close_sound E (2 ^ 35) _ (nth (Z.to_nat (2 * p + 1)) a2 bottom));
      [lia| |exact Him].
    apply gamma_nth. exact G.
Qed.

End Dft16.

Lemma dft16_check_forward :
  dft16_check (2 ^ 30) 1 twiddleCoef_16_q31 Forward 27 = true.
Proof. vm_compute. reflexivity. Qed.

Lemma dft16_check_inverse :
  dft16_check (2 ^ 30) 1 twiddleCoef_16_q31 Inverse 27 = true.
Proof. vm_compute. reflexivity. Qed.

Lemma reverse_bits_4_range k :
  0 <= k < 16 -> 0 <= reverse_bits 4 k 0 < 16.
Proof.
  intros Hk.
  assert (E : k = 0 \/ k = 1 \/ k = 2 \/ k = 3 \/ k = 4 \/ k = 5 \/ k = 6 \/
              k = 7 \/ k = 8 \/ k = 9 \/ k = 10 \/ k = 11 \/ k = 12 \/
              k = 13 \/ k = 14 \/ k = 15) by lia.
  clear Hk.
  repeat (destruct E as [E|E]; [subst k; vm_compute; split; congruence|]).
  subst k; vm_compute; split; congruence.
Qed.

Lemma engine_16_is_dft d (pSrc pCoef : Z) (m : mem) :
  dft16_check (2 ^ 30) 1 twiddleCoef_16_q31 d 27 = true ->
  table_outside pSrc 16 pCoef 1 ->
  table_within_1 m pCoef ->
  (forall c, 0 <= c < 32 -> - 2 ^ 30 <= m (pSrc + c) <= 2 ^ 30) ->
  forall k, 0 <= k < 16 ->
    let p := reverse_bits 4 k 0 in
    let m' := radix4_butterfly_dir d pSrc 16 pCoef 1 m in
    let x := read_list m pSrc 32 in
    Z.abs (2 ^ 35 * m' (pSrc + 2 * p) - dot (dft16_re d k) x)
      <= 27 * 2 ^ 35 /\
    Z.abs (2 ^ 35 * m' (pSrc + (2 * p + 1)) - dot (dft16_im d k) x)
      <= 27 * 2 ^ 35.
Proof.
  intros Hchk Htab Hnear Hbuf k Hk p m' x.
  pose proof (reverse_bits_4_range k Hk) as Hp. fold p in Hp.
  unfold m'.
  rewrite <- (nth_read_list (radix4_butterfly_dir d pSrc 16 pCoef 1 m)
                pSrc 32 (2 * p)) by (change (Z.of_nat 32) with 32; lia).
  rewrite <- (nth_read_list (radix4_butterfly_dir d pSrc 16 pCoef 1 m)
                pSrc 32 (2 * p + 1)) by (change (Z.of_nat 32) with 32; lia).
  rewrite (radix4_butterfly_16 d pSrc pCoef m Htab).
  assert (Hx : Forall (fun v => - 2 ^ 30 <= v <= 2 ^ 30) x).
  { apply Forall_read_list. intros c Hc. apply Hbuf.
    change (Z.of_nat 32) with 32 in Hc. exact Hc. }
  pose proof (dft16_close (2 ^ 30) 1 twiddleCoef_16_q31 x
                (read_list m pCoef 24) ltac:(lia) Hx
                (read_list_length m pSrc 32)
                (table_within_1_nth m pCoef Hnear) d 27 Hchk
                (Z.to_nat k) ltac:(lia)) as H.
  cbv zeta in H. rewrite Z2Nat.id in H by lia. exact H.
Qed.

(** ** The dispatcher on malformed descriptors *)

















(** X5.  The 16-point forward engine computes the discrete Fourier
    transform divided by 16.  For a table whose scalars are within one unit
    of [twiddleCoef_16_q31] and lies outside the buffer, and a buffer whose
    32 scalars have a magnitude of at most [2^30]: the bin [k] is left at
    the complex position whose index has the 4 bits of [k] reversed, and
    its real and imaginary parts are within 27 units of the real and
    imaginary parts of
      (1/16) sum over n of x(n) (cos - i sin) (2 pi n k / 16),
    the cosines and sines being those of the table divided by 2^31 (so
    that the sum is scaled by 2^31 and the whole by 2^35). *)
Theorem forward_16_is_dft (pSrc pCoef : Z) (m : mem) :
  table_outside pSrc 16 pCoef 1 ->
  table_within_1 m pCoef ->
  (forall c, 0 <= c < 32 -> - 2 ^ 30 <= m (pSrc + c) <= 2 ^ 30) ->
  forall k, 0 <= k < 16 ->
    let p := reverse_bits 4 k 0 in
    let m' := riscv_radix4_butterfly_q31 pSrc 16 pCoef 1 m in
    let x := read_list m pSrc 32 in
    Z.abs (2 ^ 35 * m' (pSrc + 2 * p) - dot (dft16_re Forward k) x)
      <= 27 * 2 ^ 35 /\
    Z.abs (2 ^ 35 * m' (pSrc + (2 * p + 1)) - dot (dft16_im Forward k) x)
      <= 27 * 2 ^ 35.
Proof.
  intros Htab Hnear Hbuf k Hk. rewrite butterfly_fwd_dir.
  apply engine_16_is_dft; try assumption. exact dft16_check_forward.
Qed.

(** X6.  The 16-point inverse engine computes the inverse sum divided by
    16: under the hypotheses of the forward engine, the sample [k] is left
    at the complex position whose index has the 4 bits of [k] reversed,
    and its real and imaginary parts are within 27 units of those of
      (1/16) sum over n of x(n) (cos + i sin) (2 pi n k / 16). *)
Theorem inverse_16_is_inverse_dft (pSrc pCoef : Z) (m : mem) :
  table_outside pSrc 16 pCoef 1 ->
  table_within_1 m pCoef ->
  (forall c, 0 <= c < 32 -> - 2 ^ 30 <= m (pSrc + c) <= 2 ^ 30) ->
  forall k, 0 <= k < 16 ->
    let p := reverse_bits 4 k 0 in
    let m' := riscv_radix4_butterfly_inverse_q31 pSrc 16 pCoef 1 m in
    let x := read_list m pSrc 32 in
    Z.abs (2 ^ 35 * m' (pSrc + 2 * p) - dot (dft16_re Inverse k) x)
      <= 27 * 2 ^ 35 /\
    Z.abs (2 ^ 35 * m' (pSrc + (2 * p + 1)) - dot (dft16_im Inverse k) x)
      <= 27 * 2 ^ 35.
Proof.
  intros Htab Hnear Hbuf k Hk. rewrite butterfly_inv_dir.
  apply engine_16_is_dft; try assumption. exact dft16_check_inverse.
Qed.

Lemma shifted_impulse_table :
  table_within_1 (memory_with shifted_impulse) 100.
Proof. apply table_exact_within_1. vm_compute. reflexivity. Defined.

Lemma shifted_impulse_bounded :
  forall c, 0 <= c < 32 ->
    - 2 ^ 30 <= memory_with shifted_impulse (0 + c) <= 2 ^ 30.
Proof.
  apply (buffer_within _ 0 shifted_impulse); vm_compute; reflexivity.
Defined.

(** The bin 1 of the impulse at the sample 1: the real part is
    [2^24 cos (2 pi / 16)], about 15500311. *)
Lemma forward_16_is_dft_witness :
  table_outside 0 16 100 1 /\
  table_within_1 (memory_with shifted_impulse) 100 /\
  (forall c, 0 <= c < 32 ->
     - 2 ^ 30 <= memory_with shifted_impulse (0 + c) <= 2 ^ 30) /\
  Z.abs (2 ^ 35 * riscv_radix4_butterfly_q31 0 16 100 1
                    (memory_with shifted_impulse) (0 + 2 * 8)
         - 1984016188 * 2 ^ 28) <= 27 * 2 ^ 35.
Proof.
  split; [exact table_outside_16_at_100|].
  split; [exact shifted_impulse_table|].
  split; [exact shifted_impulse_bounded|].
  exact (proj1 (forward_16_is_dft 0 100 (memory_with shifted_impulse)
                  table_outside_16_at_100 shifted_impulse_table
                  shifted_impulse_bounded 1 ltac:(lia))).
Defined.

Lemma inverse_16_is_inverse_dft_witness :
  table_outside 0 16 100 1 /\
  table_within_1 (memory_with shifted_impulse) 100 /\
  (forall c, 0 <= c < 32 ->
     - 2 ^ 30 <= memory_with shifted_impulse (0 + c) <= 2 ^ 30) /\
  Z.abs (2 ^ 35 * riscv_radix4_butterfly_inverse_q31 0 16 100 1
                    (memory_with shifted_impulse) (0 + (2 * 8 + 1))
         - 821806413 * 2 ^ 28) <= 27 * 2 ^ 35.
Proof.
  split; [exact table_outside_16_at_100|].
  split; [exact shifted_impulse_table|].
  split; [exact shifted_impulse_bounded|].
  exact (proj2 (inverse_16_is_inverse_dft 0 100 (memory_with shifted_impulse)
                  table_outside_16_at_100 shifted_impulse_table
                  shifted_impulse_bounded 1 ltac:(lia))).
Defined.

(** ** The inverse transform followed by the forward transform *)

(** An engine, the reordering, a second engine, the reordering. *)
Definition two_passes16 (d1 d2 : direction) (x tab : list Z) : list Z :=
  reorder16 0 (transform16 d2 (reorder16 0 (transform16 d1 x tab)) tab).

Definition atwo_passes16 (M tol : Z) (nominal : list Z) (d1 d2 : direction)
  : option (list aval) :=
  match aeval_list M tol nominal (map unit_aval (seq 0 32))
          (sym_first_stage16 d1) with
  | None => None
  | Some a1 =>
  match aeval_list M tol nominal a1 (sym_last_stage16 d1) with
  | None => None
  | Some a2 =>
  match aeval_list M tol nominal (reorder16 bottom a2)
          (sym_first_stage16 d2) with
  | None => None
  | Some a3 =>
  match aeval_list M tol nominal a3 (sym_last_stage16 d2) with
  | None => None
  | Some a4 => Some (reorder16 bottom a4)
  end end end end.

Definition two_passes_check (M tol : Z) (nominal : list Z)
  (d1 d2 : direction) (T : Z) : bool :=
  match atwo_passes16 M tol nominal d1 d2 with
  | Some l => forallb (fun j => close_enough M T j (nth j l bottom)) (seq 0 32)
  | None => false
  end.

Lemma two_passes16_close (M tol : Z) (nominal x tab : list Z) d1 d2 T :
  0 <= M ->
  Forall (fun v => - M <= v <= M) x ->
  length x = 32%nat ->
  (forall k, Z.abs (nth k tab 0 - nth k nominal 0) <= tol) ->
  two_passes_check M tol nominal d1 d2 T = true ->
  forall j, (j < 32)%nat ->
    Z.abs (16 * nth j (two_passes16 d1 d2 x tab) 0 - nth j x 0) <= T.
Proof.
  intros HM Hx Hlen Htab. unfold two_passes_check, atwo_passes16.
  destruct (aeval_list M tol nominal (map unit_aval (seq 0 32))
              (sym_first_stage16 d1)) as [a1|] eqn:H1; [|discriminate].
  destruct (aeval_list M tol nominal a1 (sym_last_stage16 d1))
    as [a2|] eqn:H2; [|discriminate].
  destruct (aeval_list M tol nominal (reorder16 bottom a2)
              (sym_first_stage16 d2)) as [a3|] eqn:H3; [|discriminate].
  destruct (aeval_list M tol nominal a3 (sym_last_stage16 d2))
    as [a4|] eqn:H4; [|discriminate].
  intros H j Hj. rewrite forallb_forall in H.
  apply (close_enough_sound M x HM Hx Hlen T j
           (nth j (reorder16 bottom a4) bottom)).
  - apply gamma_nth. unfold two_passes16.
    apply gamma_reorder16.
    eapply (gamma_transform16 M tol nominal x tab HM Hx Htab d2);
      [|exact H3|exact H4].
    apply gamma_reorder16.
    eapply (gamma_transform16 M tol nominal x tab HM Hx Htab d1);
      [|exact H1|exact H2].
    apply gamma_init. exact Hlen.
  - apply H. apply in_seq. lia.
Qed.

Lemma two_passes_check_inverse_forward :
  two_passes_check (2 ^ 30) 1 twiddleCoef_16_q31 Inverse Forward 768 = true.
Proof. vm_compute. reflexivity. Qed.

(** Inverse engine, bit-reversal pass, forward engine, bit-reversal pass,
    on a 16-point buffer. *)
Definition inverse_then_forward_16 (pSrc pCoef : Z) (m : mem) : mem :=
  bit_reversal_pass 4 pSrc
    (riscv_radix4_butterfly_q31 pSrc 16 pCoef 1
       (bit_reversal_pass 4 pSrc
          (riscv_radix4_butterfly_inverse_q31 pSrc 16 pCoef 1 m))).

Lemma inverse_then_forward_16_list pSrc pCoef m :
  table_outside pSrc 16 pCoef 1 ->
  read_list (inverse_then_forward_16 pSrc pCoef m) pSrc 32 =
  two_passes16 Inverse Forward (read_list m pSrc 32) (read_list m pCoef 24).
Proof.
  intros Htab. unfold inverse_then_forward_16, two_passes16.
  rewrite butterfly_fwd_dir, butterfly_inv_dir.
  rewrite bit_reversal_pass_16.
  rewrite (radix4_butterfly_16 Forward) by exact Htab.
  rewrite engine_16_table by exact Htab.
  rewrite bit_reversal_pass_16.
  rewrite (radix4_butterfly_16 Inverse) by exact Htab.
  reflexivity.
Qed.

(** X7.  The round trip in the other order.  For the length 16, a table
    whose scalars are within one unit of [twiddleCoef_16_q31] and lies
    outside the buffer, and a buffer whose 32 scalars have a magnitude of
    at most [2^30]: the inverse engine, the bit-reversal pass, the forward
    engine and the bit-reversal pass again leave in every cell of the
    buffer a value [v] such that [16 v] is within 768 units of the original
    scalar. *)
Theorem inverse_then_forward_16_within_768 (pSrc pCoef : Z) (m : mem) :
  table_outside pSrc 16 pCoef 1 ->
  table_within_1 m pCoef ->
  (forall c, 0 <= c < 32 -> - 2 ^ 30 <= m (pSrc + c) <= 2 ^ 30) ->
  forall c, 0 <= c < 32 ->
    Z.abs (16 * inverse_then_forward_16 pSrc pCoef m (pSrc + c)
           - m (pSrc + c)) <= 768.
Proof.
  intros Htab Hnear Hbuf c Hc.
  rewrite <- (nth_read_list (inverse_then_forward_16 pSrc pCoef m) pSrc 32 c)
    by (change (Z.of_nat 32) with 32; exact Hc).
  rewrite <- (nth_read_list m pSrc 32 c)
    by (change (Z.of_nat 32) with 32; exact Hc).
  rewrite inverse_then_forward_16_list by exact Htab.
  apply (two_passes16_close (2 ^ 30) 1 twiddleCoef_16_q31).
  - lia.
  - apply Forall_read_list. intros c' Hc'. apply Hbuf.
    change (Z.of_nat 32) with 32 in Hc'. exact Hc'.
  - apply read_list_length.
  - apply table_within_1_nth. exact Hnear.
  - exact two_passes_check_inverse_forward.
  - lia.
Qed.

Lemma inverse_then_forward_16_within_768_witness :
  table_outside 0 16 100 1 /\
  table_within_1 (memory_with shifted_impulse) 100 /\
  (forall c, 0 <= c < 32 ->
     - 2 ^ 30 <= memory_with shifted_impulse (0 + c) <= 2 ^ 30) /\
  Z.abs (16 * inverse_then_forward_16 0 100 (memory_with shifted_impulse)
                (0 + 2)
         - memory_with shifted_impulse (0 + 2)) <= 768.
Proof.
  split; [exact table_outside_16_at_100|].
  split; [exact shifted_impulse_table|].
  split; [exact shifted_impulse_bounded|].
  apply (inverse_then_forward_16_within_768 0 100
           (memory_with shifted_impulse) table_outside_16_at_100
           shifted_impulse_table shifted_impulse_bounded 2).
  lia.
Defined.

(** ** The length 4 *)

(** The results of a butterfly as the next stage reads them from the same
    four cursors: the first stage stores [xc'] at the second cursor and
    [xb'] at the third. *)
Definition stored_order (o : octet) : octet :=
  mkOctet (xa o) (ya o) (xc o) (yc o) (xb o) (yb o) (xd o) (yd o).

Lemma range_1 : (1 <= 1 <= 15)%nat.
Proof. split; repeat constructor. Defined.

Lemma radix4_butterfly_4 d pSrc pCoef twid m :
  table_outside pSrc 4 pCoef twid ->
  read4_out (radix4_butterfly_dir d pSrc 4 pCoef twid m)
    pSrc (pSrc + 2) (pSrc + 4) (pSrc + 6) =
  last_butterfly d
    (stored_order
       (first_butterfly d (read4 m pSrc (pSrc + 2) (pSrc + 4) (pSrc + 6))
          (mkTwiddles (m pCoef) (m (pCoef + 1)) (m pCoef) (m (pCoef + 1))
                      (m pCoef) (m (pCoef + 1))))).
Proof.
  intros Htab.
  pose proof (radix4_butterfly_dir_stages d pSrc pCoef twid 1 range_1 m) as H.
  change (4 ^ Z.of_nat 1) with 4 in H. rewrite H.
  unfold stage_state. cbn [Nat.sub iterate fst].
  pose proof (last_stage_cells d 1 pSrc
                (first_stage d pSrc 4 pCoef twid m) 0 range_1
                ltac:(change (4 ^ Z.of_nat 1 / 4) with 1; lia)) as HL.
  change (4 ^ Z.of_nat 1) with 4 in HL. cbv zeta in HL.
  replace (pSrc + 8 * 0) with pSrc in HL by lia.
  rewrite HL. f_equal.
  pose proof (first_stage_cells d 1 pSrc pCoef twid m 0 range_1 Htab
                ltac:(change (4 ^ Z.of_nat 1 / 4) with 1; lia)) as HF.
  change (4 ^ Z.of_nat 1) with 4 in HF. change (4 / 4) with 1 in HF.
  cbv zeta in HF.
  replace (pSrc + 2 * 0) with pSrc in HF by lia.
  replace (pSrc + 2 * 1) with (pSrc + 2) in HF by lia.
  replace (pSrc + 2 + 2 * 1) with (pSrc + 4) in HF by lia.
  replace (pSrc + 4 + 2 * 1) with (pSrc + 6) in HF by lia.
  rewrite twiddles_first_plain in HF by lia.
  replace (pCoef + 2 * (0 * twid)) with pCoef in HF by lia.
  replace (pCoef + 4 * (0 * twid)) with pCoef in HF by lia.
  replace (pCoef + 6 * (0 * twid)) with pCoef in HF by lia.
  rewrite <- HF. reflexivity.
Qed.

(** X8.  The length 4.  For [fftLen = 4] and a table outside the buffer,
    each engine runs its first stage and then its last stage on the same
    four complex samples: the eight cells of the buffer hold the sums and
    differences of the last stage applied to the results of the first-stage
    butterfly (inputs shifted right by 4 bits, the three twiddle products
    all taken with the first pair of the table), read in the order in which
    the first stage stored them.  No middle stage runs. *)
Theorem length_4_two_butterflies (pSrc pCoef twid : Z) (m : mem) :
  table_outside pSrc 4 pCoef twid ->
  let i := read4 m pSrc (pSrc + 2) (pSrc + 4) (pSrc + 6) in
  let w := mkTwiddles (m pCoef) (m (pCoef + 1)) (m pCoef) (m (pCoef + 1))
                      (m pCoef) (m (pCoef + 1)) in
  read4_out (riscv_radix4_butterfly_q31 pSrc 4 pCoef twid m)
    pSrc (pSrc + 2) (pSrc + 4) (pSrc + 6) =
  last_butterfly Forward (stored_order (first_butterfly Forward i w)) /\
  read4_out (riscv_radix4_butterfly_inverse_q31 pSrc 4 pCoef twid m)
    pSrc (pSrc + 2) (pSrc + 4) (pSrc + 6) =
  last_butterfly Inverse (stored_order (first_butterfly Inverse i w)) /\
  (forall d s,
     middle_phase d pSrc 4 pCoef twid s =
     (s, Z.shiftr 4 2, u32 (Z.shiftl twid 2))).
Proof.
  intros Htab i w. split; [|split].
  - rewrite butterfly_fwd_dir. apply radix4_butterfly_4. exact Htab.
  - rewrite butterfly_inv_dir. apply radix4_butterfly_4. exact Htab.
  - intros d s. reflexivity.
Qed.

Lemma table_outside_4 : table_outside 0 4 100 1.
Proof.
  unfold table_outside. change (4 / 4) with 1.
  split; [lia|]. split; [lia|]. intros i Hi. lia.
Defined.

(** The impulse on 4 points: the engine leaves almost all of it in the
    first bin, where a 4-point transform has four equal bins. *)
Lemma length_4_two_butterflies_witness :
  table_outside 0 4 100 1 /\
  read_list (riscv_radix4_butterfly_q31 0 4 100 1 (memory_with (impulse 4)))
    0 8 = [67108858; 0; 2; 0; 2; 0; 2; 0] /\
  xa (read4_out (riscv_radix4_butterfly_q31 0 4 100 1
                   (memory_with (impulse 4))) 0 (0 + 2) (0 + 4) (0 + 6)) =
  67108858.
Proof.
  split; [exact table_outside_4|].
  split; [vm_compute; reflexivity|].
  rewrite (proj1 (length_4_two_butterflies 0 100 1 (memory_with (impulse 4))
                    table_outside_4)).
  vm_compute. reflexivity.
Defined.

(** ** Every cell of a stage

    A stage with the quarter size [n2] and [B] sub-blocks runs the
    butterfly [j] of the sub-block [b] on the cursors
    [pSrc + 2 j + 8 n2 b + 2 n2 q], [q = 0 .. 3]; every cell of the buffer
    is one of the two cells of exactly one such cursor. *)

Lemma butterfly_cover n2 B c :
  0 < n2 -> 0 < B -> 0 <= c < 8 * n2 * B ->
  exists b j q e,
    0 <= b < B /\ 0 <= j < n2 /\ 0 <= q < 4 /\ 0 <= e < 2 /\
    c = 2 * j + 8 * n2 * b + 2 * n2 * q + e.
Proof.
  intros Hn HB Hc.
  pose proof (Z.div_mod c (8 * n2) ltac:(lia)) as H1.
  pose proof (Z.mod_pos_bound c (8 * n2) ltac:(lia)) as H2.
  set (b := c / (8 * n2)) in *. set (r := c mod (8 * n2)) in *.
  pose proof (Z.div_mod r (2 * n2) ltac:(lia)) as H3.
  pose proof (Z.mod_pos_bound r (2 * n2) ltac:(lia)) as H4.
  set (q := r / (2 * n2)) in *. set (r2 := r mod (2 * n2)) in *.
  pose proof (Z.div_mod r2 2 ltac:(lia)) as H5.
  pose proof (Z.mod_pos_bound r2 2 ltac:(lia)) as H6.
  set (j := r2 / 2) in *. set (e := r2 mod 2) in *.
  exists b, j, q, e.
  assert (Hb : 0 <= b < B).
  { split.
    - apply Z.div_pos; lia.
    - apply Z.div_lt_upper_bound; lia. }
  assert (Hq : 0 <= q < 4).
  { split.
    - apply Z.div_pos; lia.
    - apply Z.div_lt_upper_bound; lia. }
  assert (Hj : 0 <= j < n2).
  { split.
    - apply Z.div_pos; lia.
    - apply Z.div_lt_upper_bound; lia. }
  repeat split; try lia.
Qed.

(** The field of a result that the cell [e] of the cursor [q] receives:
    [xc'] goes to the second cursor and [xb'] to the third. *)
Definition stored_at (q e : Z) (o : octet) : Z :=
  if q =? 0 then (if e =? 0 then xa o else ya o)
  else if q =? 1 then (if e =? 0 then xc o else yc o)
  else if q =? 2 then (if e =? 0 then xb o else yb o)
  else (if e =? 0 then xd o else yd o).

Lemma cells_of_butterfly m p0 n2 o q e :
  read4_out m p0 (p0 + 2 * n2) (p0 + 2 * n2 + 2 * n2)
    (p0 + 2 * n2 + 2 * n2 + 2 * n2) = o ->
  0 <= q < 4 -> 0 <= e < 2 ->
  m (p0 + 2 * n2 * q + e) = stored_at q e o.
Proof.
  intros H Hq He. apply octet_fields in H. rewrite read4_out_eq in H.
  cbn [xa ya xb yb xc yc xd yd] in H.
  destruct H as (A & A' & B0 & B' & C & C' & D & D').
  assert (Eq : q = 0 \/ q = 1 \/ q = 2 \/ q = 3) by lia.
  assert (Ee : e = 0 \/ e = 1) by lia.
  unfold stored_at.
  destruct Eq as [-> | [-> | [-> | ->]]]; destruct Ee as [-> | ->];
    cbn [Z.eqb Pos.eqb];
    match goal with
    | H : _ = ?r |- _ = ?r => rewrite <- H; f_equal; lia
    end.
Qed.

(** A buffer of [N] complex samples of which the first [len] are [(v, w)]
    and the others zero. *)
Definition leading_constant (pSrc N len v w : Z) (m : mem) : Prop :=
  forall s e, 0 <= s < N -> 0 <= e < 2 ->
    m (pSrc + 2 * s + e) =
    if s <? len then (if e =? 0 then v else w) else 0.

Definition constant_octet (v w : Z) : octet := mkOctet v w v w v w v w.

Definition leading_octet (v w : Z) : octet := mkOctet v w 0 0 0 0 0 0.

(** The operands of the butterfly [j] of the sub-block [b] when the first
    sub-block is constant and the others are zero. *)
Lemma read4_leading pSrc n2 B v w m j b :
  0 < n2 -> 0 < B ->
  leading_constant pSrc (4 * n2 * B) (4 * n2) v w m ->
  0 <= j < n2 -> 0 <= b < B ->
  let p0 := pSrc + 2 * j + 8 * n2 * b in
  read4 m p0 (p0 + 2 * n2) (p0 + 2 * n2 + 2 * n2)
    (p0 + 2 * n2 + 2 * n2 + 2 * n2) =
  if b =? 0 then constant_octet v w else constant_octet 0 0.
Proof.
  intros Hn HB Hm Hj Hb p0.
  assert (Hcell : forall q e, 0 <= q < 4 -> 0 <= e < 2 ->
            m (p0 + 2 * n2 * q + e) =
            if b =? 0 then (if e =? 0 then v else w) else 0).
  { intros q e Hq He.
    replace (p0 + 2 * n2 * q + e)
      with (pSrc + 2 * (j + 4 * n2 * b + n2 * q) + e) by (unfold p0; ring).
    assert (H0 : 0 <= j + 4 * n2 * b + n2 * q) by nia.
    assert (H1 : j + 4 * n2 * b + n2 * q < 4 * n2 * B) by nia.
    rewrite (Hm _ e (conj H0 H1) He).
    destruct (Z.eqb_spec b 0) as [-> | Hne].
    - destruct (Z.ltb_spec (j + 4 * n2 * 0 + n2 * q) (4 * n2)); [reflexivity|nia].
    - destruct (Z.ltb_spec (j + 4 * n2 * b + n2 * q) (4 * n2)); [nia|].
      reflexivity. }
  unfold read4.
  pose proof (Hcell 0 0 ltac:(lia) ltac:(lia)) as A0.
  pose proof (Hcell 0 1 ltac:(lia) ltac:(lia)) as A1.
  pose proof (Hcell 1 0 ltac:(lia) ltac:(lia)) as B0.
  pose proof (Hcell 1 1 ltac:(lia) ltac:(lia)) as B1.
  pose proof (Hcell 2 0 ltac:(lia) ltac:(lia)) as C0.
  pose proof (Hcell 2 1 ltac:(lia) ltac:(lia)) as C1.
  pose proof (Hcell 3 0 ltac:(lia) ltac:(lia)) as D0.
  pose proof (Hcell 3 1 ltac:(lia) ltac:(lia)) as D1.
  replace (p0 + 2 * n2 * 0 + 0) with p0 in A0 by lia.
  replace (p0 + 2 * n2 * 0 + 1) with (p0 + 1) in A1 by lia.
  replace (p0 + 2 * n2 * 1 + 0) with (p0 + 2 * n2) in B0 by lia.
  replace (p0 + 2 * n2 * 1 + 1) with (p0 + 2 * n2 + 1) in B1 by lia.
  replace (p0 + 2 * n2 * 2 + 0) with (p0 + 2 * n2 + 2 * n2) in C0 by lia.
  replace (p0 + 2 * n2 * 2 + 1) with (p0 + 2 * n2 + 2 * n2 + 1) in C1 by lia.
  replace (p0 + 2 * n2 * 3 + 0) with (p0 + 2 * n2 + 2 * n2 + 2 * n2) in D0
    by lia.
  replace (p0 + 2 * n2 * 3 + 1) with (p0 + 2 * n2 + 2 * n2 + 2 * n2 + 1) in D1
    by lia.
  rewrite A0, A1, B0, B1, C0, C1, D0, D1.
  destruct (b =? 0); reflexivity.
Qed.

(** A stage whose butterflies turn a constant octet into a leading one and
    the zero octet into itself leaves a buffer whose first quarter-block is
    constant and whose other samples are zero. *)
Lemma leading_step pSrc n2 B v w after :
  0 < n2 -> 0 < B ->
  (forall j b, 0 <= j < n2 -> 0 <= b < B ->
     let p0 := pSrc + 2 * j + 8 * n2 * b in
     read4_out after p0 (p0 + 2 * n2) (p0 + 2 * n2 + 2 * n2)
       (p0 + 2 * n2 + 2 * n2 + 2 * n2) =
     if b =? 0 then leading_octet v w else leading_octet 0 0) ->
  leading_constant pSrc (4 * n2 * B) n2 v w after.
Proof.
  intros Hn HB Hcells s e Hs He.
  destruct (butterfly_cover n2 B (2 * s + e) Hn HB ltac:(lia))
    as (b & j & q & e' & Hb & Hj & Hq & He' & Hc).
  assert (e' = e) by lia. subst e'.
  assert (Hsq : s = j + 4 * n2 * b + n2 * q) by lia.
  specialize (Hcells j b Hj Hb). cbv zeta in Hcells.
  pose proof (cells_of_butterfly after _ n2 _ q e Hcells Hq He) as H.
  replace (pSrc + 2 * s + e)
    with (pSrc + 2 * j + 8 * n2 * b + 2 * n2 * q + e) by lia.
  rewrite H. unfold stored_at, leading_octet.
  destruct (Z.ltb_spec s n2) as [Hlt|Hge].
  - assert (b = 0) by nia. subst b.
    assert (q = 0) by nia. subst q.
    cbn [Z.eqb xa ya]. reflexivity.
  - destruct (Z.eqb_spec b 0) as [-> | Hb0].
    + assert (q <> 0) by nia.
      destruct (Z.eqb_spec q 0) as [?|_]; [contradiction|].
      destruct (q =? 1); destruct (q =? 2); destruct (e =? 0); reflexivity.
    + destruct (q =? 0); destruct (q =? 1); destruct (q =? 2);
        destruct (e =? 0); reflexivity.
Qed.

Lemma twiddle_mul_zero d co si : twiddle_mul d (0, 0) co si = (0, 0).
Proof. destruct d; reflexivity. Qed.

Lemma sums_constant d v w :
  sum_a (constant_octet v w) = (wrap32 (4 * v), wrap32 (4 * w)) /\
  sum_b d (constant_octet v w) = (0, 0) /\
  sum_c (constant_octet v w) = (0, 0) /\
  sum_d d (constant_octet v w) = (0, 0).
Proof.
  unfold sum_a, sum_b, sum_c, sum_d, constant_octet.
  cbn [xa ya xb yb xc yc xd yd].
  repeat split; f_equal;
    match goal with
    | |- wrap32 ?x = wrap32 _ => f_equal; ring
    | |- wrap32 ?x = 0 => replace x with 0 by ring; reflexivity
    end.
Qed.

Lemma first_butterfly_constant d a b w :
  q31_range a -> q31_range b ->
  first_butterfly d (constant_octet a b) w =
  leading_octet (4 * asr32 a 4) (4 * asr32 b 4).
Proof.
  intros Ha Hb. unfold first_butterfly.
  change (guard4 (constant_octet a b))
    with (constant_octet (asr32 a 4) (asr32 b 4)).
  destruct (sums_constant d (asr32 a 4) (asr32 b 4)) as (Sa & Sb & Sc & Sd).
  rewrite Sa, Sb, Sc, Sd, !twiddle_mul_zero.
  pose proof (fits_asr4 a Ha) as Fa. pose proof (fits_asr4 b Hb) as Fb.
  unfold fits in Fa, Fb. change (2 ^ Z.of_nat 27) with 134217728 in Fa, Fb.
  rewrite !wrap32_small by (unfold q31_range; lia).
  reflexivity.
Qed.

Lemma middle_butterfly_constant d v w tw :
  - 2 ^ 29 <= v < 2 ^ 29 -> - 2 ^ 29 <= w < 2 ^ 29 ->
  middle_butterfly d (constant_octet v w) tw = leading_octet v w.
Proof.
  intros Hv Hw. unfold middle_butterfly.
  destruct (sums_constant d v w) as (Sa & Sb & Sc & Sd).
  rewrite Sa, Sb, Sc, Sd, !twiddle_mul_zero.
  rewrite !wrap32_small by (unfold q31_range; lia).
  unfold pair_map, assemble, leading_octet. cbn [fst snd].
  rewrite !asr32_div by lia. change (2 ^ 2) with 4.
  rewrite !(Z.mul_comm 4), !Z.div_mul by lia.
  reflexivity.
Qed.

Lemma last_butterfly_constant d v w :
  - 2 ^ 29 <= v < 2 ^ 29 -> - 2 ^ 29 <= w < 2 ^ 29 ->
  last_butterfly d (constant_octet v w) = leading_octet (4 * v) (4 * w).
Proof.
  intros Hv Hw. unfold last_butterfly.
  destruct (sums_constant d v w) as (Sa & Sb & Sc & Sd).
  rewrite Sa, Sb, Sc, Sd.
  rewrite !wrap32_small by (unfold q31_range; lia).
  reflexivity.
Qed.

Lemma leading_zero_first d w :
  first_butterfly d (constant_octet 0 0) w = leading_octet 0 0.
Proof.
  rewrite first_butterfly_constant by (unfold q31_range; lia). reflexivity.
Qed.

Lemma leading_zero_middle d tw :
  middle_butterfly d (constant_octet 0 0) tw = leading_octet 0 0.
Proof. apply middle_butterfly_constant; lia. Qed.

Lemma leading_zero_last d :
  last_butterfly d (constant_octet 0 0) = leading_octet 0 0.
Proof. rewrite last_butterfly_constant by lia. reflexivity. Qed.

Lemma pow4_split (k i : nat) :
  (i + 2 <= k)%nat ->
  4 ^ Z.of_nat k = 4 * 4 ^ Z.of_nat (k - 2 - i) * 4 ^ Z.of_nat (i + 1).
Proof.
  intros H.
  replace (4 * 4 ^ Z.of_nat (k - 2 - i)) with (4 ^ Z.of_nat (S (k - 2 - i)))
    by (rewrite Nat2Z.inj_succ, Z.pow_succ_r; lia).
  rewrite <- Z.pow_add_r by lia. f_equal. lia.
Qed.

Lemma leading_constant_eq pSrc N N' len len' v w m :
  N = N' -> len = len' ->
  leading_constant pSrc N len v w m -> leading_constant pSrc N' len' v w m.
Proof. intros -> ->. auto. Qed.

Lemma first_stage_leading d (k : nat) pSrc pCoef twid m a b :
  (1 <= k <= 15)%nat ->
  table_outside pSrc (4 ^ Z.of_nat k) pCoef twid ->
  q31_range a -> q31_range b ->
  let N := 4 ^ Z.of_nat k in
  leading_constant pSrc N N a b m ->
  leading_constant pSrc N (4 ^ Z.of_nat (k - 1))
    (4 * asr32 a 4) (4 * asr32 b 4)
    (ls_mem (first_stage d pSrc N pCoef twid m)).
Proof.
  intros Hk Htab Ha Hb N Hm.
  pose proof (quarter_div k Hk) as Hq. rewrite pow4_nat in Hq.
  pose proof (pow4_pos (k - 1)) as Hpos.
  set (Q := 4 ^ Z.of_nat (k - 1)) in *.
  assert (HN : N = 4 * Q * 1).
  { unfold N. pose proof (N_quarter k Hk) as H. cbv zeta in H.
    rewrite pow4_nat in H. fold Q in H. lia. }
  apply (leading_constant_eq pSrc (4 * Q * 1) N Q Q); [lia|reflexivity|].
  apply (leading_constant_eq pSrc N (4 * Q * 1) N (4 * Q)) in Hm; [|lia|lia].
  apply leading_step; [lia|lia|].
  intros j b0 Hj Hb0. assert (b0 = 0) by lia. subst b0. cbv zeta.
  replace (pSrc + 2 * j + 8 * Q * 0) with (pSrc + 2 * j) by lia.
  pose proof (first_stage_cells d k pSrc pCoef twid m j Hk Htab
                ltac:(rewrite Hq; lia)) as H.
  cbv zeta in H. rewrite Hq in H. fold N in H. rewrite H.
  pose proof (read4_leading pSrc Q 1 a b m j 0 ltac:(lia) ltac:(lia) Hm
                Hj ltac:(lia)) as R.
  cbv zeta in R.
  replace (pSrc + 2 * j + 8 * Q * 0) with (pSrc + 2 * j) in R by lia.
  rewrite R. cbn [Z.eqb].
  apply first_butterfly_constant; assumption.
Qed.

Lemma middle_stage_leading d (k : nat) pSrc pCoef twid s (i : nat) v w :
  (1 <= k <= 15)%nat ->
  table_outside pSrc (4 ^ Z.of_nat k) pCoef twid ->
  (i + 2 < k)%nat ->
  - 2 ^ 29 <= v < 2 ^ 29 -> - 2 ^ 29 <= w < 2 ^ 29 ->
  let N := 4 ^ Z.of_nat k in
  leading_constant pSrc N (4 ^ Z.of_nat (k - 1 - i)) v w
    (ls_mem (fst (fst (stage_state d pSrc pCoef twid k s i)))) ->
  leading_constant pSrc N (4 ^ Z.of_nat (k - 2 - i)) v w
    (ls_mem (fst (fst (stage_state d pSrc pCoef twid k s (S i))))).
Proof.
  intros Hk Htab Hi Hv Hw N Hm.
  pose proof (pow4_pos (k - 2 - i)) as Hn2.
  pose proof (pow4_pos (i + 1)) as HB.
  assert (Hn1 : 4 ^ Z.of_nat (k - 1 - i) = 4 * 4 ^ Z.of_nat (k - 2 - i)).
  { replace (k - 1 - i)%nat with (S (k - 2 - i)) by lia. apply pow4_succ. }
  set (n2 := 4 ^ Z.of_nat (k - 2 - i)) in *.
  set (B := 4 ^ Z.of_nat (i + 1)) in *.
  assert (HN : N = 4 * n2 * B) by (unfold N, n2, B; apply pow4_split; lia).
  apply (leading_constant_eq pSrc (4 * n2 * B) N n2 n2); [lia|reflexivity|].
  apply (leading_constant_eq pSrc N (4 * n2 * B) _ (4 * n2)) in Hm;
    [|lia|exact Hn1].
  apply leading_step; [lia|lia|].
  intros j b Hj Hb. cbv zeta.
  pose proof (middle_stage_cells d k pSrc pCoef twid s i j b Hk Htab Hi
                Hj Hb) as H.
  cbv zeta in H. fold n2 in H. rewrite Hn1 in H.
  replace (pSrc + 2 * j + 2 * (4 * n2) * b)
    with (pSrc + 2 * j + 8 * n2 * b) in H by ring.
  rewrite H.
  pose proof (read4_leading pSrc n2 B v w _ j b ltac:(lia) ltac:(lia) Hm
                Hj Hb) as R.
  cbv zeta in R. rewrite R.
  destruct (b =? 0).
  - apply middle_butterfly_constant; assumption.
  - apply leading_zero_middle.
Qed.

Lemma last_stage_leading d (k : nat) pSrc s v w :
  (1 <= k <= 15)%nat ->
  - 2 ^ 29 <= v < 2 ^ 29 -> - 2 ^ 29 <= w < 2 ^ 29 ->
  let N := 4 ^ Z.of_nat k in
  leading_constant pSrc N 4 v w (ls_mem s) ->
  leading_constant pSrc N 1 (4 * v) (4 * w) (last_stage d pSrc N s).
Proof.
  intros Hk Hv Hw N Hm.
  pose proof (quarter_div k Hk) as Hq. rewrite pow4_nat in Hq.
  pose proof (pow4_pos (k - 1)) as Hpos.
  set (Q := 4 ^ Z.of_nat (k - 1)) in *.
  assert (HN : N = 4 * 1 * Q).
  { unfold N. pose proof (N_quarter k Hk) as H. cbv zeta in H.
    rewrite pow4_nat in H. fold Q in H. lia. }
  apply (leading_constant_eq pSrc (4 * 1 * Q) N 1 1); [lia|reflexivity|].
  apply (leading_constant_eq pSrc N (4 * 1 * Q) 4 (4 * 1)) in Hm; [|lia|lia].
  apply leading_step; [lia|lia|].
  intros j g Hj Hg. assert (j = 0) by lia. subst j. cbv zeta.
  pose proof (last_stage_cells d k pSrc s g Hk ltac:(rewrite Hq; lia)) as H.
  cbv zeta in H. fold N in H.
  replace (pSrc + 2 * 0 + 8 * 1 * g) with (pSrc + 8 * g) by lia.
  replace (pSrc + 8 * g + 2 * 1) with (pSrc + 8 * g + 2) by lia.
  replace (pSrc + 8 * g + 2 + 2 * 1) with (pSrc + 8 * g + 4) by lia.
  replace (pSrc + 8 * g + 4 + 2 * 1) with (pSrc + 8 * g + 6) by lia.
  rewrite H.
  pose proof (read4_leading pSrc 1 Q v w (ls_mem s) 0 g ltac:(lia) ltac:(lia)
                Hm ltac:(lia) Hg) as R.
  cbv zeta in R.
  replace (pSrc + 2 * 0 + 8 * 1 * g) with (pSrc + 8 * g) in R by lia.
  replace (pSrc + 8 * g + 2 * 1) with (pSrc + 8 * g + 2) in R by lia.
  replace (pSrc + 8 * g + 2 + 2 * 1) with (pSrc + 8 * g + 4) in R by lia.
  replace (pSrc + 8 * g + 4 + 2 * 1) with (pSrc + 8 * g + 6) in R by lia.
  rewrite R.
  destruct (g =? 0).
  - apply last_butterfly_constant; assumption.
  - apply leading_zero_last.
Qed.

Lemma engine_constant d (k : nat) pSrc pCoef twid m a b :
  (2 <= k <= 15)%nat ->
  table_outside pSrc (4 ^ Z.of_nat k) pCoef twid ->
  q31_range a -> q31_range b ->
  let N := 4 ^ Z.of_nat k in
  leading_constant pSrc N N a b m ->
  leading_constant pSrc N 1 (16 * asr32 a 4) (16 * asr32 b 4)
    (radix4_butterfly_dir d pSrc N pCoef twid m).
Proof.
  intros Hk Htab Ha Hb N Hm.
  assert (Hk1 : (1 <= k <= 15)%nat) by lia.
  unfold N. rewrite (radix4_butterfly_dir_stages d pSrc pCoef twid k Hk1 m).
  fold N.
  set (s1 := first_stage d pSrc N pCoef twid m).
  set (v := 4 * asr32 a 4). set (w := 4 * asr32 b 4).
  pose proof (fits_asr4 a Ha) as Fa. pose proof (fits_asr4 b Hb) as Fb.
  unfold fits in Fa, Fb. change (2 ^ Z.of_nat 27) with 134217728 in Fa, Fb.
  assert (Hv : - 2 ^ 29 <= v < 2 ^ 29).
  { unfold v. unfold q31_range in Ha. rewrite asr32_div in * by lia.
    change (2 ^ 4) with 16 in *.
    assert (a / 16 < 134217728) by (apply Z.div_lt_upper_bound; lia).
    lia. }
  assert (Hw : - 2 ^ 29 <= w < 2 ^ 29).
  { unfold w. unfold q31_range in Hb. rewrite asr32_div in * by lia.
    change (2 ^ 4) with 16 in *.
    assert (b / 16 < 134217728) by (apply Z.div_lt_upper_bound; lia).
    lia. }
  assert (Hstages : forall i : nat, (i + 2 <= k)%nat ->
            leading_constant pSrc N (4 ^ Z.of_nat (k - 1 - i)) v w
              (ls_mem (fst (fst (stage_state d pSrc pCoef twid k s1 i))))).
  { induction i as [|i IH]; intros Hi.
    - unfold stage_state. cbn [iterate fst]. rewrite Nat.sub_0_r.
      apply (first_stage_leading d k pSrc pCoef twid m a b Hk1 Htab Ha Hb).
      exact Hm.
    - replace (k - 1 - S i)%nat with (k - 2 - i)%nat by lia.
      apply (middle_stage_leading d k pSrc pCoef twid s1 i v w Hk1 Htab);
        try assumption; try lia.
      apply IH. lia. }
  specialize (Hstages (k - 2)%nat ltac:(lia)).
  replace (k - 1 - (k - 2))%nat with 1%nat in Hstages by lia.
  change (4 ^ Z.of_nat 1) with 4 in Hstages.
  pose proof (last_stage_leading d k pSrc _ v w Hk1 Hv Hw Hstages) as H.
  cbv zeta in H. fold N in H.
  replace (16 * asr32 a 4) with (4 * v) by (unfold v; ring).
  replace (16 * asr32 b 4) with (4 * w) by (unfold w; ring).
  exact H.
Qed.

(** X9.  A constant buffer.  For a transform of length [N = 4^k],
    [k >= 2], whose table lies outside the buffer, and a buffer whose [N]
    complex samples are all equal to [(a, b)]: each engine leaves
    [(16 (a >> 4), 16 (b >> 4))] in the first complex cell and zero in
    every other cell of the buffer, exactly and whatever the table holds. *)
Theorem constant_buffer_single_bin
  (k : nat) (pSrc pCoef twid : Z) (m : mem) (a b : Z) :
  (2 <= k <= 15)%nat ->
  let N := 4 ^ Z.of_nat k in
  table_outside pSrc N pCoef twid ->
  q31_range a -> q31_range b ->
  (forall s, 0 <= s < N ->
     m (pSrc + 2 * s) = a /\ m (pSrc + 2 * s + 1) = b) ->
  let single := fun m' : mem =>
    m' pSrc = 16 * asr32 a 4 /\ m' (pSrc + 1) = 16 * asr32 b 4 /\
    forall c, 2 <= c < 2 * N -> m' (pSrc + c) = 0 in
  single (riscv_radix4_butterfly_q31 pSrc N pCoef twid m) /\
  single (riscv_radix4_butterfly_inverse_q31 pSrc N pCoef twid m).
Proof.
  intros Hk N Htab Ha Hb Hm single.
  assert (Hlead : leading_constant pSrc N N a b m).
  { intros s e Hs He. destruct (Z.ltb_spec s N) as [_|?]; [|lia].
    destruct (Hm s Hs) as [H0 H1].
    assert (E : e = 0 \/ e = 1) by lia.
    destruct E as [-> | ->]; cbn [Z.eqb]; [rewrite Z.add_0_r|]; assumption. }
  assert (Hpos : 16 <= N).
  { unfold N. change 16 with (4 ^ 2).
    apply Z.pow_le_mono_r; lia. }
  assert (Hd : forall d,
            single (radix4_butterfly_dir d pSrc N pCoef twid m)).
  { intros d.
    pose proof (engine_constant d k pSrc pCoef twid m a b Hk Htab Ha Hb Hlead)
      as H.
    cbv zeta in H. fold N in H. unfold single.
    split; [|split].
    - specialize (H 0 0 ltac:(lia) ltac:(lia)).
      replace (pSrc + 2 * 0 + 0) with pSrc in H by lia. exact H.
    - specialize (H 0 1 ltac:(lia) ltac:(lia)).
      replace (pSrc + 2 * 0 + 1) with (pSrc + 1) in H by lia. exact H.
    - intros c Hc.
      pose proof (Z.div_mod c 2 ltac:(lia)) as Hdm.
      pose proof (Z.mod_pos_bound c 2 ltac:(lia)) as Hr.
      specialize (H (c / 2) (c mod 2) ltac:(lia) Hr).
      replace (pSrc + 2 * (c / 2) + c mod 2) with (pSrc + c) in H by lia.
      rewrite H.
      destruct (Z.ltb_spec (c / 2) 1); [lia|reflexivity]. }
  split.
  - rewrite butterfly_fwd_dir. apply Hd.
  - rewrite butterfly_inv_dir. apply Hd.
Qed.

(** Sixteen samples equal to [(1000, -2000)]. *)
Definition constant_buffer_16 : list Z :=
  flat_map (fun _ => [1000; -2000]) (seq 0 16).

Lemma range_2_up : (2 <= 2 <= 15)%nat.
Proof. split; repeat constructor. Defined.

Lemma constant_buffer_16_samples :
  forall s, 0 <= s < 4 ^ Z.of_nat 2 ->
    memory_with constant_buffer_16 (0 + 2 * s) = 1000 /\
    memory_with constant_buffer_16 (0 + 2 * s + 1) = -2000.
Proof.
  intros s Hs. change (4 ^ Z.of_nat 2) with 16 in Hs.
  assert (E : s = 0 \/ s = 1 \/ s = 2 \/ s = 3 \/ s = 4 \/ s = 5 \/ s = 6 \/
              s = 7 \/ s = 8 \/ s = 9 \/ s = 10 \/ s = 11 \/ s = 12 \/
              s = 13 \/ s = 14 \/ s = 15) by lia.
  clear Hs.
  repeat (destruct E as [E|E]; [subst s; split; vm_compute; reflexivity|]).
  subst s; split; vm_compute; reflexivity.
Defined.

Lemma q31_1000 : q31_range 1000.
Proof. unfold q31_range. lia. Defined.

Lemma q31_minus_2000 : q31_range (-2000).
Proof. unfold q31_range. lia. Defined.

Lemma constant_buffer_single_bin_witness :
  (2 <= 2 <= 15)%nat /\ table_outside 0 (4 ^ Z.of_nat 2) 100 1 /\
  q31_range 1000 /\ q31_range (-2000) /\
  riscv_radix4_butterfly_q31 0 (4 ^ Z.of_nat 2) 100 1
    (memory_with constant_buffer_16) 0 = 992 /\
  riscv_radix4_butterfly_q31 0 (4 ^ Z.of_nat 2) 100 1
    (memory_with constant_buffer_16) (0 + 1) = -2000.
Proof.
  split; [exact range_2_up|]. split; [exact table_outside_16|].
  split; [exact q31_1000|]. split; [exact q31_minus_2000|].
  destruct (constant_buffer_single_bin 2 0 100 1
              (memory_with constant_buffer_16) 1000 (-2000)
              range_2_up table_outside_16 q31_1000 q31_minus_2000
              constant_buffer_16_samples) as ((H0 & H1 & _) & _).
  split; [exact H0|exact H1].
Defined.

(** ** What the engines read

    Two memories that hold the same samples in the buffer and the same
    scalars in the table give the same buffer, stage by stage. *)
Definition same_buffer (pSrc N : Z) (m m' : mem) : Prop :=
  forall s e, 0 <= s < N -> 0 <= e < 2 ->
    m (pSrc + 2 * s + e) = m' (pSrc + 2 * s + e).

Definition same_table (pCoef n : Z) (m m' : mem) : Prop :=
  forall i, 0 <= i < n -> m (pCoef + i) = m' (pCoef + i).

Lemma same_buffer_eq pSrc N N' m m' :
  N = N' -> same_buffer pSrc N m m' -> same_buffer pSrc N' m m'.
Proof. intros ->. auto. Qed.

Lemma read4_same pSrc n2 B m m' j b :
  0 < n2 -> 0 < B ->
  same_buffer pSrc (4 * n2 * B) m m' ->
  0 <= j < n2 -> 0 <= b < B ->
  let p0 := pSrc + 2 * j + 8 * n2 * b in
  read4 m p0 (p0 + 2 * n2) (p0 + 2 * n2 + 2 * n2)
    (p0 + 2 * n2 + 2 * n2 + 2 * n2) =
  read4 m' p0 (p0 + 2 * n2) (p0 + 2 * n2 + 2 * n2)
    (p0 + 2 * n2 + 2 * n2 + 2 * n2).
Proof.
  intros Hn HB Hm Hj Hb p0.
  assert (Hcell : forall q e, 0 <= q < 4 -> 0 <= e < 2 ->
            m (p0 + 2 * n2 * q + e) = m' (p0 + 2 * n2 * q + e)).
  { intros q e Hq He.
    replace (p0 + 2 * n2 * q + e)
      with (pSrc + 2 * (j + 4 * n2 * b + n2 * q) + e) by (unfold p0; ring).
    apply Hm; [nia|lia]. }
  unfold read4.
  pose proof (Hcell 0 0 ltac:(lia) ltac:(lia)) as A0.
  pose proof (Hcell 0 1 ltac:(lia) ltac:(lia)) as A1.
  pose proof (Hcell 1 0 ltac:(lia) ltac:(lia)) as B0.
  pose proof (Hcell 1 1 ltac:(lia) ltac:(lia)) as B1.
  pose proof (Hcell 2 0 ltac:(lia) ltac:(lia)) as C0.
  pose proof (Hcell 2 1 ltac:(lia) ltac:(lia)) as C1.
  pose proof (Hcell 3 0 ltac:(lia) ltac:(lia)) as D0.
  pose proof (Hcell 3 1 ltac:(lia) ltac:(lia)) as D1.
  replace (p0 + 2 * n2 * 0 + 0) with p0 in A0 by lia.
  replace (p0 + 2 * n2 * 0 + 1) with (p0 + 1) in A1 by lia.
  replace (p0 + 2 * n2 * 1 + 0) with (p0 + 2 * n2) in B0 by lia.
  replace (p0 + 2 * n2 * 1 + 1) with (p0 + 2 * n2 + 1) in B1 by lia.
  replace (p0 + 2 * n2 * 2 + 0) with (p0 + 2 * n2 + 2 * n2) in C0 by lia.
  replace (p0 + 2 * n2 * 2 + 1) with (p0 + 2 * n2 + 2 * n2 + 1) in C1 by lia.
  replace (p0 + 2 * n2 * 3 + 0) with (p0 + 2 * n2 + 2 * n2 + 2 * n2) in D0
    by lia.
  replace (p0 + 2 * n2 * 3 + 1) with (p0 + 2 * n2 + 2 * n2 + 2 * n2 + 1) in D1
    by lia.
  rewrite A0, A1, B0, B1, C0, C1, D0, D1. reflexivity.
Qed.

(** The six scalars read for the index [ia] are among the first
    [6 * ia + 2] of the table. *)
Lemma twiddles_first_same pCoef n m m' ia :
  same_table pCoef n m m' ->
  0 <= ia -> 6 * ia + 2 <= n -> n <= 2 ^ 32 ->
  twiddles_first m pCoef ia = twiddles_first m' pCoef ia.
Proof.
  intros H H0 H1 Hn.
  unfold twiddles_first, twiddle_co, twiddle_si.
  rewrite (u32_small (2 * ia)), (u32_small (3 * ia)) by lia.
  rewrite !(u32_small (ia * 2)), !(u32_small (2 * ia * 2)),
          !(u32_small (3 * ia * 2)) by lia.
  rewrite !u32_small by lia.
  rewrite !H by lia. reflexivity.
Qed.

Lemma same_step pSrc n2 B after after' :
  0 < n2 -> 0 < B ->
  (forall j b, 0 <= j < n2 -> 0 <= b < B ->
     let p0 := pSrc + 2 * j + 8 * n2 * b in
     read4_out after p0 (p0 + 2 * n2) (p0 + 2 * n2 + 2 * n2)
       (p0 + 2 * n2 + 2 * n2 + 2 * n2) =
     read4_out after' p0 (p0 + 2 * n2) (p0 + 2 * n2 + 2 * n2)
       (p0 + 2 * n2 + 2 * n2 + 2 * n2)) ->
  same_buffer pSrc (4 * n2 * B) after after'.
Proof.
  intros Hn HB Hcells s e Hs He.
  destruct (butterfly_cover n2 B (2 * s + e) Hn HB ltac:(lia))
    as (b & j & q & e' & Hb & Hj & Hq & He' & Hc).
  assert (e' = e) by lia. subst e'.
  specialize (Hcells j b Hj Hb). cbv zeta in Hcells.
  pose proof (cells_of_butterfly after _ n2 _ q e Hcells Hq He) as H.
  pose proof (cells_of_butterfly after' (pSrc + 2 * j + 8 * n2 * b) n2 _ q e
                eq_refl Hq He) as H'.
  replace (pSrc + 2 * s + e)
    with (pSrc + 2 * j + 8 * n2 * b + 2 * n2 * q + e) by lia.
  rewrite H, H'. reflexivity.
Qed.

(** A cell of the table is outside the buffer. *)
Lemma table_cell_outside pSrc N pCoef twid i :
  table_outside pSrc N pCoef twid ->
  0 <= i < 6 * (N / 4) * twid -> outside pSrc N (pCoef + i).
Proof. intros (_ & _ & H) Hi. unfold outside. apply H. exact Hi. Qed.

Lemma first_stage_same d (k : nat) pSrc pCoef twid m m' :
  (1 <= k <= 15)%nat ->
  let N := 4 ^ Z.of_nat k in
  table_outside pSrc N pCoef twid ->
  same_buffer pSrc N m m' ->
  same_table pCoef (6 * (N / 4) * twid) m m' ->
  same_buffer pSrc N (ls_mem (first_stage d pSrc N pCoef twid m))
    (ls_mem (first_stage d pSrc N pCoef twid m')).
Proof.
  intros Hk N Htab Hm Ht.
  pose proof (quarter_div k Hk) as Hq. rewrite pow4_nat in Hq.
  pose proof (pow4_pos (k - 1)) as Hpos.
  fold N in Hq.
  set (Q := 4 ^ Z.of_nat (k - 1)) in *.
  assert (HN : N = 4 * Q * 1).
  { unfold N. pose proof (N_quarter k Hk) as H. cbv zeta in H.
    rewrite pow4_nat in H. fold Q in H. lia. }
  apply (same_buffer_eq pSrc (4 * Q * 1) N); [lia|].
  apply (same_buffer_eq pSrc N (4 * Q * 1)) in Hm; [|lia].
  apply same_step; [lia|lia|].
  intros j b0 Hj Hb0. assert (b0 = 0) by lia. subst b0. cbv zeta.
  replace (pSrc + 2 * j + 8 * Q * 0) with (pSrc + 2 * j) by lia.
  pose proof (first_stage_cells d k pSrc pCoef twid m j Hk Htab
                ltac:(fold N; rewrite Hq; lia)) as H.
  pose proof (first_stage_cells d k pSrc pCoef twid m' j Hk Htab
                ltac:(fold N; rewrite Hq; lia)) as H'.
  cbv zeta in H, H'. fold N in H, H'. rewrite Hq in H, H'.
  rewrite H, H'.
  pose proof (read4_same pSrc Q 1 m m' j 0 ltac:(lia) ltac:(lia) Hm
                Hj ltac:(lia)) as R.
  cbv zeta in R.
  replace (pSrc + 2 * j + 8 * Q * 0) with (pSrc + 2 * j) in R by lia.
  rewrite R.
  destruct Htab as (Htw & Hlen & _). rewrite Hq in Hlen, Ht.
  rewrite (twiddles_first_same pCoef (6 * Q * twid) m m' (j * twid) Ht);
    [reflexivity|nia|nia|exact Hlen].
Qed.

Lemma middle_stage_same d (k : nat) pSrc pCoef twid s s' (i : nat) :
  (1 <= k <= 15)%nat ->
  let N := 4 ^ Z.of_nat k in
  table_outside pSrc N pCoef twid ->
  (i + 2 < k)%nat ->
  same_table pCoef (6 * (N / 4) * twid) (ls_mem s) (ls_mem s') ->
  same_buffer pSrc N
    (ls_mem (fst (fst (stage_state d pSrc pCoef twid k s i))))
    (ls_mem (fst (fst (stage_state d pSrc pCoef twid k s' i)))) ->
  same_buffer pSrc N
    (ls_mem (fst (fst (stage_state d pSrc pCoef twid k s (S i)))))
    (ls_mem (fst (fst (stage_state d pSrc pCoef twid k s' (S i))))).
Proof.
  intros Hk N Htab Hi Ht Hm.
  pose proof (pow4_pos (k - 2 - i)) as Hn2.
  pose proof (pow4_pos (i + 1)) as HB.
  assert (Hn1 : 4 ^ Z.of_nat (k - 1 - i) = 4 * 4 ^ Z.of_nat (k - 2 - i)).
  { replace (k - 1 - i)%nat with (S (k - 2 - i)) by lia. apply pow4_succ. }
  set (n2 := 4 ^ Z.of_nat (k - 2 - i)) in *.
  set (B := 4 ^ Z.of_nat (i + 1)) in *.
  assert (HN : N = 4 * n2 * B) by (unfold N, n2, B; apply pow4_split; lia).
  assert (Hq : N / 4 = n2 * B).
  { rewrite HN. replace (4 * n2 * B) with (n2 * B * 4) by ring.
    apply Z.div_mul. lia. }
  assert (Ht' : same_table pCoef (6 * (n2 * B) * twid)
            (ls_mem (fst (fst (stage_state d pSrc pCoef twid k s i))))
            (ls_mem (fst (fst (stage_state d pSrc pCoef twid k s' i))))).
  { intros c Hc. rewrite <- Hq in Hc.
    destruct (stage_state_inv d pSrc pCoef twid k Hk s i ltac:(lia))
      as (_ & _ & F).
    destruct (stage_state_inv d pSrc pCoef twid k Hk s' i ltac:(lia))
      as (_ & _ & F').
    pose proof (table_cell_outside pSrc N pCoef twid c Htab Hc) as Ho.
    rewrite (F _ Ho), (F' _ Ho). apply Ht. exact Hc. }
  apply (same_buffer_eq pSrc (4 * n2 * B) N); [lia|].
  apply (same_buffer_eq pSrc N (4 * n2 * B)) in Hm; [|lia].
  apply same_step; [lia|lia|].
  intros j b Hj Hb. cbv zeta.
  pose proof (middle_stage_cells d k pSrc pCoef twid s i j b Hk Htab Hi
                Hj Hb) as H.
  pose proof (middle_stage_cells d k pSrc pCoef twid s' i j b Hk Htab Hi
                Hj Hb) as H'.
  cbv zeta in H, H'. fold n2 in H, H'. fold B in H, H'.
  rewrite Hn1 in H, H'.
  replace (pSrc + 2 * j + 2 * (4 * n2) * b)
    with (pSrc + 2 * j + 8 * n2 * b) in H, H' by ring.
  rewrite H, H'.
  pose proof (read4_same pSrc n2 B _ _ j b ltac:(lia) ltac:(lia) Hm Hj Hb)
    as R.
  cbv zeta in R. rewrite R.
  destruct Htab as (Htw & Hlen & _). fold N in Hlen. rewrite Hq in Hlen.
  rewrite (twiddles_first_same pCoef (6 * (n2 * B) * twid) _ _
             (j * (twid * B)) Ht');
    [reflexivity|nia|nia|exact Hlen].
Qed.

Lemma last_stage_same d (k : nat) pSrc s s' :
  (1 <= k <= 15)%nat ->
  let N := 4 ^ Z.of_nat k in
  same_buffer pSrc N (ls_mem s) (ls_mem s') ->
  same_buffer pSrc N (last_stage d pSrc N s) (last_stage d pSrc N s').
Proof.
  intros Hk N Hm.
  pose proof (quarter_div k Hk) as Hq. rewrite pow4_nat in Hq.
  pose proof (pow4_pos (k - 1)) as Hpos.
  set (Q := 4 ^ Z.of_nat (k - 1)) in *.
  assert (HN : N = 4 * 1 * Q).
  { unfold N. pose proof (N_quarter k Hk) as H. cbv zeta in H.
    rewrite pow4_nat in H. fold Q in H. lia. }
  apply (same_buffer_eq pSrc (4 * 1 * Q) N); [lia|].
  apply (same_buffer_eq pSrc N (4 * 1 * Q)) in Hm; [|lia].
  apply same_step; [lia|lia|].
  intros j g Hj Hg. assert (j = 0) by lia. subst j. cbv zeta.
  pose proof (last_stage_cells d k pSrc s g Hk ltac:(rewrite Hq; lia)) as H.
  pose proof (last_stage_cells d k pSrc s' g Hk ltac:(rewrite Hq; lia)) as H'.
  cbv zeta in H, H'. fold N in H, H'.
  replace (pSrc + 2 * 0 + 8 * 1 * g) with (pSrc + 8 * g) by lia.
  replace (pSrc + 8 * g + 2 * 1) with (pSrc + 8 * g + 2) by lia.
  replace (pSrc + 8 * g + 2 + 2 * 1) with (pSrc + 8 * g + 4) by lia.
  replace (pSrc + 8 * g + 4 + 2 * 1) with (pSrc + 8 * g + 6) by lia.
  rewrite H, H'.
  pose proof (read4_same pSrc 1 Q (ls_mem s) (ls_mem s') 0 g ltac:(lia)
                ltac:(lia) Hm ltac:(lia) Hg) as R.
  cbv zeta in R.
  replace (pSrc + 2 * 0 + 8 * 1 * g) with (pSrc + 8 * g) in R by lia.
  replace (pSrc + 8 * g + 2 * 1) with (pSrc + 8 * g + 2) in R by lia.
  replace (pSrc + 8 * g + 2 + 2 * 1) with (pSrc + 8 * g + 4) in R by lia.
  replace (pSrc + 8 * g + 4 + 2 * 1) with (pSrc + 8 * g + 6) in R by lia.
  rewrite R. reflexivity.
Qed.

Lemma first_stage_outside d (k : nat) pSrc pCoef twid m a :
  (1 <= k <= 15)%nat ->
  outside pSrc (4 ^ Z.of_nat k) a ->
  ls_mem (first_stage d pSrc (4 ^ Z.of_nat k) pCoef twid m) a = m a.
Proof.
  intros Hk Ha.
  pose proof (quarter_small k Hk) as Hq.
  pose proof (N_quarter k Hk) as HN. cbv zeta in HN.
  rewrite HN in *.
  apply first_stage_writes; auto using pow4_nat_pos.
Qed.

Lemma engine_same d (k : nat) pSrc pCoef twid m m' :
  (1 <= k <= 15)%nat ->
  let N := 4 ^ Z.of_nat k in
  table_outside pSrc N pCoef twid ->
  same_buffer pSrc N m m' ->
  same_table pCoef (6 * (N / 4) * twid) m m' ->
  same_buffer pSrc N (radix4_butterfly_dir d pSrc N pCoef twid m)
    (radix4_butterfly_dir d pSrc N pCoef twid m').
Proof.
  intros Hk N Htab Hm Ht. unfold N.
  rewrite !(radix4_butterfly_dir_stages d pSrc pCoef twid k Hk).
  fold N.
  set (s1 := first_stage d pSrc N pCoef twid m).
  set (s1' := first_stage d pSrc N pCoef twid m').
  assert (Ht1 : same_table pCoef (6 * (N / 4) * twid) (ls_mem s1) (ls_mem s1')).
  { intros c Hc.
    pose proof (table_cell_outside pSrc N pCoef twid c Htab Hc) as Ho.
    unfold s1, s1', N.
    rewrite !(first_stage_outside d k pSrc pCoef twid _ _ Hk Ho).
    apply Ht. exact Hc. }
  apply (last_stage_same d k pSrc _ _ Hk).
  assert (Hstages : forall i : nat, (i + 2 <= k)%nat \/ i = O ->
            same_buffer pSrc N
              (ls_mem (fst (fst (stage_state d pSrc pCoef twid k s1 i))))
              (ls_mem (fst (fst (stage_state d pSrc pCoef twid k s1' i))))).
  { induction i as [|i IH]; intros Hi.
    - unfold stage_state. cbn [iterate fst].
      apply (first_stage_same d k pSrc pCoef twid m m' Hk Htab Hm Ht).
    - apply (middle_stage_same d k pSrc pCoef twid s1 s1' i Hk Htab);
        [lia|exact Ht1|].
      apply IH. lia. }
  apply Hstages. lia.
Qed.

(** X10.  What the engines read.  For a transform of length [N = 4^k]
    whose table lies outside the buffer, the buffer an engine leaves is
    determined by the [2 N] cells of the buffer and the first
    [6 (N/4) twidCoefModifier] cells of the table: two memories that agree
    on these cells give the same result in every cell of the buffer,
    whatever else they hold. *)
Theorem engines_read_buffer_and_table
  (k : nat) (pSrc pCoef twid : Z) (m m' : mem) :
  (1 <= k <= 15)%nat ->
  let N := 4 ^ Z.of_nat k in
  table_outside pSrc N pCoef twid ->
  (forall c, 0 <= c < 2 * N -> m (pSrc + c) = m' (pSrc + c)) ->
  (forall i, 0 <= i < 6 * (N / 4) * twid -> m (pCoef + i) = m' (pCoef + i)) ->
  forall c, 0 <= c < 2 * N ->
    riscv_radix4_butterfly_q31 pSrc N pCoef twid m (pSrc + c) =
    riscv_radix4_butterfly_q31 pSrc N pCoef twid m' (pSrc + c) /\
    riscv_radix4_butterfly_inverse_q31 pSrc N pCoef twid m (pSrc + c) =
    riscv_radix4_butterfly_inverse_q31 pSrc N pCoef twid m' (pSrc + c).
Proof.
  intros Hk N Htab Hm Ht c Hc.
  assert (Hb : same_buffer pSrc N m m').
  { intros s e Hs He. rewrite <- !Z.add_assoc. apply Hm. lia. }
  pose proof (Z.div_mod c 2 ltac:(lia)) as Hdm.
  pose proof (Z.mod_pos_bound c 2 ltac:(lia)) as Hr.
  assert (Hs : 0 <= c / 2 < N) by lia.
  replace (pSrc + c) with (pSrc + 2 * (c / 2) + c mod 2) by lia.
  rewrite butterfly_fwd_dir, butterfly_inv_dir. split.
  - apply (engine_same Forward k pSrc pCoef twid m m' Hk Htab Hb Ht); assumption.
  - apply (engine_same Inverse k pSrc pCoef twid m m' Hk Htab Hb Ht); assumption.
Qed.

Lemma engines_read_buffer_and_table_witness :
  (1 <= 2 <= 15)%nat /\ table_outside 0 (4 ^ Z.of_nat 2) 100 1 /\
  (forall c, 0 <= c < 2 * 4 ^ Z.of_nat 2 ->
     memory_with (impulse 16) (0 + c) =
     store (memory_with (impulse 16)) 1000 77 (0 + c)) /\
  (forall i, 0 <= i < 6 * (4 ^ Z.of_nat 2 / 4) * 1 ->
     memory_with (impulse 16) (100 + i) =
     store (memory_with (impulse 16)) 1000 77 (100 + i)) /\
  riscv_radix4_butterfly_q31 0 (4 ^ Z.of_nat 2) 100 1
    (memory_with (impulse 16)) (0 + 5) =
  riscv_radix4_butterfly_q31 0 (4 ^ Z.of_nat 2) 100 1
    (store (memory_with (impulse 16)) 1000 77) (0 + 5).
Proof.
  assert (Hb : forall c, 0 <= c < 2 * 4 ^ Z.of_nat 2 ->
            memory_with (impulse 16) (0 + c) =
            store (memory_with (impulse 16)) 1000 77 (0 + c)).
  { intros c Hc. change (4 ^ Z.of_nat 2) with 16 in Hc.
    symmetry. apply store_neq. lia. }
  assert (Ht : forall i, 0 <= i < 6 * (4 ^ Z.of_nat 2 / 4) * 1 ->
            memory_with (impulse 16) (100 + i) =
            store (memory_with (impulse 16)) 1000 77 (100 + i)).
  { intros i Hi. change (4 ^ Z.of_nat 2 / 4) with 4 in Hi.
    symmetry. apply store_neq. lia. }
  split; [exact range_2|]. split; [exact table_outside_16|].
  split; [exact Hb|]. split; [exact Ht|].
  apply (proj1 (engines_read_buffer_and_table 2 0 100 1 _ _ range_2
                  table_outside_16 Hb Ht 5
                  ltac:(change (4 ^ Z.of_nat 2) with 16; lia))).
Defined.

(** ** The two engines and the exchange of real and imaginary parts

    Exchanging the real and the imaginary part of every operand of a
    butterfly of one direction gives the result of the butterfly of the
    other direction with its parts exchanged, bit for bit. *)
Definition opposite (d : direction) : direction :=
  match d with Forward => Inverse | Inverse => Forward end.

Definition pair_swap (p : Z * Z) : Z * Z := (snd p, fst p).

Definition swap_octet (o : octet) : octet :=
  mkOctet (ya o) (xa o) (yb o) (xb o) (yc o) (xc o) (yd o) (xd o).

Lemma sum_a_swap i : sum_a (swap_octet i) = pair_swap (sum_a i).
Proof. reflexivity. Qed.

Lemma sum_c_swap i : sum_c (swap_octet i) = pair_swap (sum_c i).
Proof. reflexivity. Qed.

Lemma sum_b_swap d i :
  sum_b d (swap_octet i) = pair_swap (sum_b (opposite d) i).
Proof.
  unfold sum_b, pair_swap, swap_octet. cbn [fst snd xa ya xb yb xc yc xd yd].
  destruct d; cbn [opposite sgn]; f_equal; f_equal; ring.
Qed.

Lemma sum_d_swap d i :
  sum_d d (swap_octet i) = pair_swap (sum_d (opposite d) i).
Proof.
  unfold sum_d, pair_swap, swap_octet. cbn [fst snd xa ya xb yb xc yc xd yd].
  destruct d; cbn [opposite sgn]; f_equal; f_equal; ring.
Qed.

Lemma twiddle_mul_swap d rs co si :
  twiddle_mul d (pair_swap rs) co si =
  pair_swap (twiddle_mul (opposite d) rs co si).
Proof.
  unfold twiddle_mul, pair_swap. cbn [fst snd].
  generalize (mulhi32 (fst rs) co) (mulhi32 (snd rs) si)
             (mulhi32 (snd rs) co) (mulhi32 (fst rs) si).
  intros p q r s.
  destruct d; cbn [opposite sgn]; f_equal; f_equal; ring.
Qed.

Lemma pair_map_swap f p : pair_map f (pair_swap p) = pair_swap (pair_map f p).
Proof. reflexivity. Qed.

Lemma assemble_swap a b c d :
  assemble (pair_swap a) (pair_swap b) (pair_swap c) (pair_swap d) =
  swap_octet (assemble a b c d).
Proof. reflexivity. Qed.

Lemma guard4_swap i : guard4 (swap_octet i) = swap_octet (guard4 i).
Proof. reflexivity. Qed.

Lemma first_butterfly_swap d i w :
  first_butterfly d (swap_octet i) w =
  swap_octet (first_butterfly (opposite d) i w).
Proof.
  unfold first_butterfly. cbv zeta.
  rewrite guard4_swap, sum_a_swap, sum_b_swap, sum_c_swap, sum_d_swap.
  rewrite !twiddle_mul_swap, !pair_map_swap.
  apply assemble_swap.
Qed.

Lemma middle_butterfly_swap d i w :
  middle_butterfly d (swap_octet i) w =
  swap_octet (middle_butterfly (opposite d) i w).
Proof.
  unfold middle_butterfly.
  rewrite sum_a_swap, sum_b_swap, sum_c_swap, sum_d_swap.
  rewrite !twiddle_mul_swap, !pair_map_swap.
  apply assemble_swap.
Qed.

Lemma last_butterfly_swap d i :
  last_butterfly d (swap_octet i) = swap_octet (last_butterfly (opposite d) i).
Proof.
  unfold last_butterfly.
  rewrite sum_a_swap, sum_b_swap, sum_c_swap, sum_d_swap.
  apply assemble_swap.
Qed.

Lemma stored_at_swap q e o :
  0 <= e < 2 -> stored_at q e (swap_octet o) = stored_at q (1 - e) o.
Proof.
  intros He. assert (E : e = 0 \/ e = 1) by lia.
  unfold stored_at, swap_octet. cbn [xa ya xb yb xc yc xd yd].
  destruct E as [-> | ->]; cbn [Z.sub Z.eqb Z.opp Z.add Z.pos_sub Pos.eqb];
    reflexivity.
Qed.

(** The buffer of [m'] is the buffer of [m] with the two parts of every
    sample exchanged. *)
Definition swapped_buffer (pSrc N : Z) (m m' : mem) : Prop :=
  forall s e, 0 <= s < N -> 0 <= e < 2 ->
    m' (pSrc + 2 * s + e) = m (pSrc + 2 * s + (1 - e)).

Lemma swapped_buffer_eq pSrc N N' m m' :
  N = N' -> swapped_buffer pSrc N m m' -> swapped_buffer pSrc N' m m'.
Proof. intros ->. auto. Qed.

Ltac swapped_cell H q e :=
  let X := fresh in
  pose proof (H q e ltac:(lia) ltac:(lia)) as X;
  etransitivity; [etransitivity; [|exact X]; f_equal; lia | f_equal; lia].

Lemma read4_swapped pSrc n2 B m m' j b :
  0 < n2 -> 0 < B ->
  swapped_buffer pSrc (4 * n2 * B) m m' ->
  0 <= j < n2 -> 0 <= b < B ->
  let p0 := pSrc + 2 * j + 8 * n2 * b in
  read4 m' p0 (p0 + 2 * n2) (p0 + 2 * n2 + 2 * n2)
    (p0 + 2 * n2 + 2 * n2 + 2 * n2) =
  swap_octet (read4 m p0 (p0 + 2 * n2) (p0 + 2 * n2 + 2 * n2)
                (p0 + 2 * n2 + 2 * n2 + 2 * n2)).
Proof.
  intros Hn HB Hm Hj Hb p0.
  assert (Hcell : forall q e, 0 <= q < 4 -> 0 <= e < 2 ->
            m' (p0 + 2 * n2 * q + e) = m (p0 + 2 * n2 * q + (1 - e))).
  { intros q e Hq He.
    replace (p0 + 2 * n2 * q + e)
      with (pSrc + 2 * (j + 4 * n2 * b + n2 * q) + e) by (unfold p0; ring).
    replace (p0 + 2 * n2 * q + (1 - e))
      with (pSrc + 2 * (j + 4 * n2 * b + n2 * q) + (1 - e))
      by (unfold p0; ring).
    apply Hm; [nia|lia]. }
  unfold read4, swap_octet. cbn [xa ya xb yb xc yc xd yd].
  f_equal;
    first [ swapped_cell Hcell 0 0 | swapped_cell Hcell 0 1
          | swapped_cell Hcell 1 0 | swapped_cell Hcell 1 1
          | swapped_cell Hcell 2 0 | swapped_cell Hcell 2 1
          | swapped_cell Hcell 3 0 | swapped_cell Hcell 3 1 ].
Qed.

Lemma swapped_step pSrc n2 B after after' :
  0 < n2 -> 0 < B ->
  (forall j b, 0 <= j < n2 -> 0 <= b < B ->
     let p0 := pSrc + 2 * j + 8 * n2 * b in
     read4_out after' p0 (p0 + 2 * n2) (p0 + 2 * n2 + 2 * n2)
       (p0 + 2 * n2 + 2 * n2 + 2 * n2) =
     swap_octet (read4_out after p0 (p0 + 2 * n2) (p0 + 2 * n2 + 2 * n2)
                   (p0 + 2 * n2 + 2 * n2 + 2 * n2))) ->
  swapped_buffer pSrc (4 * n2 * B) after after'.
Proof.
  intros Hn HB Hcells s e Hs He.
  destruct (butterfly_cover n2 B (2 * s + e) Hn HB ltac:(lia))
    as (b & j & q & e' & Hb & Hj & Hq & He' & Hc).
  assert (e' = e) by lia. subst e'.
  specialize (Hcells j b Hj Hb). cbv zeta in Hcells.
  pose proof (cells_of_butterfly after' _ n2 _ q e Hcells Hq He) as H'.
  pose proof (cells_of_butterfly after (pSrc + 2 * j + 8 * n2 * b) n2 _ q
                (1 - e) eq_refl Hq ltac:(lia)) as H.
  replace (pSrc + 2 * s + e)
    with (pSrc + 2 * j + 8 * n2 * b + 2 * n2 * q + e) by lia.
  replace (pSrc + 2 * s + (1 - e))
    with (pSrc + 2 * j + 8 * n2 * b + 2 * n2 * q + (1 - e)) by lia.
  rewrite H, H'. apply stored_at_swap. exact He.
Qed.

Lemma first_stage_swapped d (k : nat) pSrc pCoef twid m m' :
  (1 <= k <= 15)%nat ->
  let N := 4 ^ Z.of_nat k in
  table_outside pSrc N pCoef twid ->
  swapped_buffer pSrc N m m' ->
  same_table pCoef (6 * (N / 4) * twid) m m' ->
  swapped_buffer pSrc N
    (ls_mem (first_stage (opposite d) pSrc N pCoef twid m))
    (ls_mem (first_stage d pSrc N pCoef twid m')).
Proof.
  intros Hk N Htab Hm Ht.
  pose proof (quarter_div k Hk) as Hq. rewrite pow4_nat in Hq.
  pose proof (pow4_pos (k - 1)) as Hpos.
  fold N in Hq.
  set (Q := 4 ^ Z.of_nat (k - 1)) in *.
  assert (HN : N = 4 * Q * 1).
  { unfold N. pose proof (N_quarter k Hk) as H. cbv zeta in H.
    rewrite pow4_nat in H. fold Q in H. lia. }
  apply (swapped_buffer_eq pSrc (4 * Q * 1) N); [lia|].
  apply (swapped_buffer_eq pSrc N (4 * Q * 1)) in Hm; [|lia].
  apply swapped_step; [lia|lia|].
  intros j b0 Hj Hb0. assert (b0 = 0) by lia. subst b0. cbv zeta.
  replace (pSrc + 2 * j + 8 * Q * 0) with (pSrc + 2 * j) by lia.
  pose proof (first_stage_cells (opposite d) k pSrc pCoef twid m j Hk Htab
                ltac:(fold N; rewrite Hq; lia)) as H.
  pose proof (first_stage_cells d k pSrc pCoef twid m' j Hk Htab
                ltac:(fold N; rewrite Hq; lia)) as H'.
  cbv zeta in H, H'. fold N in H, H'. rewrite Hq in H, H'.
  rewrite H, H'.
  pose proof (read4_swapped pSrc Q 1 m m' j 0 ltac:(lia) ltac:(lia) Hm
                Hj ltac:(lia)) as R.
  cbv zeta in R.
  replace (pSrc + 2 * j + 8 * Q * 0) with (pSrc + 2 * j) in R by lia.
  rewrite R.
  destruct Htab as (Htw & Hlen & _). rewrite Hq in Hlen, Ht.
  rewrite (twiddles_first_same pCoef (6 * Q * twid) m m' (j * twid) Ht);
    [apply first_butterfly_swap|nia|nia|exact Hlen].
Qed.

Lemma middle_stage_swapped d (k : nat) pSrc pCoef twid s s' (i : nat) :
  (1 <= k <= 15)%nat ->
  let N := 4 ^ Z.of_nat k in
  table_outside pSrc N pCoef twid ->
  (i + 2 < k)%nat ->
  same_table pCoef (6 * (N / 4) * twid) (ls_mem s) (ls_mem s') ->
  swapped_buffer pSrc N
    (ls_mem (fst (fst (stage_state (opposite d) pSrc pCoef twid k s i))))
    (ls_mem (fst (fst (stage_state d pSrc pCoef twid k s' i)))) ->
  swapped_buffer pSrc N
    (ls_mem (fst (fst (stage_state (opposite d) pSrc pCoef twid k s (S i)))))
    (ls_mem (fst (fst (stage_state d pSrc pCoef twid k s' (S i))))).
Proof.
  intros Hk N Htab Hi Ht Hm.
  pose proof (pow4_pos (k - 2 - i)) as Hn2.
  pose proof (pow4_pos (i + 1)) as HB.
  assert (Hn1 : 4 ^ Z.of_nat (k - 1 - i) = 4 * 4 ^ Z.of_nat (k - 2 - i)).
  { replace (k - 1 - i)%nat with (S (k - 2 - i)) by lia. apply pow4_succ. }
  set (n2 := 4 ^ Z.of_nat (k - 2 - i)) in *.
  set (B := 4 ^ Z.of_nat (i + 1)) in *.
  assert (HN : N = 4 * n2 * B) by (unfold N, n2, B; apply pow4_split; lia).
  assert (Hq : N / 4 = n2 * B).
  { rewrite HN. replace (4 * n2 * B) with (n2 * B * 4) by ring.
    apply Z.div_mul. lia. }
  assert (Ht' : same_table pCoef (6 * (n2 * B) * twid)
            (ls_mem (fst (fst (stage_state (opposite d) pSrc pCoef twid k s i))))
            (ls_mem (fst (fst (stage_state d pSrc pCoef twid k s' i))))).
  { intros c Hc. rewrite <- Hq in Hc.
    destruct (stage_state_inv (opposite d) pSrc pCoef twid k Hk s i
                ltac:(lia)) as (_ & _ & F).
    destruct (stage_state_inv d pSrc pCoef twid k Hk s' i ltac:(lia))
      as (_ & _ & F').
    pose proof (table_cell_outside pSrc N pCoef twid c Htab Hc) as Ho.
    rewrite (F _ Ho), (F' _ Ho). apply Ht. exact Hc. }
  apply (swapped_buffer_eq pSrc (4 * n2 * B) N); [lia|].
  apply (swapped_buffer_eq pSrc N (4 * n2 * B)) in Hm; [|lia].
  apply swapped_step; [lia|lia|].
  intros j b Hj Hb. cbv zeta.
  pose proof (middle_stage_cells (opposite d) k pSrc pCoef twid s i j b Hk
                Htab Hi Hj Hb) as H.
  pose proof (middle_stage_cells d k pSrc pCoef twid s' i j b Hk Htab Hi
                Hj Hb) as H'.
  cbv zeta in H, H'. fold n2 in H, H'. fold B in H, H'.
  rewrite Hn1 in H, H'.
  replace (pSrc + 2 * j + 2 * (4 * n2) * b)
    with (pSrc + 2 * j + 8 * n2 * b) in H, H' by ring.
  rewrite H, H'.
  pose proof (read4_swapped pSrc n2 B _ _ j b ltac:(lia) ltac:(lia) Hm Hj Hb)
    as R.
  cbv zeta in R. rewrite R.
  destruct Htab as (Htw & Hlen & _). fold N in Hlen. rewrite Hq in Hlen.
  rewrite (twiddles_first_same pCoef (6 * (n2 * B) * twid) _ _
             (j * (twid * B)) Ht');
    [apply middle_butterfly_swap|nia|nia|exact Hlen].
Qed.

Lemma last_stage_swapped d (k : nat) pSrc s s' :
  (1 <= k <= 15)%nat ->
  let N := 4 ^ Z.of_nat k in
  swapped_buffer pSrc N (ls_mem s) (ls_mem s') ->
  swapped_buffer pSrc N (last_stage (opposite d) pSrc N s)
    (last_stage d pSrc N s').
Proof.
  intros Hk N Hm.
  pose proof (quarter_div k Hk) as Hq. rewrite pow4_nat in Hq.
  pose proof (pow4_pos (k - 1)) as Hpos.
  set (Q := 4 ^ Z.of_nat (k - 1)) in *.
  assert (HN : N = 4 * 1 * Q).
  { unfold N. pose proof (N_quarter k Hk) as H. cbv zeta in H.
    rewrite pow4_nat in H. fold Q in H. lia. }
  apply (swapped_buffer_eq pSrc (4 * 1 * Q) N); [lia|].
  apply (swapped_buffer_eq pSrc N (4 * 1 * Q)) in Hm; [|lia].
  apply swapped_step; [lia|lia|].
  intros j g Hj Hg. assert (j = 0) by lia. subst j. cbv zeta.
  pose proof (last_stage_cells (opposite d) k pSrc s g Hk
                ltac:(rewrite Hq; lia)) as H.
  pose proof (last_stage_cells d k pSrc s' g Hk ltac:(rewrite Hq; lia)) as H'.
  cbv zeta in H, H'. fold N in H, H'.
  replace (pSrc + 2 * 0 + 8 * 1 * g) with (pSrc + 8 * g) by lia.
  replace (pSrc + 8 * g + 2 * 1) with (pSrc + 8 * g + 2) by lia.
  replace (pSrc + 8 * g + 2 + 2 * 1) with (pSrc + 8 * g + 4) by lia.
  replace (pSrc + 8 * g + 4 + 2 * 1) with (pSrc + 8 * g + 6) by lia.
  rewrite H, H'.
  pose proof (read4_swapped pSrc 1 Q (ls_mem s) (ls_mem s') 0 g ltac:(lia)
                ltac:(lia) Hm ltac:(lia) Hg) as R.
  cbv zeta in R.
  replace (pSrc + 2 * 0 + 8 * 1 * g) with (pSrc + 8 * g) in R by lia.
  replace (pSrc + 8 * g + 2 * 1) with (pSrc + 8 * g + 2) in R by lia.
  replace (pSrc + 8 * g + 2 + 2 * 1) with (pSrc + 8 * g + 4) in R by lia.
  replace (pSrc + 8 * g + 4 + 2 * 1) with (pSrc + 8 * g + 6) in R by lia.
  rewrite R. apply last_butterfly_swap.
Qed.

Lemma engine_swapped d (k : nat) pSrc pCoef twid m m' :
  (1 <= k <= 15)%nat ->
  let N := 4 ^ Z.of_nat k in
  table_outside pSrc N pCoef twid ->
  swapped_buffer pSrc N m m' ->
  same_table pCoef (6 * (N / 4) * twid) m m' ->
  swapped_buffer pSrc N
    (radix4_butterfly_dir (opposite d) pSrc N pCoef twid m)
    (radix4_butterfly_dir d pSrc N pCoef twid m').
Proof.
  intros Hk N Htab Hm Ht. unfold N.
  rewrite !(radix4_butterfly_dir_stages _ pSrc pCoef twid k Hk).
  fold N.
  set (s1 := first_stage (opposite d) pSrc N pCoef twid m).
  set (s1' := first_stage d pSrc N pCoef twid m').
  assert (Ht1 : same_table pCoef (6 * (N / 4) * twid) (ls_mem s1) (ls_mem s1')).
  { intros c Hc.
    pose proof (table_cell_outside pSrc N pCoef twid c Htab Hc) as Ho.
    unfold s1, s1', N.
    rewrite !(first_stage_outside _ k pSrc pCoef twid _ _ Hk Ho).
    apply Ht. exact Hc. }
  apply (last_stage_swapped d k pSrc _ _ Hk).
  assert (Hstages : forall i : nat, (i + 2 <= k)%nat \/ i = O ->
            swapped_buffer pSrc N
              (ls_mem (fst (fst (stage_state (opposite d) pSrc pCoef twid k
                                   s1 i))))
              (ls_mem (fst (fst (stage_state d pSrc pCoef twid k s1' i))))).
  { induction i as [|i IH]; intros Hi.
    - unfold stage_state. cbn [iterate fst].
      apply (first_stage_swapped d k pSrc pCoef twid m m' Hk Htab Hm Ht).
    - apply (middle_stage_swapped d k pSrc pCoef twid s1 s1' i Hk Htab);
        [lia|exact Ht1|].
      apply IH. lia. }
  apply Hstages. lia.
Qed.

(** X11.  The inverse engine is the forward engine on exchanged parts.
    For a transform of length [N = 4^k] whose table lies outside the
    buffer, let [m'] hold the samples of [m] with the real and the
    imaginary part of each exchanged, and the same table.  Then the buffer
    the inverse engine leaves from [m] is, bit for bit, the buffer the
    forward engine leaves from [m'] with the two parts of every sample
    exchanged, and likewise with the two engines exchanged. *)
Theorem inverse_is_forward_on_exchanged_parts
  (k : nat) (pSrc pCoef twid : Z) (m m' : mem) :
  (1 <= k <= 15)%nat ->
  let N := 4 ^ Z.of_nat k in
  table_outside pSrc N pCoef twid ->
  (forall s, 0 <= s < N ->
     m' (pSrc + 2 * s) = m (pSrc + 2 * s + 1) /\
     m' (pSrc + 2 * s + 1) = m (pSrc + 2 * s)) ->
  (forall i, 0 <= i < 6 * (N / 4) * twid -> m (pCoef + i) = m' (pCoef + i)) ->
  forall s, 0 <= s < N ->
    riscv_radix4_butterfly_inverse_q31 pSrc N pCoef twid m (pSrc + 2 * s) =
    riscv_radix4_butterfly_q31 pSrc N pCoef twid m' (pSrc + 2 * s + 1) /\
    riscv_radix4_butterfly_inverse_q31 pSrc N pCoef twid m (pSrc + 2 * s + 1) =
    riscv_radix4_butterfly_q31 pSrc N pCoef twid m' (pSrc + 2 * s) /\
    riscv_radix4_butterfly_q31 pSrc N pCoef twid m (pSrc + 2 * s) =
    riscv_radix4_butterfly_inverse_q31 pSrc N pCoef twid m' (pSrc + 2 * s + 1) /\
    riscv_radix4_butterfly_q31 pSrc N pCoef twid m (pSrc + 2 * s + 1) =
    riscv_radix4_butterfly_inverse_q31 pSrc N pCoef twid m' (pSrc + 2 * s).
Proof.
  intros Hk N Htab Hm Ht s Hs.
  assert (Hb : swapped_buffer pSrc N m m').
  { intros s0 e Hs0 He. destruct (Hm s0 Hs0) as [H0 H1].
    assert (E : e = 0 \/ e = 1) by lia.
    destruct E as [-> | ->].
    - replace (pSrc + 2 * s0 + 0) with (pSrc + 2 * s0) by lia.
      replace (pSrc + 2 * s0 + (1 - 0)) with (pSrc + 2 * s0 + 1) by lia.
      exact H0.
    - replace (pSrc + 2 * s0 + (1 - 1)) with (pSrc + 2 * s0) by lia.
      exact H1. }
  pose proof (engine_swapped Forward k pSrc pCoef twid m m' Hk Htab Hb Ht)
    as HF.
  pose proof (engine_swapped Inverse k pSrc pCoef twid m m' Hk Htab Hb Ht)
    as HI.
  cbv zeta in HF, HI. fold N in HF, HI. cbn [opposite] in HF, HI.
  rewrite !butterfly_fwd_dir, !butterfly_inv_dir.
  pose proof (HF s 0 Hs ltac:(lia)) as F0.
  pose proof (HF s 1 Hs ltac:(lia)) as F1.
  pose proof (HI s 0 Hs ltac:(lia)) as I0.
  pose proof (HI s 1 Hs ltac:(lia)) as I1.
  replace (pSrc + 2 * s + 0) with (pSrc + 2 * s) in F0, I0 by lia.
  replace (pSrc + 2 * s + (1 - 0)) with (pSrc + 2 * s + 1) in F0, I0 by lia.
  replace (pSrc + 2 * s + (1 - 1)) with (pSrc + 2 * s) in F1, I1 by lia.
  rewrite F0, F1, I0, I1. repeat split; reflexivity.
Qed.

(** A bounded universal statement decided by running through the range. *)
Lemma below_cases (n : nat) (f : Z -> bool) :
  forallb f (map Z.of_nat (seq 0 n)) = true ->
  forall s, 0 <= s < Z.of_nat n -> f s = true.
Proof.
  intros H s Hs. rewrite forallb_forall in H. apply H.
  apply in_map_iff. exists (Z.to_nat s). split; [lia|].
  apply in_seq. lia.
Qed.

(** The samples of a buffer with the two parts of each exchanged. *)
Fixpoint exchange_parts (l : list Z) : list Z :=
  match l with
  | x :: y :: t => y :: x :: exchange_parts t
  | _ => l
  end.

Lemma exchanged_tone_samples :
  forall s, 0 <= s < 4 ^ Z.of_nat 2 ->
    memory_with (exchange_parts full_scale_tone) (0 + 2 * s) =
    memory_with full_scale_tone (0 + 2 * s + 1) /\
    memory_with (exchange_parts full_scale_tone) (0 + 2 * s + 1) =
    memory_with full_scale_tone (0 + 2 * s).
Proof.
  intros s Hs.
  pose proof (below_cases 16
                (fun s => (memory_with (exchange_parts full_scale_tone)
                             (0 + 2 * s) =?
                           memory_with full_scale_tone (0 + 2 * s + 1)) &&
                          (memory_with (exchange_parts full_scale_tone)
                             (0 + 2 * s + 1) =?
                           memory_with full_scale_tone (0 + 2 * s)))
                ltac:(vm_compute; reflexivity) s Hs) as H.
  cbv beta in H. apply andb_true_iff in H. destruct H as [H0 H1].
  apply Z.eqb_eq in H0, H1. split; assumption.
Qed.

Lemma exchanged_tone_table :
  forall i, 0 <= i < 6 * (4 ^ Z.of_nat 2 / 4) * 1 ->
    memory_with full_scale_tone (100 + i) =
    memory_with (exchange_parts full_scale_tone) (100 + i).
Proof.
  intros i Hi.
  pose proof (below_cases 24
                (fun i => memory_with full_scale_tone (100 + i) =?
                          memory_with (exchange_parts full_scale_tone)
                            (100 + i))
                ltac:(vm_compute; reflexivity) i Hi) as H.
  cbv beta in H. apply Z.eqb_eq in H. exact H.
Qed.

Lemma inverse_is_forward_on_exchanged_parts_witness :
  (1 <= 2 <= 15)%nat /\ table_outside 0 (4 ^ Z.of_nat 2) 100 1 /\
  riscv_radix4_butterfly_inverse_q31 0 (4 ^ Z.of_nat 2) 100 1
    (memory_with full_scale_tone) (0 + 2 * 3) =
  riscv_radix4_butterfly_q31 0 (4 ^ Z.of_nat 2) 100 1
    (memory_with (exchange_parts full_scale_tone)) (0 + 2 * 3 + 1).
Proof.
  split; [exact range_2|]. split; [exact table_outside_16|].
  apply (proj1 (inverse_is_forward_on_exchanged_parts 2 0 100 1 _ _ range_2
                  table_outside_16 exchanged_tone_samples
                  exchanged_tone_table 3
                  ltac:(change (4 ^ Z.of_nat 2) with 16; lia))).
Defined.
